(** * unctytwod: propagation of astrometric positions and covariances

    A shallow embedding of [src/python/unctytwod.py] and the properties of
    its transformation classes: [Polycoeffs], [Parvec], [Poly],
    [Patternmatrix], [Tan2equ], [Equ2tan] and [xy2equ].

    Conventions of the embedding.
    - numpy float64 values are read as real numbers ([R]); every arithmetic
      operation of the source is the corresponding real operation.
    - a 1-D array is a [list R], a 2-D array a list of rows, an [N,2,2]
      stack a list of 2x2 matrices; [np.array([])] is the empty list.
    - a method that updates [self] is a function from the instance record
      to an [outcome]: the record after the call together with the way the
      call ended (normal return, or the Python exception it raised).
    - [print] statements are diagnostics and are left out; the attribute
      reads that guard them are kept. *)

From Stdlib Require Import Reals Lra Lia ZArith List Bool Psatz R_Ifp.
From stdpp Require Import base list.
Import ListNotations.

Open Scope R_scope.

(** ** Exceptions and results *)

Inductive exn : Type :=
| IndexError
| ValueError
| AttributeError.

(** Result of a function that returns a value or raises. *)
Inductive result (A : Type) : Type :=
| Ok (a : A)
| Err (e : exn).
Arguments Ok {A} a.
Arguments Err {A} e.

(** Result of a method call on an instance: the instance as the call left
    it, and whether the call returned or raised. *)
Inductive outcome (S : Type) : Type :=
| Done (s : S)
| Raised (e : exn) (s : S).
Arguments Done {S} s.
Arguments Raised {S} e s.

Definition state_of {S : Type} (o : outcome S) : S :=
  match o with
  | Done s => s
  | Raised _ s => s
  end.

Definition returned {S : Type} (o : outcome S) : bool :=
  match o with
  | Done _ => true
  | Raised _ _ => false
  end.

Definition obind {S : Type} (o : outcome S) (k : S -> outcome S) : outcome S :=
  match o with
  | Done s => k s
  | Raised e s => Raised e s
  end.

Definition rbind {A B : Type} (r : result A) (k : A -> result B) : result B :=
  match r with
  | Ok a => k a
  | Err e => Err e
  end.

Notation "'let*' x ':=' r 'in' k" := (rbind r (fun x => k))
  (at level 10, x name, r at level 100, k at level 200).
Notation "'run' s ':=' o 'in' k" := (obind o (fun s => k))
  (at level 10, s name, o at level 100, k at level 200).

(** ** Arrays *)

Abbreviation vec := (list R).
Abbreviation arr2d := (list (list R)).

(** [np.arange(n)] and [range(n)] for an integer [n]. *)
Definition arange (n : nat) : list nat := seq 0 n.
Definition range (n : Z) : list nat := seq 0 (Z.to_nat n).

(** [np.zeros((r, c))]. *)
Definition zeros2d (r c : nat) : arr2d := replicate r (replicate c 0).

Definition nrows (a : arr2d) : nat := length a.
Definition ncols (a : arr2d) : nat :=
  match a with
  | [] => 0%nat
  | row :: _ => length row
  end.

(** [a[i, j]], with 0 where the model has no entry. *)
Definition get2d (a : arr2d) (i j : nat) : R :=
  match a !! i with
  | Some row => match row !! j with Some v => v | None => 0 end
  | None => 0
  end.

(** [a[i, j] = v] for in-range [i], [j]. *)
Definition set2d (i j : nat) (v : R) (a : arr2d) : arr2d :=
  match a !! i with
  | Some row => <[i := <[j := v]> row]> a
  | None => a
  end.

(** [a[I, J] = V] with index arrays [I], [J] and values [V] of one length:
    the entries are written in order. *)
Fixpoint scatter2d (I J : list nat) (V : vec) (a : arr2d) : arr2d :=
  match I, J, V with
  | i :: I', j :: J', v :: V' => scatter2d I' J' V' (set2d i j v a)
  | _, _, _ => a
  end.

(** numpy checks every index of a fancy-index assignment before writing. *)
Definition inbounds2d (a : arr2d) (I J : list nat) : bool :=
  forallb (fun i => (i <? nrows a)%nat) I && forallb (fun j => (j <? ncols a)%nat) J.

(** ** Polycoeffs *)

Module Polycoeffs.

Record t : Type := mk {
  p : vec;            (* flat coefficients *)
  Verbose : bool;
  p2d : arr2d;        (* coefficients arranged as 2D array *)
  deg : Z;            (* degree, -1 when unfilled or inconsistent *)
  i : list nat;       (* x powers *)
  j : list nat        (* y powers *)
}.

Definition set_p (v : vec) (pc : t) : t :=
  mk v (Verbose pc) (p2d pc) (deg pc) (i pc) (j pc).
Definition set_p2d (a : arr2d) (pc : t) : t :=
  mk (p pc) (Verbose pc) a (deg pc) (i pc) (j pc).
Definition set_deg (d : Z) (pc : t) : t :=
  mk (p pc) (Verbose pc) (p2d pc) d (i pc) (j pc).
Definition set_ij (ia ja : list nat) (pc : t) : t :=
  mk (p pc) (Verbose pc) (p2d pc) (deg pc) ia ja.

(** Python's [int(r)] on a float: truncation towards zero. *)
Definition py_int (r : R) : Z :=
  if Rle_dec 0 r then Int_part r else (- Int_part (- r))%Z.

(** [degfromcoeffs]: d = (-3 + sqrt(9 + 8 (m - 1))) / 2. *)
Definition degfromcoeffs (m : R) : R :=
  (-3 + sqrt (9 + 8 * (m - 1))) / 2.

(** [ijfromdeg]: for iterm in range(deg+1), append arange(iterm+1) to jarr
    and its reverse to iarr. *)
Fixpoint ijfromdeg_loop (iterms : list nat) (iarr jarr : list nat)
  : list nat * list nat :=
  match iterms with
  | [] => (iarr, jarr)
  | iterm :: rest =>
      let count := arange (iterm + 1) in
      ijfromdeg_loop rest (iarr ++ rev count) (jarr ++ count)
  end.

Definition ijfromdeg (d : Z) : list nat * list nat :=
  ijfromdeg_loop (range (d + 1)) [] [].

(** [assigndeg]: the degree from the number of coefficients, -1 when the
    root is further than 1e-3 from its integer part. *)
Definition assigndeg (pc : t) : t :=
  let degr := degfromcoeffs (INR (length (p pc))) in
  if Rlt_dec (1 / 1000) (Rabs (degr - IZR (py_int degr)))
  then set_deg (-1) pc
  else set_deg (py_int degr) pc.

Definition assignij (pc : t) : t :=
  let '(ia, ja) := ijfromdeg (deg pc) in set_ij ia ja pc.

Definition initcoeffs2d (pc : t) : t :=
  set_p2d (zeros2d (Z.to_nat (deg pc + 1)) (Z.to_nat (deg pc + 1))) pc.

(** [updatecoeffs2d]: returns at once when [deg < 1]; otherwise
    [p2d[i[l], j[l]] = p[l]] for [l = arange(size p)], which raises
    IndexError when [l] runs past [i] or [j], or an index leaves [p2d]. *)
Definition updatecoeffs2d (pc : t) : outcome t :=
  if (deg pc <? 1)%Z then Done pc
  else
    let n := length (p pc) in
    if (n <=? length (i pc))%nat && (n <=? length (j pc))%nat then
      let I := take n (i pc) in
      let J := take n (j pc) in
      if inbounds2d (p2d pc) I J
      then Done (set_p2d (scatter2d I J (p pc) (p2d pc)) pc)
      else Raised IndexError pc
    else Raised IndexError pc.

(** [updatecoeffs]: nothing for an empty input. *)
Definition updatecoeffs (v : vec) (pc : t) : outcome t :=
  if (length v <? 1)%nat then Done pc
  else updatecoeffs2d (set_p v pc).

(** [Polycoeffs(p, Verbose)]. *)
Definition init (v : vec) (verbose : bool) : outcome t :=
  let pc := mk v verbose [] (-1) [] [] in
  updatecoeffs2d (initcoeffs2d (assignij (assigndeg pc))).

(** Reading the 2D array back at the powers of [ijfromdeg]. *)
Definition readback (pc : t) : vec :=
  let '(ia, ja) := ijfromdeg (deg pc) in
  map (fun ij => get2d (p2d pc) (fst ij) (snd ij)) (zip ia ja).

(** [getcoeffs2d(p, clobber)]: the 2D array for the supplied parameters,
    returned as [p2d] of the final state. The degree and the powers are
    assigned again when the degree is unset or on [clobber]; the array is
    not allocated again. *)
Definition getcoeffs2d (v : vec) (clobber : bool) (pc : t) : outcome t :=
  let pc := if (0 <? length v)%nat then set_p v pc else pc in
  let pc := if (deg pc <? 0)%Z || clobber then assignij (assigndeg pc) else pc in
  updatecoeffs2d pc.

End Polycoeffs.

(** Number of coefficients of a polynomial of total degree [d]. *)
Definition ncoeffs (d : nat) : nat := ((d + 1) * (d + 2) / 2)%nat.

(** [is_ncoeffs m]: [m] is the number of coefficients of some degree. *)
Definition is_ncoeffs (m : nat) : bool :=
  existsb (fun d => (ncoeffs d =? m)%nat) (seq 0 (m + 1)).

(** ** Parvec *)

Module Parvec.

(** [Verbose] is read by [ingestpars] but no method of the class creates
    it: [None] stands for the missing attribute. *)
Record t : Type := mk {
  hasxy0 : bool;
  inds1d_6term : list nat;
  parsx : vec;
  parsy : vec;
  tangentpoint : vec;
  Verbose : option bool
}.

Definition set_tangentpoint (v : vec) (pv : t) : t :=
  mk (hasxy0 pv) (inds1d_6term pv) (parsx pv) (parsy pv) v (Verbose pv).
Definition set_inds1d_6term (l : list nat) (pv : t) : t :=
  mk (hasxy0 pv) l (parsx pv) (parsy pv) (tangentpoint pv) (Verbose pv).
Definition set_hasxy0 (b : bool) (pv : t) : t :=
  mk b (inds1d_6term pv) (parsx pv) (parsy pv) (tangentpoint pv) (Verbose pv).
Definition set_parsxy (vx vy : vec) (pv : t) : t :=
  mk (hasxy0 pv) (inds1d_6term pv) vx vy (tangentpoint pv) (Verbose pv).

(** The test [degx - int(degx) > 0] on the degree of [m] coefficients. *)
Definition nonint_deg (m : nat) : bool :=
  let degx := Polycoeffs.degfromcoeffs (INR m) in
  if Rlt_dec 0 (degx - IZR (Polycoeffs.py_int degx)) then true else false.

(** [ingestpars]: the first two entries are the tangent point, the rest
    is split in two halves for the x and y polynomials. *)
Definition ingestpars (pars : vec) (pv : t) : outcome t :=
  if (length pars <? 2)%nat then Done pv
  else
    let pv := set_tangentpoint (take 2 pars) pv in
    if (length pars <? 3)%nat then Done pv
    else
      let parsxy := drop 2 pars in
      let nxy := length parsxy in
      if (0 <? nxy mod 2)%nat then Done pv
      else
        let imid := (nxy / 2)%nat in
        let parsx := take imid parsxy in
        let parsy := drop imid parsxy in
        let pv := set_inds1d_6term [0; 2; 3; 1; imid + 2; imid + 3]%nat pv in
        if nonint_deg (length parsx) then
          if nonint_deg (length parsx + 1) then
            match Verbose pv with
            | None => Raised AttributeError pv
            | Some _ => Done pv
            end
          else
            Done (set_parsxy (0 :: parsx) (0 :: parsy) (set_hasxy0 false pv))
        else
          Done (set_parsxy parsx parsy pv).

(** [Parvec(pars)]. *)
Definition init (pars : vec) : outcome t :=
  ingestpars pars (mk true [] [] [] [] None).

(** The x/y coefficient counts of [pars] are those of a polynomial, with
    or without its constant term. *)
Definition counts_valid (pars : vec) : bool :=
  let nxy := (length pars - 2)%nat in
  (3 <=? length pars)%nat && (nxy mod 2 =? 0)%nat &&
  (is_ncoeffs (nxy / 2) || is_ncoeffs (nxy / 2 + 1)).

End Parvec.

(** ** 2x2 matrices and stacks of them *)

Record mat2 : Type := M2 { m00 : R; m01 : R; m10 : R; m11 : R }.

Definition eye2 : mat2 := M2 1 0 0 1.

Definition mat2_mul (A B : mat2) : mat2 :=
  M2 (m00 A * m00 B + m01 A * m10 B) (m00 A * m01 B + m01 A * m11 B)
     (m10 A * m00 B + m11 A * m10 B) (m10 A * m01 B + m11 A * m11 B).

Definition mat2_transpose (A : mat2) : mat2 :=
  M2 (m00 A) (m10 A) (m01 A) (m11 A).

Definition mat2_sym (A : mat2) : Prop := m01 A = m10 A.

(** [np.matmul] of a 2x2 matrix and a stack [N,2,2]: the matrix multiplies
    every plane from the left. [np.array([])] has no 2x2 planes and is
    refused. *)
Definition matmul_left (J : mat2) (S : list mat2) : result (list mat2) :=
  match S with
  | [] => Err ValueError
  | _ => Ok (map (mat2_mul J) S)
  end.

(** [np.matmul] of two stacks: planes are multiplied pairwise and a stack
    of one plane is broadcast. *)
Definition matmul_stack (A B : list mat2) : result (list mat2) :=
  match A, B with
  | [], _ => Err ValueError
  | _, [] => Err ValueError
  | [a], _ => Ok (map (mat2_mul a) B)
  | _, [b] => Ok (map (fun a => mat2_mul a b) A)
  | _, _ =>
      if (length A =? length B)%nat then Ok (zip_with mat2_mul A B)
      else Err ValueError
  end.

(** [np.transpose(J, axes=(0,2,1))], which needs a 3-D array. *)
Definition transpose_stack (J : list mat2) : result (list mat2) :=
  match J with
  | [] => Err ValueError
  | _ => Ok (map mat2_transpose J)
  end.

(** [jac = np.zeros((N,2,2))] filled plane by plane from four arrays. *)
Definition stack4 (a b c d : vec) : list mat2 :=
  zip_with (fun ab cd => M2 (fst ab) (snd ab) (fst cd) (snd cd)) (zip a b) (zip c d).

(** ** numpy.polynomial.polynomial *)

(** [polyval(y, c)] for 1-D [c], by Horner's rule from the last
    coefficient, starting as numpy does from [c[-1] + y*0]. *)
Definition polyval (y : R) (c : vec) : R :=
  fold_right (fun a acc => a + acc * y) 0 c.

(** [polyval(x, c)] for 2-D [c]: Horner's rule over the rows, giving one
    value per column. *)
Definition horner_rows (x : R) (c : arr2d) : vec :=
  fold_right (fun row acc => zip_with (fun a b => a + b * x) row acc)
             (replicate (ncols c) 0) c.

(** [polyval2d] at one point: sum of c[i,j] x^i y^j. *)
Definition polyval2d1 (x y : R) (c : arr2d) : R :=
  polyval y (horner_rows x c).

(** [polyval2d(x, y, c)] on arrays: [x] and [y] must have one shape, and
    [c] at least one row and one column ([c[-1]] is read on both axes). *)
Definition polyval2d (xs ys : vec) (c : arr2d) : result vec :=
  if negb (length xs =? length ys)%nat then Err ValueError
  else if (nrows c =? 0)%nat || (ncols c =? 0)%nat then Err IndexError
  else Ok (zip_with (fun x y => polyval2d1 x y c) xs ys).

(** [polyder] of a 1-D coefficient array: [der[j-1] = j*c[j]], and
    [c[:1]*0] when there is at most one coefficient. *)
Definition polyder1 (c : vec) : vec :=
  if (length c <=? 1)%nat then map (fun v => v * 0) (take 1 c)
  else imap (fun k v => INR (k + 1) * v) (drop 1 c).

(** [polyder(c, 1, 1, axis=0)] and [polyder(c, 1, 1, axis=1)]. *)
Definition polyder_axis0 (c : arr2d) : arr2d :=
  if (length c <=? 1)%nat then map (map (fun v => v * 0)) (take 1 c)
  else imap (fun k row => map (fun v => INR (k + 1) * v) row) (drop 1 c).

Definition polyder_axis1 (c : arr2d) : arr2d := map polyder1 c.

(** [np.pad(c, [[0,1],[0,0]])] and [np.pad(c, [[0,0],[0,1]])]. *)
Definition pad_row (c : arr2d) : arr2d := c ++ [replicate (ncols c) 0].
Definition pad_col (c : arr2d) : arr2d := map (fun row => row ++ [0]) c.

(** [polyvander2d(x, y, (d, d))] at one point: column [(d+1)*i + j] holds
    [x^i * y^j]. *)
Definition polyvander2d1 (x y : R) (d : nat) : vec :=
  flat_map (fun i => map (fun j => x ^ i * y ^ j) (seq 0 (d + 1))) (seq 0 (d + 1)).

(** ** Polynomial families *)

Inductive polykind : Type :=
| Polynomial
| Chebyshev
| Legendre
| Hermite
| HermiteE.

(** The entries of [methval2dlist] and [methderlist] for one family. *)
Record backend : Type := Backend {
  val2d : vec -> vec -> arr2d -> result vec;
  der : arr2d -> nat -> arr2d
}.

Definition numpy_polynomial : backend :=
  Backend polyval2d
          (fun c axis => if (axis =? 0)%nat then polyder_axis0 c else polyder_axis1 c).

(** ** Poly *)

Module Poly.

(** The attributes of an instance that take part in positions, Jacobians
    and covariances (plot labels and the [xytran] view are left out).
    The limits are those that [setdomain] has resolved to numbers. *)
Record t : Type := mk {
  x : vec;
  y : vec;
  covxy : list mat2;
  parsx : vec;
  parsy : vec;
  xmin : R;
  xmax : R;
  ymin : R;
  ymax : R;
  Verbose : bool;
  cxx : arr2d;
  cxy : arr2d;
  cyx : arr2d;
  cyy : arr2d;
  jacrescale : mat2;
  xr : vec;
  yr : vec;
  pars2x : Polycoeffs.t;
  pars2y : Polycoeffs.t;
  kind : polykind;
  jacpoly : list mat2;     (* jacobian for the polynomial only *)
  jac : list mat2;         (* jacobian including rescaling *)
  xtran : vec;
  ytran : vec
}.

Definition set_xy (v_x : vec) (v_y : vec) (st : t) : t :=
  mk v_x v_y (covxy st) (parsx st) (parsy st) (xmin st) (xmax st) (ymin st) (ymax st) (Verbose st) (cxx st) (cxy st) (cyx st) (cyy st) (jacrescale st) (xr st) (yr st) (pars2x st) (pars2y st) (kind st) (jacpoly st) (jac st) (xtran st) (ytran st).
Definition set_covxy (v_covxy : list mat2) (st : t) : t :=
  mk (x st) (y st) v_covxy (parsx st) (parsy st) (xmin st) (xmax st) (ymin st) (ymax st) (Verbose st) (cxx st) (cxy st) (cyx st) (cyy st) (jacrescale st) (xr st) (yr st) (pars2x st) (pars2y st) (kind st) (jacpoly st) (jac st) (xtran st) (ytran st).
Definition set_parsxy (v_parsx : vec) (v_parsy : vec) (st : t) : t :=
  mk (x st) (y st) (covxy st) v_parsx v_parsy (xmin st) (xmax st) (ymin st) (ymax st) (Verbose st) (cxx st) (cxy st) (cyx st) (cyy st) (jacrescale st) (xr st) (yr st) (pars2x st) (pars2y st) (kind st) (jacpoly st) (jac st) (xtran st) (ytran st).
Definition set_derivs (v_cxx : arr2d) (v_cxy : arr2d) (v_cyx : arr2d) (v_cyy : arr2d) (st : t) : t :=
  mk (x st) (y st) (covxy st) (parsx st) (parsy st) (xmin st) (xmax st) (ymin st) (ymax st) (Verbose st) v_cxx v_cxy v_cyx v_cyy (jacrescale st) (xr st) (yr st) (pars2x st) (pars2y st) (kind st) (jacpoly st) (jac st) (xtran st) (ytran st).
Definition set_jacrescale (v_jacrescale : mat2) (st : t) : t :=
  mk (x st) (y st) (covxy st) (parsx st) (parsy st) (xmin st) (xmax st) (ymin st) (ymax st) (Verbose st) (cxx st) (cxy st) (cyx st) (cyy st) v_jacrescale (xr st) (yr st) (pars2x st) (pars2y st) (kind st) (jacpoly st) (jac st) (xtran st) (ytran st).
Definition set_xryr (v_xr : vec) (v_yr : vec) (st : t) : t :=
  mk (x st) (y st) (covxy st) (parsx st) (parsy st) (xmin st) (xmax st) (ymin st) (ymax st) (Verbose st) (cxx st) (cxy st) (cyx st) (cyy st) (jacrescale st) v_xr v_yr (pars2x st) (pars2y st) (kind st) (jacpoly st) (jac st) (xtran st) (ytran st).
Definition set_pars2x (v_pars2x : Polycoeffs.t) (st : t) : t :=
  mk (x st) (y st) (covxy st) (parsx st) (parsy st) (xmin st) (xmax st) (ymin st) (ymax st) (Verbose st) (cxx st) (cxy st) (cyx st) (cyy st) (jacrescale st) (xr st) (yr st) v_pars2x (pars2y st) (kind st) (jacpoly st) (jac st) (xtran st) (ytran st).
Definition set_pars2y (v_pars2y : Polycoeffs.t) (st : t) : t :=
  mk (x st) (y st) (covxy st) (parsx st) (parsy st) (xmin st) (xmax st) (ymin st) (ymax st) (Verbose st) (cxx st) (cxy st) (cyx st) (cyy st) (jacrescale st) (xr st) (yr st) (pars2x st) v_pars2y (kind st) (jacpoly st) (jac st) (xtran st) (ytran st).
Definition set_jacpoly (v_jacpoly : list mat2) (st : t) : t :=
  mk (x st) (y st) (covxy st) (parsx st) (parsy st) (xmin st) (xmax st) (ymin st) (ymax st) (Verbose st) (cxx st) (cxy st) (cyx st) (cyy st) (jacrescale st) (xr st) (yr st) (pars2x st) (pars2y st) (kind st) v_jacpoly (jac st) (xtran st) (ytran st).
Definition set_jac (v_jac : list mat2) (st : t) : t :=
  mk (x st) (y st) (covxy st) (parsx st) (parsy st) (xmin st) (xmax st) (ymin st) (ymax st) (Verbose st) (cxx st) (cxy st) (cyx st) (cyy st) (jacrescale st) (xr st) (yr st) (pars2x st) (pars2y st) (kind st) (jacpoly st) v_jac (xtran st) (ytran st).
Definition set_tran (v_xtran : vec) (v_ytran : vec) (st : t) : t :=
  mk (x st) (y st) (covxy st) (parsx st) (parsy st) (xmin st) (xmax st) (ymin st) (ymax st) (Verbose st) (cxx st) (cxy st) (cyx st) (cyy st) (jacrescale st) (xr st) (yr st) (pars2x st) (pars2y st) (kind st) (jacpoly st) (jac st) v_xtran v_ytran.

Section WithBackends.

(** numpy's Chebyshev, Legendre, Hermite and HermiteE evaluation and
    differentiation functions. *)
Variable numpy_other : polykind -> backend.

(** [methval2dlist[kind]] and [methderlist[kind]]. *)
Definition methlist (k : polykind) : backend :=
  match k with
  | Polynomial => numpy_polynomial
  | _ => numpy_other k
  end.

Definition methval2d (st : t) := val2d (methlist (kind st)).
Definition methder (st : t) := der (methlist (kind st)).

(** [np.min] and [np.max] of a non-empty array. *)
Definition np_min (v : vec) : R :=
  match v with
  | [] => 0
  | a :: l => fold_left Rmin l a
  end.
Definition np_max (v : vec) : R :=
  match v with
  | [] => 0
  | a :: l => fold_left Rmax l a
  end.

(** [updatedata] without the [xy] argument. The covariances are kept only
    when they are a stack with one plane per position. *)
Definition updatedata (vx vy : vec) (vcov : list mat2) (st : t) : t :=
  let st := set_xy vx vy st in
  match vcov with
  | [] => st
  | _ => if (length vx =? length vcov)%nat then set_covxy vcov st else st
  end.

(** [checkparsxy]: split an even-sized [parsx] across [parsx] and [parsy]. *)
Definition checkparsxy (vparsx vparsy : vec) : vec * vec :=
  if (0 <? length vparsx mod 2)%nat then (vparsx, vparsy)
  else
    let npx := (length vparsx / 2)%nat in
    (take npx vparsx, drop npx vparsx).

(** One limit of [setdomain] (clobber unset): a limit passed as [None]
    becomes the data extreme, or the default when there is no data. *)
Definition setdomain1 (lim : option R) (n : nat) (extreme default : R) : R :=
  match lim with
  | Some v => v
  | None => if (0 <? n)%nat then extreme else default
  end.

Definition setjacrescale (st : t) : t :=
  set_jacrescale (M2 (2 / (xmax st - xmin st)) 0 0 (2 / (ymax st - ymin st))) st.

Definition rescalexy (st : t) (vx vy : vec) : vec * vec :=
  (map (fun x => (2 * x - (xmax st + xmin st)) / (xmax st - xmin st)) vx,
   map (fun y => (2 * y - (ymax st + ymin st)) / (ymax st - ymin st)) vy).

Definition rescalepos (st : t) : t :=
  let '(vxr, vyr) := rescalexy st (x st) (y st) in set_xryr vxr vyr st.

(** [setuppars]: two fresh [Polycoeffs] built from [parsx] and [parsy]. *)
Definition setuppars (st : t) : outcome t :=
  match Polycoeffs.init (parsx st) (Verbose st) with
  | Raised e _ => Raised e st
  | Done px =>
      match Polycoeffs.init (parsy st) (Verbose st) with
      | Raised e _ => Raised e (set_pars2x px st)
      | Done py => Done (set_pars2y py (set_pars2x px st))
      end
  end.

(** [propxy]: empty input gives empty output; otherwise the 2-D
    polynomials of [pars2x] and [pars2y] at the rescaled positions. *)
Definition propxy (st : t) (vx vy : vec) : result (vec * vec) :=
  if (length vx <? 1)%nat || (length vy <? 1)%nat then Ok ([], [])
  else
    let '(vxr, vyr) := rescalexy st vx vy in
    let* xt := methval2d st vxr vyr (Polycoeffs.p2d (pars2x st)) in
    let* yt := methval2d st vxr vyr (Polycoeffs.p2d (pars2y st)) in
    Ok (xt, yt).

Definition tranpos (st : t) : outcome t :=
  match propxy st (x st) (y st) with
  | Ok (xt, yt) => Done (set_tran xt yt st)
  | Err e => Raised e st
  end.

(** [derivcoeffs] of a 2-D coefficient array: differentiate along each
    axis and pad back to the shape of the input. *)
Definition derivcoeffs (st : t) (c : arr2d) : arr2d * arr2d :=
  (pad_row (methder st c 0), pad_col (methder st c 1)).

Definition setderivcoeffs (st : t) : t :=
  let '(vcxx, vcxy) := derivcoeffs st (Polycoeffs.p2d (pars2x st)) in
  let '(vcyx, vcyy) := derivcoeffs st (Polycoeffs.p2d (pars2y st)) in
  set_derivs vcxx vcxy vcyx vcyy st.

Definition initjacpoly (st : t) : t :=
  if (length (x st) <? 1)%nat then set_jacpoly [] st
  else set_jacpoly (replicate (length (x st)) eye2) st.

(** [evaluatejacpoly]: the four derivative arrays evaluated at rescaled
    positions. *)
Definition evaluatejacpoly (st : t) (vxr vyr : vec) : result (list mat2) :=
  if (length vxr <? 1)%nat || (length vyr <? 1)%nat then Ok []
  else
    let* j00 := methval2d st vxr vyr (cxx st) in
    let* j01 := methval2d st vxr vyr (cxy st) in
    let* j10 := methval2d st vxr vyr (cyx st) in
    let* j11 := methval2d st vxr vyr (cyy st) in
    Ok (stack4 j00 j01 j10 j11).

(** [np.size] of a stack of 2x2 matrices. *)
Definition size_stack (J : list mat2) : nat := (4 * length J)%nat.

Definition populatejacpoly (st : t) : outcome t :=
  if (size_stack (jacpoly st) <? 2)%nat then Done st
  else
    let st := setderivcoeffs st in
    match evaluatejacpoly st (xr st) (yr st) with
    | Ok J => Done (set_jacpoly J st)
    | Err e => Raised e st
    end.

(** [combinejac]: [jac = np.matmul(jacrescale, jacpoly)]. *)
Definition combinejac (st : t) : t :=
  if (size_stack (jacpoly st) <? 1)%nat then st
  else set_jac (map (mat2_mul (jacrescale st)) (jacpoly st)) st.

Definition getjacobian (st : t) : outcome t :=
  let st := setjacrescale st in
  let st := if (size_stack (jacpoly st) <? 2)%nat then initjacpoly st else st in
  run st := populatejacpoly st in
  Done (combinejac st).

Definition updatejacobian (st : t) : outcome t :=
  getjacobian (rescalepos st).

(** [Poly(x, y, covxy, parsx, parsy, kindpoly=..., Verbose=..., xmin=...,
    xmax=..., ymin=..., ymax=..., checkparsy=...)]. [kindpoly = None]
    stands for a name outside the supported list. *)
Definition init (vx vy : vec) (vcov : list mat2) (vparsx vparsy : vec)
    (kindpoly : option polykind) (verbose : bool)
    (oxmin oxmax oymin oymax : option R) (checkparsy : bool) : outcome t :=
  let '(vparsx, vparsy) :=
    if checkparsy then checkparsxy vparsx vparsy else (vparsx, vparsy) in
  let blank := Polycoeffs.mk [] verbose [] (-1) [] [] in
  let k := match kindpoly with Some k => k | None => Polynomial end in
  let st := mk [] [] [] vparsx vparsy
               (setdomain1 oxmin (length vx) (np_min vx) (-1))
               (setdomain1 oxmax (length vx) (np_max vx) 1)
               (setdomain1 oymin (length vy) (np_min vy) (-1))
               (setdomain1 oymax (length vy) (np_max vy) 1)
               verbose [] [] [] [] eye2 [] [] blank blank k [] [] [] [] in
  let st := updatedata vx vy vcov st in
  let st := setjacrescale st in
  run st := setuppars st in
  updatejacobian st.

(** [propcov]: J C J^T per point, with J = jacrescale . Jpoly evaluated
    at the rescaled input positions. *)
Definition propcov (st : t) (C : list mat2) (vx vy : vec) : result (list mat2) :=
  let '(vxr, vyr) := rescalexy st vx vy in
  let* Jpoly := evaluatejacpoly st vxr vyr in
  let* J := matmul_left (jacrescale st) Jpoly in
  let* Jt := transpose_stack J in
  let* CJt := matmul_stack C Jt in
  matmul_stack J CJt.

(** [splitpars]: two half-length lists. *)
Definition splitpars (pars : vec) : vec * vec :=
  if (length pars <? 2)%nat then ([], [])
  else
    let imid := (length pars / 2)%nat in
    (take imid pars, drop imid pars).

(** A call on one of the two [Polycoeffs] attributes. *)
Definition on_pars2x (o : outcome Polycoeffs.t) (st : t) : outcome t :=
  match o with
  | Done pc => Done (set_pars2x pc st)
  | Raised e pc => Raised e (set_pars2x pc st)
  end.
Definition on_pars2y (o : outcome Polycoeffs.t) (st : t) : outcome t :=
  match o with
  | Done pc => Done (set_pars2y pc st)
  | Raised e pc => Raised e (set_pars2y pc st)
  end.

(** [updatetransf]: new parameters, abutted x then y. *)
Definition updatetransf (pars : vec) (st : t) : outcome t :=
  let '(vparsx, vparsy) := splitpars pars in
  if (length vparsx <? 1)%nat then Done st
  else
    let st := set_parsxy vparsx vparsy st in
    run st := (if (Polycoeffs.deg (pars2x st) <? 0)%Z then setuppars st else Done st) in
    run st := on_pars2x (Polycoeffs.updatecoeffs vparsx (pars2x st)) st in
    run st := on_pars2y (Polycoeffs.updatecoeffs vparsy (pars2y st)) st in
    let st := setderivcoeffs st in
    run st := populatejacpoly st in
    Done (combinejac st).

(** [ingestdata] without the [xy] argument: new data, then the rescaled
    positions and the Jacobians; the domain is left as it is. *)
Definition ingestdata (vx vy : vec) (vcov : list mat2) (st : t) : outcome t :=
  updatejacobian (updatedata vx vy vcov st).

End WithBackends.

End Poly.

(** ** Patternmatrix *)

(** [np.repeat(v, n)] and [np.tile(v, n)]. *)
Definition np_repeat {A : Type} (v : list A) (n : nat) : list A :=
  flat_map (replicate n) v.
Definition np_tile {A : Type} (v : list A) (n : nat) : list A :=
  concat (replicate n v).

(** [l[b]] for a boolean mask [b] of the length of [l]. *)
Fixpoint select {A : Type} (b : list bool) (l : list A) : list A :=
  match b, l with
  | true :: b', a :: l' => a :: select b' l'
  | false :: b', _ :: l' => select b' l'
  | _, _ => []
  end.

(** [row[ls]] for an index array [ls]. *)
Definition take_cols (ls : list nat) (row : vec) : result vec :=
  if forallb (fun l => (l <? length row)%nat) ls
  then Ok (map (fun l => nth l row 0) ls)
  else Err IndexError.

(** All of a list of results, or the first error. *)
Fixpoint collect {A : Type} (rs : list (result A)) : result (list A) :=
  match rs with
  | [] => Ok []
  | r :: rs' => let* a := r in let* l := collect rs' in Ok (a :: l)
  end.

(** [np.sum] of a 1-D array, and the inner product of two. *)
Definition sumR (v : vec) : R := fold_right Rplus 0 v.
Definition dot (a b : vec) : R := sumR (zip_with Rmult a b).

(** [polyvander2d(x, y, (d, d))] on arrays of one shape. *)
Definition polyvander2d (xs ys : vec) (d : nat) : result arr2d :=
  if negb (length xs =? length ys)%nat then Err ValueError
  else Ok (zip_with (fun x y => polyvander2d1 x y d) xs ys).

(** [np.matmul(pattern, pars)] for a [N,2,M] pattern and a flat [M]
    vector: one pair per point. *)
Definition matmul_pattern (pattern : list (vec * vec)) (pars : vec)
    : result (list (R * R)) :=
  if forallb (fun rows => (length (fst rows) =? length pars)%nat &&
                          (length (snd rows) =? length pars)%nat) pattern
  then Ok (map (fun rows => (dot (fst rows) pars, dot (snd rows) pars)) pattern)
  else Err ValueError.

Module Patternmatrix.

(** The attributes of an instance, the degree being a natural number.
    [vander = []] stands for the 1-D empty array set before
    [buildvander]. *)
Record t : Type := mk {
  deg : nat;
  x : vec;
  y : vec;
  norescale : bool;
  xmin : R;
  xmax : R;
  ymin : R;
  ymax : R;
  xr : vec;
  yr : vec;
  kind : polykind;
  ipow : list nat;
  jpow : list nat;
  bpow : list bool;       (* boolean for powers <= deg *)
  isel : list nat;
  jsel : list nat;
  lvander : list nat;     (* selected indices in the vandermonde array *)
  vander : arr2d;
  pattern : list (vec * vec)
}.

Definition set_xlims (v_xmin : R) (v_xmax : R) (st : t) : t :=
  mk (deg st) (x st) (y st) (norescale st) v_xmin v_xmax (ymin st) (ymax st) (xr st) (yr st) (kind st) (ipow st) (jpow st) (bpow st) (isel st) (jsel st) (lvander st) (vander st) (pattern st).
Definition set_ylims (v_ymin : R) (v_ymax : R) (st : t) : t :=
  mk (deg st) (x st) (y st) (norescale st) (xmin st) (xmax st) v_ymin v_ymax (xr st) (yr st) (kind st) (ipow st) (jpow st) (bpow st) (isel st) (jsel st) (lvander st) (vander st) (pattern st).
Definition set_xryr (v_xr : vec) (v_yr : vec) (st : t) : t :=
  mk (deg st) (x st) (y st) (norescale st) (xmin st) (xmax st) (ymin st) (ymax st) v_xr v_yr (kind st) (ipow st) (jpow st) (bpow st) (isel st) (jsel st) (lvander st) (vander st) (pattern st).
Definition set_pows (v_ipow : list nat) (v_jpow : list nat) (st : t) : t :=
  mk (deg st) (x st) (y st) (norescale st) (xmin st) (xmax st) (ymin st) (ymax st) (xr st) (yr st) (kind st) v_ipow v_jpow (bpow st) (isel st) (jsel st) (lvander st) (vander st) (pattern st).
Definition set_sel (v_bpow : list bool) (v_isel : list nat) (v_jsel : list nat) (v_lvander : list nat) (st : t) : t :=
  mk (deg st) (x st) (y st) (norescale st) (xmin st) (xmax st) (ymin st) (ymax st) (xr st) (yr st) (kind st) (ipow st) (jpow st) v_bpow v_isel v_jsel v_lvander (vander st) (pattern st).
Definition set_vander (v_vander : arr2d) (st : t) : t :=
  mk (deg st) (x st) (y st) (norescale st) (xmin st) (xmax st) (ymin st) (ymax st) (xr st) (yr st) (kind st) (ipow st) (jpow st) (bpow st) (isel st) (jsel st) (lvander st) v_vander (pattern st).
Definition set_pattern (v_pattern : list (vec * vec)) (st : t) : t :=
  mk (deg st) (x st) (y st) (norescale st) (xmin st) (xmax st) (ymin st) (ymax st) (xr st) (yr st) (kind st) (ipow st) (jpow st) (bpow st) (isel st) (jsel st) (lvander st) (vander st) v_pattern.

Section WithBackends.

(** numpy's Chebyshev, Legendre, Hermite and HermiteE pseudo-Vandermonde
    functions. *)
Variable numpy_vander_other : polykind -> vec -> vec -> nat -> result arr2d.

(** [meths[kind]]. *)
Definition methvander (st : t) : vec -> vec -> nat -> result arr2d :=
  match kind st with
  | Polynomial => polyvander2d
  | k => numpy_vander_other k
  end.

(** [setlims]: the data extremes, unless rescaling is switched off;
    [np.min] of an empty array raises. *)
Definition setlims (st : t) : outcome t :=
  if norescale st then Done st
  else if (length (x st) <? 1)%nat then Raised ValueError st
  else
    let st := set_xlims (Poly.np_min (x st)) (Poly.np_max (x st)) st in
    if (length (y st) <? 1)%nat then Raised ValueError st
    else Done (set_ylims (Poly.np_min (y st)) (Poly.np_max (y st)) st).

Definition rescalexy (st : t) : t :=
  set_xryr (map (fun x => (2 * x - (xmax st + xmin st)) / (xmax st - xmin st)) (x st))
           (map (fun y => (2 * y - (ymax st + ymin st)) / (ymax st - ymin st)) (y st))
           st.

Definition buildpowers (st : t) : t :=
  let vpow := arange (deg st + 1) in
  set_pows (np_repeat vpow (deg st + 1)) (np_tile vpow (deg st + 1)) st.

Definition selectpowers (st : t) : t :=
  let b := zip_with (fun i j => (i + j <=? deg st)%nat) (ipow st) (jpow st) in
  set_sel b (select b (ipow st)) (select b (jpow st))
          (select b (arange (length (ipow st)))) st.

Definition buildvander (st : t) : outcome t :=
  if (length (xr st) <? 1)%nat then Done st
  else match methvander st (xr st) (yr st) (deg st) with
       | Ok v => Done (set_vander v st)
       | Err e => Raised e st
       end.

(** [initpattern] and [buildpattern]: the selected columns of the
    Vandermonde array fill the first half of row 0 and the second half of
    row 1 of each point's [2 x 2*nbases] block of zeros. *)
Definition buildpattern (st : t) : outcome t :=
  let nbases := length (lvander st) in
  match vander st with
  | [] => Raised IndexError
            (set_pattern (replicate (length (xr st))
                            (replicate (2 * nbases) 0, replicate (2 * nbases) 0)) st)
  | _ =>
      match collect (map (take_cols (lvander st)) (vander st)) with
      | Ok sels =>
          Done (set_pattern
                  (map (fun sel => (sel ++ replicate nbases 0,
                                    replicate nbases 0 ++ sel)) sels) st)
      | Err e =>
          Raised e (set_pattern (replicate (length (xr st))
                                   (replicate (2 * nbases) 0, replicate (2 * nbases) 0)) st)
      end
  end.

(** [Patternmatrix(deg, x, y, kind=..., norescale=...)]. [kind = None]
    stands for a name outside the supported list. *)
Definition init (d : nat) (vx vy : vec) (k : option polykind) (nores : bool)
    : outcome t :=
  let k := match k with Some k => k | None => Polynomial end in
  let st := mk d vx vy nores (-1) 1 (-1) 1 [] [] k [] [] [] [] [] [] [] [] in
  run st := setlims st in
  let st := rescalexy st in
  let st := selectpowers (buildpowers st) in
  run st := buildvander st in
  buildpattern st.

End WithBackends.

(** [c[isel, jsel]]: the entries of a 2-D coefficient array in the order
    of the columns of the pattern. *)
Definition coeffs_of (st : t) (c : arr2d) : vec :=
  zip_with (get2d c) (isel st) (jsel st).

End Patternmatrix.

(** ** Gnomonic projection: shared pieces *)

(** Two 1-D arrays combined elementwise under numpy broadcasting: equal
    lengths pair up, a one-element array is repeated. *)
Definition broadcast2 (xs ys : vec) : result (list (R * R)) :=
  if (length xs =? length ys)%nat then Ok (zip xs ys)
  else match xs, ys with
       | [x], _ => Ok (map (fun y => (x, y)) ys)
       | _, [y] => Ok (map (fun x => (x, y)) xs)
       | _, _ => Err ValueError
       end.

(** [pars[k]] of a parameter array. *)
Definition index (pars : vec) (k : nat) : result R :=
  match pars !! k with
  | Some v => Ok v
  | None => Err IndexError
  end.

(** [setconversion]: the factor from the angular unit to radians. *)
Definition conversion (degrees : bool) : R :=
  if degrees then PI / 180 else 1.

(** ** Tan2equ *)

Module Tan2equ.

Record t : Type := mk {
  x : vec;             (* xi *)
  y : vec;             (* eta *)
  covxy : list mat2;
  pars : vec;          (* the tangent point *)
  Verbose : bool;
  degrees : bool;
  conv2rad : R;
  jac : list mat2;
  xtran : vec;
  ytran : vec
}.

Definition set_xy (v_x : vec) (v_y : vec) (st : t) : t :=
  mk v_x v_y (covxy st) (pars st) (Verbose st) (degrees st) (conv2rad st) (jac st) (xtran st) (ytran st).
Definition set_covxy (v_covxy : list mat2) (st : t) : t :=
  mk (x st) (y st) v_covxy (pars st) (Verbose st) (degrees st) (conv2rad st) (jac st) (xtran st) (ytran st).
Definition set_pars (v_pars : vec) (st : t) : t :=
  mk (x st) (y st) (covxy st) v_pars (Verbose st) (degrees st) (conv2rad st) (jac st) (xtran st) (ytran st).
Definition set_jac (v_jac : list mat2) (st : t) : t :=
  mk (x st) (y st) (covxy st) (pars st) (Verbose st) (degrees st) (conv2rad st) v_jac (xtran st) (ytran st).
Definition set_tran (v_xtran : vec) (v_ytran : vec) (st : t) : t :=
  mk (x st) (y st) (covxy st) (pars st) (Verbose st) (degrees st) (conv2rad st) (jac st) v_xtran v_ytran.

(** The four terms of the Jacobian at one point, angles in radians. *)
Definition jac1 (delta0 xi eta : R) : mat2 :=
  let denom00 := (cos delta0 - eta * sin delta0) *
                 (1 + (xi / (cos delta0 - eta * sin delta0)) ^ 2) in
  let J_ax := 1 / denom00 in
  let denom01 := xi ^ 2 + (cos delta0) ^ 2
                 - 2 * eta * cos delta0 * sin delta0
                 + eta ^ 2 * (sin delta0) ^ 2 in
  let J_ay := xi * sin delta0 / denom01 in
  let denom10 := (1 + xi ^ 2 + eta ^ 2) *
                 sqrt (xi ^ 2 + (cos delta0 - eta * sin delta0) ^ 2) in
  let J_dx := 0 - xi * (eta * cos delta0 + sin delta0) / denom10 in
  let J_dy := ((1 + xi ^ 2) * cos delta0 - eta * sin delta0) / denom10 in
  M2 J_ax J_ay J_dx J_dy.

(** [evaluatejac]: the planes are written into [np.zeros((x.size,2,2))],
    so the broadcast of [x] and [y] must have the size of [x]. *)
Definition evaluatejac (st : t) (vx vy : vec) : result (list mat2) :=
  if (length vx <? 1)%nat || (length vy <? 1)%nat then Ok []
  else
    let* alpha0 := index (pars st) 0 in
    let* delta0 := index (pars st) 1 in
    let* pts := broadcast2 vx vy in
    if (length pts =? length vx)%nat then
      Ok (map (fun pt => jac1 (delta0 * conv2rad st)
                              (fst pt * conv2rad st) (snd pt * conv2rad st)) pts)
    else Err ValueError.

Definition setjacobian (st : t) : outcome t :=
  match evaluatejac st (x st) (y st) with
  | Ok J => Done (set_jac J st)
  | Err e => Raised e st
  end.

(** The inverse gnomonic map at one point, angles in radians. *)
Definition propxy1 (alpha0 delta0 xi eta : R) : R * R :=
  let gamma := cos delta0 - eta * sin delta0 in
  let alphaf := alpha0 + atan (xi / gamma) in
  let deltaf := atan ((eta * cos delta0 + sin delta0) /
                      sqrt (xi ^ 2 + gamma ^ 2)) in
  (alphaf, deltaf).

(** [propxy]: tangent plane to equatorial, in the units of the input. *)
Definition propxy (st : t) (vx vy : vec) : result (vec * vec) :=
  if (length vx <? 1)%nat || (length vy <? 1)%nat then Ok ([], [])
  else
    let* alpha0 := index (pars st) 0 in
    let* delta0 := index (pars st) 1 in
    let* pts := broadcast2 vx vy in
    let out := map (fun pt => propxy1 (alpha0 * conv2rad st) (delta0 * conv2rad st)
                                      (fst pt * conv2rad st) (snd pt * conv2rad st)) pts in
    Ok (map (fun ad => fst ad / conv2rad st) out,
        map (fun ad => snd ad / conv2rad st) out).

Definition tranpos (st : t) : outcome t :=
  match propxy st (x st) (y st) with
  | Ok (xt, yt) => Done (set_tran xt yt st)
  | Err e => Raised e st
  end.

(** [propcov]: J C J^T per point. The guard reads the size of the
    instance's own [x], as the source does. *)
Definition propcov (st : t) (C : list mat2) (vx vy : vec) : result (list mat2) :=
  if (length (x st) <? 1)%nat || (length vy <? 1)%nat then Ok []
  else
    let* J := evaluatejac st vx vy in
    let* Jt := transpose_stack J in
    let* CJt := matmul_stack C Jt in
    matmul_stack J CJt.

(** [updatedata] without the [xy] argument: the positions are replaced as
    given, the covariances only by a stack with one plane per entry of
    [x]. *)
Definition updatedata (vx vy : vec) (vcov : list mat2) (st : t) : t :=
  let st := set_xy vx vy st in
  match vcov with
  | [] => st
  | _ => if (length vx =? length vcov)%nat then set_covxy vcov st else st
  end.

(** [updatetransf]: a new tangent point. *)
Definition updatetransf (vpars : vec) (st : t) : outcome t :=
  if negb (length vpars =? 2)%nat then Done st
  else setjacobian (set_pars vpars st).

(** [Tan2equ(xi, eta, covxieta, pars, degrees, Verbose)]. *)
Definition init (vx vy : vec) (vcov : list mat2) (vpars : vec)
    (deg verbose : bool) : outcome t :=
  setjacobian (mk vx vy vcov vpars verbose deg (conversion deg) [] [] []).

End Tan2equ.

(** ** Equ2tan *)

Module Equ2tan.

Record t : Type := mk {
  x : vec;             (* ra *)
  y : vec;             (* dec *)
  covxy : list mat2;
  pars : vec;          (* the tangent point *)
  Verbose : bool;
  degrees : bool;
  conv2rad : R;
  jac : list mat2;
  xtran : vec;
  ytran : vec
}.

Definition set_xy (v_x : vec) (v_y : vec) (st : t) : t :=
  mk v_x v_y (covxy st) (pars st) (Verbose st) (degrees st) (conv2rad st) (jac st) (xtran st) (ytran st).
Definition set_covxy (v_covxy : list mat2) (st : t) : t :=
  mk (x st) (y st) v_covxy (pars st) (Verbose st) (degrees st) (conv2rad st) (jac st) (xtran st) (ytran st).
Definition set_pars (v_pars : vec) (st : t) : t :=
  mk (x st) (y st) (covxy st) v_pars (Verbose st) (degrees st) (conv2rad st) (jac st) (xtran st) (ytran st).
Definition set_jac (v_jac : list mat2) (st : t) : t :=
  mk (x st) (y st) (covxy st) (pars st) (Verbose st) (degrees st) (conv2rad st) v_jac (xtran st) (ytran st).
Definition set_tran (v_xtran : vec) (v_ytran : vec) (st : t) : t :=
  mk (x st) (y st) (covxy st) (pars st) (Verbose st) (degrees st) (conv2rad st) (jac st) v_xtran v_ytran.

(** The four terms of the Jacobian at one point, angles in radians. *)
Definition jac1 (alpha0 delta0 alpha delta : R) : mat2 :=
  let denom := (cos (alpha - alpha0) * cos delta * cos delta0
                + sin delta * sin delta0) ^ 2 in
  let J_xia := cos delta * (cos delta * cos delta0
                            + cos (alpha - alpha0) * sin delta * sin delta0) / denom in
  let J_xid := 0 - sin (alpha - alpha0) * sin delta0 / denom in
  let J_etaa := 0.5 * sin (alpha - alpha0) * sin (2 * delta) / denom in
  let J_etad := cos (alpha - alpha0) / denom in
  M2 J_xia J_xid J_etaa J_etad.

Definition evaluatejac (st : t) (vx vy : vec) : result (list mat2) :=
  if (length vx <? 1)%nat || (length vy <? 1)%nat then Ok []
  else
    let* alpha0 := index (pars st) 0 in
    let* delta0 := index (pars st) 1 in
    let* pts := broadcast2 vx vy in
    if (length pts =? length vx)%nat then
      Ok (map (fun pt => jac1 (alpha0 * conv2rad st) (delta0 * conv2rad st)
                              (fst pt * conv2rad st) (snd pt * conv2rad st)) pts)
    else Err ValueError.

Definition setjacobian (st : t) : outcome t :=
  match evaluatejac st (x st) (y st) with
  | Ok J => Done (set_jac J st)
  | Err e => Raised e st
  end.

(** The forward gnomonic map at one point, angles in radians. *)
Definition propxy1 (alpha0 delta0 alpha delta : R) : R * R :=
  let denom := cos (alpha - alpha0) * cos delta * cos delta0
               + sin delta * sin delta0 in
  let xi := cos delta * sin (alpha - alpha0) / denom in
  let eta := (cos delta0 * sin delta
              - cos (alpha - alpha0) * cos delta * sin delta0) / denom in
  (xi, eta).

(** [propxy]: equatorial to tangent plane, in the units of the input. *)
Definition propxy (st : t) (vx vy : vec) : result (vec * vec) :=
  if (length vx <? 1)%nat || (length vy <? 1)%nat then Ok ([], [])
  else
    let* alpha0 := index (pars st) 0 in
    let* delta0 := index (pars st) 1 in
    let* pts := broadcast2 vx vy in
    let out := map (fun pt => propxy1 (alpha0 * conv2rad st) (delta0 * conv2rad st)
                                      (fst pt * conv2rad st) (snd pt * conv2rad st)) pts in
    Ok (map (fun xe => fst xe / conv2rad st) out,
        map (fun xe => snd xe / conv2rad st) out).

Definition tranpos (st : t) : outcome t :=
  match propxy st (x st) (y st) with
  | Ok (xt, yt) => Done (set_tran xt yt st)
  | Err e => Raised e st
  end.

Definition propcov (st : t) (C : list mat2) (vx vy : vec) : result (list mat2) :=
  if (length vx <? 1)%nat || (length vy <? 1)%nat then Ok []
  else
    let* J := evaluatejac st vx vy in
    let* Jt := transpose_stack J in
    let* CJt := matmul_stack C Jt in
    matmul_stack J CJt.

(** [updatedata] without the [xy] argument: the positions are replaced as
    given, the covariances only by a stack with one plane per entry of
    [x]. *)
Definition updatedata (vx vy : vec) (vcov : list mat2) (st : t) : t :=
  let st := set_xy vx vy st in
  match vcov with
  | [] => st
  | _ => if (length vx =? length vcov)%nat then set_covxy vcov st else st
  end.

Definition updatetransf (vpars : vec) (st : t) : outcome t :=
  if negb (length vpars =? 2)%nat then Done st
  else setjacobian (set_pars vpars st).

(** [Equ2tan(x, y, covxy, pars, degrees, Verbose)]. *)
Definition init (vx vy : vec) (vcov : list mat2) (vpars : vec)
    (deg verbose : bool) : outcome t :=
  setjacobian (mk vx vy vcov vpars verbose deg (conversion deg) [] [] []).

End Equ2tan.

(** ** xy2equ *)

Module xy2equ.

(** The composite transform: the polynomial [xy2tp] from the XY frame to
    the tangent plane, then [tp2equ] from the tangent plane to the sky.
    The instance is taken with both sub-transforms in place as
    attributes. *)
Record t : Type := mk {
  Verbose : bool;
  parsx : vec;
  parsy : vec;
  tangentpoint : vec;
  polyhasxy0 : bool;
  inds1d_6term : list nat;
  x : vec;
  y : vec;
  covxy : list mat2;
  xy2tp : Poly.t;
  tp2equ : Tan2equ.t
}.

Definition set_pars (pv : Parvec.t) (st : t) : t :=
  mk (Verbose st) (Parvec.parsx pv) (Parvec.parsy pv) (Parvec.tangentpoint pv)
     (Parvec.hasxy0 pv) (Parvec.inds1d_6term pv)
     (x st) (y st) (covxy st) (xy2tp st) (tp2equ st).
Definition set_xy2tp (p : Poly.t) (st : t) : t :=
  mk (Verbose st) (parsx st) (parsy st) (tangentpoint st) (polyhasxy0 st)
     (inds1d_6term st) (x st) (y st) (covxy st) p (tp2equ st).
Definition set_tp2equ (q : Tan2equ.t) (st : t) : t :=
  mk (Verbose st) (parsx st) (parsy st) (tangentpoint st) (polyhasxy0 st)
     (inds1d_6term st) (x st) (y st) (covxy st) (xy2tp st) q.

(** A call on one of the two sub-transforms. *)
Definition on_xy2tp (o : outcome Poly.t) (st : t) : outcome t :=
  match o with
  | Done p => Done (set_xy2tp p st)
  | Raised e p => Raised e (set_xy2tp p st)
  end.
Definition on_tp2equ (o : outcome Tan2equ.t) (st : t) : outcome t :=
  match o with
  | Done q => Done (set_tp2equ q st)
  | Raised e q => Raised e (set_tp2equ q st)
  end.

(** [updatepars]: the attributes of a fresh [Parvec(pars)]; when the
    constructor raises nothing has been assigned yet. *)
Definition updatepars (pars : vec) (st : t) : outcome t :=
  match Parvec.init pars with
  | Done pv => Done (set_pars pv st)
  | Raised e _ => Raised e st
  end.

Section WithBackends.

Variable numpy_other : polykind -> backend.

(** [updatetransf]: new parameters for both sub-transforms. *)
Definition updatetransf (pars : vec) (st : t) : outcome t :=
  if (length pars <? 1)%nat then Done st
  else
    run st := updatepars pars st in
    let parsxy := parsx st ++ parsy st in
    run st := on_xy2tp (Poly.updatetransf numpy_other parsxy (xy2tp st)) st in
    run st := on_xy2tp (Poly.tranpos numpy_other (xy2tp st)) st in
    let q := Tan2equ.set_xy (Poly.xtran (xy2tp st)) (Poly.ytran (xy2tp st)) (tp2equ st) in
    on_tp2equ (Tan2equ.updatetransf (tangentpoint st) q) st.

End WithBackends.

End xy2equ.

(** ** Polynom *)

Module Polynom.

(** The attributes of an instance that take part in positions and
    Jacobians. The positions come as one [N,2] array. *)
Record t : Type := mk {
  x : vec;
  y : vec;
  covxy : list mat2;
  parsx : vec;
  parsy : vec;
  jac : list mat2;
  xtran : vec;
  ytran : vec;
  degrees : bool
}.

Definition set_jac (v_jac : list mat2) (st : t) : t :=
  mk (x st) (y st) (covxy st) (parsx st) (parsy st) v_jac (xtran st) (ytran st) (degrees st).
Definition set_xtran (v_xtran : vec) (st : t) : t :=
  mk (x st) (y st) (covxy st) (parsx st) (parsy st) (jac st) v_xtran (ytran st) (degrees st).
Definition set_ytran (v_ytran : vec) (st : t) : t :=
  mk (x st) (y st) (covxy st) (parsx st) (parsy st) (jac st) (xtran st) v_ytran (degrees st).

(** [Polynom(posxy, covxy, parsx, parsy, degrees)]. *)
Definition init (posxy : list (R * R)) (vcov : list mat2) (vparsx vparsy : vec)
    (deg : bool) : t :=
  mk (map fst posxy) (map snd posxy) vcov vparsx vparsy [] [] [] deg.

(** [z += e] for an expression [e] in both [self.x] and [self.y]: the
    broadcast of the two has to have the shape of [z]. *)
Definition iadd (z : vec) (st : t) (e : R -> R -> R) : result vec :=
  let* pts := broadcast2 (x st) (y st) in
  if (length pts =? length z)%nat
  then Ok (zip_with (fun a pt => a + e (fst pt) (snd pt)) z pts)
  else Err ValueError.

(** [polyval2d]: the polynomial written out term by term up to the fifth
    order, the order being cut by the size of [pars]. *)
Definition polyval2d (st : t) (pars : vec) : result vec :=
  let* p0 := index pars 0 in
  let z := map (fun x => x * 0 + p0) (x st) in
  if (length pars <? 2)%nat then Ok z else
  let* p1 := index pars 1 in
  let* p2 := index pars 2 in
  let* z := iadd z st (fun x y => x * p1 + y * p2) in
  if (length pars <? 6)%nat then Ok z else
  let* p3 := index pars 3 in
  let* p4 := index pars 4 in
  let* p5 := index pars 5 in
  let* z := iadd z st (fun x y => x ^ 2 * p3 + x * y * p4 + y ^ 2 * p5) in
  if (length pars <? 10)%nat then Ok z else
  let* p6 := index pars 6 in
  let* p7 := index pars 7 in
  let* p8 := index pars 8 in
  let* p9 := index pars 9 in
  let* z := iadd z st (fun x y =>
              x ^ 3 * p6 + x ^ 2 * y * p7 + x * y ^ 2 * p8 + y ^ 3 * p9) in
  if (length pars <? 15)%nat then Ok z else
  let* p10 := index pars 10 in
  let* p11 := index pars 11 in
  let* p12 := index pars 12 in
  let* p13 := index pars 13 in
  let* p14 := index pars 14 in
  let* z := iadd z st (fun x y =>
              x ^ 4 * p10 + x ^ 3 * y * p11 + x ^ 2 * y ^ 2 * p12
              + x * y ^ 3 * p13 + y ^ 4 * p14) in
  if (length pars <? 21)%nat then Ok z else
  let* p15 := index pars 15 in
  let* p16 := index pars 16 in
  let* p17 := index pars 17 in
  let* p18 := index pars 18 in
  let* p19 := index pars 19 in
  let* p20 := index pars 20 in
  iadd z st (fun x y =>
    x ^ 5 * p15 + x ^ 4 * y * p16 + x ^ 3 * y ^ 2 * p17
    + x ^ 2 * y ^ 3 * p18 + x * y ^ 4 * p19 + y ^ 5 * p20).

(** [jac2d]: the terms dz/dx and dz/dy of the same polynomial. *)
Definition jac2d (st : t) (pars : vec) : result (vec * vec) :=
  let zx := map (fun x => x * 0) (x st) in
  let zy := map (fun y => y * 0) (y st) in
  if (length pars <? 2)%nat then Ok (zx, zy) else
  let* p1 := index pars 1 in
  let zx := zip_with (fun a x => a + (x * 0 + p1)) zx (x st) in
  let* p2 := index pars 2 in
  let zy := zip_with (fun a y => a + (y * 0 + p2)) zy (y st) in
  if (length pars <? 6)%nat then Ok (zx, zy) else
  let* p3 := index pars 3 in
  let* p4 := index pars 4 in
  let* zx := iadd zx st (fun x y => 2 * x * p3 + y * p4) in
  let* p5 := index pars 5 in
  let* zy := iadd zy st (fun x y => 2 * y * p5 + x * p4) in
  if (length pars <? 10)%nat then Ok (zx, zy) else
  let* p6 := index pars 6 in
  let* p7 := index pars 7 in
  let* p8 := index pars 8 in
  let* zx := iadd zx st (fun x y => 3 * x ^ 2 * p6 + 2 * x * y * p7 + y ^ 2 * p8) in
  let* p9 := index pars 9 in
  let* zy := iadd zy st (fun x y => x ^ 2 * p7 + 2 * y * x * p8 + 3 * y ^ 2 * p9) in
  if (length pars <? 15)%nat then Ok (zx, zy) else
  let* p10 := index pars 10 in
  let* p11 := index pars 11 in
  let* p12 := index pars 12 in
  let* p13 := index pars 13 in
  let* zx := iadd zx st (fun x y =>
               4 * x ^ 3 * p10 + 3 * x ^ 2 * y * p11 + 2 * x * y ^ 2 * p12
               + y ^ 3 * p13) in
  let* p14 := index pars 14 in
  let* zy := iadd zy st (fun x y =>
               x ^ 3 * p11 + 2 * y * x ^ 2 * p12 + 3 * y ^ 2 * x * p13
               + 4 * y ^ 3 * p14) in
  if (length pars <? 21)%nat then Ok (zx, zy) else
  let* p15 := index pars 15 in
  let* p16 := index pars 16 in
  let* p17 := index pars 17 in
  let* p18 := index pars 18 in
  let* p19 := index pars 19 in
  let* zx := iadd zx st (fun x y =>
               5 * x ^ 4 * p15 + 4 * x ^ 3 * y * p16 + 3 * x ^ 2 * y ^ 2 * p17
               + 2 * x * y ^ 3 * p18 + y ^ 4 * p19) in
  let* p20 := index pars 20 in
  let* zy := iadd zy st (fun x y =>
               x ^ 4 * p16 + 2 * y * x ^ 3 * p17 + 3 * y ^ 2 * x ^ 2 * p18
               + 4 * y ^ 3 * x * p19 + 5 * y ^ 4 * p20) in
  Ok (zx, zy).

(** [tranpos]: both polynomials at the instance's positions. *)
Definition tranpos (st : t) : outcome t :=
  match polyval2d st (parsx st) with
  | Err e => Raised e st
  | Ok xt =>
      let st := set_xtran xt st in
      match polyval2d st (parsy st) with
      | Err e => Raised e st
      | Ok yt => Done (set_ytran yt st)
      end
  end.

(** [jac[:, r, c] = v]: [v] has one entry per plane, or a single entry
    that is repeated. *)
Definition fill (n : nat) (v : vec) : result vec :=
  if (length v =? n)%nat then Ok v
  else match v with
       | [a] => Ok (replicate n a)
       | _ => Err ValueError
       end.

Definition assign (f : mat2 -> R -> mat2) (v : vec) (st : t) : outcome t :=
  match fill (length (jac st)) v with
  | Ok a => Done (set_jac (zip_with f (jac st) a) st)
  | Err e => Raised e st
  end.

(** [getjacobian]: a stack of zeros with one plane per position, filled
    from [jac2d] of the two parameter arrays. *)
Definition getjacobian (st : t) : outcome t :=
  let st := set_jac (replicate (length (x st)) (M2 0 0 0 0)) st in
  match jac2d st (parsx st) with
  | Err e => Raised e st
  | Ok (jxix, jxiy) =>
      match jac2d st (parsy st) with
      | Err e => Raised e st
      | Ok (jetax, jetay) =>
          run st := assign (fun J v => M2 v (m01 J) (m10 J) (m11 J)) jxix st in
          run st := assign (fun J v => M2 (m00 J) v (m10 J) (m11 J)) jxiy st in
          run st := assign (fun J v => M2 (m00 J) (m01 J) v (m11 J)) jetax st in
          assign (fun J v => M2 (m00 J) (m01 J) (m10 J) v) jetay st
      end
  end.

End Polynom.

(** ** Sky *)

(** [np.radians] and [np.degrees]. *)
Definition np_radians (x : R) : R := x * (PI / 180).
Definition np_degrees (x : R) : R := x * (180 / PI).

Module Sky.

(** The positions are [N,2] arrays, one row per object, in degrees; the
    empty list is the 1-D [np.array([])] of the constructor's defaults. *)
Record t : Type := mk {
  possky : list (R * R);
  covsky : list mat2;
  tpoint : vec;            (* tangent point, degrees *)
  postan : list (R * R);
  covtan : list mat2;
  j2sky : list mat2;       (* dalpha/dxi, etc. *)
  j2tan : list mat2        (* dxi/dalpha, etc. *)
}.

Definition set_possky (v : list (R * R)) (st : t) : t :=
  mk v (covsky st) (tpoint st) (postan st) (covtan st) (j2sky st) (j2tan st).
Definition set_postan (v : list (R * R)) (st : t) : t :=
  mk (possky st) (covsky st) (tpoint st) v (covtan st) (j2sky st) (j2tan st).
Definition set_j2sky (v : list mat2) (st : t) : t :=
  mk (possky st) (covsky st) (tpoint st) (postan st) (covtan st) v (j2tan st).
Definition set_j2tan (v : list mat2) (st : t) : t :=
  mk (possky st) (covsky st) (tpoint st) (postan st) (covtan st) (j2sky st) v.

(** [Sky(possky, covsky, tpoint, postan, covtan)]. *)
Definition init (vsky : list (R * R)) (vcovsky : list mat2) (vtpoint : vec)
    (vtan : list (R * R)) (vcovtan : list mat2) : t :=
  mk vsky vcovsky vtpoint vtan vcovtan [] [].

(** [pos[:,0]] and [pos[:,1]]: the two columns, kept as rows. The 1-D empty
    array has no second axis, and two indices raise IndexError. *)
Definition columns (pos : list (R * R)) : result (list (R * R)) :=
  match pos with
  | [] => Err IndexError
  | _ :: _ => Ok pos
  end.

(** [sky2tan]: sky to tangent plane, in and out in degrees. The tangent
    point is read before the positions. *)
Definition sky2tan (st : t) : outcome t :=
  match index (tpoint st) 0 with
  | Err e => Raised e st
  | Ok a0 =>
      match index (tpoint st) 1 with
      | Err e => Raised e st
      | Ok d0 =>
          match columns (possky st) with
          | Err e => Raised e st
          | Ok rows =>
              let alpha0 := np_radians a0 in
              let delta0 := np_radians d0 in
              Done (set_postan
                      (map (fun row =>
                              let alpha := np_radians (fst row) in
                              let delta := np_radians (snd row) in
                              let denom := cos (alpha - alpha0) * cos delta * cos delta0
                                           + sin delta * sin delta0 in
                              let xi := cos delta * sin (alpha - alpha0) / denom in
                              let eta := (cos delta0 * sin delta
                                          - cos (alpha - alpha0) * cos delta * sin delta0)
                                         / denom in
                              (np_degrees xi, np_degrees eta))
                           rows) st)
          end
      end
  end.

(** [tan2sky]: tangent plane to sky, in and out in degrees. The positions
    are read before the tangent point. *)
Definition tan2sky (st : t) : outcome t :=
  match columns (postan st) with
  | Err e => Raised e st
  | Ok rows =>
      match index (tpoint st) 0 with
      | Err e => Raised e st
      | Ok a0 =>
          match index (tpoint st) 1 with
          | Err e => Raised e st
          | Ok d0 =>
              let alpha0 := np_radians a0 in
              let delta0 := np_radians d0 in
              Done (set_possky
                      (map (fun row =>
                              let xi := np_radians (fst row) in
                              let eta := np_radians (snd row) in
                              let gamma := cos delta0 - eta * sin delta0 in
                              let alphaf := alpha0 + atan (xi / gamma) in
                              let deltaf := atan ((eta * cos delta0 + sin delta0) /
                                                  sqrt (xi ^ 2 + gamma ^ 2)) in
                              (np_degrees alphaf, np_degrees deltaf))
                           rows) st)
          end
      end
  end.

(** [jac2sky]: the stack d(alpha, delta)/d(xi, eta) at the tangent-plane
    positions. *)
Definition jac2sky (st : t) : outcome t :=
  match columns (postan st) with
  | Err e => Raised e st
  | Ok rows =>
      match index (tpoint st) 0 with
      | Err e => Raised e st
      | Ok a0 =>
          match index (tpoint st) 1 with
          | Err e => Raised e st
          | Ok d0 =>
              let delta0 := np_radians d0 in
              Done (set_j2sky
                      (map (fun row =>
                              let xi := np_radians (fst row) in
                              let eta := np_radians (snd row) in
                              let denom00 := (cos delta0 - eta * sin delta0) *
                                             (1 + (xi / (cos delta0 - eta * sin delta0)) ^ 2) in
                              let J_ax := 1 / denom00 in
                              let denom01 := xi ^ 2 + (cos delta0) ^ 2
                                             - 2 * eta * cos delta0 * sin delta0
                                             + eta ^ 2 * (sin delta0) ^ 2 in
                              let J_ay := xi * sin delta0 / denom01 in
                              let denom10 := (1 + xi ^ 2 + eta ^ 2) *
                                             sqrt (xi ^ 2 + (cos delta0 - eta * sin delta0) ^ 2) in
                              let J_dx := 0 - xi * (eta * cos delta0 + sin delta0) / denom10 in
                              let J_dy := ((1 + xi ^ 2) * cos delta0 - eta * sin delta0)
                                          / denom10 in
                              M2 J_ax J_ay J_dx J_dy)
                           rows) st)
          end
      end
  end.

(** [jac2tan]: the stack d(xi, eta)/d(alpha, delta) at the sky
    positions. *)
Definition jac2tan (st : t) : outcome t :=
  match columns (possky st) with
  | Err e => Raised e st
  | Ok rows =>
      match index (tpoint st) 0 with
      | Err e => Raised e st
      | Ok a0 =>
          match index (tpoint st) 1 with
          | Err e => Raised e st
          | Ok d0 =>
              let alpha0 := np_radians a0 in
              let delta0 := np_radians d0 in
              Done (set_j2tan
                      (map (fun row =>
                              let alpha := np_radians (fst row) in
                              let delta := np_radians (snd row) in
                              let denom := (cos (alpha - alpha0) * cos delta * cos delta0
                                            + sin delta * sin delta0) ^ 2 in
                              let J_xia := cos delta * (cos delta * cos delta0
                                             + cos (alpha - alpha0) * sin delta * sin delta0)
                                           / denom in
                              let J_xid := 0 - sin (alpha - alpha0) * sin delta0 / denom in
                              let J_etaa := 0.5 * sin (alpha - alpha0) * sin (2 * delta)
                                            / denom in
                              let J_etad := cos (alpha - alpha0) / denom in
                              M2 J_xia J_xid J_etaa J_etad)
                           rows) st)
          end
      end
  end.

End Sky.

(** The range in which the gnomonic pair is used: the point lies within a
    quarter turn of the tangent point in right ascension, away from the
    poles, and on the hemisphere of the tangent point (angles in radians). *)
Definition gnomonic_range (alpha0 delta0 alpha delta : R) : Prop :=
  - (PI / 2) < alpha - alpha0 < PI / 2 /\
  - (PI / 2) < delta < PI / 2 /\
  0 < cos (alpha - alpha0) * cos delta * cos delta0 + sin delta * sin delta0.

(** ** Invariants and specification predicates *)

(** A 2D array of shape [(r, c)]. *)
Definition rect (r c : nat) (a : arr2d) : Prop :=
  length a = r /\ Forall (fun row => length row = c) a.

(** A [Polycoeffs] of degree [d]: powers from [ijfromdeg] and a 2D array
    of shape [(d+1, d+1)]. *)
Definition coeffs_wf (d : nat) (pc : Polycoeffs.t) : Prop :=
  Polycoeffs.deg pc = Z.of_nat d /\
  Polycoeffs.i pc = fst (Polycoeffs.ijfromdeg (Z.of_nat d)) /\
  Polycoeffs.j pc = snd (Polycoeffs.ijfromdeg (Z.of_nat d)) /\
  rect (d + 1) (d + 1) (Polycoeffs.p2d pc).

(** The 2D array holds the flat coefficients at the leading powers (for a
    degree that [updatecoeffs2d] writes). *)
Definition populated (pc : Polycoeffs.t) : Prop :=
  (1 <= Polycoeffs.deg pc)%Z ->
  exists a0,
    Polycoeffs.p2d pc =
    scatter2d (take (length (Polycoeffs.p pc)) (Polycoeffs.i pc))
              (take (length (Polycoeffs.p pc)) (Polycoeffs.j pc))
              (Polycoeffs.p pc) a0.

(** A Polynomial-basis [Poly] of degree [d] whose positions come in
    pairs. *)
Definition Poly_wf (d : nat) (st : Poly.t) : Prop :=
  Poly.kind st = Polynomial /\
  coeffs_wf d (Poly.pars2x st) /\
  coeffs_wf d (Poly.pars2y st) /\
  length (Poly.x st) = length (Poly.y st) /\
  length (Poly.xr st) = length (Poly.yr st).

(** What [Poly.updatetransf] leaves after a parameter vector [pars]: the
    two halves, both coefficient objects, the derivative coefficients and,
    where a Jacobian had been set up, the Jacobian. *)
Definition refreshed (other : polykind -> backend) (pars : vec)
    (st st' : Poly.t) : Prop :=
  Poly.parsx st' = take (length pars / 2) pars /\
  Poly.parsy st' = drop (length pars / 2) pars /\
  Polycoeffs.p (Poly.pars2x st') = Poly.parsx st' /\
  Polycoeffs.p (Poly.pars2y st') = Poly.parsy st' /\
  populated (Poly.pars2x st') /\
  populated (Poly.pars2y st') /\
  Poly.derivcoeffs other st' (Polycoeffs.p2d (Poly.pars2x st')) =
    (Poly.cxx st', Poly.cxy st') /\
  Poly.derivcoeffs other st' (Polycoeffs.p2d (Poly.pars2y st')) =
    (Poly.cyx st', Poly.cyy st') /\
  ((2 <= Poly.size_stack (Poly.jacpoly st))%nat ->
   Poly.evaluatejacpoly other st' (Poly.xr st') (Poly.yr st') = Ok (Poly.jacpoly st') /\
   (Poly.jacpoly st' <> [] ->
    Poly.jac st' = map (mat2_mul (Poly.jacrescale st')) (Poly.jacpoly st'))).

(** The powers of one total degree [t], and of all degrees up to [d]. *)
Definition block (t : nat) : list (nat * nat) :=
  zip (rev (arange (t + 1))) (arange (t + 1)).

Definition pairs (d : nat) : list (nat * nat) :=
  flat_map block (seq 0 (d + 1)).

(** The basis values [x^i * y^j] and the entries [c[i, j]] over the powers
    with [i + j <= d], in the order of the columns of the pattern matrix
    (by [i], then by [j]). *)
Definition monomials (d : nat) (x y : R) : vec :=
  flat_map (fun i => map (fun j => x ^ i * y ^ j) (seq 0 (d + 1 - i))) (seq 0 (d + 1)).
Definition triangle (d : nat) (c : arr2d) : vec :=
  flat_map (fun i => map (get2d c i) (seq 0 (d + 1 - i))) (seq 0 (d + 1)).

(** A 2-D coefficient array with nothing above total degree [d]. *)
Definition triangular (d : nat) (c : arr2d) : Prop :=
  forall i j, (d < i + j)%nat -> get2d c i j = 0.

(** ** Example instances *)

(** A backend table for when only the Polynomial family is at hand. *)
Definition polynomial_only : polykind -> backend := fun _ => numpy_polynomial.

(** [Poly(x=[0.], y=[0.], parsx=[0.,0.,1.], parsy=[0.,1.,0.],
    kindpoly='Polynomial', xmin=-1., xmax=1., ymin=-2., ymax=2.)]: the
    degree-1 map (x, y) -> (yr, xr) on a domain twice as high as wide. *)
Definition example_poly (other : polykind -> backend) : Poly.t :=
  state_of (Poly.init other [0] [0] [] [0; 0; 1] [0; 1; 0] (Some Polynomial) false
              (Some (-1)) (Some 1) (Some (-2)) (Some 2) false).

(** The first output of [propxy] at one point, as a function of the
    point. *)
Definition propxy_x (other : polykind -> backend) (st : Poly.t) (x y : R) : R :=
  match Poly.propxy other st [x] [y] with
  | Ok (xt :: _, _) => xt
  | _ => 0
  end.

Definition propxy_y (other : polykind -> backend) (st : Poly.t) (x y : R) : R :=
  match Poly.propxy other st [x] [y] with
  | Ok (_, yt :: _) => yt
  | _ => 0
  end.

(** [Tan2equ] and [Equ2tan] on the single position (0, 0) with tangent
    point (0, 0), in radians. *)
Definition example_tan2equ : Tan2equ.t :=
  state_of (Tan2equ.init [0] [0] [] [0; 0] false true).

Definition example_equ2tan : Equ2tan.t :=
  state_of (Equ2tan.init [0] [0] [] [0; 0] false true).

(** An [xy2equ] whose sub-transforms are the two examples above. *)
Definition example_xy2equ : xy2equ.t :=
  xy2equ.mk false [0; 0; 1] [0; 1; 0] [0; 0] true [] [0] [0] []
            (example_poly polynomial_only) example_tan2equ.

(** A Vandermonde table for when only the Polynomial family is at hand. *)
Definition polynomial_vander_only : polykind -> vec -> vec -> nat -> result arr2d :=
  fun _ => polyvander2d.

(** Two instances with the same flat parameter arrays. *)
Definition same_pars (s s' : Poly.t) : Prop :=
  Poly.parsx s' = Poly.parsx s /\ Poly.parsy s' = Poly.parsy s.

(** A [Polynom] on the single position (x, y), and the value of its
    polynomial there as a function of the position. *)
Definition Polynom_at (x y : R) : Polynom.t := Polynom.init [(x, y)] [] [] [] true.

Definition Polynom_value (pars : vec) (x y : R) : R :=
  match Polynom.polyval2d (Polynom_at x y) pars with
  | Ok (z :: _) => z
  | _ => 0
  end.

(** The polynomial with coefficients [pars] over the powers of
    [ijfromdeg(d)]: the sum of [pars[k] * x^i[k] * y^j[k]]. *)
Definition flatpoly (d : nat) (pars : vec) (x y : R) : R :=
  dot pars (map (fun ij => x ^ fst ij * y ^ snd ij) (pairs d)).

(** The outputs of [Tan2equ.propxy] and of [Equ2tan.propxy] at one
    position, as functions of the position. *)
Definition Tan2equ_ra (st : Tan2equ.t) (x y : R) : R :=
  match Tan2equ.propxy st [x] [y] with
  | Ok (a :: _, _) => a
  | _ => 0
  end.

Definition Tan2equ_dec (st : Tan2equ.t) (x y : R) : R :=
  match Tan2equ.propxy st [x] [y] with
  | Ok (_, d :: _) => d
  | _ => 0
  end.

Definition Equ2tan_xi (st : Equ2tan.t) (x y : R) : R :=
  match Equ2tan.propxy st [x] [y] with
  | Ok (a :: _, _) => a
  | _ => 0
  end.

Definition Equ2tan_eta (st : Equ2tan.t) (x y : R) : R :=
  match Equ2tan.propxy st [x] [y] with
  | Ok (_, d :: _) => d
  | _ => 0
  end.

(** The order of the polynomial that [Polynom.polyval2d] and [jac2d]
    evaluate, by the size of [pars]. *)
Definition Polynom_order (n : nat) : nat :=
  if (n <? 2)%nat then 0%nat
  else if (n <? 6)%nat then 1%nat
  else if (n <? 10)%nat then 2%nat
  else if (n <? 15)%nat then 3%nat
  else if (n <? 21)%nat then 4%nat
  else 5%nat.

(** The powers with [i + j <= d] in the order of the rows of the 2-D
    coefficient array: by [i], then by [j]. *)
Definition rowpairs (d : nat) : list (nat * nat) :=
  flat_map (fun i => map (pair i) (seq 0 (d + 1 - i))) (seq 0 (d + 1)).

(** A 2x2 matrix is positive semidefinite: it is symmetric and its
    quadratic form is nowhere negative. *)
Definition mat2_psd (A : mat2) : Prop :=
  mat2_sym A /\
  forall u v : R,
    0 <= u * (m00 A * u + m01 A * v) + v * (m10 A * u + m11 A * v).

(** * Properties *)

(** ** Arrays *)

Lemma rect_zeros2d r c : rect r c (zeros2d r c).
Proof.
  split.
  - apply length_replicate.
  - apply Forall_replicate. apply length_replicate.
Qed.

Lemma rect_set2d r c a i j v : rect r c a -> rect r c (set2d i j v a).
Proof.
  intros [Hl Hf]. unfold set2d.
  destruct (a !! i) as [row|] eqn:Hi; [|split; assumption].
  split.
  - rewrite length_insert. exact Hl.
  - apply Forall_insert; [exact Hf|].
    rewrite length_insert.
    rewrite Forall_lookup in Hf. eapply Hf; eauto.
Qed.

Lemma rect_scatter2d r c I : forall J V a,
  rect r c a -> rect r c (scatter2d I J V a).
Proof.
  induction I as [|i I IH]; intros J V a Ha; simpl; [exact Ha|].
  destruct J as [|j J]; [exact Ha|].
  destruct V as [|v V]; [exact Ha|].
  apply IH. apply rect_set2d. exact Ha.
Qed.

Lemma get2d_set2d_eq r c a i j v :
  rect r c a -> (i < r)%nat -> (j < c)%nat -> get2d (set2d i j v a) i j = v.
Proof.
  intros Ha Hi Hj. unfold set2d, get2d.
  destruct Ha as [Hl Hf].
  destruct (lookup_lt_is_Some_2 a i) as [row Hrow]; [lia|].
  rewrite Hrow.
  rewrite list_lookup_insert_eq by lia.
  rewrite Forall_lookup in Hf. specialize (Hf _ _ Hrow). simpl in Hf.
  rewrite list_lookup_insert_eq by lia. reflexivity.
Qed.

Lemma get2d_set2d_ne a i j v i' j' :
  (i, j) <> (i', j') -> get2d (set2d i j v a) i' j' = get2d a i' j'.
Proof.
  intros Hne. unfold set2d, get2d.
  destruct (a !! i) as [row|] eqn:Hi; [|reflexivity].
  destruct (decide (i = i')) as [->|Hii].
  - rewrite Hi.
    rewrite list_lookup_insert_eq by (eapply lookup_lt_Some; eauto).
    rewrite list_lookup_insert_ne by congruence. reflexivity.
  - rewrite list_lookup_insert_ne by assumption. reflexivity.
Qed.

Lemma get2d_scatter2d_notin I : forall J V a i j,
  (i, j) ∉ zip I J -> get2d (scatter2d I J V a) i j = get2d a i j.
Proof.
  induction I as [|i0 I IH]; intros J V a i j Hnotin; simpl; [reflexivity|].
  destruct J as [|j0 J]; [reflexivity|].
  destruct V as [|v0 V]; [reflexivity|].
  simpl in Hnotin. apply not_elem_of_cons in Hnotin as [Hne Hnotin].
  rewrite IH by assumption.
  apply get2d_set2d_ne. congruence.
Qed.

Lemma get2d_scatter2d_in r c I : forall J V a k i j v,
  rect r c a ->
  NoDup (zip I J) ->
  zip I J !! k = Some (i, j) ->
  V !! k = Some v ->
  (i < r)%nat -> (j < c)%nat ->
  get2d (scatter2d I J V a) i j = v.
Proof.
  induction I as [|i0 I IH]; intros J V a k i j v Ha Hnd Hk Hv Hi Hj;
    simpl in *; [discriminate|].
  destruct J as [|j0 J]; [discriminate|].
  destruct V as [|v0 V]; [destruct k; discriminate|].
  simpl in Hnd. apply NoDup_cons in Hnd as [Hnotin Hnd].
  destruct k as [|k]; simpl in *.
  - injection Hk as -> ->. injection Hv as ->.
    rewrite get2d_scatter2d_notin by assumption.
    eapply get2d_set2d_eq; eauto.
  - eapply IH; eauto. apply rect_set2d. exact Ha.
Qed.

(** ** Polycoeffs: degree and powers *)

Lemma double_ncoeffs d : (2 * ncoeffs d = (d + 1) * (d + 2))%nat.
Proof.
  unfold ncoeffs.
  assert (H : exists k, ((d + 1) * (d + 2) = 2 * k)%nat).
  { induction d as [|d [k Hk]].
    - exists 1%nat. reflexivity.
    - exists (k + d + 2)%nat. lia. }
  destruct H as [k ->].
  rewrite (Nat.mul_comm 2 k), Nat.div_mul by lia. lia.
Qed.

Lemma ncoeffs_S d : ncoeffs (S d) = (ncoeffs d + (d + 2))%nat.
Proof.
  pose proof (double_ncoeffs d). pose proof (double_ncoeffs (S d)). lia.
Qed.

Lemma double_ncoeffs_INR d : 2 * INR (ncoeffs d) = (INR d + 1) * (INR d + 2).
Proof.
  pose proof (double_ncoeffs d) as H.
  apply (f_equal INR) in H.
  rewrite !mult_INR, !plus_INR in H. simpl in H. lra.
Qed.

Lemma degfromcoeffs_ncoeffs d :
  Polycoeffs.degfromcoeffs (INR (ncoeffs d)) = INR d.
Proof.
  unfold Polycoeffs.degfromcoeffs.
  pose proof (double_ncoeffs_INR d) as H.
  pose proof (pos_INR d) as Hd.
  replace (9 + 8 * (INR (ncoeffs d) - 1))
    with ((2 * INR d + 3) * (2 * INR d + 3)) by nra.
  rewrite sqrt_square by lra. lra.
Qed.

Lemma py_int_INR n : Polycoeffs.py_int (INR n) = Z.of_nat n.
Proof.
  unfold Polycoeffs.py_int.
  destruct (Rle_dec 0 (INR n)) as [_|Hn].
  - apply Int_part_INR.
  - exfalso. apply Hn. apply pos_INR.
Qed.

Lemma assigndeg_ncoeffs pc d :
  length (Polycoeffs.p pc) = ncoeffs d ->
  Polycoeffs.assigndeg pc = Polycoeffs.set_deg (Z.of_nat d) pc.
Proof.
  intros Hlen. unfold Polycoeffs.assigndeg.
  rewrite Hlen, degfromcoeffs_ncoeffs, py_int_INR, <- INR_IZR_INZ.
  replace (INR d - INR d) with 0 by lra.
  rewrite Rabs_R0.
  destruct (Rlt_dec (1 / 1000) 0) as [H|_]; [lra|reflexivity].
Qed.

Lemma ijfromdeg_loop_flat ts : forall ia ja,
  Polycoeffs.ijfromdeg_loop ts ia ja =
  (ia ++ flat_map (fun t => rev (arange (t + 1))) ts,
   ja ++ flat_map (fun t => arange (t + 1)) ts).
Proof.
  induction ts as [|t ts IH]; intros ia ja; simpl.
  - rewrite !app_nil_r. reflexivity.
  - rewrite IH, <- !app_assoc. reflexivity.
Qed.

Lemma ijfromdeg_nat d :
  Polycoeffs.ijfromdeg (Z.of_nat d) =
  (flat_map (fun t => rev (arange (t + 1))) (seq 0 (d + 1)),
   flat_map (fun t => arange (t + 1)) (seq 0 (d + 1))).
Proof.
  unfold Polycoeffs.ijfromdeg, range.
  replace (Z.to_nat (Z.of_nat d + 1)) with (d + 1)%nat by lia.
  rewrite ijfromdeg_loop_flat. reflexivity.
Qed.

Lemma zip_flat_map {A B C : Type} (f : C -> list A) (g : C -> list B) ts :
  (forall t, length (f t) = length (g t)) ->
  zip (flat_map f ts) (flat_map g ts) = flat_map (fun t => zip (f t) (g t)) ts.
Proof.
  intros Hlen. induction ts as [|t ts IH]; simpl; [reflexivity|].
  rewrite zip_with_app by apply Hlen. rewrite IH. reflexivity.
Qed.

Lemma zip_ijfromdeg d :
  zip (fst (Polycoeffs.ijfromdeg (Z.of_nat d)))
      (snd (Polycoeffs.ijfromdeg (Z.of_nat d))) = pairs d.
Proof.
  rewrite ijfromdeg_nat. simpl fst. simpl snd.
  rewrite zip_flat_map; [reflexivity|].
  intros t. rewrite length_rev. reflexivity.
Qed.

Lemma zip_rev_seq n : forall s,
  zip (rev (seq 0 n)) (seq s n) =
  map (fun k => (n - 1 - k, s + k)%nat) (seq 0 n).
Proof.
  induction n as [|n IH]; intros s; [reflexivity|].
  rewrite (seq_S n 0), rev_unit. simpl seq at 1. simpl zip_with.
  rewrite IH.
  rewrite <- seq_S. simpl seq. simpl map.
  f_equal; [f_equal; lia|].
  rewrite <- seq_shift, map_map.
  apply map_ext. intros k. f_equal; lia.
Qed.

Lemma block_eq t : block t = map (fun k => (t - k, k)%nat) (seq 0 (S t)).
Proof.
  unfold block, arange. rewrite Nat.add_1_r, zip_rev_seq.
  apply map_ext. intros k. f_equal; lia.
Qed.

Lemma elem_of_block a b t : (a, b) ∈ block t -> (a + b = t)%nat.
Proof.
  rewrite block_eq, list_elem_of_In, in_map_iff.
  intros [k [Hk Hin]]. apply in_seq in Hin.
  injection Hk as <- <-. lia.
Qed.

Lemma NoDup_block t : NoDup (block t).
Proof.
  rewrite block_eq.
  apply (NoDup_fmap_1 snd).
  change (NoDup (map snd (map (fun k => (t - k, k)%nat) (seq 0 (S t))))).
  rewrite map_map.
  erewrite map_ext; [rewrite map_id; apply NoDup_ListNoDup, seq_NoDup|].
  reflexivity.
Qed.

Lemma pairs_S d : pairs (S d) = pairs d ++ block (S d).
Proof.
  unfold pairs. rewrite (Nat.add_1_r (S d)), seq_S, flat_map_app.
  simpl. rewrite app_nil_r, Nat.add_1_r. reflexivity.
Qed.

Lemma elem_of_pairs a b d : (a, b) ∈ pairs d -> (a + b <= d)%nat.
Proof.
  unfold pairs. rewrite list_elem_of_In, in_flat_map.
  intros [t [Ht Hin]]. apply in_seq in Ht.
  apply list_elem_of_In, elem_of_block in Hin. lia.
Qed.

Lemma NoDup_pairs d : NoDup (pairs d).
Proof.
  induction d as [|d IH].
  - exact (NoDup_block 0).
  - rewrite pairs_S. apply NoDup_app. split; [exact IH|]. split.
    + intros [a b] Hin Hin'.
      apply elem_of_pairs in Hin. apply elem_of_block in Hin'. lia.
    + apply NoDup_block.
Qed.

Lemma length_pairs d : length (pairs d) = ncoeffs d.
Proof.
  induction d as [|d IH].
  - reflexivity.
  - rewrite pairs_S, length_app, IH, ncoeffs_S, block_eq, length_map, length_seq.
    lia.
Qed.

Lemma length_ijfromdeg d :
  length (fst (Polycoeffs.ijfromdeg (Z.of_nat d))) = ncoeffs d /\
  length (snd (Polycoeffs.ijfromdeg (Z.of_nat d))) = ncoeffs d.
Proof.
  assert (Heq : length (fst (Polycoeffs.ijfromdeg (Z.of_nat d))) =
                length (snd (Polycoeffs.ijfromdeg (Z.of_nat d)))).
  { rewrite ijfromdeg_nat. simpl fst. simpl snd.
    induction (seq 0 (d + 1)) as [|t ts IH]; simpl; [reflexivity|].
    rewrite !length_app, length_rev, IH. reflexivity. }
  pose proof (length_pairs d) as Hp.
  rewrite <- zip_ijfromdeg, length_zip_with in Hp. lia.
Qed.

Lemma Forall_ijfromdeg d :
  Forall (fun a => (a < d + 1)%nat) (fst (Polycoeffs.ijfromdeg (Z.of_nat d))) /\
  Forall (fun b => (b < d + 1)%nat) (snd (Polycoeffs.ijfromdeg (Z.of_nat d))).
Proof.
  destruct (length_ijfromdeg d) as [Hi Hj].
  pose proof (zip_ijfromdeg d) as Hz.
  set (ia := fst (Polycoeffs.ijfromdeg (Z.of_nat d))) in *.
  set (ja := snd (Polycoeffs.ijfromdeg (Z.of_nat d))) in *.
  split; apply Forall_lookup; intros k x Hk.
  - destruct (lookup_lt_is_Some_2 ja k) as [y Hy].
    { rewrite Hj, <- Hi. eapply lookup_lt_Some; eauto. }
    assert (Hin : (x, y) ∈ pairs d).
    { rewrite <- Hz. apply list_elem_of_lookup. exists k.
      apply lookup_zip_with_Some. eauto. }
    apply elem_of_pairs in Hin. lia.
  - destruct (lookup_lt_is_Some_2 ia k) as [y Hy].
    { rewrite Hi, <- Hj. eapply lookup_lt_Some; eauto. }
    assert (Hin : (y, x) ∈ pairs d).
    { rewrite <- Hz. apply list_elem_of_lookup. exists k.
      apply lookup_zip_with_Some. eauto. }
    apply elem_of_pairs in Hin. lia.
Qed.

Lemma inbounds2d_true r c a I J :
  rect r c a -> (0 < r)%nat ->
  Forall (fun i => (i < r)%nat) I -> Forall (fun j => (j < c)%nat) J ->
  inbounds2d a I J = true.
Proof.
  intros [Hl Hf] Hr HI HJ. unfold inbounds2d.
  assert (Hc : ncols a = c).
  { destruct a as [|row a]; simpl in *; [lia|].
    apply Forall_cons in Hf as [Hrow _]. exact Hrow. }
  apply andb_true_iff. split; apply forallb_forall; intros x Hx.
  - apply Nat.ltb_lt. unfold nrows. rewrite Hl.
    rewrite Forall_forall in HI. apply HI, list_elem_of_In, Hx.
  - apply Nat.ltb_lt. rewrite Hc.
    rewrite Forall_forall in HJ. apply HJ, list_elem_of_In, Hx.
Qed.

Lemma readback_scatter2d r c I J (V : vec) a :
  rect r c a -> NoDup (zip I J) ->
  length I = length V -> length J = length V ->
  Forall (fun i => (i < r)%nat) I -> Forall (fun j => (j < c)%nat) J ->
  map (fun ij => get2d (scatter2d I J V a) (fst ij) (snd ij)) (zip I J) = V.
Proof.
  intros Ha Hnd HlI HlJ HI HJ.
  apply list_eq. intros k.
  change (map ?f ?l) with (f <$> l).
  rewrite list_lookup_fmap.
  destruct (zip I J !! k) as [[i j]|] eqn:Hk; simpl.
  - pose proof Hk as Hk'.
    apply lookup_zip_with_Some in Hk' as (x & y & Hxy & Hx & Hy).
    injection Hxy as -> ->.
    destruct (lookup_lt_is_Some_2 V k) as [v Hv].
    { rewrite <- HlI. eapply lookup_lt_Some; eauto. }
    rewrite Hv. f_equal.
    eapply get2d_scatter2d_in; eauto.
    + rewrite Forall_lookup in HI. eapply HI; eauto.
    + rewrite Forall_lookup in HJ. eapply HJ; eauto.
  - symmetry. apply lookup_ge_None.
    apply lookup_ge_None in Hk. rewrite length_zip_with in Hk. lia.
Qed.

(** A vector of the length of a degree [d >= 1] is scattered into a zero
    array of shape [(d+1, d+1)] at the powers of [ijfromdeg]. *)
Lemma Polycoeffs_init_pos d v verbose :
  (1 <= d)%nat -> length v = ncoeffs d ->
  Polycoeffs.init v verbose =
  Done (Polycoeffs.mk v verbose
          (scatter2d (fst (Polycoeffs.ijfromdeg (Z.of_nat d)))
                     (snd (Polycoeffs.ijfromdeg (Z.of_nat d)))
                     v (zeros2d (d + 1) (d + 1)))
          (Z.of_nat d)
          (fst (Polycoeffs.ijfromdeg (Z.of_nat d)))
          (snd (Polycoeffs.ijfromdeg (Z.of_nat d)))).
Proof.
  intros Hd Hlen. unfold Polycoeffs.init.
  rewrite (assigndeg_ncoeffs _ d) by exact Hlen.
  unfold Polycoeffs.assignij, Polycoeffs.set_deg. simpl Polycoeffs.deg.
  destruct (length_ijfromdeg d) as [Hi Hj].
  destruct (Forall_ijfromdeg d) as [HFi HFj].
  destruct (Polycoeffs.ijfromdeg (Z.of_nat d)) as [ia ja] eqn:Hij.
  simpl fst in *. simpl snd in *.
  unfold Polycoeffs.initcoeffs2d, Polycoeffs.set_ij, Polycoeffs.set_p2d.
  simpl. unfold Polycoeffs.updatecoeffs2d. simpl.
  replace (Z.of_nat d <? 1)%Z with false by (symmetry; apply Z.ltb_ge; lia).
  replace (Z.to_nat (Z.of_nat d + 1)) with (d + 1)%nat by lia.
  rewrite Hlen, Hi, Hj, Nat.leb_refl. simpl.
  rewrite (take_ge ia), (take_ge ja) by lia.
  rewrite (inbounds2d_true (d + 1) (d + 1)); auto using rect_zeros2d.
  lia.
Qed.

Lemma Polycoeffs_readback_pos d v verbose :
  (1 <= d)%nat -> length v = ncoeffs d ->
  Polycoeffs.readback (state_of (Polycoeffs.init v verbose)) = v.
Proof.
  intros Hd Hlen. rewrite (Polycoeffs_init_pos d) by assumption.
  unfold Polycoeffs.readback. simpl.
  destruct (length_ijfromdeg d) as [Hi Hj].
  destruct (Forall_ijfromdeg d) as [HFi HFj].
  pose proof (zip_ijfromdeg d) as Hz. pose proof (NoDup_pairs d) as Hnd.
  destruct (Polycoeffs.ijfromdeg (Z.of_nat d)) as [ia ja] eqn:Hij.
  simpl fst in *. simpl snd in *.
  apply (readback_scatter2d (d + 1) (d + 1)); auto using rect_zeros2d.
  - rewrite Hz. exact Hnd.
  - congruence.
  - congruence.
Qed.

(** A one-element vector has degree 0, and [updatecoeffs2d] returns before
    writing it. *)
Lemma Polycoeffs_init_deg0 v verbose :
  length v = 1%nat ->
  Polycoeffs.init v verbose = Done (Polycoeffs.mk v verbose [[0]] 0 [0%nat] [0%nat]).
Proof.
  intros Hlen. unfold Polycoeffs.init.
  rewrite (assigndeg_ncoeffs _ 0) by exact Hlen.
  reflexivity.
Qed.

(** C5 (code defect): the one-element vector [5.] has the valid length of
    degree 0 and its degree is inferred as 0, not -1, yet the 2D array is
    left at zero: [updatecoeffs2d] tests [deg < 1] where its own warning
    says "degree < 0". *)
Theorem updatecoeffs2d_skips_degree0 :
  length [5] = ncoeffs 0 /\
  Polycoeffs.init [5] true = Done (Polycoeffs.mk [5] true [[0]] 0 [0%nat] [0%nat]) /\
  get2d (Polycoeffs.p2d (state_of (Polycoeffs.init [5] true))) 0 0 <> 5.
Proof.
  split; [reflexivity|].
  rewrite (Polycoeffs_init_deg0 [5] true) by reflexivity.
  split; [reflexivity|].
  simpl. unfold get2d. simpl. lra.
Qed.

(** C6 (code defect): for the valid degree 0, reading the 2D array of
    [Polycoeffs([5.])] back at the powers of [ijfromdeg(0)] gives [0.],
    not the vector it was built from. *)
Theorem readback_degree0_loses_vector :
  Polycoeffs.ijfromdeg 0 = ([0%nat], [0%nat]) /\
  Polycoeffs.readback (state_of (Polycoeffs.init [5] true)) = [0] /\
  Polycoeffs.readback (state_of (Polycoeffs.init [5] true)) <> [5].
Proof.
  split; [reflexivity|].
  rewrite (Polycoeffs_init_deg0 [5] true) by reflexivity.
  split; [reflexivity|].
  unfold Polycoeffs.readback. simpl. unfold get2d. simpl.
  intros H. injection H as H. lra.
Qed.

(** ** Parvec *)

Lemma ncoeffs_lower d : (d + 1 <= ncoeffs d)%nat.
Proof. pose proof (double_ncoeffs d). nia. Qed.

Lemma is_ncoeffs_spec m : is_ncoeffs m = true <-> exists d, m = ncoeffs d.
Proof.
  unfold is_ncoeffs. rewrite existsb_exists. split.
  - intros [d [_ Hd]]. exists d. apply Nat.eqb_eq in Hd. auto.
  - intros [d ->]. exists d. split.
    + apply in_seq. pose proof (ncoeffs_lower d). lia.
    + apply Nat.eqb_refl.
Qed.

Lemma degfromcoeffs_nonneg m : (1 <= m)%nat -> 0 <= Polycoeffs.degfromcoeffs (INR m).
Proof.
  intros Hm. unfold Polycoeffs.degfromcoeffs.
  assert (H1 : 1 <= INR m) by (change 1 with (INR 1); apply le_INR; lia).
  assert (H3 : 3 <= sqrt (9 + 8 * (INR m - 1))).
  { replace 3 with (sqrt (3 * 3)) at 1 by (apply sqrt_square; lra).
    apply sqrt_le_1; lra. }
  lra.
Qed.

(** The degree of [m >= 1] coefficients is an integer exactly when [m] is a
    number of coefficients. *)
Lemma nonint_deg_spec m :
  (1 <= m)%nat -> Parvec.nonint_deg m = negb (is_ncoeffs m).
Proof.
  intros Hm. unfold Parvec.nonint_deg.
  destruct (is_ncoeffs m) eqn:Hnc; simpl.
  - apply is_ncoeffs_spec in Hnc as [d ->].
    rewrite degfromcoeffs_ncoeffs, py_int_INR, <- INR_IZR_INZ.
    destruct (Rlt_dec 0 (INR d - INR d)) as [H|_]; [lra|reflexivity].
  - destruct (Rlt_dec 0 _) as [_|Hnlt]; [reflexivity|exfalso].
    pose proof (degfromcoeffs_nonneg m Hm) as Hge.
    set (degx := Polycoeffs.degfromcoeffs (INR m)) in *.
    unfold Polycoeffs.py_int in Hnlt.
    destruct (Rle_dec 0 degx) as [_|Hc]; [|lra].
    pose proof (base_fp degx) as [Hfp _]. unfold frac_part in Hfp.
    set (z := Int_part degx) in *.
    assert (Hz : degx = IZR z) by lra.
    assert (Hz0 : (0 <= z)%Z) by (apply le_IZR; lra).
    assert (Hs : sqrt (9 + 8 * (INR m - 1)) = 2 * IZR z + 3).
    { unfold degx, Polycoeffs.degfromcoeffs in Hz. lra. }
    assert (H1 : 1 <= INR m) by (change 1 with (INR 1); apply le_INR; lia).
    assert (Hsq : 9 + 8 * (INR m - 1) = (2 * IZR z + 3) * (2 * IZR z + 3)).
    { rewrite <- Hs. symmetry. apply sqrt_sqrt. lra. }
    rewrite INR_IZR_INZ in Hsq.
    assert (HZ : (9 + 8 * (Z.of_nat m - 1) = (2 * z + 3) * (2 * z + 3))%Z).
    { apply eq_IZR.
      rewrite plus_IZR, !mult_IZR, minus_IZR, !plus_IZR, !mult_IZR. exact Hsq. }
    assert (Hm' : m = ncoeffs (Z.to_nat z)).
    { pose proof (double_ncoeffs (Z.to_nat z)). nia. }
    assert (Hex : is_ncoeffs m = true) by (apply is_ncoeffs_spec; eauto).
    congruence.
Qed.

(** What [ingestpars] leaves behind for a vector that carries a tangent
    point but no valid pair of coefficient sets. *)
Lemma ingestpars_invalid_state pars pv :
  (2 <= length pars)%nat ->
  Parvec.counts_valid pars = false ->
  let pv' := state_of (Parvec.ingestpars pars pv) in
  Parvec.parsx pv' = Parvec.parsx pv /\
  Parvec.parsy pv' = Parvec.parsy pv /\
  Parvec.hasxy0 pv' = Parvec.hasxy0 pv /\
  Parvec.tangentpoint pv' = take 2 pars.
Proof.
  intros Hlen Hinv. unfold Parvec.ingestpars.
  replace (length pars <? 2)%nat with false by (symmetry; apply Nat.ltb_ge; lia).
  destruct (length pars <? 3)%nat eqn:H3; [simpl; auto|].
  apply Nat.ltb_ge in H3.
  rewrite length_drop.
  destruct (0 <? (length pars - 2) mod 2)%nat eqn:Hodd; [simpl; auto|].
  apply Nat.ltb_ge in Hodd.
  unfold Parvec.counts_valid in Hinv.
  replace (3 <=? length pars)%nat with true in Hinv
    by (symmetry; apply Nat.leb_le; lia).
  replace ((length pars - 2) mod 2 =? 0)%nat with true in Hinv
    by (symmetry; apply Nat.eqb_eq; lia).
  rewrite !andb_true_l in Hinv. apply orb_false_iff in Hinv as [Hm Hm1].
  set (imid := ((length pars - 2) / 2)%nat) in *.
  assert (Himid : (1 <= imid)%nat).
  { unfold imid.
    pose proof (Nat.div_mod_eq (length pars - 2) 2). lia. }
  assert (Hlx : length (take imid (drop 2 pars)) = imid).
  { rewrite length_take, length_drop. unfold imid.
    pose proof (Nat.div_mod_eq (length pars - 2) 2). lia. }
  rewrite Hlx.
  rewrite (nonint_deg_spec imid), Hm by lia.
  rewrite (nonint_deg_spec (imid + 1)), Hm1 by lia.
  simpl. destruct (Parvec.Verbose pv); simpl; auto.
Qed.

(** C4 as the code has it: for a vector that carries a tangent point and
    whose x/y coefficient counts are not those of a polynomial (with or
    without constant term), [ingestpars] stops with [parsx], [parsy] and
    [hasxy0] as they were; [tangentpoint] has been replaced by the first two
    entries of the vector. *)
Theorem ingestpars_invalid_keeps_polynomial pars pv :
  (2 <= length pars)%nat ->
  Parvec.counts_valid pars = false ->
  Parvec.parsx (state_of (Parvec.ingestpars pars pv)) = Parvec.parsx pv /\
  Parvec.parsy (state_of (Parvec.ingestpars pars pv)) = Parvec.parsy pv /\
  Parvec.hasxy0 (state_of (Parvec.ingestpars pars pv)) = Parvec.hasxy0 pv /\
  Parvec.tangentpoint (state_of (Parvec.ingestpars pars pv)) = take 2 pars.
Proof. intros Hlen Hinv. exact (ingestpars_invalid_state pars pv Hlen Hinv). Qed.

Lemma ingestpars_invalid_keeps_polynomial_witness :
  (2 <= length [9; 9; 1; 2; 3; 4; 5; 6; 7; 8])%nat /\
  Parvec.counts_valid [9; 9; 1; 2; 3; 4; 5; 6; 7; 8] = false /\
  Parvec.tangentpoint
    (state_of (Parvec.ingestpars [9; 9; 1; 2; 3; 4; 5; 6; 7; 8]
                 (state_of (Parvec.init [1; 2])))) = [9; 9].
Proof.
  split; [simpl; lia|]. split; [reflexivity|].
  apply (ingestpars_invalid_keeps_polynomial
           [9; 9; 1; 2; 3; 4; 5; 6; 7; 8] (state_of (Parvec.init [1; 2]))).
  - simpl; lia.
  - reflexivity.
Defined.

(** C4 as stated fails: a ten-entry vector (four x and four y coefficients,
    neither 4 nor 5 being a number of coefficients) is ingested by an
    instance whose tangent point is (1, 2); the tangent point becomes
    (9, 9). *)
Lemma ingestpars_invalid_moves_tangentpoint :
  Parvec.counts_valid [9; 9; 1; 2; 3; 4; 5; 6; 7; 8] = false /\
  Parvec.tangentpoint (state_of (Parvec.init [1; 2])) = [1; 2] /\
  Parvec.tangentpoint
    (state_of (Parvec.ingestpars [9; 9; 1; 2; 3; 4; 5; 6; 7; 8]
                 (state_of (Parvec.init [1; 2])))) <>
  Parvec.tangentpoint (state_of (Parvec.init [1; 2])).
Proof.
  split; [reflexivity|]. split; [reflexivity|].
  destruct (ingestpars_invalid_state [9; 9; 1; 2; 3; 4; 5; 6; 7; 8]
              (state_of (Parvec.init [1; 2]))) as (_ & _ & _ & Htp);
    [simpl; lia|reflexivity|].
  rewrite Htp. simpl. intros H. injection H as H _. lra.
Qed.

(** ** Covariance propagation *)

Lemma mat2_sym_sandwich J C :
  mat2_sym C -> mat2_sym (mat2_mul J (mat2_mul C (mat2_transpose J))).
Proof.
  unfold mat2_sym. destruct J, C; simpl. intros ->. ring.
Qed.

Lemma lookup_map {A B : Type} (f : A -> B) (l : list A) k :
  map f l !! k = f <$> (l !! k).
Proof. change (map f l) with (f <$> l). apply list_lookup_fmap. Qed.

Lemma length_matmul_stack A B out :
  matmul_stack A B = Ok out -> length out = Nat.max (length A) (length B).
Proof.
  unfold matmul_stack.
  destruct A as [|a [|a' A]]; destruct B as [|b [|b' B]]; try discriminate;
    intros H.
  all: try (injection H as <-; simpl; rewrite ?length_map; simpl; lia).
  destruct (length (a :: a' :: A) =? length (b :: b' :: B))%nat eqn:Hl;
    [|discriminate].
  apply Nat.eqb_eq in Hl. injection H as <-.
  simpl in *. rewrite length_zip_with. lia.
Qed.

Lemma Ok_inj {A : Type} (a b : A) : Ok a = Ok b -> a = b.
Proof. intros H. injection H as H. exact H. Qed.

(** The planes of a stack product, with the index 0 for a broadcast
    operand. *)
Lemma matmul_stack_lookup A B out k o :
  matmul_stack A B = Ok out -> out !! k = Some o ->
  exists a b,
    A !! (if (length A =? 1)%nat then 0%nat else k) = Some a /\
    B !! (if (length B =? 1)%nat then 0%nat else k) = Some b /\
    o = mat2_mul a b.
Proof.
  unfold matmul_stack.
  destruct A as [|a [|a' A]]; [discriminate| |].
  - destruct B as [|b B]; [discriminate|].
    intros H Hk. apply Ok_inj in H. subst out.
    rewrite lookup_map in Hk.
    destruct ((b :: B) !! k) as [bk|] eqn:Hbk; [|discriminate].
    apply Some_inj in Hk. subst o.
    exists a, bk. split; [reflexivity|]. split; [|reflexivity].
    destruct B as [|b' B]; [|exact Hbk].
    destruct k as [|k]; [exact Hbk|discriminate].
  - destruct B as [|b [|b' B]]; [discriminate| |].
    + intros H Hk. apply Ok_inj in H. subst out.
      rewrite lookup_map in Hk.
      destruct ((a :: a' :: A) !! k) as [ak|] eqn:Hak; [|discriminate].
      apply Some_inj in Hk. subst o.
      exists ak, b. split; [exact Hak|]. split; reflexivity.
    + destruct (length (a :: a' :: A) =? length (b :: b' :: B))%nat;
        [|discriminate].
      intros H Hk. apply Ok_inj in H. subst out.
      apply lookup_zip_with_Some in Hk as (x & y & -> & Hx & Hy).
      exists x, y. split; [exact Hx|]. split; [exact Hy|reflexivity].
Qed.

(** The planes of J (C J^T) are J_n C_m J_n^T, with the same plane of J on
    both sides whatever is broadcast. *)
Lemma sandwich_stack_sym J C CJt out :
  Forall mat2_sym C ->
  matmul_stack C (map mat2_transpose J) = Ok CJt ->
  matmul_stack J CJt = Ok out ->
  Forall mat2_sym out.
Proof.
  intros HC H1 H2. apply Forall_lookup. intros k o Hk.
  pose proof (length_matmul_stack _ _ _ H1) as Hl1.
  rewrite length_map in Hl1.
  destruct (matmul_stack_lookup _ _ _ _ _ H2 Hk) as (j & cj & Hj & Hcj & ->).
  destruct (matmul_stack_lookup _ _ _ _ _ H1 Hcj) as (c & jt & Hc & Hjt & ->).
  rewrite lookup_map, length_map in Hjt.
  assert (Hsame : jt = mat2_transpose j).
  { destruct (length J =? 1)%nat eqn:HJ.
    - rewrite Hj in Hjt. simpl in Hjt. congruence.
    - apply Nat.eqb_neq in HJ.
      assert (HJ0 : J <> []) by (intros ->; discriminate).
      assert (Hne : (length CJt =? 1)%nat = false).
      { apply Nat.eqb_neq. destruct J; [congruence|]. simpl in *. lia. }
      rewrite Hne, Hj in Hjt. simpl in Hjt. congruence. }
  subst jt. apply mat2_sym_sandwich.
  rewrite Forall_lookup in HC. eapply HC, Hc.
Qed.

Lemma transpose_stack_Ok J Jt :
  transpose_stack J = Ok Jt -> Jt = map mat2_transpose J.
Proof.
  destruct J; [discriminate|]. intros H. apply Ok_inj in H. auto.
Qed.

Lemma sandwich_sym J C out :
  Forall mat2_sym C ->
  (let* Jt := transpose_stack J in
   let* CJt := matmul_stack C Jt in
   matmul_stack J CJt) = Ok out ->
  Forall mat2_sym out.
Proof.
  intros HC H.
  destruct (transpose_stack J) as [Jt|] eqn:HJt; [|discriminate].
  apply transpose_stack_Ok in HJt. subst Jt. simpl in H.
  destruct (matmul_stack C (map mat2_transpose J)) as [CJt|] eqn:H1;
    [|discriminate].
  simpl in H. eapply sandwich_stack_sym; eauto.
Qed.

(** J C J^T is returned for a stack [C] with one plane per plane of [J]. *)
Lemma sandwich_defined J C :
  J <> [] -> length C = length J ->
  exists out,
    (let* Jt := transpose_stack J in
     let* CJt := matmul_stack C Jt in
     matmul_stack J CJt) = Ok out /\ length out = length J.
Proof.
  intros HJ Hlen.
  destruct J as [|j J]; [congruence|].
  destruct C as [|c C]; [discriminate|].
  destruct J as [|j' J]; destruct C as [|c' C]; try discriminate.
  - eexists. split; [reflexivity|reflexivity].
  - cbn [transpose_stack rbind map matmul_stack].
    assert (Hl : (length (c :: c' :: C) =?
                  length (mat2_transpose j :: mat2_transpose j' :: map mat2_transpose J))%nat
                 = true).
    { apply Nat.eqb_eq. simpl in *. rewrite length_map. lia. }
    rewrite Hl. cbn [rbind zip_with matmul_stack].
    assert (Hl2 : (length (j :: j' :: J) =?
                   length (mat2_mul c (mat2_transpose j)
                           :: mat2_mul c' (mat2_transpose j')
                           :: zip_with mat2_mul C (map mat2_transpose J)))%nat = true).
    { apply Nat.eqb_eq. simpl in *. rewrite length_zip_with, length_map. lia. }
    rewrite Hl2. eexists. split; [reflexivity|].
    simpl in *. rewrite !length_zip_with, length_map. lia.
Qed.

Lemma broadcast2_same xs ys :
  length xs = length ys -> broadcast2 xs ys = Ok (zip xs ys).
Proof.
  intros H. unfold broadcast2. rewrite H, Nat.eqb_refl. reflexivity.
Qed.

Lemma index_Some (pars : vec) k :
  (k < length pars)%nat -> exists v, index pars k = Ok v /\ pars !! k = Some v.
Proof.
  intros H. destruct (lookup_lt_is_Some_2 pars k H) as [v Hv].
  exists v. unfold index. rewrite Hv. auto.
Qed.

Lemma Tan2equ_evaluatejac_defined st vx vy :
  (0 < length vx)%nat -> length vx = length vy -> length (Tan2equ.pars st) = 2%nat ->
  exists J, Tan2equ.evaluatejac st vx vy = Ok J /\ length J = length vx.
Proof.
  intros Hn Hl Hp. unfold Tan2equ.evaluatejac.
  replace (length vx <? 1)%nat with false by (symmetry; apply Nat.ltb_ge; lia).
  replace (length vy <? 1)%nat with false by (symmetry; apply Nat.ltb_ge; lia).
  rewrite broadcast2_same by exact Hl. simpl.
  destruct (index_Some (Tan2equ.pars st) 0) as (a0 & -> & _); [lia|].
  destruct (index_Some (Tan2equ.pars st) 1) as (d0 & -> & _); [lia|].
  simpl. rewrite length_zip_with.
  replace (length vx `min` length vy =? length vx)%nat with true
    by (symmetry; apply Nat.eqb_eq; lia).
  eexists. split; [reflexivity|]. rewrite length_map, length_zip_with. lia.
Qed.

Lemma Equ2tan_evaluatejac_defined st vx vy :
  (0 < length vx)%nat -> length vx = length vy -> length (Equ2tan.pars st) = 2%nat ->
  exists J, Equ2tan.evaluatejac st vx vy = Ok J /\ length J = length vx.
Proof.
  intros Hn Hl Hp. unfold Equ2tan.evaluatejac.
  replace (length vx <? 1)%nat with false by (symmetry; apply Nat.ltb_ge; lia).
  replace (length vy <? 1)%nat with false by (symmetry; apply Nat.ltb_ge; lia).
  rewrite broadcast2_same by exact Hl. simpl.
  destruct (index_Some (Equ2tan.pars st) 0) as (a0 & -> & _); [lia|].
  destruct (index_Some (Equ2tan.pars st) 1) as (d0 & -> & _); [lia|].
  simpl. rewrite length_zip_with.
  replace (length vx `min` length vy =? length vx)%nat with true
    by (symmetry; apply Nat.eqb_eq; lia).
  eexists. split; [reflexivity|]. rewrite length_map, length_zip_with. lia.
Qed.

Lemma Poly_propcov_sym other P C vx vy out :
  Forall mat2_sym C -> Poly.propcov other P C vx vy = Ok out -> Forall mat2_sym out.
Proof.
  intros HC H. unfold Poly.propcov in H.
  destruct (Poly.rescalexy P vx vy) as [vxr vyr].
  destruct (Poly.evaluatejacpoly other P vxr vyr) as [Jpoly|]; [|discriminate].
  simpl in H.
  destruct (matmul_left (Poly.jacrescale P) Jpoly) as [J|]; [|discriminate].
  simpl in H. eapply sandwich_sym; eauto.
Qed.

Lemma Tan2equ_propcov_sym T C vx vy out :
  Forall mat2_sym C -> Tan2equ.propcov T C vx vy = Ok out -> Forall mat2_sym out.
Proof.
  intros HC H. unfold Tan2equ.propcov in H.
  destruct (_ || _).
  - apply Ok_inj in H. subst out. constructor.
  - destruct (Tan2equ.evaluatejac T vx vy) as [J|]; [|discriminate].
    simpl in H. eapply sandwich_sym; eauto.
Qed.

Lemma Equ2tan_propcov_sym E C vx vy out :
  Forall mat2_sym C -> Equ2tan.propcov E C vx vy = Ok out -> Forall mat2_sym out.
Proof.
  intros HC H. unfold Equ2tan.propcov in H.
  destruct (_ || _).
  - apply Ok_inj in H. subst out. constructor.
  - destruct (Equ2tan.evaluatejac E vx vy) as [J|]; [|discriminate].
    simpl in H. eapply sandwich_sym; eauto.
Qed.

Lemma Tan2equ_propcov_defined T C vx vy :
  (0 < length vx)%nat -> length vx = length vy -> length C = length vx ->
  (0 < length (Tan2equ.x T))%nat -> length (Tan2equ.pars T) = 2%nat ->
  exists out, Tan2equ.propcov T C vx vy = Ok out /\ length out = length vx.
Proof.
  intros Hn Hl HC Hx Hp. unfold Tan2equ.propcov.
  replace (length (Tan2equ.x T) <? 1)%nat with false
    by (symmetry; apply Nat.ltb_ge; lia).
  replace (length vy <? 1)%nat with false by (symmetry; apply Nat.ltb_ge; lia).
  simpl.
  destruct (Tan2equ_evaluatejac_defined T vx vy Hn Hl Hp) as (J & -> & HJ).
  simpl. destruct (sandwich_defined J C) as (out & Hout & Hlen).
  - intros ->. simpl in HJ. lia.
  - lia.
  - exists out. split; [exact Hout|lia].
Qed.

Lemma Equ2tan_propcov_defined E C vx vy :
  (0 < length vx)%nat -> length vx = length vy -> length C = length vx ->
  length (Equ2tan.pars E) = 2%nat ->
  exists out, Equ2tan.propcov E C vx vy = Ok out /\ length out = length vx.
Proof.
  intros Hn Hl HC Hp. unfold Equ2tan.propcov.
  replace (length vx <? 1)%nat with false by (symmetry; apply Nat.ltb_ge; lia).
  replace (length vy <? 1)%nat with false by (symmetry; apply Nat.ltb_ge; lia).
  simpl.
  destruct (Equ2tan_evaluatejac_defined E vx vy Hn Hl Hp) as (J & -> & HJ).
  simpl. destruct (sandwich_defined J C) as (out & Hout & Hlen).
  - intros ->. simpl in HJ. lia.
  - lia.
  - exists out. split; [exact Hout|lia].
Qed.

(** ** Gnomonic transforms: updating the tangent point *)

Lemma Tan2equ_updatetransf_other pars T :
  length pars <> 2%nat -> Tan2equ.updatetransf pars T = Done T.
Proof.
  intros H. unfold Tan2equ.updatetransf.
  apply Nat.eqb_neq in H. rewrite H. reflexivity.
Qed.

Lemma Equ2tan_updatetransf_other pars E :
  length pars <> 2%nat -> Equ2tan.updatetransf pars E = Done E.
Proof.
  intros H. unfold Equ2tan.updatetransf.
  apply Nat.eqb_neq in H. rewrite H. reflexivity.
Qed.

Lemma Tan2equ_updatetransf_two pars T :
  length pars = 2%nat ->
  length (Tan2equ.x T) = length (Tan2equ.y T) ->
  exists J,
    Tan2equ.evaluatejac (Tan2equ.set_pars pars T) (Tan2equ.x T) (Tan2equ.y T) = Ok J /\
    Tan2equ.updatetransf pars T = Done (Tan2equ.set_jac J (Tan2equ.set_pars pars T)).
Proof.
  intros Hp Hxy. unfold Tan2equ.updatetransf, Tan2equ.setjacobian.
  rewrite Hp. simpl negb. cbv iota.
  change (Tan2equ.x (Tan2equ.set_pars pars T)) with (Tan2equ.x T).
  change (Tan2equ.y (Tan2equ.set_pars pars T)) with (Tan2equ.y T).
  destruct (Tan2equ.x T) as [|x0 xs] eqn:Hx.
  - exists []. split; reflexivity.
  - destruct (Tan2equ_evaluatejac_defined (Tan2equ.set_pars pars T) (x0 :: xs)
                (Tan2equ.y T)) as (J & HJ & _); [simpl; lia|exact Hxy|exact Hp|].
    exists J. rewrite HJ. split; reflexivity.
Qed.

Lemma Equ2tan_updatetransf_two pars E :
  length pars = 2%nat ->
  length (Equ2tan.x E) = length (Equ2tan.y E) ->
  exists J,
    Equ2tan.evaluatejac (Equ2tan.set_pars pars E) (Equ2tan.x E) (Equ2tan.y E) = Ok J /\
    Equ2tan.updatetransf pars E = Done (Equ2tan.set_jac J (Equ2tan.set_pars pars E)).
Proof.
  intros Hp Hxy. unfold Equ2tan.updatetransf, Equ2tan.setjacobian.
  rewrite Hp. simpl negb. cbv iota.
  change (Equ2tan.x (Equ2tan.set_pars pars E)) with (Equ2tan.x E).
  change (Equ2tan.y (Equ2tan.set_pars pars E)) with (Equ2tan.y E).
  destruct (Equ2tan.x E) as [|x0 xs] eqn:Hx.
  - exists []. split; reflexivity.
  - destruct (Equ2tan_evaluatejac_defined (Equ2tan.set_pars pars E) (x0 :: xs)
                (Equ2tan.y E)) as (J & HJ & _); [simpl; lia|exact Hxy|exact Hp|].
    exists J. rewrite HJ. split; reflexivity.
Qed.

(** ** Gnomonic round trip *)

Lemma gnomonic_gamma sd cd ca s0 c0 D :
  s0 * s0 + c0 * c0 = 1 -> D = ca * cd * c0 + sd * s0 -> D <> 0 ->
  c0 - ((c0 * sd - ca * cd * s0) / D) * s0 = ca * cd / D.
Proof.
  intros H1 HD Hn.
  apply (Rmult_eq_reg_r D); [|exact Hn].
  replace (ca * cd / D * D) with (ca * cd) by (field; exact Hn).
  replace ((c0 - (c0 * sd - ca * cd * s0) / D * s0) * D)
    with (c0 * D - (c0 * sd - ca * cd * s0) * s0) by (field; exact Hn).
  subst D.
  replace (c0 * (ca * cd * c0 + sd * s0) - (c0 * sd - ca * cd * s0) * s0)
    with (ca * cd * (s0 * s0 + c0 * c0)) by ring.
  rewrite H1. ring.
Qed.

Lemma gnomonic_numerator sd cd ca s0 c0 D :
  s0 * s0 + c0 * c0 = 1 -> D = ca * cd * c0 + sd * s0 -> D <> 0 ->
  ((c0 * sd - ca * cd * s0) / D) * c0 + s0 = sd / D.
Proof.
  intros H1 HD Hn.
  apply (Rmult_eq_reg_r D); [|exact Hn].
  replace (sd / D * D) with sd by (field; exact Hn).
  replace (((c0 * sd - ca * cd * s0) / D * c0 + s0) * D)
    with ((c0 * sd - ca * cd * s0) * c0 + s0 * D) by (field; exact Hn).
  subst D.
  replace ((c0 * sd - ca * cd * s0) * c0 + s0 * (ca * cd * c0 + sd * s0))
    with (sd * (s0 * s0 + c0 * c0)) by ring.
  rewrite H1. ring.
Qed.

Lemma sin_cos_one x : sin x * sin x + cos x * cos x = 1.
Proof. pose proof (sin2_cos2 x) as H. unfold Rsqr in H. exact H. Qed.

(** The inverse map undoes the forward map, point by point. *)
Lemma gnomonic_roundtrip1 alpha0 delta0 alpha delta :
  gnomonic_range alpha0 delta0 alpha delta ->
  Tan2equ.propxy1 alpha0 delta0
    (fst (Equ2tan.propxy1 alpha0 delta0 alpha delta))
    (snd (Equ2tan.propxy1 alpha0 delta0 alpha delta)) = (alpha, delta).
Proof.
  intros (Ha & Hd & HD).
  unfold Tan2equ.propxy1, Equ2tan.propxy1. cbn [fst snd].
  set (ca := cos (alpha - alpha0)) in *. set (sa := sin (alpha - alpha0)).
  set (cd := cos delta) in *. set (sd := sin delta) in *.
  set (c0 := cos delta0) in *. set (s0 := sin delta0) in *.
  set (D := ca * cd * c0 + sd * s0) in *.
  assert (HDn : D <> 0) by lra.
  assert (Hca : 0 < ca) by (apply cos_gt_0; lra).
  assert (Hcd : 0 < cd) by (apply cos_gt_0; lra).
  assert (H0 : s0 * s0 + c0 * c0 = 1) by apply sin_cos_one.
  rewrite (gnomonic_gamma sd cd ca s0 c0 D H0 eq_refl HDn).
  rewrite (gnomonic_numerator sd cd ca s0 c0 D H0 eq_refl HDn).
  assert (Hx : cd * sa / D / (ca * cd / D) = tan (alpha - alpha0)).
  { unfold tan. fold sa ca. field. lra. }
  assert (Hs : (cd * sa / D) ^ 2 + (ca * cd / D) ^ 2 = (cd / D) * (cd / D)).
  { pose proof (sin_cos_one (alpha - alpha0)) as H1. fold sa ca in H1.
    replace ((cd * sa / D) ^ 2 + (ca * cd / D) ^ 2)
      with ((cd / D) * (cd / D) * (sa * sa + ca * ca)) by (field; exact HDn).
    rewrite H1. ring. }
  assert (Hq : 0 <= cd / D).
  { apply Rlt_le, Rdiv_lt_0_compat; lra. }
  rewrite Hx, Hs, sqrt_square by exact Hq.
  assert (Hy : sd / D / (cd / D) = tan delta).
  { unfold tan. fold sd cd. field. lra. }
  rewrite Hy, !atan_tan by lra.
  f_equal. lra.
Qed.








(** ** Poly: updating the parameters *)

Lemma updatecoeffs2d_Done pc pc' :
  Polycoeffs.updatecoeffs2d pc = Done pc' ->
  Polycoeffs.p pc' = Polycoeffs.p pc /\
  Polycoeffs.deg pc' = Polycoeffs.deg pc /\
  Polycoeffs.i pc' = Polycoeffs.i pc /\
  Polycoeffs.j pc' = Polycoeffs.j pc /\
  populated pc' /\
  ((Polycoeffs.deg pc < 1)%Z -> pc' = pc).
Proof.
  unfold Polycoeffs.updatecoeffs2d.
  destruct (Polycoeffs.deg pc <? 1)%Z eqn:Hd.
  - intros H. injection H as <-. apply Z.ltb_lt in Hd.
    repeat split; auto. intros H1. lia.
  - apply Z.ltb_ge in Hd.
    destruct (_ && _); [|discriminate].
    destruct (inbounds2d _ _ _); [|discriminate].
    intros H. injection H as <-. simpl.
    repeat split; auto.
    + intros _. simpl. eexists. reflexivity.
    + intros H1. lia.
Qed.

Lemma updatecoeffs_Done v pc pc' :
  (1 <= length v)%nat ->
  Polycoeffs.updatecoeffs v pc = Done pc' ->
  Polycoeffs.p pc' = v /\
  Polycoeffs.deg pc' = Polycoeffs.deg pc /\
  Polycoeffs.i pc' = Polycoeffs.i pc /\
  Polycoeffs.j pc' = Polycoeffs.j pc /\
  populated pc'.
Proof.
  intros Hv. unfold Polycoeffs.updatecoeffs.
  replace (length v <? 1)%nat with false by (symmetry; apply Nat.ltb_ge; lia).
  intros H. apply updatecoeffs2d_Done in H as (Hp & Hd & Hi & Hj & Hpop & _).
  simpl in *. auto.
Qed.

Lemma Polycoeffs_init_Done v b pc :
  Polycoeffs.init v b = Done pc -> Polycoeffs.p pc = v /\ populated pc.
Proof.
  unfold Polycoeffs.init. intros H.
  apply updatecoeffs2d_Done in H as (Hp & _ & _ & _ & Hpop & _).
  split; [|exact Hpop]. rewrite Hp.
  unfold Polycoeffs.initcoeffs2d, Polycoeffs.assignij. cbn [Polycoeffs.p Polycoeffs.set_p2d].
  destruct (Polycoeffs.ijfromdeg _). cbn [Polycoeffs.p Polycoeffs.set_ij].
  unfold Polycoeffs.assigndeg. destruct (Rlt_dec _ _); reflexivity.
Qed.

Lemma setuppars_Done st s1 :
  Poly.setuppars st = Done s1 ->
  exists px py,
    Polycoeffs.init (Poly.parsx st) (Poly.Verbose st) = Done px /\
    Polycoeffs.init (Poly.parsy st) (Poly.Verbose st) = Done py /\
    s1 = Poly.set_pars2y py (Poly.set_pars2x px st).
Proof.
  unfold Poly.setuppars.
  destruct (Polycoeffs.init (Poly.parsx st) _) as [px|]; [|discriminate].
  destruct (Polycoeffs.init (Poly.parsy st) _) as [py|]; [|discriminate].
  intros H. injection H as <-. eauto.
Qed.

Lemma on_pars2x_Done o st s1 :
  Poly.on_pars2x o st = Done s1 ->
  exists pc, o = Done pc /\ s1 = Poly.set_pars2x pc st.
Proof.
  destruct o; simpl; [|discriminate]. intros H. injection H as <-. eauto.
Qed.

Lemma on_pars2y_Done o st s1 :
  Poly.on_pars2y o st = Done s1 ->
  exists pc, o = Done pc /\ s1 = Poly.set_pars2y pc st.
Proof.
  destruct o; simpl; [|discriminate]. intros H. injection H as <-. eauto.
Qed.

Lemma populatejacpoly_Done other st s1 :
  Poly.populatejacpoly other st = Done s1 ->
  ((Poly.size_stack (Poly.jacpoly st) < 2)%nat /\ s1 = st) \/
  ((2 <= Poly.size_stack (Poly.jacpoly st))%nat /\
   exists J,
     Poly.evaluatejacpoly other (Poly.setderivcoeffs other st)
       (Poly.xr st) (Poly.yr st) = Ok J /\
     s1 = Poly.set_jacpoly J (Poly.setderivcoeffs other st)).
Proof.
  unfold Poly.populatejacpoly.
  destruct (Poly.size_stack (Poly.jacpoly st) <? 2)%nat eqn:Hs.
  - intros H. injection H as <-. left. apply Nat.ltb_lt in Hs. auto.
  - apply Nat.ltb_ge in Hs. right. split; [exact Hs|].
    assert (Hxr : Poly.xr (Poly.setderivcoeffs other st) = Poly.xr st).
    { unfold Poly.setderivcoeffs.
      destruct (Poly.derivcoeffs _ _ _), (Poly.derivcoeffs _ _ _). reflexivity. }
    assert (Hyr : Poly.yr (Poly.setderivcoeffs other st) = Poly.yr st).
    { unfold Poly.setderivcoeffs.
      destruct (Poly.derivcoeffs _ _ _), (Poly.derivcoeffs _ _ _). reflexivity. }
    rewrite Hxr, Hyr in H.
    destruct (Poly.evaluatejacpoly _ _ _ _) as [J|]; [|discriminate].
    injection H as <-. eauto.
Qed.

Ltac poly_simpl :=
  unfold Poly.setderivcoeffs, Poly.derivcoeffs, Poly.methder, Poly.methval2d in *;
  cbn [Poly.x Poly.y Poly.covxy Poly.parsx Poly.parsy Poly.xmin Poly.xmax
       Poly.ymin Poly.ymax Poly.Verbose Poly.cxx Poly.cxy Poly.cyx Poly.cyy
       Poly.jacrescale Poly.xr Poly.yr Poly.pars2x Poly.pars2y Poly.kind
       Poly.jacpoly Poly.jac Poly.xtran Poly.ytran
       Poly.set_xy Poly.set_covxy Poly.set_parsxy Poly.set_derivs
       Poly.set_jacrescale Poly.set_xryr Poly.set_pars2x Poly.set_pars2y
       Poly.set_jacpoly Poly.set_jac Poly.set_tran] in *.

Lemma updatetransf_Done_refreshed other pars st st' :
  (2 <= length pars)%nat ->
  Poly.updatetransf other pars st = Done st' ->
  refreshed other pars st st'.
Proof.
  intros Hlen H. unfold Poly.updatetransf, Poly.splitpars in H.
  replace (length pars <? 2)%nat with false in H
    by (symmetry; apply Nat.ltb_ge; lia).
  set (imid := (length pars / 2)%nat) in *.
  assert (Himid : (1 <= imid)%nat).
  { unfold imid. pose proof (Nat.div_mod_eq (length pars) 2).
    pose proof (Nat.mod_upper_bound (length pars) 2). lia. }
  assert (Hlx : length (take imid pars) = imid).
  { rewrite length_take. unfold imid.
    pose proof (Nat.div_mod_eq (length pars) 2). lia. }
  assert (Hly : (1 <= length (drop imid pars))%nat).
  { rewrite length_drop. unfold imid.
    pose proof (Nat.div_mod_eq (length pars) 2).
    pose proof (Nat.mod_upper_bound (length pars) 2). lia. }
  rewrite Hlx in H.
  replace (imid <? 1)%nat with false in H by (symmetry; apply Nat.ltb_ge; lia).
  set (st0 := Poly.set_parsxy (take imid pars) (drop imid pars) st) in *.
  destruct (if (Polycoeffs.deg (Poly.pars2x st0) <? 0)%Z then _ else _)
    as [s1|] eqn:H1; [|discriminate].
  cbn [obind] in H.
  destruct (Poly.on_pars2x _ s1) as [s2|] eqn:H2; [|discriminate].
  cbn [obind] in H.
  destruct (Poly.on_pars2y _ s2) as [s3|] eqn:H3; [|discriminate].
  cbn [obind] in H.
  destruct (Poly.populatejacpoly other _) as [s4|] eqn:H4; [|discriminate].
  cbn [obind] in H. injection H as <-.
  assert (Hs1 : exists px py, s1 = Poly.set_pars2y py (Poly.set_pars2x px st0)).
  { destruct (Polycoeffs.deg (Poly.pars2x st0) <? 0)%Z.
    - apply setuppars_Done in H1 as (px & py & _ & _ & ->). eauto.
    - injection H1 as <-. exists (Poly.pars2x st0), (Poly.pars2y st0).
      destruct st. reflexivity. }
  destruct Hs1 as (px & py & ->). clear H1.
  apply on_pars2x_Done in H2 as (pcx & Hx & ->).
  apply on_pars2y_Done in H3 as (pcy & Hy & ->).
  apply updatecoeffs_Done in Hx as (Hpx & _ & _ & _ & Hpopx); [|lia].
  apply updatecoeffs_Done in Hy as (Hpy & _ & _ & _ & Hpopy); [|exact Hly].
  subst st0.
  apply populatejacpoly_Done in H4 as [[Hsz ->]|[Hsz (J & HJ & ->)]].
  - unfold refreshed, Poly.combinejac.
    destruct (Poly.size_stack _ <? 1)%nat; poly_simpl;
      (repeat split; auto; try lia).
  - unfold refreshed, Poly.combinejac, Poly.evaluatejacpoly in *.
    poly_simpl.
    destruct (Poly.size_stack J <? 1)%nat eqn:HJ1; poly_simpl;
      (repeat split; auto; try lia).
    + intros HJn. exfalso. apply HJn.
      apply Nat.ltb_lt in HJ1. unfold Poly.size_stack in HJ1.
      destruct J; [reflexivity|simpl in HJ1; lia].
Qed.

(** ** Poly: well-formed Polynomial-basis instances *)

Lemma polyval2d_Ok xs ys c :
  length xs = length ys -> nrows c <> 0%nat -> ncols c <> 0%nat ->
  polyval2d xs ys c = Ok (zip_with (fun x y => polyval2d1 x y c) xs ys).
Proof.
  intros Hl Hr Hc. unfold polyval2d.
  rewrite Hl, Nat.eqb_refl. simpl.
  apply Nat.eqb_neq in Hr, Hc. rewrite Hr, Hc. reflexivity.
Qed.

Lemma coeffs_wf_init d v b :
  length v = ncoeffs d ->
  exists pc, Polycoeffs.init v b = Done pc /\ coeffs_wf d pc /\ Polycoeffs.p pc = v.
Proof.
  intros Hlen. destruct d as [|d].
  - rewrite Polycoeffs_init_deg0 by exact Hlen.
    eexists. split; [reflexivity|]. split; [|reflexivity].
    split; [reflexivity|]. split; [reflexivity|]. split; [reflexivity|].
    split; [reflexivity|]. repeat constructor.
  - rewrite (Polycoeffs_init_pos (S d)) by (lia || exact Hlen).
    eexists. split; [reflexivity|]. split; [|reflexivity].
    split; [reflexivity|]. split; [reflexivity|]. split; [reflexivity|].
    apply rect_scatter2d, rect_zeros2d.
Qed.

Lemma updatecoeffs_wf d v pc :
  coeffs_wf d pc -> length v = ncoeffs d ->
  exists pc', Polycoeffs.updatecoeffs v pc = Done pc' /\ coeffs_wf d pc' /\
              Polycoeffs.p pc' = v.
Proof.
  intros (Hd & Hi & Hj & Hr) Hlen.
  unfold Polycoeffs.updatecoeffs.
  pose proof (ncoeffs_lower d) as Hlow.
  replace (length v <? 1)%nat with false by (symmetry; apply Nat.ltb_ge; lia).
  unfold Polycoeffs.updatecoeffs2d. simpl.
  destruct (Polycoeffs.deg pc <? 1)%Z eqn:Hd1.
  - eexists. split; [reflexivity|]. split; [|reflexivity].
    split; [exact Hd|]. split; [exact Hi|]. split; [exact Hj|exact Hr].
  - apply Z.ltb_ge in Hd1.
    destruct (length_ijfromdeg d) as [Hli Hlj].
    destruct (Forall_ijfromdeg d) as [HFi HFj].
    rewrite Hi, Hj, Hlen, Hli, Hlj, Nat.leb_refl. simpl.
    rewrite !take_ge by lia.
    rewrite (inbounds2d_true (d + 1) (d + 1)); auto; [|lia].
    eexists. split; [reflexivity|]. split; [|reflexivity].
    split; [exact Hd|]. split; [exact Hi|]. split; [exact Hj|].
    apply rect_scatter2d; exact Hr.
Qed.

Lemma derivs_nonempty r c a :
  rect r c a -> (1 <= r)%nat -> (1 <= c)%nat ->
  nrows (pad_row (polyder_axis0 a)) <> 0%nat /\
  ncols (pad_row (polyder_axis0 a)) <> 0%nat /\
  nrows (pad_col (polyder_axis1 a)) <> 0%nat /\
  ncols (pad_col (polyder_axis1 a)) <> 0%nat.
Proof.
  intros [Hl Hf] Hr Hc.
  destruct a as [|row0 a]; [simpl in Hl; lia|].
  apply Forall_cons in Hf as [H0 Hf].
  split; [|split; [|split]].
  - unfold pad_row, nrows. rewrite length_app. simpl. lia.
  - unfold pad_row, polyder_axis0.
    destruct a as [|row1 a]; simpl.
    + rewrite length_map. lia.
    + apply Forall_cons in Hf as [H1 _]. rewrite length_map. lia.
  - unfold pad_col, polyder_axis1, nrows. simpl. lia.
  - unfold pad_col, polyder_axis1. simpl. rewrite length_app. simpl. lia.
Qed.

Lemma length_stack4 a b c d :
  length (stack4 a b c d) =
  Nat.min (Nat.min (length a) (length b)) (Nat.min (length c) (length d)).
Proof. unfold stack4. rewrite !length_zip_with. reflexivity. Qed.

Lemma evaluatejacpoly_Polynomial other st vxr vyr :
  Poly.kind st = Polynomial -> length vxr = length vyr ->
  nrows (Poly.cxx st) <> 0%nat -> ncols (Poly.cxx st) <> 0%nat ->
  nrows (Poly.cxy st) <> 0%nat -> ncols (Poly.cxy st) <> 0%nat ->
  nrows (Poly.cyx st) <> 0%nat -> ncols (Poly.cyx st) <> 0%nat ->
  nrows (Poly.cyy st) <> 0%nat -> ncols (Poly.cyy st) <> 0%nat ->
  exists J, Poly.evaluatejacpoly other st vxr vyr = Ok J /\ length J = length vxr.
Proof.
  intros Hk Hl ? ? ? ? ? ? ? ?. unfold Poly.evaluatejacpoly, Poly.methval2d.
  rewrite Hk. cbn [Poly.methlist val2d numpy_polynomial].
  destruct (_ || _) eqn:He.
  - exists []. split; [reflexivity|].
    apply orb_true_iff in He as [He|He]; apply Nat.ltb_lt in He; simpl; lia.
  - rewrite !polyval2d_Ok by assumption. cbn [rbind].
    eexists. split; [reflexivity|].
    rewrite length_stack4, !length_zip_with. lia.
Qed.

Lemma setderivcoeffs_Polynomial other st :
  Poly.kind st = Polynomial ->
  Poly.setderivcoeffs other st =
  Poly.set_derivs (pad_row (polyder_axis0 (Polycoeffs.p2d (Poly.pars2x st))))
                  (pad_col (polyder_axis1 (Polycoeffs.p2d (Poly.pars2x st))))
                  (pad_row (polyder_axis0 (Polycoeffs.p2d (Poly.pars2y st))))
                  (pad_col (polyder_axis1 (Polycoeffs.p2d (Poly.pars2y st)))) st.
Proof.
  intros Hk. unfold Poly.setderivcoeffs, Poly.derivcoeffs, Poly.methder.
  rewrite Hk. reflexivity.
Qed.

Lemma populatejacpoly_wf other d st :
  Poly_wf d st ->
  exists st', Poly.populatejacpoly other st = Done st' /\ Poly_wf d st' /\
              Poly.x st' = Poly.x st /\ Poly.y st' = Poly.y st /\
              Poly.pars2x st' = Poly.pars2x st /\ Poly.pars2y st' = Poly.pars2y st /\
              Poly.parsx st' = Poly.parsx st /\ Poly.parsy st' = Poly.parsy st /\
              Poly.xmin st' = Poly.xmin st /\ Poly.xmax st' = Poly.xmax st /\
              Poly.ymin st' = Poly.ymin st /\ Poly.ymax st' = Poly.ymax st.
Proof.
  intros (Hk & Hx & Hy & Hxy & Hr). unfold Poly.populatejacpoly.
  destruct (Poly.size_stack _ <? 2)%nat.
  - exists st. repeat split; auto; try apply Hx; try apply Hy.
  - rewrite setderivcoeffs_Polynomial by exact Hk.
    destruct Hx as (Hdx & Hix & Hjx & Hrx). destruct Hy as (Hdy & Hiy & Hjy & Hry).
    destruct (derivs_nonempty _ _ _ Hrx) as (? & ? & ? & ?); [lia|lia|].
    destruct (derivs_nonempty _ _ _ Hry) as (? & ? & ? & ?); [lia|lia|].
    match goal with |- context [Poly.evaluatejacpoly other ?s ?a ?b] =>
      destruct (evaluatejacpoly_Polynomial other s a b) as (J & HJ & HlJ);
        [exact Hk|exact Hr|assumption..|] end.
    cbn [Poly.xr Poly.yr Poly.set_derivs] in HJ |- *.
    rewrite HJ. eexists. split; [reflexivity|].
    unfold Poly_wf, coeffs_wf. poly_simpl.
    destruct Hrx, Hry. repeat split; auto.
Qed.

Lemma Poly_wf_setderivcoeffs other d st :
  Poly_wf d st -> Poly_wf d (Poly.setderivcoeffs other st).
Proof.
  intros (Hk & Hx & Hy & Hxy & Hr).
  rewrite setderivcoeffs_Polynomial by exact Hk.
  unfold Poly_wf. poly_simpl. auto.
Qed.

Lemma Poly_wf_combinejac d st :
  Poly_wf d st -> Poly_wf d (Poly.combinejac st).
Proof.
  intros H. unfold Poly.combinejac.
  destruct (_ <? _)%nat; [exact H|].
  unfold Poly_wf in *. poly_simpl. exact H.
Qed.

Lemma updatetransf_wf other d pars st :
  Poly_wf d st -> length pars = (2 * ncoeffs d)%nat ->
  exists st',
    Poly.updatetransf other pars st = Done st' /\ Poly_wf d st' /\
    Poly.x st' = Poly.x st /\ Poly.y st' = Poly.y st /\
    Poly.xmin st' = Poly.xmin st /\ Poly.xmax st' = Poly.xmax st /\
    Poly.ymin st' = Poly.ymin st /\ Poly.ymax st' = Poly.ymax st.
Proof.
  intros Hwf Hlen.
  pose proof (ncoeffs_lower d) as Hlow.
  assert (Himid : (length pars / 2 = ncoeffs d)%nat).
  { rewrite Hlen, Nat.mul_comm. apply Nat.div_mul. lia. }
  unfold Poly.updatetransf, Poly.splitpars.
  replace (length pars <? 2)%nat with false by (symmetry; apply Nat.ltb_ge; lia).
  rewrite Himid.
  assert (Hlx : length (take (ncoeffs d) pars) = ncoeffs d)
    by (rewrite length_take; lia).
  assert (Hly : length (drop (ncoeffs d) pars) = ncoeffs d)
    by (rewrite length_drop; lia).
  rewrite Hlx.
  replace (ncoeffs d <? 1)%nat with false by (symmetry; apply Nat.ltb_ge; lia).
  set (st0 := Poly.set_parsxy _ _ st).
  assert (Hwf0 : Poly_wf d st0) by (unfold Poly_wf, st0 in *; poly_simpl; exact Hwf).
  destruct Hwf0 as (Hk & Hx & Hy & Hxy & Hr).
  destruct Hx as (Hdx & Hx').
  rewrite Hdx.
  replace (Z.of_nat d <? 0)%Z with false by (symmetry; apply Z.ltb_ge; lia).
  cbn [obind].
  destruct (updatecoeffs_wf d (take (ncoeffs d) pars) (Poly.pars2x st0))
    as (pcx & Hux & Hwx & Hpx); [split; assumption|exact Hlx|].
  rewrite Hux. cbn [Poly.on_pars2x obind].
  change (Poly.pars2y (Poly.set_pars2x pcx st0)) with (Poly.pars2y st0).
  destruct (updatecoeffs_wf d (drop (ncoeffs d) pars) (Poly.pars2y st0))
    as (pcy & Huy & Hwy & Hpy); [exact Hy|exact Hly|].
  rewrite Huy. cbn [Poly.on_pars2y obind].
  set (s3 := Poly.set_pars2y pcy (Poly.set_pars2x pcx st0)).
  assert (Hwf3 : Poly_wf d s3).
  { unfold Poly_wf, s3, st0. poly_simpl. unfold st0 in *. poly_simpl. auto. }
  destruct (populatejacpoly_wf other d _ (Poly_wf_setderivcoeffs other d _ Hwf3))
    as (s4 & H4 & Hwf4 & E1 & E2 & _ & _ & _ & _ & E3 & E4 & E5 & E6).
  rewrite H4. cbn [obind].
  eexists. split; [reflexivity|]. split; [apply Poly_wf_combinejac, Hwf4|].
  assert (Hpres : forall s, Poly.x (Poly.combinejac s) = Poly.x s /\
                            Poly.y (Poly.combinejac s) = Poly.y s /\
                            Poly.xmin (Poly.combinejac s) = Poly.xmin s /\
                            Poly.xmax (Poly.combinejac s) = Poly.xmax s /\
                            Poly.ymin (Poly.combinejac s) = Poly.ymin s /\
                            Poly.ymax (Poly.combinejac s) = Poly.ymax s).
  { intros s. unfold Poly.combinejac. destruct (_ <? _)%nat; poly_simpl; auto 10. }
  destruct (Hpres s4) as (-> & -> & -> & -> & -> & ->).
  rewrite E1, E2, E3, E4, E5, E6.
  rewrite setderivcoeffs_Polynomial by apply Hwf3.
  unfold s3, st0. poly_simpl. auto 10.
Qed.

Lemma setuppars_eq st pcx pcy :
  Polycoeffs.init (Poly.parsx st) (Poly.Verbose st) = Done pcx ->
  Polycoeffs.init (Poly.parsy st) (Poly.Verbose st) = Done pcy ->
  Poly.setuppars st = Done (Poly.set_pars2y pcy (Poly.set_pars2x pcx st)).
Proof. intros Hx Hy. unfold Poly.setuppars. rewrite Hx, Hy. reflexivity. Qed.

Lemma evaluatejacpoly_wf other d s :
  Poly_wf d s -> Poly.setderivcoeffs other s = s ->
  exists J, Poly.evaluatejacpoly other s (Poly.xr s) (Poly.yr s) = Ok J /\
            length J = length (Poly.xr s).
Proof.
  intros (Hk & (_ & _ & _ & Hrx) & (_ & _ & _ & Hry) & _ & Hr) Hfix.
  rewrite setderivcoeffs_Polynomial in Hfix by exact Hk.
  destruct (derivs_nonempty _ _ _ Hrx) as (? & ? & ? & ?); [lia|lia|].
  destruct (derivs_nonempty _ _ _ Hry) as (? & ? & ? & ?); [lia|lia|].
  apply evaluatejacpoly_Polynomial; auto; rewrite <- Hfix; poly_simpl; assumption.
Qed.

Lemma setderivcoeffs_idem other s :
  Poly.setderivcoeffs other (Poly.setderivcoeffs other s) = Poly.setderivcoeffs other s.
Proof. unfold Poly.setderivcoeffs, Poly.derivcoeffs, Poly.methder. reflexivity. Qed.

(** The first Jacobian of an instance: [updatejacobian] with [jacpoly]
    still empty. *)
Lemma updatejacobian_fresh other d s :
  Poly.kind s = Polynomial ->
  coeffs_wf d (Poly.pars2x s) -> coeffs_wf d (Poly.pars2y s) ->
  length (Poly.x s) = length (Poly.y s) ->
  Poly.jacpoly s = [] ->
  exists s',
    Poly.updatejacobian other s = Done s' /\ Poly_wf d s' /\
    Poly.x s' = Poly.x s /\ Poly.y s' = Poly.y s /\
    Poly.parsx s' = Poly.parsx s /\ Poly.parsy s' = Poly.parsy s /\
    Poly.pars2x s' = Poly.pars2x s /\ Poly.pars2y s' = Poly.pars2y s /\
    Poly.xmin s' = Poly.xmin s /\ Poly.xmax s' = Poly.xmax s /\
    Poly.ymin s' = Poly.ymin s /\ Poly.ymax s' = Poly.ymax s /\
    Poly.jacrescale s' =
      M2 (2 / (Poly.xmax s - Poly.xmin s)) 0 0 (2 / (Poly.ymax s - Poly.ymin s)) /\
    (Poly.xr s', Poly.yr s') = Poly.rescalexy s (Poly.x s) (Poly.y s) /\
    (Poly.x s <> [] ->
     Poly.setderivcoeffs other s' = s' /\
     Poly.evaluatejacpoly other s' (Poly.xr s') (Poly.yr s') = Ok (Poly.jacpoly s') /\
     length (Poly.jacpoly s') = length (Poly.x s) /\
     Poly.jac s' = map (mat2_mul (Poly.jacrescale s')) (Poly.jacpoly s')).
Proof.
  intros Hk Hwx Hwy Hxy Hj.
  unfold Poly.updatejacobian, Poly.getjacobian.
  set (s1 := Poly.setjacrescale (Poly.rescalepos s)).
  assert (E1 : s1 = Poly.set_jacrescale
                      (M2 (2 / (Poly.xmax s - Poly.xmin s)) 0 0
                          (2 / (Poly.ymax s - Poly.ymin s)))
                      (Poly.set_xryr (fst (Poly.rescalexy s (Poly.x s) (Poly.y s)))
                                     (snd (Poly.rescalexy s (Poly.x s) (Poly.y s))) s))
    by reflexivity.
  assert (Hj1 : Poly.jacpoly s1 = []) by (rewrite E1; exact Hj).
  unfold Poly.size_stack at 1. rewrite Hj1. cbn [length Nat.mul Nat.add Nat.ltb Nat.leb].
  unfold Poly.initjacpoly.
  assert (Hx1 : Poly.x s1 = Poly.x s) by (rewrite E1; reflexivity).
  rewrite Hx1.
  assert (Hwf1 : forall J, Poly_wf d (Poly.set_jacpoly J s1)).
  { intros J. rewrite E1. unfold Poly_wf, Poly.rescalexy. poly_simpl.
    cbn [fst snd]. rewrite !length_map. auto. }
  destruct (Poly.x s) as [|x0 xs'] eqn:Ex.
  - cbn [length Nat.ltb Nat.leb].
    unfold Poly.populatejacpoly, Poly.size_stack. poly_simpl.
    cbn [length Nat.mul Nat.add Nat.ltb Nat.leb obind].
    unfold Poly.combinejac, Poly.size_stack. poly_simpl.
    cbn [length Nat.mul Nat.add Nat.ltb Nat.leb].
    eexists. split; [reflexivity|]. split; [apply Hwf1|].
    rewrite E1. unfold Poly.rescalexy. poly_simpl. cbn [fst snd]. rewrite ?Ex.
    repeat (split; [solve [auto]|]). intros Hne. congruence.
  - cbn [length Nat.ltb Nat.leb].
    set (s3 := Poly.set_jacpoly _ s1).
    pose proof (Hwf1 (replicate (S (length xs')) eye2)) as Hwf3. fold s3 in Hwf3.
    unfold Poly.populatejacpoly.
    replace (Poly.size_stack (Poly.jacpoly s3) <? 2)%nat with false
      by (symmetry; apply Nat.ltb_ge; unfold s3, Poly.size_stack; poly_simpl;
          rewrite length_replicate; lia).
    pose proof (Poly_wf_setderivcoeffs other d _ Hwf3) as Hwf3'.
    destruct (evaluatejacpoly_wf other d _ Hwf3' (setderivcoeffs_idem other s3))
      as (J & HJ & HlJ).
    cbv zeta. rewrite HJ. cbn [obind].
    assert (Hxr : length (Poly.xr (Poly.setderivcoeffs other s3)) = S (length xs')).
    { rewrite setderivcoeffs_Polynomial by apply Hwf3.
      unfold s3. rewrite E1. unfold Poly.rescalexy. poly_simpl. cbn [fst snd].
      rewrite length_map, ?Ex. reflexivity. }
    assert (HJne : (Poly.size_stack J <? 1)%nat = false).
    { apply Nat.ltb_ge. unfold Poly.size_stack. rewrite HlJ, Hxr. lia. }
    unfold Poly.combinejac. poly_simpl. rewrite HJne.
    eexists. split; [reflexivity|].
    assert (HJlen : length J = S (length xs')) by (rewrite HlJ; exact Hxr).
    clear HlJ Hxr HJne.
    unfold Poly.evaluatejacpoly in HJ |- *.
    unfold s3 in HJ |- *. rewrite E1 in HJ |- *.
    unfold Poly_wf, Poly.rescalexy in *.
    poly_simpl. cbn [fst snd] in *. rewrite ?Ex in *.
    split.
    { repeat (split; [solve [auto]|]). rewrite !length_map. auto. }
    repeat (split; [reflexivity|]).
    split; [exact HJ|]. split; [exact HJlen|reflexivity].
Qed.

(** The constructor of a Polynomial-basis instance whose coefficient sets
    have the length of degree [d]. *)
Lemma Poly_init_Polynomial other d xs ys cov px py v oxmin oxmax oymin oymax :
  length xs = length ys -> length px = ncoeffs d -> length py = ncoeffs d ->
  exists st,
    Poly.init other xs ys cov px py (Some Polynomial) v oxmin oxmax oymin oymax false
      = Done st /\
    Poly_wf d st /\
    Poly.x st = xs /\ Poly.y st = ys /\ Poly.parsx st = px /\ Poly.parsy st = py /\
    Polycoeffs.init px v = Done (Poly.pars2x st) /\
    Polycoeffs.init py v = Done (Poly.pars2y st) /\
    Poly.xmin st = Poly.setdomain1 oxmin (length xs) (Poly.np_min xs) (-1) /\
    Poly.xmax st = Poly.setdomain1 oxmax (length xs) (Poly.np_max xs) 1 /\
    Poly.ymin st = Poly.setdomain1 oymin (length ys) (Poly.np_min ys) (-1) /\
    Poly.ymax st = Poly.setdomain1 oymax (length ys) (Poly.np_max ys) 1 /\
    Poly.jacrescale st =
      M2 (2 / (Poly.xmax st - Poly.xmin st)) 0 0 (2 / (Poly.ymax st - Poly.ymin st)) /\
    (Poly.xr st, Poly.yr st) = Poly.rescalexy st xs ys /\
    (xs <> [] ->
     Poly.setderivcoeffs other st = st /\
     Poly.evaluatejacpoly other st (Poly.xr st) (Poly.yr st) = Ok (Poly.jacpoly st) /\
     length (Poly.jacpoly st) = length xs /\
     Poly.jac st = map (mat2_mul (Poly.jacrescale st)) (Poly.jacpoly st)).
Proof.
  intros Hxy Hpx Hpy.
  destruct (coeffs_wf_init d px v Hpx) as (pcx & Hix & Hwx & _).
  destruct (coeffs_wf_init d py v Hpy) as (pcy & Hiy & Hwy & _).
  unfold Poly.init. cbv zeta.
  set (base := Poly.mk _ _ _ _ _ _ _ _ _ _ _ _ _ _ _ _ _ _ _ _ _ _ _ _).
  assert (Hud : exists c, Poly.updatedata xs ys cov base =
                          Poly.set_covxy c (Poly.set_xy xs ys base)).
  { unfold Poly.updatedata. destruct cov as [|c0 cov].
    - exists []. reflexivity.
    - destruct (_ =? _)%nat; [eexists; reflexivity|].
      exists []. reflexivity. }
  destruct Hud as (c & ->).
  match goal with |- context [Poly.setuppars ?s] => set (s0 := s) end.
  rewrite (setuppars_eq s0 pcx pcy) by assumption.
  cbn [obind].
  destruct (updatejacobian_fresh other d (Poly.set_pars2y pcy (Poly.set_pars2x pcx s0)))
    as (st & Hst & Hwf & Ex & Ey & Epx & Epy & E2x & E2y & Exmin & Exmax & Eymin & Eymax
        & Ejr & Exr & Hjac); try assumption; try reflexivity.
  exists st. split; [exact Hst|]. split; [exact Hwf|].
  split; [rewrite Ex; reflexivity|]. split; [rewrite Ey; reflexivity|].
  split; [rewrite Epx; reflexivity|]. split; [rewrite Epy; reflexivity|].
  split; [rewrite E2x; exact Hix|]. split; [rewrite E2y; exact Hiy|].
  split; [rewrite Exmin; reflexivity|]. split; [rewrite Exmax; reflexivity|].
  split; [rewrite Eymin; reflexivity|]. split; [rewrite Eymax; reflexivity|].
  split; [rewrite Ejr, Exmin, Exmax, Eymin, Eymax; reflexivity|].
  split; [rewrite Exr; unfold Poly.rescalexy;
          rewrite Exmin, Exmax, Eymin, Eymax; reflexivity|].
  intros Hne. apply Hjac. exact Hne.
Qed.

(** ** The example instance *)

Lemma Done_inj {S : Type} (a b : S) : Done a = Done b -> a = b.
Proof. intros H. injection H as H. exact H. Qed.

Lemma example_poly_facts other :
  Poly.init other [0] [0] [] [0; 0; 1] [0; 1; 0] (Some Polynomial) false
            (Some (-1)) (Some 1) (Some (-2)) (Some 2) false
    = Done (example_poly other) /\
  Poly_wf 1 (example_poly other) /\
  Poly.kind (example_poly other) = Polynomial /\
  Polycoeffs.p2d (Poly.pars2x (example_poly other)) = [[0; 1]; [0; 0]] /\
  Polycoeffs.p2d (Poly.pars2y (example_poly other)) = [[0; 0]; [1; 0]] /\
  Poly.xmin (example_poly other) = -1 /\ Poly.xmax (example_poly other) = 1 /\
  Poly.ymin (example_poly other) = -2 /\ Poly.ymax (example_poly other) = 2 /\
  Poly.parsx (example_poly other) = [0; 0; 1] /\
  Poly.parsy (example_poly other) = [0; 1; 0].
Proof.
  unfold example_poly.
  destruct (Poly_init_Polynomial other 1 [0] [0] [] [0; 0; 1] [0; 1; 0] false
              (Some (-1)) (Some 1) (Some (-2)) (Some 2))
    as (st & Hst & Hwf & Ex & Ey & Epx & Epy & E2x & E2y & Exmin & Exmax & Eymin & Eymax
        & Ejr & Exr & Hjac); try reflexivity.
  rewrite Hst. cbn [state_of].
  rewrite (Polycoeffs_init_pos 1) in E2x, E2y by (reflexivity || lia).
  apply Done_inj in E2x, E2y.
  repeat (split; [solve [auto]|]).
  split; [apply Hwf|].
  split; [rewrite <- E2x; reflexivity|].
  split; [rewrite <- E2y; reflexivity|].
  auto 10.
Qed.

Ltac poly_eval :=
  unfold polyval2d, polyval2d1, horner_rows, polyval, pad_row, pad_col,
         polyder_axis0, polyder_axis1, polyder1, stack4;
  cbn [length Nat.eqb Nat.leb Nat.ltb negb orb nrows ncols fold_right zip_with
       replicate map imap take drop app rbind fst snd Nat.add INR].

Lemma example_propxy other x y :
  Poly.propxy other (example_poly other) [x] [y] = Ok ([y / 2], [x]).
Proof.
  destruct (example_poly_facts other)
    as (_ & _ & Hk & H2x & H2y & Hxmin & Hxmax & Hymin & Hymax & _).
  unfold Poly.propxy, Poly.rescalexy, Poly.methval2d.
  rewrite Hk, H2x, H2y, Hxmin, Hxmax, Hymin, Hymax.
  cbn [length Nat.ltb Nat.leb orb map Poly.methlist val2d numpy_polynomial].
  poly_eval.
  f_equal. f_equal; f_equal; field.
Qed.

Lemma example_jac other :
  exists J, Poly.jac (example_poly other) = [J] /\
            m00 J = 0 /\ m01 J = 1 /\ m10 J = 1 / 2 /\ m11 J = 0.
Proof.
  unfold example_poly.
  destruct (Poly_init_Polynomial other 1 [0] [0] [] [0; 0; 1] [0; 1; 0] false
              (Some (-1)) (Some 1) (Some (-2)) (Some 2))
    as (st & Hst & Hwf & Ex & Ey & Epx & Epy & E2x & E2y & Exmin & Exmax & Eymin & Eymax
        & Ejr & Exr & Hjac); try reflexivity.
  rewrite Hst. cbn [state_of].
  destruct Hjac as (Hfix & HJ & HlJ & Hjac); [discriminate|].
  rewrite (Polycoeffs_init_pos 1) in E2x, E2y by (reflexivity || lia).
  apply Done_inj in E2x, E2y.
  assert (Hk : Poly.kind st = Polynomial) by apply Hwf.
  rewrite setderivcoeffs_Polynomial in Hfix by exact Hk.
  rewrite <- E2x, <- E2y in Hfix.
  unfold Poly.rescalexy in Exr. rewrite Exmin, Exmax, Eymin, Eymax in Exr, Ejr.
  cbn [Poly.setdomain1 map] in Exr, Ejr.
  injection Exr as Exr Eyr.
  unfold Poly.evaluatejacpoly, Poly.methval2d in HJ.
  rewrite Hk, Exr, Eyr, <- Hfix in HJ.
  cbn [Poly.cxx Poly.cxy Poly.cyx Poly.cyy Poly.jacpoly Poly.set_derivs Polycoeffs.p2d
       Poly.methlist val2d numpy_polynomial length Nat.ltb Nat.leb orb] in HJ.
  change (scatter2d _ _ [0; 0; 1] _) with [[0; 1]; [0; 0]] in HJ.
  change (scatter2d _ _ [0; 1; 0] _) with [[0; 0]; [1; 0]] in HJ.
  revert HJ. poly_eval. intros HJ.
  apply Ok_inj in HJ.
  rewrite Hjac, <- HJ, Ejr. cbn [map].
  eexists. split; [reflexivity|].
  unfold mat2_mul. cbn [m00 m01 m10 m11].
  repeat split; field.
Qed.

(** ** Poly.updatetransf: split and refresh *)

Lemma same_pars_obind o k s0 :
  same_pars s0 (state_of o) ->
  (forall s, same_pars s (state_of (k s))) ->
  same_pars s0 (state_of (obind o k)).
Proof.
  intros H0 Hk. destruct o as [s|e s]; simpl in *; [|exact H0].
  destruct (Hk s) as [H1 H2]. destruct H0 as [H3 H4].
  split; congruence.
Qed.

Lemma updatetransf_state_parsxy other pars st :
  (2 <= length pars)%nat ->
  Poly.parsx (state_of (Poly.updatetransf other pars st)) = take (length pars / 2) pars /\
  Poly.parsy (state_of (Poly.updatetransf other pars st)) = drop (length pars / 2) pars.
Proof.
  intros Hlen. unfold Poly.updatetransf, Poly.splitpars.
  replace (length pars <? 2)%nat with false by (symmetry; apply Nat.ltb_ge; lia).
  set (imid := (length pars / 2)%nat).
  assert (Himid : (1 <= imid)%nat).
  { unfold imid. pose proof (Nat.div_mod_eq (length pars) 2).
    pose proof (Nat.mod_upper_bound (length pars) 2). lia. }
  assert (Hlx : length (take imid pars) = imid).
  { rewrite length_take. unfold imid.
    pose proof (Nat.div_mod_eq (length pars) 2). lia. }
  rewrite Hlx.
  replace (imid <? 1)%nat with false by (symmetry; apply Nat.ltb_ge; lia).
  set (st0 := Poly.set_parsxy (take imid pars) (drop imid pars) st).
  change (same_pars st0 (state_of
    (run st := (if (Polycoeffs.deg (Poly.pars2x st0) <? 0)%Z
                then Poly.setuppars st0 else Done st0) in
     run st := Poly.on_pars2x (Polycoeffs.updatecoeffs (take imid pars) (Poly.pars2x st)) st in
     run st := Poly.on_pars2y (Polycoeffs.updatecoeffs (drop imid pars) (Poly.pars2y st)) st in
     run st := Poly.populatejacpoly other (Poly.setderivcoeffs other st) in
     Done (Poly.combinejac st)))).
  apply same_pars_obind.
  { destruct (_ <? _)%Z; [|split; reflexivity].
    unfold Poly.setuppars.
    destruct (Polycoeffs.init _ _); [|split; reflexivity].
    destruct (Polycoeffs.init _ _); split; reflexivity. }
  intros s1. apply same_pars_obind.
  { destruct (Polycoeffs.updatecoeffs _ _); split; reflexivity. }
  intros s2. apply same_pars_obind.
  { destruct (Polycoeffs.updatecoeffs _ _); split; reflexivity. }
  intros s3. apply same_pars_obind.
  { unfold Poly.populatejacpoly.
    destruct (_ <? _)%nat; [split; reflexivity|].
    cbv zeta. destruct (Poly.evaluatejacpoly _ _ _ _); split; reflexivity. }
  intros s4. unfold Poly.combinejac.
  destruct (_ <? _)%nat; split; reflexivity.
Qed.

Lemma updatetransf_short other short st :
  (length short < 2)%nat -> Poly.updatetransf other short st = Done st.
Proof.
  intros H. unfold Poly.updatetransf, Poly.splitpars.
  replace (length short <? 2)%nat with true by (symmetry; apply Nat.ltb_lt; lia).
  reflexivity.
Qed.

Lemma even_halves (pars : vec) :
  Nat.even (length pars) = true ->
  length (take (length pars / 2) pars) = length (drop (length pars / 2) pars).
Proof.
  intros He. apply Nat.even_spec in He as [k Hk].
  rewrite length_take, length_drop, Hk.
  rewrite (Nat.mul_comm 2 k), Nat.div_mul by lia. lia.
Qed.

(** C7 as the code has it. For a vector of even length >= 2: whenever the
    call returns, [parsx] and [parsy] are the two equal-length halves, both
    coefficient objects hold them (written into the 2D arrays for a degree
    that [updatecoeffs2d] writes), the derivative coefficients are those of
    the 2D arrays and, where a Jacobian had been set up, [jacpoly] is
    evaluated at the rescaled positions and [jac] combined from it; and the
    call does return for a Polynomial-basis instance of degree [d] given
    twice the coefficient count of [d]. A vector of length < 2 is a no-op. *)
Theorem Poly_updatetransf_refresh other pars st :
  (2 <= length pars)%nat -> Nat.even (length pars) = true ->
  (forall st', Poly.updatetransf other pars st = Done st' ->
     refreshed other pars st st' /\
     length (Poly.parsx st') = length (Poly.parsy st')) /\
  (forall d, Poly_wf d st -> length pars = (2 * ncoeffs d)%nat ->
     exists st', Poly.updatetransf other pars st = Done st' /\ Poly_wf d st') /\
  (forall short, (length short < 2)%nat ->
     Poly.updatetransf other short st = Done st).
Proof.
  intros Hlen He. split; [|split].
  - intros st' H.
    pose proof (updatetransf_Done_refreshed other pars st st' Hlen H) as Hr.
    split; [exact Hr|].
    destruct Hr as (-> & -> & _). apply even_halves, He.
  - intros d Hwf Hl.
    destruct (updatetransf_wf other d pars st Hwf Hl) as (st' & H & Hwf' & _).
    eauto.
  - intros short Hs. apply updatetransf_short, Hs.
Qed.

Lemma example_poly_wf other : Poly_wf 1 (example_poly other).
Proof. apply example_poly_facts. Qed.

Lemma Poly_updatetransf_refresh_witness :
  (2 <= length [1; 2; 3; 4; 5; 6])%nat /\
  Nat.even (length [1; 2; 3; 4; 5; 6]) = true /\
  exists st',
    Poly.updatetransf polynomial_only [1; 2; 3; 4; 5; 6]
      (example_poly polynomial_only) = Done st' /\
    Poly_wf 1 st'.
Proof.
  split; [simpl; lia|]. split; [reflexivity|].
  apply (proj1 (proj2 (Poly_updatetransf_refresh polynomial_only [1; 2; 3; 4; 5; 6]
                         (example_poly polynomial_only)
                         ltac:(simpl; lia) eq_refl)) 1%nat).
  - apply example_poly_wf.
  - reflexivity.
Defined.

(** C7 as stated fails: for the one-element vector [7.] (length >= 1) the
    call returns with the instance untouched, so [parsx] is still
    [0., 0., 1.] and nothing was split or refreshed; and for the odd-length
    vector [1., 2., 3.] the two halves differ in length. *)
Lemma updatetransf_length1_no_refresh :
  Poly.updatetransf polynomial_only [7] (example_poly polynomial_only)
    = Done (example_poly polynomial_only) /\
  ~ refreshed polynomial_only [7] (example_poly polynomial_only)
      (state_of (Poly.updatetransf polynomial_only [7] (example_poly polynomial_only))) /\
  length (Poly.parsx (state_of (Poly.updatetransf polynomial_only [1; 2; 3]
                                  (example_poly polynomial_only)))) <>
  length (Poly.parsy (state_of (Poly.updatetransf polynomial_only [1; 2; 3]
                                  (example_poly polynomial_only)))).
Proof.
  assert (H7 : Poly.updatetransf polynomial_only [7] (example_poly polynomial_only)
               = Done (example_poly polynomial_only))
    by (apply updatetransf_short; simpl; lia).
  split; [exact H7|]. split.
  - rewrite H7. cbn [state_of]. intros (Hpx & _).
    destruct (example_poly_facts polynomial_only)
      as (_ & _ & _ & _ & _ & _ & _ & _ & _ & Epx & _).
    rewrite Epx in Hpx. discriminate.
  - destruct (updatetransf_state_parsxy polynomial_only [1; 2; 3]
                (example_poly polynomial_only)) as [-> ->]; [simpl; lia|].
    simpl. lia.
Qed.

(** ** The combined Jacobian of Poly *)

Lemma example_propxy_x other y :
  propxy_x other (example_poly other) 0 y = y / 2.
Proof. unfold propxy_x. rewrite example_propxy. reflexivity. Qed.

Lemma example_propxy_x_deriv other :
  derivable_pt_lim (fun y => propxy_x other (example_poly other) 0 y) 0 (1 / 2).
Proof.
  intros eps Heps. exists (mkposreal 1 Rlt_0_1). intros h Hh _.
  rewrite !example_propxy_x.
  replace (((0 + h) / 2 - 0 / 2) / h - 1 / 2) with 0 by (field; exact Hh).
  rewrite Rabs_R0. exact Heps.
Qed.

(** C1 (code defect): on the non-degenerate domain [-1,1] x [-2,2] the
    degree-1 Polynomial-basis instance with parsx = [0,0,1] and
    parsy = [0,1,0] maps (x, y) to (y/2, x). The derivative of the first
    output with respect to y is 1/2, but the (0,1) entry of the combined
    Jacobian [jac = jacrescale . jacpoly] is 1 (and the (1,0) entry is 1/2
    where the derivative of the second output with respect to x is 1): the
    rescale factor multiplies the rows of the polynomial Jacobian, where the
    chain rule needs it on the columns. *)
Theorem combinejac_wrong_order (other : polykind -> backend) :
  Poly.xmax (example_poly other) <> Poly.xmin (example_poly other) /\
  Poly.ymax (example_poly other) <> Poly.ymin (example_poly other) /\
  (forall x y, Poly.propxy other (example_poly other) [x] [y] = Ok ([y / 2], [x])) /\
  derivable_pt_lim (fun y => propxy_x other (example_poly other) 0 y) 0 (1 / 2) /\
  exists J,
    Poly.jac (example_poly other) = [J] /\
    m00 J = 0 /\ m01 J = 1 /\ m10 J = 1 / 2 /\ m11 J = 0 /\
    ~ derivable_pt_lim (fun y => propxy_x other (example_poly other) 0 y) 0 (m01 J).
Proof.
  destruct (example_poly_facts other)
    as (_ & _ & _ & _ & _ & Hxmin & Hxmax & Hymin & Hymax & _).
  split; [rewrite Hxmin, Hxmax; lra|].
  split; [rewrite Hymin, Hymax; lra|].
  split; [intros x y; apply example_propxy|].
  split; [apply example_propxy_x_deriv|].
  destruct (example_jac other) as (J & HJ & H00 & H01 & H10 & H11).
  exists J. repeat (split; [assumption|]).
  intros Hd. rewrite H01 in Hd.
  pose proof (uniqueness_limite _ _ _ _ Hd (example_propxy_x_deriv other)) as Heq.
  lra.
Qed.

(** ** Covariance propagation: symmetry *)

Lemma evaluatejacpoly_wf_at other d s vxr vyr :
  Poly_wf d s -> Poly.setderivcoeffs other s = s -> length vxr = length vyr ->
  exists J, Poly.evaluatejacpoly other s vxr vyr = Ok J /\ length J = length vxr.
Proof.
  intros (Hk & (_ & _ & _ & Hrx) & (_ & _ & _ & Hry) & _ & _) Hfix Hl.
  rewrite setderivcoeffs_Polynomial in Hfix by exact Hk.
  destruct (derivs_nonempty _ _ _ Hrx) as (? & ? & ? & ?); [lia|lia|].
  destruct (derivs_nonempty _ _ _ Hry) as (? & ? & ? & ?); [lia|lia|].
  apply evaluatejacpoly_Polynomial; auto; rewrite <- Hfix; poly_simpl; assumption.
Qed.

Lemma Poly_propcov_defined other d P C vx vy :
  Poly_wf d P -> Poly.setderivcoeffs other P = P ->
  (0 < length vx)%nat -> length vx = length vy -> length C = length vx ->
  exists out, Poly.propcov other P C vx vy = Ok out /\ length out = length vx.
Proof.
  intros Hwf Hfix Hn Hl HC. unfold Poly.propcov, Poly.rescalexy.
  destruct (evaluatejacpoly_wf_at other d P
              (map (fun x => (2 * x - (Poly.xmax P + Poly.xmin P)) /
                             (Poly.xmax P - Poly.xmin P)) vx)
              (map (fun y => (2 * y - (Poly.ymax P + Poly.ymin P)) /
                             (Poly.ymax P - Poly.ymin P)) vy) Hwf Hfix)
    as (J & HJ & HlJ); [rewrite !length_map; exact Hl|].
  rewrite HJ. cbn [rbind]. rewrite length_map in HlJ.
  destruct J as [|j J]; [simpl in HlJ; lia|].
  cbn [matmul_left rbind].
  destruct (sandwich_defined (map (mat2_mul (Poly.jacrescale P)) (j :: J)) C)
    as (out & Hout & Hlen).
  - discriminate.
  - rewrite length_map. lia.
  - exists out. split; [exact Hout|]. rewrite Hlen, length_map. exact HlJ.
Qed.

(** C8: whatever the positions and the Jacobian evaluated at them, every
    plane of the covariance stack returned by [propcov] (of [Poly], of
    [Tan2equ] and of [Equ2tan]) is symmetric when every plane of the input
    stack is; and for N >= 1 paired positions with N input planes the call
    does return N planes (for [Poly]: a Polynomial-basis instance whose
    derivative coefficients are in place). *)
Theorem propcov_symmetric (other : polykind -> backend)
    (P : Poly.t) (T : Tan2equ.t) (E : Equ2tan.t) (C : list mat2) (vx vy : vec) :
  Forall mat2_sym C ->
  (forall out, Poly.propcov other P C vx vy = Ok out -> Forall mat2_sym out) /\
  (forall out, Tan2equ.propcov T C vx vy = Ok out -> Forall mat2_sym out) /\
  (forall out, Equ2tan.propcov E C vx vy = Ok out -> Forall mat2_sym out) /\
  ((0 < length vx)%nat -> length vx = length vy -> length C = length vx ->
   (forall d, Poly_wf d P -> Poly.setderivcoeffs other P = P ->
      exists out, Poly.propcov other P C vx vy = Ok out /\ length out = length vx) /\
   ((0 < length (Tan2equ.x T))%nat -> length (Tan2equ.pars T) = 2%nat ->
      exists out, Tan2equ.propcov T C vx vy = Ok out /\ length out = length vx) /\
   (length (Equ2tan.pars E) = 2%nat ->
      exists out, Equ2tan.propcov E C vx vy = Ok out /\ length out = length vx)).
Proof.
  intros HC. split; [|split; [|split]].
  - intros out. apply Poly_propcov_sym, HC.
  - intros out. apply Tan2equ_propcov_sym, HC.
  - intros out. apply Equ2tan_propcov_sym, HC.
  - intros Hn Hl HlC. split; [|split].
    + intros d Hwf Hfix. eapply Poly_propcov_defined; eauto.
    + intros Hx Hp. apply Tan2equ_propcov_defined; assumption.
    + intros Hp. apply Equ2tan_propcov_defined; assumption.
Qed.

Lemma propcov_symmetric_witness :
  Forall mat2_sym [M2 1 (1 / 5) (1 / 5) 2] /\
  exists out,
    Tan2equ.propcov example_tan2equ [M2 1 (1 / 5) (1 / 5) 2] [0] [0] = Ok out /\
    Forall mat2_sym out.
Proof.
  assert (HC : Forall mat2_sym [M2 1 (1 / 5) (1 / 5) 2])
    by (repeat constructor).
  split; [exact HC|].
  destruct (propcov_symmetric polynomial_only (example_poly polynomial_only)
              example_tan2equ example_equ2tan [M2 1 (1 / 5) (1 / 5) 2] [0] [0] HC)
    as (_ & Hsym & _ & Hdef).
  destruct Hdef as (_ & HT & _); [simpl; lia|reflexivity|reflexivity|].
  destruct HT as (out & Hout & _); [simpl; lia|reflexivity|].
  exists out. split; [exact Hout|]. apply Hsym, Hout.
Defined.

(** ** Witnesses for the gnomonic theorems *)



(** ** xy2equ: the parameter update re-derives the positions *)

Lemma obind_Done {S : Type} (o : outcome S) k s' :
  obind o k = Done s' -> exists s1, o = Done s1 /\ k s1 = Done s'.
Proof. destruct o as [s1|e s1]; simpl; [eauto|discriminate]. Qed.


Lemma Parvec_init_valid pars :
  Parvec.counts_valid pars = true ->
  let imid := ((length pars - 2) / 2)%nat in
  Parvec.init pars =
    Done (Parvec.mk (is_ncoeffs imid) [0; 2; 3; 1; imid + 2; imid + 3]%nat
            (if is_ncoeffs imid then take imid (drop 2 pars)
             else 0 :: take imid (drop 2 pars))
            (if is_ncoeffs imid then drop imid (drop 2 pars)
             else 0 :: drop imid (drop 2 pars))
            (take 2 pars) None) /\
  (1 <= imid)%nat /\ length (take imid (drop 2 pars)) = imid /\
  length (drop imid (drop 2 pars)) = imid.
Proof.
  unfold Parvec.counts_valid. intros H.
  apply andb_true_iff in H as [H Hv]. apply andb_true_iff in H as [H3 He].
  apply Nat.leb_le in H3. apply Nat.eqb_eq in He.
  cbv zeta.
  set (imid := ((length pars - 2) / 2)%nat) in *.
  pose proof (Nat.div_mod_eq (length pars - 2) 2) as Hdm. fold imid in Hdm.
  assert (Hi : (1 <= imid)%nat) by lia.
  assert (Hlt : length (take imid (drop 2 pars)) = imid)
    by (rewrite length_take, length_drop; lia).
  assert (Hld : length (drop imid (drop 2 pars)) = imid)
    by (rewrite !length_drop; lia).
  split; [|auto].
  unfold Parvec.init, Parvec.ingestpars.
  replace (length pars <? 2)%nat with false by (symmetry; apply Nat.ltb_ge; lia).
  replace (length pars <? 3)%nat with false by (symmetry; apply Nat.ltb_ge; lia).
  rewrite length_drop.
  replace (0 <? (length pars - 2) mod 2)%nat with false
    by (symmetry; apply Nat.ltb_ge; lia).
  fold imid. rewrite Hlt.
  rewrite !nonint_deg_spec by lia.
  destruct (is_ncoeffs imid) eqn:E1; cbn [negb].
  - reflexivity.
  - cbn [orb] in Hv. replace (imid + 1)%nat with (imid + 1)%nat in Hv by lia.
    rewrite Hv. cbn [negb]. reflexivity.
Qed.


Lemma Poly_tranpos_Done other st st' :
  Poly.tranpos other st = Done st' ->
  exists xt yt,
    Poly.propxy other st (Poly.x st) (Poly.y st) = Ok (xt, yt) /\
    st' = Poly.set_tran xt yt st.
Proof.
  unfold Poly.tranpos.
  destruct (Poly.propxy other st (Poly.x st) (Poly.y st)) as [[xt yt]|e];
    [|discriminate].
  intros H. injection H as <-. eauto.
Qed.

Lemma Poly_propxy_wf other d st vx vy :
  Poly_wf d st -> length vx = length vy ->
  exists xt yt,
    Poly.propxy other st vx vy = Ok (xt, yt) /\
    length xt = length vx /\ length yt = length vx.
Proof.
  intros (Hk & (_ & _ & _ & Hrx) & (_ & _ & _ & Hry) & _ & _) Hl.
  unfold Poly.propxy.
  destruct (length vx <? 1)%nat eqn:Hx.
  - apply Nat.ltb_lt in Hx. exists [], []. cbn [orb]. split; [reflexivity|].
    simpl. lia.
  - apply Nat.ltb_ge in Hx.
    replace (length vy <? 1)%nat with false by (symmetry; apply Nat.ltb_ge; lia).
    cbn [orb]. unfold Poly.rescalexy, Poly.methval2d, Poly.methlist.
    rewrite Hk. cbn [val2d numpy_polynomial].
    destruct Hrx as [Hrx1 Hrx2], Hry as [Hry1 Hry2].
    assert (Hnc : forall c, length c = (d + 1)%nat ->
              Forall (fun row => length row = (d + 1)%nat) c -> ncols c <> 0%nat).
    { intros c Hc1 Hc2. destruct c as [|row c]; [simpl in Hc1; lia|].
      apply Forall_cons in Hc2 as [Hrow _]. unfold ncols. lia. }
    rewrite !polyval2d_Ok;
      try (rewrite !length_map; exact Hl);
      try (unfold nrows; lia); try (apply Hnc; assumption).
    cbn [rbind]. eexists _, _. split; [reflexivity|].
    rewrite !length_zip_with, !length_map. lia.
Qed.

Lemma Tan2equ_updatetransf_Done pars T T' :
  length pars = 2%nat ->
  Tan2equ.updatetransf pars T = Done T' ->
  Tan2equ.pars T' = pars /\ Tan2equ.x T' = Tan2equ.x T /\ Tan2equ.y T' = Tan2equ.y T /\
  Tan2equ.evaluatejac T' (Tan2equ.x T') (Tan2equ.y T') = Ok (Tan2equ.jac T').
Proof.
  intros Hl. unfold Tan2equ.updatetransf, Tan2equ.setjacobian.
  rewrite Hl. cbn [Nat.eqb negb].
  destruct (Tan2equ.evaluatejac (Tan2equ.set_pars pars T) _ _) as [J|e] eqn:HJ;
    [|discriminate].
  intros H. injection H as <-.
  repeat (split; [reflexivity|]). exact HJ.
Qed.

Lemma on_xy2tp_Done o st s1 :
  xy2equ.on_xy2tp o st = Done s1 ->
  exists p, o = Done p /\ s1 = xy2equ.set_xy2tp p st.
Proof.
  destruct o; simpl; [|discriminate]. intros H. injection H as <-. eauto.
Qed.

Lemma on_tp2equ_Done o st s1 :
  xy2equ.on_tp2equ o st = Done s1 ->
  exists q, o = Done q /\ s1 = xy2equ.set_tp2equ q st.
Proof.
  destruct o; simpl; [|discriminate]. intros H. injection H as <-. eauto.
Qed.

Ltac xy_simpl :=
  cbn [xy2equ.Verbose xy2equ.parsx xy2equ.parsy xy2equ.tangentpoint
       xy2equ.polyhasxy0 xy2equ.inds1d_6term xy2equ.x xy2equ.y xy2equ.covxy
       xy2equ.xy2tp xy2equ.tp2equ xy2equ.set_pars xy2equ.set_xy2tp
       xy2equ.set_tp2equ] in *.



(** ** Patternmatrix and Poly *)

Lemma zip_with_replicate_l {A B C : Type} (f : A -> B -> C) a (M : list B) :
  zip_with f (replicate (length M) a) M = map (f a) M.
Proof. induction M as [|b M IH]; simpl; [reflexivity|]. rewrite IH. reflexivity. Qed.

Lemma zip_with_repeat_tile {A B C : Type} (f : A -> B -> C) (L : list A) (M : list B) :
  zip_with f (np_repeat L (length M)) (np_tile M (length L)) =
  flat_map (fun a => map (f a) M) L.
Proof.
  unfold np_repeat, np_tile.
  induction L as [|a L IH]; simpl; [reflexivity|].
  rewrite zip_with_app by apply length_replicate.
  rewrite IH, zip_with_replicate_l. reflexivity.
Qed.

Lemma select_nil_r {A : Type} (b : list bool) : select b (@nil A) = [].
Proof. destruct b as [|[|] b]; reflexivity. Qed.

Lemma select_app {A : Type} (b1 b2 : list bool) (l1 l2 : list A) :
  length b1 = length l1 ->
  select (b1 ++ b2) (l1 ++ l2) = select b1 l1 ++ select b2 l2.
Proof.
  revert l1. induction b1 as [|c b1 IH]; intros [|a l1] Hl; simpl in *;
    try discriminate; [reflexivity|].
  injection Hl as Hl. destruct c; simpl; rewrite IH by exact Hl; reflexivity.
Qed.

Lemma select_flat_map {A B : Type} (f : A -> list bool) (g : A -> list B) (L : list A) :
  (forall a, length (f a) = length (g a)) ->
  select (flat_map f L) (flat_map g L) = flat_map (fun a => select (f a) (g a)) L.
Proof.
  intros Hl. induction L as [|a L IH]; simpl; [reflexivity|].
  rewrite select_app by apply Hl. rewrite IH. reflexivity.
Qed.

Lemma select_map {A B : Type} (h : A -> B) (b : list bool) (l : list A) :
  select b (map h l) = map h (select b l).
Proof.
  revert l. induction b as [|c b IH]; intros [|a l]; simpl; try reflexivity.
  - destruct c; reflexivity.
  - destruct c; simpl; rewrite IH; reflexivity.
Qed.

Lemma select_zip_with {A B C : Type} (f : A -> B -> C) (b : list bool) u v :
  select b (zip_with f u v) = zip_with f (select b u) (select b v).
Proof.
  revert u v. induction b as [|c b IH]; intros [|a u] [|a' v];
    try reflexivity;
    destruct c; simpl; rewrite ?select_nil_r, ?IH; try reflexivity;
    destruct (select b u); reflexivity.
Qed.

Lemma Forall_select {A : Type} (P : A -> Prop) (b : list bool) (l : list A) :
  Forall P l -> Forall P (select b l).
Proof.
  revert l. induction b as [|c b IH]; intros [|a l] H; simpl;
    try (destruct c); try constructor.
  - apply Forall_cons in H as [H _]. exact H.
  - apply IH. apply Forall_cons in H as [_ H]. exact H.
  - apply IH. apply Forall_cons in H as [_ H]. exact H.
Qed.

Lemma select_index (b : list bool) (row : vec) : forall pre,
  map (fun l => nth l (pre ++ row) 0) (select b (seq (length pre) (length row))) =
  select b row.
Proof.
  revert b. induction row as [|a row IH]; intros b pre.
  - simpl. rewrite !select_nil_r. reflexivity.
  - destruct b as [|c b]; [reflexivity|]. simpl.
    specialize (IH b (pre ++ [a])).
    rewrite <- app_assoc, length_app in IH. simpl in IH.
    rewrite Nat.add_1_r in IH.
    destruct c; simpl; rewrite IH; [|reflexivity].
    f_equal. rewrite app_nth2 by lia. rewrite Nat.sub_diag. reflexivity.
Qed.

Lemma select_le_seq (i d n : nat) : forall s,
  select (map (fun j => (i + j <=? d)%nat) (seq s n)) (seq s n) =
  seq s (Nat.min n (d + 1 - i - s)).
Proof.
  induction n as [|n IH]; intros s; simpl; [reflexivity|].
  destruct (i + s <=? d)%nat eqn:E.
  - apply Nat.leb_le in E. rewrite IH.
    replace (d + 1 - i - s)%nat with (S (d + 1 - i - S s)) by lia.
    reflexivity.
  - apply Nat.leb_gt in E. rewrite IH.
    replace (d + 1 - i - S s)%nat with 0%nat by lia.
    replace (d + 1 - i - s)%nat with 0%nat by lia.
    rewrite Nat.min_0_r. reflexivity.
Qed.


Lemma flat_map_ext_in {A B : Type} (f g : A -> list B) (L : list A) :
  (forall a, In a L -> f a = g a) -> flat_map f L = flat_map g L.
Proof.
  induction L as [|a L IH]; intros H; simpl; [reflexivity|].
  rewrite (H a) by (left; reflexivity).
  rewrite IH by (intros b Hb; apply H; right; exact Hb). reflexivity.
Qed.

Lemma length_flat_map_ext {A B C : Type} (f : A -> list B) (g : A -> list C) L :
  (forall a, length (f a) = length (g a)) ->
  length (flat_map f L) = length (flat_map g L).
Proof.
  intros H. induction L as [|a L IH]; simpl; [reflexivity|].
  rewrite !length_app, H, IH. reflexivity.
Qed.

Lemma select_square {A : Type} (h : nat -> nat -> A) (d : nat) :
  select (flat_map (fun i => map (fun j => (i + j <=? d)%nat) (seq 0 (d + 1)))
                   (seq 0 (d + 1)))
         (flat_map (fun i => map (h i) (seq 0 (d + 1))) (seq 0 (d + 1))) =
  flat_map (fun i => map (h i) (seq 0 (d + 1 - i))) (seq 0 (d + 1)).
Proof.
  rewrite select_flat_map by (intros i; rewrite !length_map; reflexivity).
  apply flat_map_ext_in. intros i Hi. apply in_seq in Hi.
  rewrite select_map, select_le_seq. f_equal. f_equal. lia.
Qed.

Lemma sumR_app u v : sumR (u ++ v) = sumR u + sumR v.
Proof. induction u as [|a u IH]; simpl; [lra|]. rewrite IH. lra. Qed.

Lemma sumR_scale {A : Type} (g : A -> R) k (l : list A) :
  sumR (map (fun a => k * g a) l) = k * sumR (map g l).
Proof. induction l as [|a l IH]; simpl; [lra|]. rewrite IH. lra. Qed.

Lemma dot_app a b c d :
  length a = length c -> dot (a ++ b) (c ++ d) = dot a c + dot b d.
Proof.
  intros H. unfold dot. rewrite zip_with_app by exact H. apply sumR_app.
Qed.

Lemma dot_zeros_l n v : dot (replicate n 0) v = 0.
Proof.
  revert v. induction n as [|n IH]; intros [|a v]; try reflexivity.
  unfold dot in *. simpl. rewrite IH. lra.
Qed.

Lemma dot_flat_map {A : Type} (f g : A -> vec) (L : list A) :
  (forall a, length (f a) = length (g a)) ->
  dot (flat_map f L) (flat_map g L) = sumR (map (fun a => dot (f a) (g a)) L).
Proof.
  intros H. induction L as [|a L IH]; simpl; [reflexivity|].
  rewrite dot_app by apply H. rewrite IH. reflexivity.
Qed.

Lemma polyval_cons y a v : polyval y (a :: v) = a + polyval y v * y.
Proof. reflexivity. Qed.

Lemma dot_monomials_row x y i (v : vec) : forall s,
  dot (map (fun j => x ^ i * y ^ j) (seq s (length v))) v =
  x ^ i * y ^ s * polyval y v.
Proof.
  induction v as [|a v IH]; intros s.
  - unfold dot, polyval. simpl. lra.
  - rewrite polyval_cons. simpl length. simpl seq. simpl map.
    unfold dot in *. simpl. rewrite IH. simpl. lra.
Qed.

Lemma polyval_app_zeros y u n : polyval y (u ++ replicate n 0) = polyval y u.
Proof.
  induction u as [|a u IH].
  - simpl. induction n as [|n IHn]; [reflexivity|].
    simpl replicate. rewrite polyval_cons, IHn. unfold polyval. simpl. lra.
  - simpl app. rewrite !polyval_cons, IH. reflexivity.
Qed.

Lemma polyval_zip x y u : forall v,
  length u = length v ->
  polyval y (zip_with (fun a b => a + b * x) u v) = polyval y u + x * polyval y v.
Proof.
  induction u as [|a u IH]; intros [|b v] Hl; simpl in Hl; try discriminate.
  - unfold polyval. simpl. lra.
  - simpl zip_with. rewrite !polyval_cons, IH by lia. lra.
Qed.

Lemma polyval_zeros y n : polyval y (replicate n 0) = 0.
Proof. rewrite <- (app_nil_l (replicate n 0)), polyval_app_zeros. reflexivity. Qed.

Lemma horner_rows_sum x y m (c : arr2d) (base : vec) :
  Forall (fun row => length row = m) c -> length base = m ->
  let h := fold_right (fun row acc => zip_with (fun a b => a + b * x) row acc) base c in
  length h = m /\
  polyval y h =
    sumR (map (fun i => x ^ i * polyval y (nth i c [])) (seq 0 (length c)))
    + x ^ length c * polyval y base.
Proof.
  intros Hc Hb. cbv zeta. induction c as [|row c IH].
  - simpl. split; [exact Hb|]. lra.
  - apply Forall_cons in Hc as [Hrow Hc]. destruct (IH Hc) as [Hl Hp].
    cbn [fold_right]. split.
    + rewrite length_zip_with, Hl, Hrow. lia.
    + rewrite polyval_zip by (rewrite Hl; exact Hrow). rewrite Hp.
      cbn [length seq map sumR fold_right nth].
      rewrite <- seq_shift, map_map.
      cbn [nth pow].
      rewrite (map_ext (fun i => x * x ^ i * polyval y (nth i c []))
                       (fun i => x * (x ^ i * polyval y (nth i c []))))
        by (intros; ring).
      rewrite (sumR_scale (fun i => x ^ i * polyval y (nth i c [])) x).
      unfold sumR. ring.
Qed.

Lemma row_split d (c : arr2d) i row :
  c !! i = Some row -> length row = (d + 1)%nat -> triangular d c -> (i <= d)%nat ->
  row = map (get2d c i) (seq 0 (d + 1 - i)) ++ replicate i 0.
Proof.
  intros Hc Hl Ht Hi. apply list_eq. intros j.
  assert (Hg : forall v, row !! j = Some v -> get2d c i j = v).
  { intros v Hv. unfold get2d. rewrite Hc, Hv. reflexivity. }
  destruct (Nat.lt_ge_cases j (d + 1 - i)) as [Hj|Hj].
  - rewrite lookup_app_l by (rewrite length_map, length_seq; exact Hj).
    rewrite list_lookup_fmap, lookup_seq_lt by exact Hj. simpl.
    destruct (row !! j) as [v|] eqn:Hv.
    + rewrite (Hg v eq_refl). reflexivity.
    + apply lookup_ge_None_1 in Hv. lia.
  - rewrite lookup_app_r by (rewrite length_map, length_seq; exact Hj).
    rewrite length_map, length_seq.
    destruct (Nat.lt_ge_cases j (d + 1)) as [Hj'|Hj'].
    + rewrite lookup_replicate_2 by lia.
      destruct (row !! j) as [v|] eqn:Hv.
      * rewrite <- (Hg v eq_refl). rewrite Ht by lia. reflexivity.
      * apply lookup_ge_None_1 in Hv. lia.
    + rewrite (lookup_ge_None_2 row) by lia.
      symmetry. apply lookup_ge_None_2. rewrite length_replicate. lia.
Qed.

Lemma polyval2d1_triangle d x y (c : arr2d) :
  rect (d + 1) (d + 1) c -> triangular d c ->
  polyval2d1 x y c = dot (monomials d x y) (triangle d c).
Proof.
  intros [Hr Hc] Ht. unfold polyval2d1, horner_rows.
  destruct (horner_rows_sum x y (d + 1) c (replicate (ncols c) 0) Hc) as [_ Hp].
  { rewrite length_replicate. destruct c as [|row c]; [simpl in Hr; lia|].
    apply Forall_cons in Hc as [Hrow _]. exact Hrow. }
  rewrite Hp, polyval_zeros, Hr. unfold monomials, triangle.
  rewrite dot_flat_map by (intros i; rewrite !length_map; reflexivity).
  rewrite Rmult_0_r, Rplus_0_r. f_equal.
  apply map_ext_in. intros i Hi. apply in_seq in Hi.
  pose proof (dot_monomials_row x y i (map (get2d c i) (seq 0 (d + 1 - i))) 0) as Hd.
  rewrite length_map, length_seq in Hd. rewrite Hd. clear Hd.
  destruct (c !! i) as [row|] eqn:Hrow; [|apply lookup_ge_None_1 in Hrow; lia].
  rewrite nth_lookup, Hrow. cbn [default from_option].
  assert (Hlrow : length row = (d + 1)%nat).
  { rewrite Forall_lookup in Hc. exact (Hc i row Hrow). }
  rewrite (row_split d c i row Hrow Hlrow Ht) at 1 by lia.
  unfold Datatypes.id. rewrite polyval_app_zeros. simpl. ring.
Qed.

Lemma flat_map_seq_shift {A : Type} (f : nat -> list A) n :
  flat_map f (seq 1 n) = flat_map (fun i => f (S i)) (seq 0 n).
Proof.
  rewrite <- seq_shift. induction (seq 0 n) as [|a l IH]; simpl; [reflexivity|].
  rewrite IH. reflexivity.
Qed.

Lemma length_flat_map_tri {A : Type} n : forall (h : nat -> nat -> A),
  (2 * length (flat_map (fun i => map (h i) (seq 0 (n - i))) (seq 0 n)) = n * (n + 1))%nat.
Proof.
  induction n as [|n IH]; intros h; [reflexivity|].
  cbn [seq flat_map]. rewrite length_app, length_map, length_seq.
  rewrite flat_map_seq_shift.
  cbn [Nat.sub]. specialize (IH (fun i => h (S i))). lia.
Qed.

Lemma length_monomials d x y : length (monomials d x y) = ncoeffs d.
Proof.
  pose proof (length_flat_map_tri (d + 1) (fun i j => x ^ i * y ^ j)) as H.
  pose proof (double_ncoeffs d). unfold monomials. lia.
Qed.

Lemma length_triangle d c : length (triangle d c) = ncoeffs d.
Proof.
  pose proof (length_flat_map_tri (d + 1) (get2d c)) as H.
  pose proof (double_ncoeffs d). unfold triangle. lia.
Qed.

Lemma forallb_Forall {A : Type} (p : A -> bool) (l : list A) :
  Forall (fun a => p a = true) l -> forallb p l = true.
Proof.
  induction 1 as [|a l Ha _ IH]; simpl; [reflexivity|]. rewrite Ha, IH. reflexivity.
Qed.

Lemma take_cols_select (b : list bool) (row : vec) :
  take_cols (select b (arange (length row))) row = Ok (select b row).
Proof.
  unfold take_cols, arange. rewrite forallb_Forall.
  - f_equal. exact (select_index b row []).
  - apply Forall_select. apply List.Forall_forall. intros l Hl.
    apply in_seq in Hl. apply Nat.ltb_lt. lia.
Qed.

Lemma collect_map_Ok {A B : Type} (f : A -> result B) (g : A -> B) (l : list A) :
  (forall a, In a l -> f a = Ok (g a)) -> collect (map f l) = Ok (map g l).
Proof.
  induction l as [|a l IH]; intros H; simpl; [reflexivity|].
  rewrite (H a) by (left; reflexivity).
  rewrite IH by (intros b Hb; apply H; right; exact Hb). reflexivity.
Qed.

Lemma powers_mask d :
  zip_with (fun i j => (i + j <=? d)%nat)
           (np_repeat (arange (d + 1)) (d + 1)) (np_tile (arange (d + 1)) (d + 1)) =
  flat_map (fun i => map (fun j => (i + j <=? d)%nat) (seq 0 (d + 1))) (seq 0 (d + 1)).
Proof.
  pose proof (zip_with_repeat_tile (fun i j => (i + j <=? d)%nat)
                (seq 0 (d + 1)) (seq 0 (d + 1))) as H.
  rewrite length_seq in H. exact H.
Qed.

Lemma powers_zip_with {C : Type} (f : nat -> nat -> C) d :
  zip_with f (np_repeat (arange (d + 1)) (d + 1)) (np_tile (arange (d + 1)) (d + 1)) =
  flat_map (fun i => map (f i) (seq 0 (d + 1))) (seq 0 (d + 1)).
Proof.
  pose proof (zip_with_repeat_tile f (seq 0 (d + 1)) (seq 0 (d + 1))) as H.
  rewrite length_seq in H. exact H.
Qed.

Lemma length_powers d x y :
  length (np_repeat (arange (d + 1)) (d + 1)) = length (polyvander2d1 x y d).
Proof.
  unfold np_repeat, polyvander2d1, arange. apply length_flat_map_ext.
  intros i. rewrite length_replicate, length_map, length_seq. reflexivity.
Qed.

Lemma select_polyvander d x y :
  select (zip_with (fun i j => (i + j <=? d)%nat)
            (np_repeat (arange (d + 1)) (d + 1)) (np_tile (arange (d + 1)) (d + 1)))
         (polyvander2d1 x y d) = monomials d x y.
Proof.
  rewrite powers_zip_with. unfold polyvander2d1.
  apply (select_square (fun i j => x ^ i * y ^ j)).
Qed.

Lemma select_coeffs d (c : arr2d) :
  let b := zip_with (fun i j => (i + j <=? d)%nat)
             (np_repeat (arange (d + 1)) (d + 1)) (np_tile (arange (d + 1)) (d + 1)) in
  zip_with (get2d c) (select b (np_repeat (arange (d + 1)) (d + 1)))
                     (select b (np_tile (arange (d + 1)) (d + 1))) = triangle d c.
Proof.
  cbv zeta. rewrite <- select_zip_with, !powers_zip_with.
  apply (select_square (get2d c)).
Qed.

Lemma length_select_ext {A B : Type} (b : list bool) : forall (l1 : list A) (l2 : list B),
  length l1 = length l2 -> length (select b l1) = length (select b l2).
Proof.
  induction b as [|c b IH]; intros [|a1 l1] [|a2 l2] H; simpl in *;
    try discriminate; try reflexivity.
  - destruct c; reflexivity.
  - injection H as H. destruct c; simpl; rewrite (IH l1 l2 H); reflexivity.
Qed.

Lemma map_zip_with {A B C D : Type} (g : C -> D) (f : A -> B -> C) (u : list A) :
  forall v, map g (zip_with f u v) = zip_with (fun x y => g (f x y)) u v.
Proof.
  induction u as [|a u IH]; intros [|b v]; simpl; try reflexivity.
  rewrite IH. reflexivity.
Qed.

Ltac pm_simpl :=
  cbn [Patternmatrix.deg Patternmatrix.x Patternmatrix.y Patternmatrix.norescale
       Patternmatrix.xmin Patternmatrix.xmax Patternmatrix.ymin Patternmatrix.ymax
       Patternmatrix.xr Patternmatrix.yr Patternmatrix.kind Patternmatrix.ipow
       Patternmatrix.jpow Patternmatrix.bpow Patternmatrix.isel Patternmatrix.jsel
       Patternmatrix.lvander Patternmatrix.vander Patternmatrix.pattern
       Patternmatrix.set_xlims Patternmatrix.set_ylims Patternmatrix.set_xryr
       Patternmatrix.set_pows Patternmatrix.set_sel Patternmatrix.set_vander
       Patternmatrix.set_pattern] in *.

Lemma Patternmatrix_init_Polynomial vo d xs ys :
  xs <> [] -> length xs = length ys ->
  exists PM,
    Patternmatrix.init vo d xs ys (Some Polynomial) false = Done PM /\
    Patternmatrix.xmin PM = Poly.np_min xs /\
    Patternmatrix.xmax PM = Poly.np_max xs /\
    Patternmatrix.ymin PM = Poly.np_min ys /\
    Patternmatrix.ymax PM = Poly.np_max ys /\
    Patternmatrix.xr PM =
      map (fun x => (2 * x - (Poly.np_max xs + Poly.np_min xs)) /
                    (Poly.np_max xs - Poly.np_min xs)) xs /\
    Patternmatrix.yr PM =
      map (fun y => (2 * y - (Poly.np_max ys + Poly.np_min ys)) /
                    (Poly.np_max ys - Poly.np_min ys)) ys /\
    (forall c, Patternmatrix.coeffs_of PM c = triangle d c) /\
    Patternmatrix.pattern PM =
      zip_with (fun x y => (monomials d x y ++ replicate (ncoeffs d) 0,
                            replicate (ncoeffs d) 0 ++ monomials d x y))
               (Patternmatrix.xr PM) (Patternmatrix.yr PM).
Proof.
  intros Hne Hl.
  assert (Hx : (length xs <? 1)%nat = false).
  { destruct xs; [congruence|reflexivity]. }
  assert (Hy : (length ys <? 1)%nat = false).
  { rewrite <- Hl. exact Hx. }
  unfold Patternmatrix.init, Patternmatrix.setlims. pm_simpl.
  rewrite Hx, Hy. cbn [obind].
  unfold Patternmatrix.rescalexy, Patternmatrix.buildpowers,
    Patternmatrix.selectpowers. pm_simpl.
  set (b := zip_with (fun i j => (i + j <=? d)%nat)
              (np_repeat (arange (d + 1)) (d + 1)) (np_tile (arange (d + 1)) (d + 1))).
  set (vxr := map _ xs). set (vyr := map _ ys).
  unfold Patternmatrix.buildvander. pm_simpl.
  replace (length vxr <? 1)%nat with false
    by (unfold vxr; rewrite length_map; symmetry; exact Hx).
  unfold Patternmatrix.methvander. pm_simpl. unfold polyvander2d.
  replace (length vxr =? length vyr)%nat with true
    by (unfold vxr, vyr; rewrite !length_map; symmetry; apply Nat.eqb_eq; exact Hl).
  cbn [negb obind].
  unfold Patternmatrix.buildpattern. pm_simpl.
  assert (Hsel : collect (map (take_cols (select b (arange (length
                    (np_repeat (arange (d + 1)) (d + 1))))))
                    (zip_with (fun x y => polyvander2d1 x y d) vxr vyr)) =
                 Ok (zip_with (fun x y => monomials d x y) vxr vyr)).
  { rewrite (collect_map_Ok _ (select b)).
    - f_equal. generalize vyr. induction vxr as [|x0 vxr' IH]; intros [|y0 vyr'];
        simpl; try reflexivity.
      unfold b at 1. rewrite select_polyvander. rewrite IH. reflexivity.
    - intros row Hrow. apply list_elem_of_In, elem_of_lookup_zip_with in Hrow
        as (k & x0 & y0 & -> & _ & _).
      rewrite (length_powers d x0 y0). apply take_cols_select. }
  rewrite Hsel.
  assert (Hnv : zip_with (fun x y => polyvander2d1 x y d) vxr vyr <> []).
  { unfold vxr, vyr. destruct xs as [|x0 xs']; [congruence|].
    destruct ys as [|y0 ys']; [discriminate|]. discriminate. }
  destruct (zip_with (fun x y => polyvander2d1 x y d) vxr vyr) as [|r0 rs] eqn:Ev;
    [congruence|].
  eexists. split; [reflexivity|]. pm_simpl.
  repeat (split; [reflexivity|]).
  split.
  - intros c. unfold Patternmatrix.coeffs_of. pm_simpl. apply select_coeffs.
  - assert (Hnb : length (select b (arange (length (np_repeat (arange (d + 1)) (d + 1)))))
                  = ncoeffs d).
    { rewrite <- (length_monomials d 0 0), <- select_polyvander. fold b.
      apply length_select_ext. unfold arange.
      rewrite length_seq. apply length_powers. }
    rewrite Hnb. apply map_zip_with.
Qed.

Lemma zip_with_ext_eq {A B C : Type} (f g : A -> B -> C) (u : list A) : forall v,
  (forall a b, f a b = g a b) -> zip_with f u v = zip_with g u v.
Proof.
  induction u as [|a u IH]; intros [|b v] H; simpl; try reflexivity.
  rewrite H, IH by exact H. reflexivity.
Qed.

Lemma matmul_pattern_monomials d (vxr vyr qx qy : vec) :
  length qx = ncoeffs d -> length qy = ncoeffs d ->
  matmul_pattern
    (zip_with (fun x y => (monomials d x y ++ replicate (ncoeffs d) 0,
                           replicate (ncoeffs d) 0 ++ monomials d x y)) vxr vyr)
    (qx ++ qy) =
  Ok (zip_with (fun x y => (dot (monomials d x y) qx, dot (monomials d x y) qy))
               vxr vyr).
Proof.
  intros Hqx Hqy. unfold matmul_pattern. rewrite forallb_Forall.
  - f_equal. rewrite map_zip_with. apply zip_with_ext_eq. intros x y.
    cbn [fst snd].
    rewrite !dot_app
      by (rewrite ?length_monomials, ?length_replicate; congruence).
    rewrite !dot_zeros_l. f_equal; ring.
  - apply Forall_lookup. intros k rows Hk.
    apply lookup_zip_with_Some in Hk as (x & y & -> & _ & _). cbn [fst snd].
    rewrite !length_app, length_monomials, length_replicate, Hqx, Hqy.
    rewrite Nat.eqb_refl. reflexivity.
Qed.

Lemma get2d_zeros2d r c i j : get2d (zeros2d r c) i j = 0.
Proof.
  unfold get2d, zeros2d.
  destruct (replicate r (replicate c 0) !! i) as [row|] eqn:Hrow; [|reflexivity].
  apply lookup_replicate in Hrow as [-> _].
  destruct (replicate c 0 !! j) as [v|] eqn:Hv; [|reflexivity].
  apply lookup_replicate in Hv as [-> _]. reflexivity.
Qed.

Lemma Polycoeffs_init_triangular d v b pc :
  length v = ncoeffs d -> Polycoeffs.init v b = Done pc ->
  triangular d (Polycoeffs.p2d pc).
Proof.
  intros Hl H. destruct d as [|d].
  - rewrite Polycoeffs_init_deg0 in H by exact Hl. apply Done_inj in H. subst pc.
    intros i j Hij. cbn [Polycoeffs.p2d].
    destruct i as [|i]; [destruct j as [|j]; [lia|reflexivity]|reflexivity].
  - rewrite (Polycoeffs_init_pos (S d)) in H by (lia || exact Hl).
    apply Done_inj in H. subst pc. cbn [Polycoeffs.p2d].
    intros i j Hij. rewrite get2d_scatter2d_notin; [apply get2d_zeros2d|].
    rewrite zip_ijfromdeg. intros Hin. apply elem_of_pairs in Hin. lia.
Qed.

Lemma pattern_and_poly other vo d xs ys cov px py v :
  xs <> [] -> length xs = length ys ->
  length px = ncoeffs d -> length py = ncoeffs d ->
  exists P PM,
    Poly.init other xs ys cov px py (Some Polynomial) v None None None None false
      = Done P /\
    Patternmatrix.init vo d xs ys (Some Polynomial) false = Done PM /\
    Polycoeffs.init px v = Done (Poly.pars2x P) /\
    Polycoeffs.init py v = Done (Poly.pars2y P) /\
    (Patternmatrix.xmin PM = Poly.xmin P /\ Patternmatrix.xmax PM = Poly.xmax P /\
     Patternmatrix.ymin PM = Poly.ymin P /\ Patternmatrix.ymax PM = Poly.ymax P) /\
    Patternmatrix.xr PM =
      map (fun x => (2 * x - (Poly.np_max xs + Poly.np_min xs)) /
                    (Poly.np_max xs - Poly.np_min xs)) xs /\
    Patternmatrix.yr PM =
      map (fun y => (2 * y - (Poly.np_max ys + Poly.np_min ys)) /
                    (Poly.np_max ys - Poly.np_min ys)) ys /\
    (forall c, Patternmatrix.coeffs_of PM c = triangle d c) /\
    (forall qx qy, length qx = ncoeffs d -> length qy = ncoeffs d ->
       matmul_pattern (Patternmatrix.pattern PM) (qx ++ qy) =
       Ok (zip_with (fun x y => (dot (monomials d x y) qx, dot (monomials d x y) qy))
                    (Patternmatrix.xr PM) (Patternmatrix.yr PM))) /\
    Poly.propxy other P xs ys =
      Ok (zip_with (fun x y => dot (monomials d x y)
                                   (triangle d (Polycoeffs.p2d (Poly.pars2x P))))
                   (Patternmatrix.xr PM) (Patternmatrix.yr PM),
          zip_with (fun x y => dot (monomials d x y)
                                   (triangle d (Polycoeffs.p2d (Poly.pars2y P))))
                   (Patternmatrix.xr PM) (Patternmatrix.yr PM)).
Proof.
  intros Hne Hl Hpx Hpy.
  destruct (Poly_init_Polynomial other d xs ys cov px py v None None None None
              Hl Hpx Hpy)
    as (P & HP & Hwf & _ & _ & _ & _ & Hix & Hiy & Hxmin & Hxmax & Hymin & Hymax & _).
  destruct (Patternmatrix_init_Polynomial vo d xs ys Hne Hl)
    as (PM & HPM & Mxmin & Mxmax & Mymin & Mymax & Mxr & Myr & Mco & Mpat).
  assert (Hx : (0 <? length xs)%nat = true).
  { destruct xs; [congruence|reflexivity]. }
  assert (Hy : (0 <? length ys)%nat = true) by (rewrite <- Hl; exact Hx).
  unfold Poly.setdomain1 in Hxmin, Hxmax, Hymin, Hymax.
  rewrite Hx in Hxmin, Hxmax. rewrite Hy in Hymin, Hymax.
  exists P, PM.
  split; [exact HP|]. split; [exact HPM|]. split; [exact Hix|]. split; [exact Hiy|].
  split; [repeat split; congruence|].
  split; [exact Mxr|]. split; [exact Myr|]. split; [exact Mco|].
  split.
  { intros qx qy Hqx Hqy. rewrite Mpat. apply matmul_pattern_monomials; assumption. }
  destruct Hwf as (Hk & (_ & _ & _ & Hrx) & (_ & _ & _ & Hry) & _ & _).
  pose proof (Polycoeffs_init_triangular d px v _ Hpx Hix) as Htx.
  pose proof (Polycoeffs_init_triangular d py v _ Hpy Hiy) as Hty.
  unfold Poly.propxy.
  replace (length xs <? 1)%nat with false by (destruct xs; [congruence|reflexivity]).
  replace (length ys <? 1)%nat with false
    by (rewrite <- Hl; destruct xs; [congruence|reflexivity]).
  cbn [orb]. unfold Poly.rescalexy, Poly.methval2d, Poly.methlist.
  rewrite Hk, Hxmin, Hxmax, Hymin, Hymax. cbn [val2d numpy_polynomial].
  rewrite <- Mxr, <- Myr.
  assert (Hlr : length (Patternmatrix.xr PM) = length (Patternmatrix.yr PM))
    by (rewrite Mxr, Myr, !length_map; exact Hl).
  assert (Hnc : forall c, rect (d + 1) (d + 1) c -> nrows c <> 0%nat /\ ncols c <> 0%nat).
  { intros c [Hc1 Hc2]. destruct c as [|row c]; [simpl in Hc1; lia|].
    apply Forall_cons in Hc2 as [Hrow _]. unfold nrows, ncols. simpl. lia. }
  rewrite !polyval2d_Ok by (exact Hlr || apply Hnc; assumption).
  cbn [rbind]. f_equal. f_equal.
  - apply zip_with_ext_eq. intros x y. apply polyval2d1_triangle; assumption.
  - apply zip_with_ext_eq. intros x y. apply polyval2d1_triangle; assumption.
Qed.

(** C2 as the code has it. For every degree [d], every non-empty point set
    and every coefficient pair of the length of degree [d], the
    Polynomial-basis [Patternmatrix] and [Poly] built on the points share
    the rescaling domain, and the pattern times the flat vector that lists
    the entries of the two 2-D coefficient arrays of [Poly] in the
    pattern's own power order ([p2d[isel, jsel]], x block then y block)
    is [Poly.propxy] at every point. *)
Theorem pattern_reproduces_propxy other vo d xs ys cov px py v :
  xs <> [] -> length xs = length ys ->
  length px = ncoeffs d -> length py = ncoeffs d ->
  exists P PM out,
    Poly.init other xs ys cov px py (Some Polynomial) v None None None None false
      = Done P /\
    Patternmatrix.init vo d xs ys (Some Polynomial) false = Done PM /\
    (Patternmatrix.xmin PM = Poly.xmin P /\ Patternmatrix.xmax PM = Poly.xmax P /\
     Patternmatrix.ymin PM = Poly.ymin P /\ Patternmatrix.ymax PM = Poly.ymax P) /\
    matmul_pattern (Patternmatrix.pattern PM)
      (Patternmatrix.coeffs_of PM (Polycoeffs.p2d (Poly.pars2x P)) ++
       Patternmatrix.coeffs_of PM (Polycoeffs.p2d (Poly.pars2y P))) = Ok out /\
    Poly.propxy other P xs ys = Ok (map fst out, map snd out).
Proof.
  intros Hne Hl Hpx Hpy.
  destruct (pattern_and_poly other vo d xs ys cov px py v Hne Hl Hpx Hpy)
    as (P & PM & HP & HPM & _ & _ & Hlim & _ & _ & Hco & Hmul & Hprop).
  exists P, PM. eexists.
  split; [exact HP|]. split; [exact HPM|]. split; [exact Hlim|].
  split.
  - rewrite !Hco. apply Hmul; apply length_triangle.
  - rewrite Hprop, !map_zip_with. reflexivity.
Qed.


Lemma pattern_reproduces_propxy_witness :
  exists P PM out,
    Poly.init polynomial_only [-1; 1] [1; -1] [] [0; 1; 0] [0; 0; 0]
              (Some Polynomial) false None None None None false = Done P /\
    Patternmatrix.init polynomial_vander_only 1 [-1; 1] [1; -1] (Some Polynomial) false
      = Done PM /\
    (Patternmatrix.xmin PM = Poly.xmin P /\ Patternmatrix.xmax PM = Poly.xmax P /\
     Patternmatrix.ymin PM = Poly.ymin P /\ Patternmatrix.ymax PM = Poly.ymax P) /\
    matmul_pattern (Patternmatrix.pattern PM)
      (Patternmatrix.coeffs_of PM (Polycoeffs.p2d (Poly.pars2x P)) ++
       Patternmatrix.coeffs_of PM (Polycoeffs.p2d (Poly.pars2y P))) = Ok out /\
    Poly.propxy polynomial_only P [-1; 1] [1; -1] = Ok (map fst out, map snd out).
Proof.
  apply (pattern_reproduces_propxy polynomial_only polynomial_vander_only 1
           [-1; 1] [1; -1] [] [0; 1; 0] [0; 0; 0] false);
    [discriminate|reflexivity|reflexivity|reflexivity].
Defined.

(** C2 as stated fails: at degree 1 on the points (-1, 1), (1, -1) with
    parsx = [0, 1, 0] and parsy = [0, 0, 0], the pattern times the flat
    [parsx; parsy] has first components [1, -1] (the coefficient 1 lands on
    the power y of the pattern's order 1, y, x) while [Poly.propxy] gives
    [-1, 1] (the power x of the order 1, x, y of [ijfromdeg]). *)
Lemma pattern_flat_vector_differs :
  exists P PM out xt yt,
    Poly.init polynomial_only [-1; 1] [1; -1] [] [0; 1; 0] [0; 0; 0]
              (Some Polynomial) false None None None None false = Done P /\
    Patternmatrix.init polynomial_vander_only 1 [-1; 1] [1; -1] (Some Polynomial) false
      = Done PM /\
    matmul_pattern (Patternmatrix.pattern PM) ([0; 1; 0] ++ [0; 0; 0]) = Ok out /\
    Poly.propxy polynomial_only P [-1; 1] [1; -1] = Ok (xt, yt) /\
    map fst out = [1; -1] /\ xt = [-1; 1].
Proof.
  destruct (pattern_and_poly polynomial_only polynomial_vander_only 1
              [-1; 1] [1; -1] [] [0; 1; 0] [0; 0; 0] false)
    as (P & PM & HP & HPM & Hix & _ & _ & Mxr & Myr & _ & Hmul & Hprop);
    [discriminate|reflexivity|reflexivity|reflexivity|].
  exists P, PM. eexists. eexists. eexists.
  split; [exact HP|]. split; [exact HPM|].
  split; [apply Hmul; reflexivity|]. split; [exact Hprop|].
  rewrite (Polycoeffs_init_pos 1) in Hix by (reflexivity || lia).
  apply Done_inj in Hix. rewrite <- Hix. cbn [Polycoeffs.p2d].
  rewrite ijfromdeg_nat.
  assert (Hmin1 : Rmin (-1) 1 = -1) by (apply Rmin_left; lra).
  assert (Hmax1 : Rmax (-1) 1 = 1) by (apply Rmax_right; lra).
  assert (Hmin2 : Rmin 1 (-1) = -1) by (apply Rmin_right; lra).
  assert (Hmax2 : Rmax 1 (-1) = 1) by (apply Rmax_left; lra).
  rewrite Mxr, Myr. unfold Poly.np_min, Poly.np_max. cbn [fold_left].
  rewrite Hmin1, Hmax1, Hmin2, Hmax2.
  rewrite map_zip_with. cbn [fst map zip_with].
  unfold monomials, triangle, dot, sumR.
  cbn [seq flat_map map app Nat.add Nat.sub zip_with fold_right pow].
  replace (scatter2d _ _ _ _) with [[0; 0]; [1; 0]] by reflexivity.
  change (get2d [[0; 0]; [1; 0]] 0 0) with 0.
  change (get2d [[0; 0]; [1; 0]] 0 1) with 0.
  change (get2d [[0; 0]; [1; 0]] 1 0) with 1.
  split; (f_equal; [field; lra|f_equal; field; lra]).
Qed.

(** * Further properties of the code *)

(** ** Polycoeffs: the powers of a degree *)

Lemma elem_of_pairs_2 a b d : (a + b <= d)%nat -> (a, b) ∈ pairs d.
Proof.
  intros H. unfold pairs. rewrite list_elem_of_In, in_flat_map.
  exists (a + b)%nat. split; [apply in_seq; lia|].
  apply list_elem_of_In. rewrite block_eq, list_elem_of_In, in_map_iff.
  exists b. split; [f_equal; lia|apply in_seq; lia].
Qed.

Lemma ijfromdeg_neg z : (z < 0)%Z -> Polycoeffs.ijfromdeg z = ([], []).
Proof.
  intros Hz. unfold Polycoeffs.ijfromdeg, range.
  replace (Z.to_nat (z + 1)) with 0%nat by lia. reflexivity.
Qed.

(** X1: [ijfromdeg(d)] lists every pair of powers (i, j) with i + j <= d
    exactly once, by total degree and within one degree by increasing j;
    that is (d+1)(d+2)/2 pairs. A negative degree gives two empty arrays. *)
Theorem ijfromdeg_enumerates (d : nat) :
  let ia := fst (Polycoeffs.ijfromdeg (Z.of_nat d)) in
  let ja := snd (Polycoeffs.ijfromdeg (Z.of_nat d)) in
  length ia = ncoeffs d /\ length ja = ncoeffs d /\
  zip ia ja =
    flat_map (fun t => map (fun k => (t - k, k)%nat) (seq 0 (S t))) (seq 0 (d + 1)) /\
  NoDup (zip ia ja) /\
  (forall a b, (a, b) ∈ zip ia ja <-> (a + b <= d)%nat) /\
  (forall z, (z < 0)%Z -> Polycoeffs.ijfromdeg z = ([], [])).
Proof.
  cbv zeta. destruct (length_ijfromdeg d) as [Hi Hj].
  split; [exact Hi|]. split; [exact Hj|].
  rewrite zip_ijfromdeg. split.
  { unfold pairs. apply flat_map_ext. intros t. apply block_eq. }
  split; [apply NoDup_pairs|]. split.
  - intros a b. split; [apply elem_of_pairs|apply elem_of_pairs_2].
  - apply ijfromdeg_neg.
Qed.

(** ** Polycoeffs: construction and update *)

(** X2: for a degree d >= 1 and a vector of (d+1)(d+2)/2 coefficients,
    [Polycoeffs(p)] returns with that degree, a (d+1) x (d+1) array that
    holds p[k] at the k-th pair of powers and zero above total degree d,
    so that reading it back at the powers of [ijfromdeg] gives p. *)
Theorem Polycoeffs_init_valid d v verbose :
  (1 <= d)%nat -> length v = ncoeffs d ->
  exists pc,
    Polycoeffs.init v verbose = Done pc /\
    Polycoeffs.deg pc = Z.of_nat d /\ Polycoeffs.p pc = v /\
    rect (d + 1) (d + 1) (Polycoeffs.p2d pc) /\
    (forall k a b x,
       zip (Polycoeffs.i pc) (Polycoeffs.j pc) !! k = Some (a, b) ->
       v !! k = Some x -> get2d (Polycoeffs.p2d pc) a b = x) /\
    triangular d (Polycoeffs.p2d pc) /\
    Polycoeffs.readback pc = v.
Proof.
  intros Hd Hl.
  destruct (coeffs_wf_init d v verbose Hl) as (pc & Hpc & Hwf & Hp).
  exists pc. split; [exact Hpc|].
  pose proof (Polycoeffs_readback_pos d v verbose Hd Hl) as Hrb.
  rewrite Hpc in Hrb. cbn [state_of] in Hrb.
  pose proof (Polycoeffs_init_triangular d v verbose pc Hl Hpc) as Htri.
  destruct Hwf as (Hdeg & Hi & Hj & Hrect).
  repeat (split; [assumption|]).
  split; [|split; assumption].
  intros k a b x Hk Hx.
  unfold Polycoeffs.readback in Hrb. rewrite Hdeg in Hrb.
  rewrite Hi, Hj in Hk.
  destruct (Polycoeffs.ijfromdeg (Z.of_nat d)) as [ia ja]. cbn [fst snd] in Hk.
  assert (H : map (fun ij => get2d (Polycoeffs.p2d pc) ij.1 ij.2) (zip ia ja) !! k
              = Some (get2d (Polycoeffs.p2d pc) a b)).
  { change (map ?f ?l) with (f <$> l). rewrite list_lookup_fmap, Hk. reflexivity. }
  rewrite Hrb, Hx in H. congruence.
Qed.

Lemma Polycoeffs_init_valid_witness :
  exists pc, Polycoeffs.init [1; 2; 3] true = Done pc /\
             Polycoeffs.readback pc = [1; 2; 3].
Proof.
  assert (H1 : (1 <= 1)%nat) by lia.
  destruct (Polycoeffs_init_valid 1 [1; 2; 3] true H1 eq_refl)
    as (pc & H & _ & _ & _ & _ & _ & Hrb).
  exists pc. split; assumption.
Defined.

(** X3: on an instance of degree d >= 1, [updatecoeffs] with a non-empty
    vector no longer than (d+1)(d+2)/2 stores it and overwrites the
    entries of the 2-D array at its first powers only: the entries at the
    remaining powers keep their earlier values. A longer vector raises
    IndexError after [p] has been replaced. *)
Theorem updatecoeffs_partial d v pc :
  coeffs_wf d pc -> (1 <= d)%nat -> (1 <= length v)%nat ->
  ((length v <= ncoeffs d)%nat ->
     exists pc',
       Polycoeffs.updatecoeffs v pc = Done pc' /\
       Polycoeffs.p pc' = v /\ coeffs_wf d pc' /\
       (forall k a b x, pairs d !! k = Some (a, b) -> v !! k = Some x ->
          get2d (Polycoeffs.p2d pc') a b = x) /\
       (forall a b, (a, b) ∉ take (length v) (pairs d) ->
          get2d (Polycoeffs.p2d pc') a b = get2d (Polycoeffs.p2d pc) a b)) /\
  ((ncoeffs d < length v)%nat ->
     Polycoeffs.updatecoeffs v pc = Raised IndexError (Polycoeffs.set_p v pc)).
Proof.
  intros (Hdeg & Hi & Hj & Hrect) Hd Hv.
  destruct (length_ijfromdeg d) as [Hli Hlj].
  destruct (Forall_ijfromdeg d) as [HFi HFj].
  pose proof (zip_ijfromdeg d) as Hz. pose proof (NoDup_pairs d) as Hnd.
  rewrite <- Hi in Hli, HFi, Hz. rewrite <- Hj in Hlj, HFj, Hz.
  unfold Polycoeffs.updatecoeffs, Polycoeffs.updatecoeffs2d.
  replace (length v <? 1)%nat with false by (symmetry; apply Nat.ltb_ge; lia).
  cbn [Polycoeffs.deg Polycoeffs.set_p Polycoeffs.p Polycoeffs.i Polycoeffs.j
       Polycoeffs.p2d].
  rewrite Hdeg.
  replace (Z.of_nat d <? 1)%Z with false by (symmetry; apply Z.ltb_ge; lia).
  rewrite Hli, Hlj. split.
  - intros Hle.
    replace (length v <=? ncoeffs d)%nat with true
      by (symmetry; apply Nat.leb_le; exact Hle).
    cbn [andb].
    rewrite (inbounds2d_true (d + 1) (d + 1));
      [|exact Hrect|lia|apply Forall_take; exact HFi|apply Forall_take; exact HFj].
    eexists. split; [reflexivity|].
    cbn [Polycoeffs.p Polycoeffs.p2d Polycoeffs.set_p2d].
    split; [reflexivity|]. split.
    { unfold coeffs_wf.
      cbn [Polycoeffs.deg Polycoeffs.i Polycoeffs.j Polycoeffs.p2d
           Polycoeffs.set_p2d Polycoeffs.set_p].
      split; [exact Hdeg|]. split; [exact Hi|]. split; [exact Hj|].
      apply rect_scatter2d; exact Hrect. }
    assert (Hzt : zip (take (length v) (Polycoeffs.i pc)) (take (length v) (Polycoeffs.j pc))
                  = take (length v) (pairs d)).
    { rewrite <- Hz. symmetry. apply zip_with_take. }
    split.
    + intros k a b x Hk Hx.
      assert (Hkv : (k < length v)%nat) by (eapply lookup_lt_Some; eauto).
      assert (Hin : (a, b) ∈ pairs d) by (eapply list_elem_of_lookup_2; eauto).
      apply elem_of_pairs in Hin.
      apply (get2d_scatter2d_in (d + 1) (d + 1) _ _ _ _ k); try assumption; try lia.
      * rewrite Hzt. eapply sublist_NoDup; [exact Hnd|apply sublist_take].
      * rewrite Hzt, lookup_take_lt by exact Hkv. exact Hk.
    + intros a b Hnotin. apply get2d_scatter2d_notin. rewrite Hzt. exact Hnotin.
  - intros Hgt.
    replace (length v <=? ncoeffs d)%nat with false
      by (symmetry; apply Nat.leb_gt; exact Hgt).
    reflexivity.
Qed.

Lemma updatecoeffs_partial_witness :
  exists pc pc',
    Polycoeffs.init [1; 2; 3; 4; 5; 6] true = Done pc /\
    Polycoeffs.updatecoeffs [7; 8; 9] pc = Done pc' /\
    get2d (Polycoeffs.p2d pc') 1 0 = 8 /\
    get2d (Polycoeffs.p2d pc') 0 2 = get2d (Polycoeffs.p2d pc) 0 2.
Proof.
  destruct (coeffs_wf_init 2 [1; 2; 3; 4; 5; 6] true eq_refl) as (pc & Hpc & Hwf & _).
  assert (H2 : (1 <= 2)%nat) by lia.
  assert (H3 : (1 <= length [7; 8; 9])%nat) by (simpl; lia).
  destruct (updatecoeffs_partial 2 [7; 8; 9] pc Hwf H2 H3) as [H _].
  destruct H as (pc' & Hup & _ & _ & Hnew & Hold); [vm_compute; lia|].
  exists pc, pc'. split; [exact Hpc|]. split; [exact Hup|]. split.
  - apply (Hnew 1%nat); reflexivity.
  - apply Hold. cbn. intros Hin.
    repeat (apply elem_of_cons in Hin as [Hin|Hin]; [discriminate|]).
    apply elem_of_nil in Hin. exact Hin.
Defined.

(** ** Parvec *)

(** X4: for a vector whose x/y counts are those of a polynomial,
    [Parvec(pars)] returns with the tangent point [pars[0:2]] and two
    coefficient arrays of one valid length: the two halves of [pars[2:]]
    when their size is a polynomial's, and otherwise the halves with a
    zero constant term put in front and [hasxy0] cleared. *)
Theorem Parvec_valid_split pars :
  Parvec.counts_valid pars = true ->
  exists pv,
    Parvec.init pars = Done pv /\
    Parvec.tangentpoint pv = take 2 pars /\
    length (Parvec.parsx pv) = length (Parvec.parsy pv) /\
    is_ncoeffs (length (Parvec.parsx pv)) = true /\
    Parvec.hasxy0 pv = is_ncoeffs ((length pars - 2) / 2) /\
    (Parvec.hasxy0 pv = true ->
       Parvec.parsx pv ++ Parvec.parsy pv = drop 2 pars) /\
    (Parvec.hasxy0 pv = false ->
       exists hx hy, Parvec.parsx pv = 0 :: hx /\ Parvec.parsy pv = 0 :: hy /\
                     hx ++ hy = drop 2 pars /\ length hx = length hy).
Proof.
  intros Hv. destruct (Parvec_init_valid pars Hv) as (Hinit & Hi & Hlt & Hld).
  eexists. split; [exact Hinit|].
  cbn [Parvec.tangentpoint Parvec.parsx Parvec.parsy Parvec.hasxy0].
  set (imid := ((length pars - 2) / 2)%nat) in *.
  unfold Parvec.counts_valid in Hv.
  apply andb_true_iff in Hv as [_ Hv']. fold imid in Hv'.
  split; [reflexivity|].
  destruct (is_ncoeffs imid) eqn:E.
  - split; [lia|]. split; [rewrite Hlt; exact E|]. split; [reflexivity|].
    split; [intros _; apply take_drop|discriminate].
  - cbn [orb] in Hv'. split; [simpl; lia|].
    split; [simpl; rewrite Hlt, <- Nat.add_1_r; exact Hv'|].
    split; [reflexivity|]. split; [discriminate|].
    intros _. eexists _, _. split; [reflexivity|]. split; [reflexivity|].
    split; [apply take_drop|lia].
Qed.

Lemma Parvec_valid_split_witness :
  exists pv,
    Parvec.init [10; 20; 1; 2; 3; 4; 5; 6] = Done pv /\
    Parvec.tangentpoint pv = [10; 20] /\
    Parvec.parsx pv ++ Parvec.parsy pv = [1; 2; 3; 4; 5; 6].
Proof.
  destruct (Parvec_valid_split [10; 20; 1; 2; 3; 4; 5; 6] eq_refl)
    as (pv & Hinit & Htp & _ & _ & Hh & Hxy & _).
  exists pv. split; [exact Hinit|]. split; [exact Htp|].
  apply Hxy. rewrite Hh. reflexivity.
Defined.

Lemma Parvec_init_invalid pars :
  (3 <= length pars)%nat -> Nat.even (length pars) = true ->
  Parvec.counts_valid pars = false ->
  Parvec.init pars =
    Raised AttributeError
      (Parvec.mk true [0; 2; 3; 1; (length pars - 2) / 2 + 2; (length pars - 2) / 2 + 3]%nat
         [] [] (take 2 pars) None).
Proof.
  intros H3 He Hv.
  assert (Hm : ((length pars - 2) mod 2 = 0)%nat).
  { apply Nat.even_spec in He as [k Hk]. rewrite Hk.
    replace (2 * k - 2)%nat with ((k - 1) * 2)%nat by lia.
    apply Nat.Div0.mod_mul. }
  unfold Parvec.counts_valid in Hv.
  replace (3 <=? length pars)%nat with true in Hv by (symmetry; apply Nat.leb_le; lia).
  rewrite Hm in Hv. cbn [Nat.eqb andb] in Hv.
  apply orb_false_iff in Hv as [Hv1 Hv2].
  set (imid := ((length pars - 2) / 2)%nat) in *.
  pose proof (Nat.div_mod_eq (length pars - 2) 2) as Hdm. fold imid in Hdm.
  assert (Hi : (1 <= imid)%nat) by lia.
  unfold Parvec.init, Parvec.ingestpars.
  replace (length pars <? 2)%nat with false by (symmetry; apply Nat.ltb_ge; lia).
  replace (length pars <? 3)%nat with false by (symmetry; apply Nat.ltb_ge; lia).
  rewrite length_drop, Hm. cbn [Nat.ltb Nat.leb].
  fold imid.
  assert (Hlt : length (take imid (drop 2 pars)) = imid)
    by (rewrite length_take, length_drop; lia).
  rewrite Hlt, !nonint_deg_spec by lia.
  rewrite Hv1, Hv2. reflexivity.
Qed.

(** X5: [Parvec.ingestpars] reads [self.Verbose], which no method of the
    class sets: for a vector of even size >= 4 whose halves are not of
    polynomial size (with or without constant term) [Parvec(pars)] raises
    AttributeError, and so does [xy2equ.updatetransf], which leaves the
    instance as it was. *)
Theorem Parvec_invalid_raises other pars S :
  (3 <= length pars)%nat -> Nat.even (length pars) = true ->
  Parvec.counts_valid pars = false ->
  (exists pv, Parvec.init pars = Raised AttributeError pv /\
              Parvec.tangentpoint pv = take 2 pars /\
              Parvec.parsx pv = [] /\ Parvec.parsy pv = []) /\
  xy2equ.updatetransf other pars S = Raised AttributeError S.
Proof.
  intros H3 He Hv. pose proof (Parvec_init_invalid pars H3 He Hv) as Hinit.
  split.
  - eexists. split; [exact Hinit|]. repeat split.
  - unfold xy2equ.updatetransf, xy2equ.updatepars.
    replace (length pars <? 1)%nat with false by (symmetry; apply Nat.ltb_ge; lia).
    rewrite Hinit. reflexivity.
Qed.

Lemma Parvec_invalid_raises_witness :
  xy2equ.updatetransf polynomial_only [0; 0; 1; 2; 3; 4; 5; 6; 7; 8] example_xy2equ
    = Raised AttributeError example_xy2equ.
Proof.
  assert (H3 : (3 <= length [0; 0; 1; 2; 3; 4; 5; 6; 7; 8])%nat) by (simpl; lia).
  exact (proj2 (Parvec_invalid_raises polynomial_only [0; 0; 1; 2; 3; 4; 5; 6; 7; 8]
                  example_xy2equ H3 eq_refl eq_refl)).
Defined.

(** ** Poly: splitting the parameters *)

(** X6: [Poly.splitpars] undoes [np.hstack((parsx, parsy))] for two
    non-empty arrays of one length; for any vector of two or more entries
    the two parts abut to the vector again, the second being the longer
    one by one entry when the size is odd. A shorter vector gives two
    empty arrays. *)
Theorem splitpars_hstack (px py pars : vec) :
  ((1 <= length px)%nat -> length px = length py ->
     Poly.splitpars (px ++ py) = (px, py)) /\
  ((2 <= length pars)%nat ->
     fst (Poly.splitpars pars) ++ snd (Poly.splitpars pars) = pars /\
     length (snd (Poly.splitpars pars)) =
       (length (fst (Poly.splitpars pars)) + length pars mod 2)%nat) /\
  ((length pars < 2)%nat -> Poly.splitpars pars = ([], [])).
Proof.
  unfold Poly.splitpars. split; [|split].
  - intros H1 Hl. rewrite length_app.
    replace (length px + length py <? 2)%nat with false
      by (symmetry; apply Nat.ltb_ge; lia).
    replace ((length px + length py) / 2)%nat with (length px).
    + rewrite take_app_length, drop_app_length. reflexivity.
    + rewrite <- Hl. replace (length px + length px)%nat with (length px * 2)%nat by lia.
      rewrite Nat.div_mul by lia. reflexivity.
  - intros H2.
    replace (length pars <? 2)%nat with false by (symmetry; apply Nat.ltb_ge; lia).
    cbn [fst snd]. split; [apply take_drop|].
    rewrite length_take, length_drop.
    pose proof (Nat.div_mod_eq (length pars) 2). lia.
  - intros H. replace (length pars <? 2)%nat with true
      by (symmetry; apply Nat.ltb_lt; lia).
    reflexivity.
Qed.

Lemma splitpars_hstack_witness :
  Poly.splitpars ([1; 2; 3] ++ [4; 5; 6]) = ([1; 2; 3], [4; 5; 6]).
Proof.
  assert (H1 : (1 <= length [1; 2; 3])%nat) by (simpl; lia).
  exact (proj1 (splitpars_hstack [1; 2; 3] [4; 5; 6] []) H1 eq_refl).
Defined.

(** ** Rescaling to the unit square *)

Lemma fold_min_le_init l : forall a, fold_left Rmin l a <= a.
Proof.
  induction l as [|b l IH]; intros a; simpl; [lra|].
  pose proof (IH (Rmin a b)). pose proof (Rmin_l a b). lra.
Qed.

Lemma fold_min_le_elem l x : forall a, In x l -> fold_left Rmin l a <= x.
Proof.
  induction l as [|b l IH]; intros a Hin; simpl in *; [contradiction|].
  destruct Hin as [->|Hin]; [|apply IH; exact Hin].
  pose proof (fold_min_le_init l (Rmin a x)). pose proof (Rmin_r a x). lra.
Qed.

Lemma fold_max_ge_init l : forall a, a <= fold_left Rmax l a.
Proof.
  induction l as [|b l IH]; intros a; simpl; [lra|].
  pose proof (IH (Rmax a b)). pose proof (Rmax_l a b). lra.
Qed.

Lemma fold_max_ge_elem l x : forall a, In x l -> x <= fold_left Rmax l a.
Proof.
  induction l as [|b l IH]; intros a Hin; simpl in *; [contradiction|].
  destruct Hin as [->|Hin]; [|apply IH; exact Hin].
  pose proof (fold_max_ge_init l (Rmax a x)). pose proof (Rmax_r a x). lra.
Qed.

Lemma fold_min_In l : forall a, In (fold_left Rmin l a) (a :: l).
Proof.
  induction l as [|b l IH]; intros a; simpl; [left; reflexivity|].
  destruct (IH (Rmin a b)) as [H|H]; [|right; right; exact H].
  rewrite <- H. unfold Rmin. destruct (Rle_dec a b); [left|right; left]; reflexivity.
Qed.

Lemma fold_max_In l : forall a, In (fold_left Rmax l a) (a :: l).
Proof.
  induction l as [|b l IH]; intros a; simpl; [left; reflexivity|].
  destruct (IH (Rmax a b)) as [H|H]; [|right; right; exact H].
  rewrite <- H. unfold Rmax. destruct (Rle_dec a b); [right; left|left]; reflexivity.
Qed.

Lemma np_min_max_bounds v x :
  In x v -> Poly.np_min v <= x <= Poly.np_max v.
Proof.
  destruct v as [|a l]; [contradiction|]. intros [->|Hin]; unfold Poly.np_min, Poly.np_max.
  - split; [apply fold_min_le_init|apply fold_max_ge_init].
  - split; [apply fold_min_le_elem|apply fold_max_ge_elem]; exact Hin.
Qed.

Lemma np_min_In v : v <> [] -> In (Poly.np_min v) v.
Proof. destruct v as [|a l]; [congruence|]. intros _. apply fold_min_In. Qed.

Lemma np_max_In v : v <> [] -> In (Poly.np_max v) v.
Proof. destruct v as [|a l]; [congruence|]. intros _. apply fold_max_In. Qed.

Lemma rescale_bounds m M x :
  m < M -> m <= x <= M -> -1 <= (2 * x - (M + m)) / (M - m) <= 1.
Proof.
  intros HmM Hx. unfold Rdiv.
  assert (Hi : 0 < / (M - m)) by (apply Rinv_0_lt_compat; lra).
  assert (H1 : / (M - m) * (M - m) = 1) by (apply Rinv_l; lra).
  split; nra.
Qed.

Lemma rescaled_unit (v : vec) :
  Poly.np_min v < Poly.np_max v ->
  let r := map (fun x => (2 * x - (Poly.np_max v + Poly.np_min v)) /
                         (Poly.np_max v - Poly.np_min v)) v in
  Forall (fun t => -1 <= t <= 1) r /\ In (-1) r /\ In 1 r.
Proof.
  intros Hlt. cbv zeta.
  assert (Hne : v <> []) by (intros ->; simpl in Hlt; lra).
  split; [|split].
  - apply List.Forall_forall. intros t Ht. apply in_map_iff in Ht as (x & <- & Hx).
    apply rescale_bounds; [exact Hlt|apply np_min_max_bounds; exact Hx].
  - apply in_map_iff. exists (Poly.np_min v). split; [field; lra|apply np_min_In, Hne].
  - apply in_map_iff. exists (Poly.np_max v). split; [field; lra|apply np_max_In, Hne].
Qed.

(** X7: a Polynomial-basis [Poly] and a [Patternmatrix] built without
    explicit limits on data whose x values, and y values, are not all
    equal rescale every position into [-1, 1] on both axes, the extremes
    of the data landing on -1 and +1. *)
Theorem rescaled_positions_in_unit_square other vo d xs ys cov px py v :
  length xs = length ys -> length px = ncoeffs d -> length py = ncoeffs d ->
  Poly.np_min xs < Poly.np_max xs -> Poly.np_min ys < Poly.np_max ys ->
  exists P PM,
    Poly.init other xs ys cov px py (Some Polynomial) v None None None None false
      = Done P /\
    Patternmatrix.init vo d xs ys (Some Polynomial) false = Done PM /\
    Poly.xr P = Patternmatrix.xr PM /\ Poly.yr P = Patternmatrix.yr PM /\
    Forall (fun t => -1 <= t <= 1) (Poly.xr P) /\
    Forall (fun t => -1 <= t <= 1) (Poly.yr P) /\
    In (-1) (Poly.xr P) /\ In 1 (Poly.xr P) /\
    In (-1) (Poly.yr P) /\ In 1 (Poly.yr P).
Proof.
  intros Hl Hpx Hpy Hx Hy.
  assert (Hne : xs <> []) by (intros ->; simpl in Hx; lra).
  destruct (Poly_init_Polynomial other d xs ys cov px py v None None None None
              Hl Hpx Hpy)
    as (P & HP & _ & _ & _ & _ & _ & _ & _ & Hxmin & Hxmax & Hymin & Hymax & _ & Hr & _).
  destruct (Patternmatrix_init_Polynomial vo d xs ys Hne Hl)
    as (PM & HPM & _ & _ & _ & _ & Mxr & Myr & _).
  assert (H0x : (0 <? length xs)%nat = true) by (destruct xs; [congruence|reflexivity]).
  assert (H0y : (0 <? length ys)%nat = true) by (rewrite <- Hl; exact H0x).
  unfold Poly.setdomain1 in Hxmin, Hxmax, Hymin, Hymax.
  rewrite H0x in Hxmin, Hxmax. rewrite H0y in Hymin, Hymax.
  unfold Poly.rescalexy in Hr. rewrite Hxmin, Hxmax, Hymin, Hymax in Hr.
  injection Hr as Hxr Hyr.
  destruct (rescaled_unit xs Hx) as (Fx & Mx & Px).
  destruct (rescaled_unit ys Hy) as (Fy & My & Py).
  exists P, PM. split; [exact HP|]. split; [exact HPM|].
  rewrite Hxr, Hyr, Mxr, Myr. repeat (split; [first [reflexivity|assumption]|]).
  assumption.
Qed.

Lemma rescaled_positions_in_unit_square_witness :
  exists P,
    Poly.init polynomial_only [0; 4] [1; 3] [] [1; 2; 3] [4; 5; 6] (Some Polynomial)
              false None None None None false = Done P /\
    Forall (fun t => -1 <= t <= 1) (Poly.xr P).
Proof.
  assert (Hx : Poly.np_min [0; 4] < Poly.np_max [0; 4]).
  { unfold Poly.np_min, Poly.np_max. simpl.
    rewrite Rmin_left, Rmax_right by lra. lra. }
  assert (Hy : Poly.np_min [1; 3] < Poly.np_max [1; 3]).
  { unfold Poly.np_min, Poly.np_max. simpl.
    rewrite Rmin_left, Rmax_right by lra. lra. }
  destruct (rescaled_positions_in_unit_square polynomial_only polynomial_vander_only 1
              [0; 4] [1; 3] [] [1; 2; 3] [4; 5; 6] false eq_refl eq_refl eq_refl Hx Hy)
    as (P & PM & HP & _ & _ & _ & HF & _).
  exists P. split; assumption.
Defined.

(** ** Poly without data *)

Lemma updatejacobian_no_data other s :
  Poly.x s = [] -> Poly.y s = [] -> Poly.jacpoly s = [] ->
  exists s',
    Poly.updatejacobian other s = Done s' /\
    Poly.jacpoly s' = [] /\ Poly.jac s' = Poly.jac s /\
    Poly.xr s' = [] /\ Poly.yr s' = [] /\
    Poly.jacrescale s' =
      M2 (2 / (Poly.xmax s - Poly.xmin s)) 0 0 (2 / (Poly.ymax s - Poly.ymin s)) /\
    Poly.xmin s' = Poly.xmin s /\ Poly.xmax s' = Poly.xmax s /\
    Poly.ymin s' = Poly.ymin s /\ Poly.ymax s' = Poly.ymax s /\
    Poly.x s' = [] /\ Poly.y s' = [] /\ Poly.xtran s' = Poly.xtran s /\
    Poly.ytran s' = Poly.ytran s.
Proof.
  intros Hx Hy Hj.
  unfold Poly.updatejacobian, Poly.rescalepos, Poly.rescalexy, Poly.getjacobian.
  rewrite Hx, Hy. cbn [map]. cbv zeta.
  unfold Poly.setjacrescale, Poly.size_stack. poly_simpl. rewrite Hj.
  cbn [length Nat.mul Nat.ltb Nat.leb].
  unfold Poly.initjacpoly. poly_simpl. rewrite Hx. cbn [length Nat.ltb Nat.leb].
  unfold Poly.populatejacpoly, Poly.size_stack. poly_simpl.
  cbn [length Nat.mul Nat.ltb Nat.leb obind].
  unfold Poly.combinejac, Poly.size_stack. poly_simpl.
  cbn [length Nat.mul Nat.ltb Nat.leb].
  eexists. split; [reflexivity|]. poly_simpl.
  repeat (split; [first [reflexivity|assumption]|]). reflexivity.
Qed.

(** X8: a Polynomial-basis [Poly] built with coefficients but no positions
    and no limits returns with the default domain [-1, 1] x [-1, 1], an
    identity rescaling Jacobian and empty Jacobian stacks; [propxy] of
    empty input is a pair of empty arrays and [tranpos] leaves empty
    transformed positions. *)
Theorem Poly_init_no_data other d cov px py v :
  length px = ncoeffs d -> length py = ncoeffs d ->
  exists st,
    Poly.init other [] [] cov px py (Some Polynomial) v None None None None false
      = Done st /\
    Poly.xmin st = -1 /\ Poly.xmax st = 1 /\ Poly.ymin st = -1 /\ Poly.ymax st = 1 /\
    Poly.jacrescale st = eye2 /\
    Poly.jacpoly st = [] /\ Poly.jac st = [] /\
    Poly.xr st = [] /\ Poly.yr st = [] /\
    (forall vx vy, vx = [] \/ vy = [] -> Poly.propxy other st vx vy = Ok ([], [])) /\
    (exists st', Poly.tranpos other st = Done st' /\
                 Poly.xtran st' = [] /\ Poly.ytran st' = []).
Proof.
  intros Hpx Hpy.
  destruct (coeffs_wf_init d px v Hpx) as (pcx & Hix & Hwx & _).
  destruct (coeffs_wf_init d py v Hpy) as (pcy & Hiy & Hwy & _).
  unfold Poly.init. cbv zeta.
  set (base := Poly.mk _ _ _ _ _ _ _ _ _ _ _ _ _ _ _ _ _ _ _ _ _ _ _ _).
  assert (Hud : Poly.updatedata [] [] cov base = Poly.set_xy [] [] base).
  { unfold Poly.updatedata. destruct cov as [|c0 cov]; reflexivity. }
  rewrite Hud.
  match goal with |- context [Poly.setuppars ?s] => set (s0 := s) end.
  rewrite (setuppars_eq s0 pcx pcy) by assumption.
  cbn [obind].
  destruct (updatejacobian_no_data other (Poly.set_pars2y pcy (Poly.set_pars2x pcx s0)))
    as (st & Hst & Hjp & Hj & Hxr & Hyr & Hjr & Hxmin & Hxmax & Hymin & Hymax
        & Hx & Hy & _); try reflexivity.
  exists st. split; [exact Hst|].
  split; [rewrite Hxmin; reflexivity|]. split; [rewrite Hxmax; reflexivity|].
  split; [rewrite Hymin; reflexivity|]. split; [rewrite Hymax; reflexivity|].
  split.
  { rewrite Hjr. change (Poly.xmax _) with 1. change (Poly.xmin _) with (-1).
    change (Poly.ymax _) with 1. change (Poly.ymin _) with (-1).
    unfold eye2. f_equal; field. }
  split; [exact Hjp|]. split; [rewrite Hj; reflexivity|].
  split; [exact Hxr|]. split; [exact Hyr|].
  assert (Hprop : forall vx vy, vx = [] \/ vy = [] ->
                    Poly.propxy other st vx vy = Ok ([], [])).
  { intros vx vy [->| ->]; unfold Poly.propxy; cbn [length Nat.ltb Nat.leb];
      rewrite ?orb_true_r; reflexivity. }
  split; [exact Hprop|].
  unfold Poly.tranpos. rewrite (Hprop _ _ (or_introl Hx)).
  eexists. split; [reflexivity|]. split; reflexivity.
Qed.

Lemma Poly_init_no_data_witness :
  exists st,
    Poly.init polynomial_only [] [] [] [1; 2; 3] [4; 5; 6] (Some Polynomial) false
              None None None None false = Done st /\
    Poly.jac st = [].
Proof.
  destruct (Poly_init_no_data polynomial_only 1 [] [1; 2; 3] [4; 5; 6] false
              eq_refl eq_refl) as (st & H & _ & _ & _ & _ & _ & _ & Hj & _).
  exists st. split; assumption.
Defined.

(** ** Poly.propxy: shapes *)

(** X9: on a Polynomial-basis instance [propxy] returns one transformed
    position per input position when x and y have one length, and raises
    ValueError when both are non-empty with different lengths. *)
Theorem Poly_propxy_shape other d st vx vy :
  Poly_wf d st ->
  (length vx = length vy ->
     exists xt yt, Poly.propxy other st vx vy = Ok (xt, yt) /\
                   length xt = length vx /\ length yt = length vx) /\
  ((1 <= length vx)%nat -> (1 <= length vy)%nat -> length vx <> length vy ->
     Poly.propxy other st vx vy = Err ValueError).
Proof.
  intros Hwf. split; [apply (Poly_propxy_wf other d st vx vy Hwf)|].
  intros Hx Hy Hne. destruct Hwf as (Hk & _).
  unfold Poly.propxy.
  replace (length vx <? 1)%nat with false by (symmetry; apply Nat.ltb_ge; lia).
  replace (length vy <? 1)%nat with false by (symmetry; apply Nat.ltb_ge; lia).
  cbn [orb]. unfold Poly.rescalexy, Poly.methval2d, Poly.methlist.
  rewrite Hk. cbn [val2d numpy_polynomial]. unfold polyval2d.
  rewrite !length_map.
  replace (length vx =? length vy)%nat with false
    by (symmetry; apply Nat.eqb_neq; exact Hne).
  reflexivity.
Qed.

Lemma Poly_propxy_shape_witness :
  (exists xt yt, Poly.propxy polynomial_only (example_poly polynomial_only) [1; 2] [3; 4]
                 = Ok (xt, yt) /\ length xt = 2%nat /\ length yt = 2%nat) /\
  Poly.propxy polynomial_only (example_poly polynomial_only) [1; 2] [3] = Err ValueError.
Proof.
  pose proof (Poly_propxy_shape polynomial_only 1 (example_poly polynomial_only))
    as H.
  split.
  - apply (proj1 (H [1; 2] [3; 4] (example_poly_wf polynomial_only))). reflexivity.
  - apply (proj2 (H [1; 2] [3] (example_poly_wf polynomial_only)));
      simpl; lia.
Defined.

(** ** Patternmatrix: construction *)

(** X10: [Patternmatrix] cannot be built without positions. With
    rescaling, [np.min] of the empty x (or y) array raises ValueError;
    with [norescale] the Vandermonde array is never built and
    [buildpattern] raises IndexError. This holds for every degree and
    polynomial family. *)
Theorem Patternmatrix_no_data vo d (x : R) (xs ys : vec) k :
  (exists st, Patternmatrix.init vo d [] ys k false = Raised ValueError st) /\
  (exists st, Patternmatrix.init vo d (x :: xs) [] k false = Raised ValueError st) /\
  (exists st, Patternmatrix.init vo d [] ys k true = Raised IndexError st /\
              Patternmatrix.pattern st = []).
Proof.
  split; [eexists; reflexivity|]. split; [eexists; reflexivity|].
  eexists. split; reflexivity.
Qed.

Lemma select_powers {C : Type} (f : nat -> nat -> C) d :
  let b := zip_with (fun i j => (i + j <=? d)%nat)
             (np_repeat (arange (d + 1)) (d + 1)) (np_tile (arange (d + 1)) (d + 1)) in
  zip_with f (select b (np_repeat (arange (d + 1)) (d + 1)))
             (select b (np_tile (arange (d + 1)) (d + 1))) =
  flat_map (fun i => map (f i) (seq 0 (d + 1 - i))) (seq 0 (d + 1)).
Proof.
  cbv zeta. rewrite <- select_zip_with, !powers_zip_with.
  apply (select_square f).
Qed.

Lemma map_norescale (l : vec) :
  map (fun x => (2 * x - (1 + -1)) / (1 - -1)) l = l.
Proof.
  induction l as [|a l IH]; [reflexivity|]. cbn [map]. rewrite IH. f_equal. field.
Qed.

Lemma Patternmatrix_init_blocks vo d xs ys nores :
  xs <> [] -> length xs = length ys ->
  exists PM,
    Patternmatrix.init vo d xs ys (Some Polynomial) nores = Done PM /\
    (nores = true -> Patternmatrix.xr PM = xs /\ Patternmatrix.yr PM = ys) /\
    length (Patternmatrix.xr PM) = length xs /\
    length (Patternmatrix.yr PM) = length xs /\
    zip (Patternmatrix.isel PM) (Patternmatrix.jsel PM) =
      flat_map (fun i => map (pair i) (seq 0 (d + 1 - i))) (seq 0 (d + 1)) /\
    length (Patternmatrix.lvander PM) = ncoeffs d /\
    Patternmatrix.pattern PM =
      zip_with (fun x y => (monomials d x y ++ replicate (ncoeffs d) 0,
                            replicate (ncoeffs d) 0 ++ monomials d x y))
               (Patternmatrix.xr PM) (Patternmatrix.yr PM).
Proof.
  intros Hne Hl.
  assert (Hx : (length xs <? 1)%nat = false).
  { destruct xs; [congruence|reflexivity]. }
  assert (Hy : (length ys <? 1)%nat = false).
  { rewrite <- Hl. exact Hx. }
  unfold Patternmatrix.init.
  assert (Hlims : exists a b c e,
    Patternmatrix.setlims
      (Patternmatrix.mk d xs ys nores (-1) 1 (-1) 1 [] [] Polynomial [] [] [] [] [] [] [] [])
    = Done (Patternmatrix.mk d xs ys nores a b c e [] [] Polynomial [] [] [] [] [] [] [] [])
    /\ (nores = true -> a = -1 /\ b = 1 /\ c = -1 /\ e = 1)).
  { unfold Patternmatrix.setlims. pm_simpl. destruct nores.
    - eexists _, _, _, _. split; [reflexivity|]. intros _. repeat split.
    - rewrite Hx, Hy. eexists _, _, _, _. split; [reflexivity|]. discriminate. }
  destruct Hlims as (a & b0 & c & e & -> & Hab). cbn [obind].
  unfold Patternmatrix.rescalexy, Patternmatrix.buildpowers,
    Patternmatrix.selectpowers. pm_simpl.
  set (b := zip_with (fun i j => (i + j <=? d)%nat)
              (np_repeat (arange (d + 1)) (d + 1)) (np_tile (arange (d + 1)) (d + 1))).
  set (vxr := map _ xs). set (vyr := map _ ys).
  unfold Patternmatrix.buildvander. pm_simpl.
  replace (length vxr <? 1)%nat with false
    by (unfold vxr; rewrite length_map; symmetry; exact Hx).
  unfold Patternmatrix.methvander. pm_simpl. unfold polyvander2d.
  replace (length vxr =? length vyr)%nat with true
    by (unfold vxr, vyr; rewrite !length_map; symmetry; apply Nat.eqb_eq; exact Hl).
  cbn [negb obind].
  unfold Patternmatrix.buildpattern. pm_simpl.
  assert (Hsel : collect (map (take_cols (select b (arange (length
                    (np_repeat (arange (d + 1)) (d + 1))))))
                    (zip_with (fun x y => polyvander2d1 x y d) vxr vyr)) =
                 Ok (zip_with (fun x y => monomials d x y) vxr vyr)).
  { rewrite (collect_map_Ok _ (select b)).
    - f_equal. generalize vyr. induction vxr as [|x0 vxr' IH]; intros [|y0 vyr'];
        simpl; try reflexivity.
      unfold b at 1. rewrite select_polyvander. rewrite IH. reflexivity.
    - intros row Hrow. apply list_elem_of_In, elem_of_lookup_zip_with in Hrow
        as (k & x0 & y0 & -> & _ & _).
      rewrite (length_powers d x0 y0). apply take_cols_select. }
  rewrite Hsel.
  assert (Hnv : zip_with (fun x y => polyvander2d1 x y d) vxr vyr <> []).
  { unfold vxr, vyr. destruct xs as [|x0 xs']; [congruence|].
    destruct ys as [|y0 ys']; [discriminate|]. discriminate. }
  destruct (zip_with (fun x y => polyvander2d1 x y d) vxr vyr) as [|r0 rs] eqn:Ev;
    [congruence|].
  assert (Hnb : length (select b (arange (length (np_repeat (arange (d + 1)) (d + 1)))))
                = ncoeffs d).
  { rewrite <- (length_monomials d 0 0), <- select_polyvander. fold b.
    apply length_select_ext. unfold arange.
    rewrite length_seq. apply length_powers. }
  eexists. split; [reflexivity|]. pm_simpl.
  split.
  { intros Hn. destruct (Hab Hn) as (-> & -> & -> & ->). unfold vxr, vyr.
    split; apply map_norescale. }
  split; [unfold vxr; apply length_map|].
  split; [unfold vyr; rewrite length_map; symmetry; exact Hl|].
  split; [apply (select_powers pair d)|].
  split; [exact Hnb|].
  rewrite Hnb. apply map_zip_with.
Qed.

Lemma monomials_map d x y :
  monomials d x y =
  map (fun ij => x ^ fst ij * y ^ snd ij)
      (flat_map (fun i => map (pair i) (seq 0 (d + 1 - i))) (seq 0 (d + 1))).
Proof.
  unfold monomials. induction (seq 0 (d + 1)) as [|i l IH]; [reflexivity|].
  cbn [flat_map]. rewrite map_app, <- IH, map_map. reflexivity.
Qed.

(** X11: for a non-empty point set with x and y of one length the
    Polynomial-basis [Patternmatrix] of degree d returns. Its selected
    powers are the pairs (i, j) with i + j <= d, by i and then by j; each
    point has a block of two rows and 2 (d+1)(d+2)/2 columns, row 0 holding
    the basis values x^i y^j in its first half, row 1 holding them in its
    second half, zeros elsewhere; with [norescale] the basis is evaluated
    at the positions as given. *)
Theorem Patternmatrix_blocks vo d xs ys nores :
  xs <> [] -> length xs = length ys ->
  exists PM,
    Patternmatrix.init vo d xs ys (Some Polynomial) nores = Done PM /\
    (nores = true -> Patternmatrix.xr PM = xs /\ Patternmatrix.yr PM = ys) /\
    zip (Patternmatrix.isel PM) (Patternmatrix.jsel PM) =
      flat_map (fun i => map (pair i) (seq 0 (d + 1 - i))) (seq 0 (d + 1)) /\
    length (Patternmatrix.lvander PM) = ncoeffs d /\
    length (Patternmatrix.pattern PM) = length xs /\
    (forall n x y rows,
       Patternmatrix.xr PM !! n = Some x -> Patternmatrix.yr PM !! n = Some y ->
       Patternmatrix.pattern PM !! n = Some rows ->
       fst rows = map (fun ij => x ^ fst ij * y ^ snd ij)
                      (zip (Patternmatrix.isel PM) (Patternmatrix.jsel PM))
                  ++ replicate (ncoeffs d) 0 /\
       snd rows = replicate (ncoeffs d) 0 ++
                  map (fun ij => x ^ fst ij * y ^ snd ij)
                      (zip (Patternmatrix.isel PM) (Patternmatrix.jsel PM))).
Proof.
  intros Hne Hl.
  destruct (Patternmatrix_init_blocks vo d xs ys nores Hne Hl)
    as (PM & HPM & Hnr & Hlx & Hly & Hz & Hlv & Hpat).
  exists PM. split; [exact HPM|]. split; [exact Hnr|]. split; [exact Hz|].
  split; [exact Hlv|].
  split; [rewrite Hpat, length_zip_with; lia|].
  intros n x y rows Hx Hy Hrows.
  rewrite Hpat in Hrows. apply lookup_zip_with_Some in Hrows
    as (x' & y' & -> & Hx' & Hy').
  assert (x' = x) by congruence. assert (y' = y) by congruence. subst x' y'.
  cbn [fst snd]. rewrite Hz.
  pose proof (monomials_map d x y) as Hm.
  rewrite <- Hm. split; reflexivity.
Qed.

Lemma Patternmatrix_blocks_witness :
  exists PM,
    Patternmatrix.init polynomial_vander_only 1 [2; 3] [4; 5] (Some Polynomial) true
      = Done PM /\
    Patternmatrix.xr PM = [2; 3] /\
    zip (Patternmatrix.isel PM) (Patternmatrix.jsel PM) = [(0, 0); (0, 1); (1, 0)]%nat.
Proof.
  assert (Hne : [2; 3] <> ([] : vec)) by discriminate.
  destruct (Patternmatrix_blocks polynomial_vander_only 1 [2; 3] [4; 5] true Hne eq_refl)
    as (PM & H & Hnr & Hz & _).
  exists PM. split; [exact H|]. split; [apply Hnr; reflexivity|exact Hz].
Defined.

(** ** xy2equ: a tangent-point-only update *)

(** X12: [xy2equ.updatetransf] with a two-entry vector (a tangent point and
    no polynomial coefficients) empties the composite's own [parsx] and
    [parsy], while the polynomial sub-transform keeps its coefficients:
    only its transformed positions are re-evaluated. The gnomonic
    sub-transform gets these positions and the new tangent point, with its
    Jacobian evaluated there. The call returns for a Polynomial-basis
    sub-transform. *)
Theorem xy2equ_tangent_point_only other a0 d0 S :
  (forall S', xy2equ.updatetransf other [a0; d0] S = Done S' ->
     xy2equ.parsx S' = [] /\ xy2equ.parsy S' = [] /\
     xy2equ.tangentpoint S' = [a0; d0] /\
     (exists xt yt,
        Poly.propxy other (xy2equ.xy2tp S)
          (Poly.x (xy2equ.xy2tp S)) (Poly.y (xy2equ.xy2tp S)) = Ok (xt, yt) /\
        xy2equ.xy2tp S' = Poly.set_tran xt yt (xy2equ.xy2tp S) /\
        Tan2equ.x (xy2equ.tp2equ S') = xt /\ Tan2equ.y (xy2equ.tp2equ S') = yt) /\
     Tan2equ.pars (xy2equ.tp2equ S') = [a0; d0] /\
     Tan2equ.evaluatejac (xy2equ.tp2equ S')
       (Tan2equ.x (xy2equ.tp2equ S')) (Tan2equ.y (xy2equ.tp2equ S')) =
       Ok (Tan2equ.jac (xy2equ.tp2equ S'))) /\
  (forall d, Poly_wf d (xy2equ.xy2tp S) ->
     exists S', xy2equ.updatetransf other [a0; d0] S = Done S').
Proof.
  assert (Hunf : xy2equ.updatetransf other [a0; d0] S =
    (run st := xy2equ.on_xy2tp (Poly.tranpos other (xy2equ.xy2tp S))
                 (xy2equ.set_pars (Parvec.mk true [] [] [] [a0; d0] None) S) in
     xy2equ.on_tp2equ
       (Tan2equ.updatetransf (xy2equ.tangentpoint st)
          (Tan2equ.set_xy (Poly.xtran (xy2equ.xy2tp st)) (Poly.ytran (xy2equ.xy2tp st))
             (xy2equ.tp2equ st))) st)) by reflexivity.
  rewrite Hunf. clear Hunf. split.
  - intros S' H.
    apply obind_Done in H as (S2 & H2 & H).
    apply on_xy2tp_Done in H2 as (p2 & Hp2 & ->).
    apply on_tp2equ_Done in H as (T' & HT & ->).
    xy_simpl.
    apply Poly_tranpos_Done in Hp2 as (xt & yt & Hprop & ->).
    apply Tan2equ_updatetransf_Done in HT as (HTp & HTx & HTy & HTj); [|reflexivity].
    repeat (split; [reflexivity|]).
    split; [exists xt, yt; repeat split; assumption|].
    split; assumption.
  - intros d Hwf.
    destruct (Poly_propxy_wf other d (xy2equ.xy2tp S)
                (Poly.x (xy2equ.xy2tp S)) (Poly.y (xy2equ.xy2tp S)) Hwf)
      as (xt & yt & Hprop & Hxt & Hyt); [apply Hwf|].
    unfold Poly.tranpos. rewrite Hprop. cbn [xy2equ.on_xy2tp obind]. xy_simpl.
    match goal with
    | |- context [Tan2equ.updatetransf ?a ?q] =>
        destruct (Tan2equ_updatetransf_two a q) as (J & _ & HJ)
    end; [reflexivity
         |cbn [Tan2equ.x Tan2equ.y Tan2equ.set_xy Poly.xtran Poly.ytran Poly.set_tran]; lia|].
    rewrite HJ. cbn [xy2equ.on_tp2equ]. eauto.
Qed.

Lemma xy2equ_tangent_point_only_witness :
  exists S',
    xy2equ.updatetransf polynomial_only [35; 35] example_xy2equ = Done S' /\
    xy2equ.parsx S' = [] /\
    Poly.parsx (xy2equ.xy2tp S') = Poly.parsx (xy2equ.xy2tp example_xy2equ).
Proof.
  destruct (xy2equ_tangent_point_only polynomial_only 35 35 example_xy2equ) as [HA HB].
  destruct (HB 1%nat (example_poly_wf polynomial_only)) as (S' & HS').
  exists S'. split; [exact HS'|].
  destruct (HA S' HS') as (Hp & _ & _ & (xt & yt & _ & -> & _) & _).
  split; [exact Hp|reflexivity].
Defined.

(** ** Gnomonic transforms: input that cannot be used *)

(** X13: with a tangent-point array of fewer than two entries and N >= 1
    paired positions, [propxy] and [evaluatejac] of [Tan2equ] and of
    [Equ2tan] raise IndexError, and so do both constructors. *)
Theorem gnomonic_missing_tangent_point (T : Tan2equ.t) (E : Equ2tan.t)
    (vx vy : vec) cov (pars : vec) deg verbose :
  (1 <= length vx)%nat -> length vx = length vy -> (length pars < 2)%nat ->
  Tan2equ.pars T = pars -> Equ2tan.pars E = pars ->
  Tan2equ.propxy T vx vy = Err IndexError /\
  Tan2equ.evaluatejac T vx vy = Err IndexError /\
  Equ2tan.propxy E vx vy = Err IndexError /\
  Equ2tan.evaluatejac E vx vy = Err IndexError /\
  (exists st, Tan2equ.init vx vy cov pars deg verbose = Raised IndexError st) /\
  (exists st, Equ2tan.init vx vy cov pars deg verbose = Raised IndexError st).
Proof.
  intros Hx Hl Hp HT HE.
  assert (Hx1 : (length vx <? 1)%nat = false) by (apply Nat.ltb_ge; lia).
  assert (Hy1 : (length vy <? 1)%nat = false) by (apply Nat.ltb_ge; lia).
  assert (Hb : broadcast2 vx vy = Ok (zip vx vy)).
  { unfold broadcast2. rewrite Hl, Nat.eqb_refl. reflexivity. }
  assert (Hidx : index pars 0 = Err IndexError \/
                 (exists a, index pars 0 = Ok a) /\ index pars 1 = Err IndexError).
  { destruct pars as [|a [|b l]]; [left; reflexivity| |simpl in Hp; lia].
    right. split; [exists a|]; reflexivity. }
  assert (HTp : Tan2equ.propxy T vx vy = Err IndexError).
  { unfold Tan2equ.propxy. rewrite Hx1, Hy1, Hb, HT. cbn [orb rbind].
    destruct Hidx as [->|[[a ->] ->]]; reflexivity. }
  assert (HTj : forall T0, Tan2equ.pars T0 = pars ->
                           Tan2equ.evaluatejac T0 vx vy = Err IndexError).
  { intros T0 HT0. unfold Tan2equ.evaluatejac. rewrite Hx1, Hy1, Hb, HT0.
    cbn [orb rbind]. destruct Hidx as [->|[[a ->] ->]]; reflexivity. }
  assert (HEp : Equ2tan.propxy E vx vy = Err IndexError).
  { unfold Equ2tan.propxy. rewrite Hx1, Hy1, Hb, HE. cbn [orb rbind].
    destruct Hidx as [->|[[a ->] ->]]; reflexivity. }
  assert (HEj : forall E0, Equ2tan.pars E0 = pars ->
                           Equ2tan.evaluatejac E0 vx vy = Err IndexError).
  { intros E0 HE0. unfold Equ2tan.evaluatejac. rewrite Hx1, Hy1, Hb, HE0.
    cbn [orb rbind]. destruct Hidx as [->|[[a ->] ->]]; reflexivity. }
  split; [exact HTp|]. split; [apply HTj, HT|].
  split; [exact HEp|]. split; [apply HEj, HE|]. split.
  - unfold Tan2equ.init, Tan2equ.setjacobian. cbn [Tan2equ.x Tan2equ.y].
    rewrite HTj by reflexivity. eexists. reflexivity.
  - unfold Equ2tan.init, Equ2tan.setjacobian. cbn [Equ2tan.x Equ2tan.y].
    rewrite HEj by reflexivity. eexists. reflexivity.
Qed.

Lemma gnomonic_missing_tangent_point_witness :
  exists st, Tan2equ.init [1] [2] [] [] true true = Raised IndexError st.
Proof.
  assert (H1 : (1 <= length [1])%nat) by (simpl; lia).
  assert (H2 : (length ([] : vec) < 2)%nat) by (simpl; lia).
  exact (proj1 (proj2 (proj2 (proj2 (proj2
    (gnomonic_missing_tangent_point
       (Tan2equ.mk [] [] [] [] true true 1 [] [] [])
       (Equ2tan.mk [] [] [] [] true true 1 [] [] [])
       [1] [2] [] [] true true H1 eq_refl H2 eq_refl eq_refl)))))).
Defined.

(** X14: with a single x and N > 1 values of y (and a two-entry tangent
    point) numpy broadcasting lets [propxy] of [Tan2equ] and of [Equ2tan]
    return N positions, but [evaluatejac] raises ValueError: its N planes
    do not fit the stack sized by x. With N values of x and a single y
    both return N results. *)
Theorem gnomonic_broadcast (T : Tan2equ.t) (E : Equ2tan.t) (x0 y0 : R) (vs : vec) :
  (2 <= length vs)%nat ->
  length (Tan2equ.pars T) = 2%nat -> length (Equ2tan.pars E) = 2%nat ->
  (exists a d, Tan2equ.propxy T [x0] vs = Ok (a, d) /\
               length a = length vs /\ length d = length vs) /\
  Tan2equ.evaluatejac T [x0] vs = Err ValueError /\
  (exists a d, Equ2tan.propxy E [x0] vs = Ok (a, d) /\
               length a = length vs /\ length d = length vs) /\
  Equ2tan.evaluatejac E [x0] vs = Err ValueError /\
  (exists J, Tan2equ.evaluatejac T vs [y0] = Ok J /\ length J = length vs) /\
  (exists J, Equ2tan.evaluatejac E vs [y0] = Ok J /\ length J = length vs).
Proof.
  intros Hn HT HE.
  assert (Hv1 : (length vs <? 1)%nat = false) by (apply Nat.ltb_ge; lia).
  assert (Hb1 : broadcast2 [x0] vs = Ok (map (fun y => (x0, y)) vs)).
  { unfold broadcast2. cbn [length].
    replace (1 =? length vs)%nat with false by (symmetry; apply Nat.eqb_neq; lia).
    reflexivity. }
  assert (Hb2 : broadcast2 vs [y0] = Ok (map (fun x => (x, y0)) vs)).
  { unfold broadcast2. cbn [length].
    replace (length vs =? 1)%nat with false by (symmetry; apply Nat.eqb_neq; lia).
    destruct vs as [|a [|b l]]; [simpl in Hn; lia|simpl in Hn; lia|reflexivity]. }
  destruct (Tan2equ.pars T) as [|ta [|td [|? ?]]] eqn:EpT; try discriminate.
  destruct (Equ2tan.pars E) as [|ea [|ed [|? ?]]] eqn:EpE; try discriminate.
  assert (Hne : (length vs =? 1)%nat = false) by (apply Nat.eqb_neq; lia).
  split; [|split; [|split; [|split; [|split]]]].
  - unfold Tan2equ.propxy. change (length [x0] <? 1)%nat with false. rewrite Hv1, Hb1, EpT.
    cbn [orb rbind index lookup list_lookup]. eexists _, _. split; [reflexivity|].
    rewrite !length_map. split; reflexivity.
  - unfold Tan2equ.evaluatejac. change (length [x0] <? 1)%nat with false. rewrite Hv1, Hb1, EpT.
    cbn [orb rbind index lookup list_lookup]. rewrite length_map. cbn [length]. rewrite Hne. reflexivity.
  - unfold Equ2tan.propxy. change (length [x0] <? 1)%nat with false. rewrite Hv1, Hb1, EpE.
    cbn [orb rbind index lookup list_lookup]. eexists _, _. split; [reflexivity|].
    rewrite !length_map. split; reflexivity.
  - unfold Equ2tan.evaluatejac. change (length [x0] <? 1)%nat with false. rewrite Hv1, Hb1, EpE.
    cbn [orb rbind index lookup list_lookup]. rewrite length_map. cbn [length]. rewrite Hne. reflexivity.
  - unfold Tan2equ.evaluatejac. change (length [y0] <? 1)%nat with false. rewrite Hv1, Hb2, EpT.
    cbn [orb rbind index lookup list_lookup]. rewrite length_map, Nat.eqb_refl.
    eexists. split; [reflexivity|]. rewrite !length_map. reflexivity.
  - unfold Equ2tan.evaluatejac. change (length [y0] <? 1)%nat with false. rewrite Hv1, Hb2, EpE.
    cbn [orb rbind index lookup list_lookup]. rewrite length_map, Nat.eqb_refl.
    eexists. split; [reflexivity|]. rewrite !length_map. reflexivity.
Qed.

Lemma gnomonic_broadcast_witness :
  Tan2equ.evaluatejac example_tan2equ [0] [1; 2] = Err ValueError.
Proof.
  assert (H2 : (2 <= length [1; 2])%nat) by (simpl; lia).
  exact (proj1 (proj2 (gnomonic_broadcast example_tan2equ example_equ2tan 0 0 [1; 2]
                         H2 eq_refl eq_refl))).
Defined.

(** ** Polycoeffs: the 2D array on request *)

Lemma Polycoeffs_init_blank verbose :
  Polycoeffs.init [] verbose = Done (Polycoeffs.mk [] verbose [] (-1) [] []).
Proof.
  unfold Polycoeffs.init, Polycoeffs.assigndeg. cbn [Polycoeffs.p length INR].
  assert (Hd : Polycoeffs.degfromcoeffs 0 = -1).
  { unfold Polycoeffs.degfromcoeffs.
    replace (9 + 8 * (0 - 1)) with 1 by lra. rewrite sqrt_1. lra. }
  rewrite Hd.
  assert (Hp : Polycoeffs.py_int (-1) = (-1)%Z).
  { unfold Polycoeffs.py_int. destruct (Rle_dec 0 (-1)) as [H|_]; [lra|].
    replace (- -1) with (INR 1) by (simpl; lra). rewrite Int_part_INR. reflexivity. }
  rewrite Hp. replace (-1 - -1) with 0 by lra. rewrite Rabs_R0.
  destruct (Rlt_dec (1 / 1000) 0) as [H|_]; [lra|].
  reflexivity.
Qed.

Lemma forallb_elem_false {A : Type} (f : A -> bool) (l : list A) (a : A) :
  In a l -> f a = false -> forallb f l = false.
Proof.
  intros Hin Hf. destruct (forallb f l) eqn:E; [|reflexivity].
  rewrite forallb_forall in E. rewrite (E a Hin) in Hf. discriminate.
Qed.

Lemma In_ijfromdeg_top d :
  In d (fst (Polycoeffs.ijfromdeg (Z.of_nat d))).
Proof.
  assert (H : (d, 0%nat) ∈ pairs d).
  { apply elem_of_pairs_2. lia. }
  rewrite <- zip_ijfromdeg in H.
  apply list_elem_of_In. apply (elem_of_zip_l _ _ _ _ H).
Qed.

(** X15: [getcoeffs2d] never allocates the 2-D array. On a blank
    [Polycoeffs()] it assigns the degree of the supplied vector and then
    raises IndexError for every degree d >= 1, the array still being
    empty. On an instance of degree d >= 1 and for a vector of
    (d+1)(d+2)/2 coefficients it returns the array that reads back as the
    vector, with or without [clobber]. With [clobber] and the vector of a
    higher degree it raises IndexError, the array keeping its shape. *)
Theorem getcoeffs2d_keeps_shape d v verbose clobber :
  (1 <= d)%nat -> length v = ncoeffs d ->
  (exists blank pc',
     Polycoeffs.init [] verbose = Done blank /\
     Polycoeffs.getcoeffs2d v clobber blank = Raised IndexError pc' /\
     Polycoeffs.deg pc' = Z.of_nat d /\ Polycoeffs.p2d pc' = []) /\
  (forall pc, coeffs_wf d pc ->
     exists pc',
       Polycoeffs.getcoeffs2d v clobber pc = Done pc' /\
       Polycoeffs.p pc' = v /\ coeffs_wf d pc' /\ Polycoeffs.readback pc' = v) /\
  (forall d' pc, coeffs_wf d' pc -> (d' < d)%nat ->
     exists pc',
       Polycoeffs.getcoeffs2d v true pc = Raised IndexError pc' /\
       Polycoeffs.deg pc' = Z.of_nat d /\ Polycoeffs.p2d pc' = Polycoeffs.p2d pc).
Proof.
  intros Hd Hlen.
  assert (Hpos : (0 <? length v)%nat = true).
  { apply Nat.ltb_lt. rewrite Hlen. unfold ncoeffs.
    apply Nat.div_str_pos. nia. }
  destruct (length_ijfromdeg d) as [Hi Hj].
  destruct (Forall_ijfromdeg d) as [HFi HFj].
  pose proof (zip_ijfromdeg d) as Hz. pose proof (NoDup_pairs d) as Hnd.
  pose proof (In_ijfromdeg_top d) as Htop.
  split; [|split].
  - exists (Polycoeffs.mk [] verbose [] (-1) [] []). eexists.
    split; [apply Polycoeffs_init_blank|].
    unfold Polycoeffs.getcoeffs2d. rewrite Hpos.
    cbn [Polycoeffs.deg Polycoeffs.set_p Z.ltb Z.compare orb].
    rewrite (assigndeg_ncoeffs _ d) by exact Hlen.
    unfold Polycoeffs.assignij, Polycoeffs.set_deg. cbn [Polycoeffs.deg].
    rewrite (surjective_pairing (Polycoeffs.ijfromdeg (Z.of_nat d))).
    unfold Polycoeffs.updatecoeffs2d, Polycoeffs.set_ij, Polycoeffs.set_p.
    cbn [Polycoeffs.deg Polycoeffs.p Polycoeffs.i Polycoeffs.j Polycoeffs.p2d].
    replace (Z.of_nat d <? 1)%Z with false by (symmetry; apply Z.ltb_ge; lia).
    rewrite Hlen, Hi, Hj, Nat.leb_refl. cbn [andb].
    rewrite (take_ge (fst _)) by lia.
    assert (Hin : inbounds2d [] (fst (Polycoeffs.ijfromdeg (Z.of_nat d)))
                    (take (ncoeffs d) (snd (Polycoeffs.ijfromdeg (Z.of_nat d)))) = false).
    { unfold inbounds2d.
      rewrite (forallb_elem_false _ _ d Htop); [reflexivity|].
      apply Nat.ltb_ge. cbn. lia. }
    rewrite Hin. split; [reflexivity|]. split; reflexivity.
  - intros pc (Hdeg & Hpi & Hpj & Hrect).
    assert (E : (if (Polycoeffs.deg (Polycoeffs.set_p v pc) <? 0)%Z || clobber
                 then Polycoeffs.assignij (Polycoeffs.assigndeg (Polycoeffs.set_p v pc))
                 else Polycoeffs.set_p v pc) = Polycoeffs.set_p v pc).
    { destruct ((Polycoeffs.deg (Polycoeffs.set_p v pc) <? 0)%Z || clobber); [|reflexivity].
      rewrite (assigndeg_ncoeffs _ d) by exact Hlen.
      unfold Polycoeffs.assignij, Polycoeffs.set_deg, Polycoeffs.set_p.
      cbn [Polycoeffs.deg Polycoeffs.p Polycoeffs.Verbose Polycoeffs.p2d
           Polycoeffs.i Polycoeffs.j].
      destruct (Polycoeffs.ijfromdeg (Z.of_nat d)) as [ia ja] eqn:Hij.
      cbn [fst snd] in *. unfold Polycoeffs.set_ij.
      cbn [Polycoeffs.deg Polycoeffs.p Polycoeffs.Verbose Polycoeffs.p2d].
      rewrite <- Hdeg, <- Hpi, <- Hpj. reflexivity. }
    unfold Polycoeffs.getcoeffs2d. rewrite Hpos, E.
    unfold Polycoeffs.updatecoeffs2d, Polycoeffs.set_p.
    cbn [Polycoeffs.deg Polycoeffs.p Polycoeffs.i Polycoeffs.j Polycoeffs.p2d].
    rewrite Hdeg, Hpi, Hpj.
    replace (Z.of_nat d <? 1)%Z with false by (symmetry; apply Z.ltb_ge; lia).
    rewrite Hlen, Hi, Hj, Nat.leb_refl. cbn [andb].
    rewrite !take_ge by lia.
    rewrite (inbounds2d_true (d + 1) (d + 1)) by (auto; lia).
    eexists. split; [reflexivity|].
    split; [reflexivity|]. split.
    + unfold coeffs_wf, Polycoeffs.set_p2d.
      cbn [Polycoeffs.deg Polycoeffs.p Polycoeffs.i Polycoeffs.j Polycoeffs.p2d].
      split; [first [exact Hdeg|reflexivity]|].
      split; [first [exact Hpi|reflexivity]|].
      split; [first [exact Hpj|reflexivity]|].
      apply rect_scatter2d. exact Hrect.
    + unfold Polycoeffs.readback, Polycoeffs.set_p2d.
      cbn [Polycoeffs.deg Polycoeffs.p2d]. rewrite ?Hdeg.
      destruct (Polycoeffs.ijfromdeg (Z.of_nat d)) as [ia ja] eqn:Hij.
      cbn [fst snd] in *.
      apply (readback_scatter2d (d + 1) (d + 1)); auto; try congruence.
  - intros d' pc (Hdeg & Hpi & Hpj & Hrect) Hlt.
    unfold Polycoeffs.getcoeffs2d. rewrite Hpos, orb_true_r.
    rewrite (assigndeg_ncoeffs _ d) by exact Hlen.
    unfold Polycoeffs.assignij, Polycoeffs.set_deg, Polycoeffs.set_p.
    cbn [Polycoeffs.deg Polycoeffs.p Polycoeffs.Verbose Polycoeffs.p2d
         Polycoeffs.i Polycoeffs.j].
    rewrite (surjective_pairing (Polycoeffs.ijfromdeg (Z.of_nat d))).
    unfold Polycoeffs.updatecoeffs2d, Polycoeffs.set_ij.
    cbn [Polycoeffs.deg Polycoeffs.p Polycoeffs.i Polycoeffs.j Polycoeffs.p2d].
    replace (Z.of_nat d <? 1)%Z with false by (symmetry; apply Z.ltb_ge; lia).
    rewrite Hlen, Hi, Hj, Nat.leb_refl. cbn [andb].
    rewrite (take_ge (fst _)) by lia.
    assert (Hin : inbounds2d (Polycoeffs.p2d pc) (fst (Polycoeffs.ijfromdeg (Z.of_nat d)))
                    (take (ncoeffs d) (snd (Polycoeffs.ijfromdeg (Z.of_nat d)))) = false).
    { unfold inbounds2d.
      rewrite (forallb_elem_false _ _ d Htop); [reflexivity|].
      apply Nat.ltb_ge. destruct Hrect as [Hr _]. unfold nrows. lia. }
    rewrite Hin. eexists. split; [reflexivity|]. split; reflexivity.
Qed.

Lemma getcoeffs2d_keeps_shape_witness :
  exists pc', Polycoeffs.getcoeffs2d [1; 2; 3] false
                (Polycoeffs.mk [] true [] (-1) [] []) = Raised IndexError pc' /\
              Polycoeffs.p2d pc' = [].
Proof.
  assert (H1 : (1 <= 1)%nat) by lia.
  destruct (getcoeffs2d_keeps_shape 1 [1; 2; 3] true false H1 eq_refl)
    as [(blank & pc' & Hb & Hg & _ & Hp) _].
  rewrite Polycoeffs_init_blank in Hb. injection Hb as <-.
  exists pc'. split; assumption.
Defined.

(** ** Poly: new data on the old domain *)

(** [updatejacobian] on an instance that already has a Jacobian stack. *)
Lemma updatejacobian_again other d s :
  Poly.kind s = Polynomial ->
  coeffs_wf d (Poly.pars2x s) -> coeffs_wf d (Poly.pars2y s) ->
  length (Poly.x s) = length (Poly.y s) ->
  Poly.jacpoly s <> [] ->
  exists s',
    Poly.updatejacobian other s = Done s' /\ Poly_wf d s' /\
    Poly.x s' = Poly.x s /\ Poly.y s' = Poly.y s /\
    Poly.covxy s' = Poly.covxy s /\
    Poly.pars2x s' = Poly.pars2x s /\ Poly.pars2y s' = Poly.pars2y s /\
    Poly.xmin s' = Poly.xmin s /\ Poly.xmax s' = Poly.xmax s /\
    Poly.ymin s' = Poly.ymin s /\ Poly.ymax s' = Poly.ymax s /\
    (Poly.xr s', Poly.yr s') = Poly.rescalexy s (Poly.x s) (Poly.y s) /\
    Poly.evaluatejacpoly other s' (Poly.xr s') (Poly.yr s') = Ok (Poly.jacpoly s') /\
    length (Poly.jacpoly s') = length (Poly.x s) /\
    (Poly.x s <> [] ->
     Poly.jac s' = map (mat2_mul (Poly.jacrescale s')) (Poly.jacpoly s')) /\
    (Poly.x s = [] -> Poly.jac s' = Poly.jac s).
Proof.
  intros Hk Hwx Hwy Hxy Hj.
  unfold Poly.updatejacobian, Poly.getjacobian.
  set (s1 := Poly.setjacrescale (Poly.rescalepos s)).
  assert (E1 : s1 = Poly.set_jacrescale
                      (M2 (2 / (Poly.xmax s - Poly.xmin s)) 0 0
                          (2 / (Poly.ymax s - Poly.ymin s)))
                      (Poly.set_xryr (fst (Poly.rescalexy s (Poly.x s) (Poly.y s)))
                                     (snd (Poly.rescalexy s (Poly.x s) (Poly.y s))) s))
    by reflexivity.
  assert (Hsz : (Poly.size_stack (Poly.jacpoly s1) <? 2)%nat = false).
  { apply Nat.ltb_ge. rewrite E1. unfold Poly.size_stack. poly_simpl.
    destruct (Poly.jacpoly s); [congruence|]. cbn [length]. lia. }
  cbv zeta. rewrite Hsz.
  assert (Hwf1 : Poly_wf d s1).
  { rewrite E1. unfold Poly_wf, Poly.rescalexy. poly_simpl.
    cbn [fst snd]. rewrite !length_map. auto. }
  unfold Poly.populatejacpoly. rewrite Hsz.
  pose proof (Poly_wf_setderivcoeffs other d _ Hwf1) as Hwf1'.
  destruct (evaluatejacpoly_wf other d _ Hwf1' (setderivcoeffs_idem other s1))
    as (J & HJ & HlJ).
  cbv zeta. rewrite HJ. cbn [obind].
  assert (Hxr : length (Poly.xr (Poly.setderivcoeffs other s1)) = length (Poly.x s)).
  { rewrite setderivcoeffs_Polynomial by apply Hwf1.
    rewrite E1. unfold Poly.rescalexy. poly_simpl. cbn [fst snd].
    rewrite length_map. reflexivity. }
  assert (HJlen : length J = length (Poly.x s)) by (rewrite HlJ; exact Hxr).
  clear HlJ Hxr.
  unfold Poly.combinejac. poly_simpl.
  destruct (Poly.size_stack J <? 1)%nat eqn:HJsz.
  - apply Nat.ltb_lt in HJsz. unfold Poly.size_stack in HJsz.
    eexists. split; [reflexivity|].
    unfold Poly.evaluatejacpoly in HJ |- *.
    rewrite E1 in HJ |- *.
    unfold Poly_wf, Poly.rescalexy in *.
    poly_simpl. cbn [fst snd] in *.
    split.
    { repeat (split; [solve [auto]|]). rewrite !length_map. auto. }
    repeat (split; [reflexivity|]).
    split; [exact HJ|]. split; [exact HJlen|].
    split; [|reflexivity].
    intros Hne. exfalso. destruct (Poly.x s); [congruence|].
    cbn [length] in HJlen. lia.
  - apply Nat.ltb_ge in HJsz. unfold Poly.size_stack in HJsz.
    eexists. split; [reflexivity|].
    unfold Poly.evaluatejacpoly in HJ |- *.
    rewrite E1 in HJ |- *.
    unfold Poly_wf, Poly.rescalexy in *.
    poly_simpl. cbn [fst snd] in *.
    split.
    { repeat (split; [solve [auto]|]). rewrite !length_map. auto. }
    repeat (split; [reflexivity|]).
    split; [exact HJ|]. split; [exact HJlen|].
    split; [reflexivity|].
    intros He. exfalso. rewrite He in HJlen. cbn [length] in HJlen. lia.
Qed.

Lemma updatedata_fields vx vy vcov st :
  let s := Poly.updatedata vx vy vcov st in
  Poly.x s = vx /\ Poly.y s = vy /\ Poly.kind s = Poly.kind st /\
  Poly.pars2x s = Poly.pars2x st /\ Poly.pars2y s = Poly.pars2y st /\
  Poly.xmin s = Poly.xmin st /\ Poly.xmax s = Poly.xmax st /\
  Poly.ymin s = Poly.ymin st /\ Poly.ymax s = Poly.ymax st /\
  Poly.jacpoly s = Poly.jacpoly st /\ Poly.jac s = Poly.jac st /\
  (vcov <> [] -> length vcov = length vx -> Poly.covxy s = vcov) /\
  (length vcov <> length vx -> Poly.covxy s = Poly.covxy st) /\
  (vcov = [] -> Poly.covxy s = Poly.covxy st).
Proof.
  cbv zeta. unfold Poly.updatedata.
  destruct vcov as [|c0 cs].
  - poly_simpl. repeat split; intros; first [reflexivity|congruence].
  - destruct (length vx =? length (c0 :: cs))%nat eqn:E.
    + apply Nat.eqb_eq in E. poly_simpl.
      repeat split; intros; first [reflexivity|congruence].
    + apply Nat.eqb_neq in E. poly_simpl.
      repeat split; intros; first [reflexivity|congruence].
Qed.

Lemma populatejacpoly_covxy other st st' :
  Poly.populatejacpoly other st = Done st' -> Poly.covxy st' = Poly.covxy st.
Proof.
  unfold Poly.populatejacpoly.
  destruct (_ <? _)%nat; [intros H; injection H as <-; reflexivity|].
  cbv zeta. destruct (Poly.evaluatejacpoly _ _ _ _); [|discriminate].
  intros H; injection H as <-. reflexivity.
Qed.

Lemma updatejacobian_covxy other s s' :
  Poly.updatejacobian other s = Done s' -> Poly.covxy s' = Poly.covxy s.
Proof.
  unfold Poly.updatejacobian, Poly.getjacobian. cbv zeta.
  set (s1 := Poly.setjacrescale (Poly.rescalepos s)).
  assert (H1 : Poly.covxy s1 = Poly.covxy s) by reflexivity.
  set (s2 := if (Poly.size_stack (Poly.jacpoly s1) <? 2)%nat
             then Poly.initjacpoly s1 else s1).
  assert (H2 : Poly.covxy s2 = Poly.covxy s1).
  { unfold s2, Poly.initjacpoly.
    destruct (_ <? 2)%nat; [|reflexivity].
    destruct (_ <? 1)%nat; reflexivity. }
  destruct (Poly.populatejacpoly other s2) as [s3|e s3] eqn:E3; cbn [obind];
    [|discriminate].
  apply populatejacpoly_covxy in E3.
  intros H; injection H as <-.
  unfold Poly.combinejac. destruct (_ <? 1)%nat; poly_simpl; congruence.
Qed.

(** X16: [ingestdata] on a Polynomial-basis instance takes the new
    positions on the old domain: the limits stay as they were, the new
    positions are rescaled with them, and for N >= 1 paired positions the
    polynomial Jacobian is evaluated there and combined, N planes each.
    The covariances are replaced only by a stack with one plane per
    position. With no positions the polynomial Jacobian becomes empty and
    the combined Jacobian of the earlier data is left in place. *)
Theorem ingestdata_keeps_domain other d st vx vy vcov :
  Poly_wf d st -> length vx = length vy ->
  exists st',
    Poly.ingestdata other vx vy vcov st = Done st' /\ Poly_wf d st' /\
    Poly.x st' = vx /\ Poly.y st' = vy /\
    Poly.xmin st' = Poly.xmin st /\ Poly.xmax st' = Poly.xmax st /\
    Poly.ymin st' = Poly.ymin st /\ Poly.ymax st' = Poly.ymax st /\
    (Poly.xr st', Poly.yr st') = Poly.rescalexy st vx vy /\
    (vcov <> [] -> length vcov = length vx -> Poly.covxy st' = vcov) /\
    (length vcov <> length vx -> Poly.covxy st' = Poly.covxy st) /\
    (vx <> [] ->
     Poly.evaluatejacpoly other st' (Poly.xr st') (Poly.yr st') = Ok (Poly.jacpoly st') /\
     length (Poly.jacpoly st') = length vx /\
     Poly.jac st' = map (mat2_mul (Poly.jacrescale st')) (Poly.jacpoly st')) /\
    (vx = [] -> Poly.jacpoly st' = [] /\ Poly.jac st' = Poly.jac st).
Proof.
  intros (Hk & Hwx & Hwy & Hxy & Hr) Hlen.
  unfold Poly.ingestdata.
  destruct (updatedata_fields vx vy vcov st)
    as (Hx & Hy & Hk' & Hpx & Hpy & Hxmin & Hxmax & Hymin & Hymax & Hjp & Hj
        & Hc1 & Hc2 & Hc3).
  set (s := Poly.updatedata vx vy vcov st) in *.
  assert (Hres : Poly.rescalexy s vx vy = Poly.rescalexy st vx vy).
  { unfold Poly.rescalexy. rewrite Hxmin, Hxmax, Hymin, Hymax. reflexivity. }
  destruct (Poly.jacpoly s) as [|J0 Js] eqn:Ejp.
  - destruct (updatejacobian_fresh other d s)
      as (s' & Hs' & Hwf' & Hx' & Hy' & _ & _ & _ & _ & Hxmin' & Hxmax' & Hymin'
          & Hymax' & _ & Hxr' & Hfresh); try congruence.
    exists s'. split; [exact Hs'|]. split; [exact Hwf'|].
    split; [congruence|]. split; [congruence|].
    split; [congruence|]. split; [congruence|].
    split; [congruence|]. split; [congruence|].
    split; [rewrite Hxr', Hx, Hy; exact Hres|].
    pose proof (updatejacobian_covxy _ _ _ Hs') as Hcov.
    split; [intros; rewrite Hcov; auto|].
    split; [intros; rewrite Hcov; auto|].
    split.
    + intros Hne. destruct Hfresh as (_ & He & Hl & Hjac); [congruence|].
      split; [exact He|]. split; [congruence|exact Hjac].
    + intros He.
      destruct (updatejacobian_no_data other s) as (s2 & Hs2 & Hjp2 & Hj2 & _);
        [congruence| |exact Ejp|].
      { rewrite Hy. destruct vy; [reflexivity|]. rewrite He in Hlen. discriminate. }
      rewrite Hs' in Hs2. injection Hs2 as <-. split; [exact Hjp2|congruence].
  - destruct (updatejacobian_again other d s)
      as (s' & Hs' & Hwf' & Hx' & Hy' & Hcov & _ & _ & Hxmin' & Hxmax' & Hymin'
          & Hymax' & Hxr' & He & Hl & Hjne & Hje); try congruence.
    exists s'. split; [exact Hs'|]. split; [exact Hwf'|].
    split; [congruence|]. split; [congruence|].
    split; [congruence|]. split; [congruence|].
    split; [congruence|]. split; [congruence|].
    split; [rewrite Hxr', Hx, Hy; exact Hres|].
    split; [intros; rewrite Hcov; auto|].
    split; [intros; rewrite Hcov; auto|].
    split.
    + intros Hne. split; [exact He|]. split; [congruence|]. apply Hjne. congruence.
    + intros Hnil. split.
      * rewrite Hx, Hnil in Hl. destruct (Poly.jacpoly s'); [reflexivity|discriminate].
      * rewrite Hje by congruence. exact Hj.
Qed.

Lemma ingestdata_keeps_domain_witness :
  exists st',
    Poly.ingestdata polynomial_only [5; 7] [1; 2] [] (example_poly polynomial_only)
      = Done st' /\
    Poly.xmin st' = Poly.xmin (example_poly polynomial_only) /\
    length (Poly.jacpoly st') = 2%nat.
Proof.
  destruct (ingestdata_keeps_domain polynomial_only 1 (example_poly polynomial_only)
              [5; 7] [1; 2] [] (example_poly_wf polynomial_only) eq_refl)
    as (st' & H & _ & _ & _ & Hxmin & _ & _ & _ & _ & _ & _ & Hne & _).
  exists st'. split; [exact H|]. split; [exact Hxmin|].
  destruct Hne as (_ & Hl & _); [discriminate|exact Hl].
Defined.

(** ** Derivatives: rules in the form the proofs use *)

Lemma D_ext (f g : R -> R) x l :
  (forall t, f t = g t) -> derivable_pt_lim f x l -> derivable_pt_lim g x l.
Proof.
  intros H Hf eps Heps. destruct (Hf eps Heps) as [delta Hd].
  exists delta. intros h Hh Hlt. rewrite <- !H. apply Hd; assumption.
Qed.

Lemma D_const c x : derivable_pt_lim (fun _ => c) x 0.
Proof. exact (derivable_pt_lim_const c x). Qed.

Lemma D_id x : derivable_pt_lim (fun t => t) x 1.
Proof. exact (derivable_pt_lim_id x). Qed.

Lemma D_plus f g x a b :
  derivable_pt_lim f x a -> derivable_pt_lim g x b ->
  derivable_pt_lim (fun t => f t + g t) x (a + b).
Proof. exact (derivable_pt_lim_plus f g x a b). Qed.

Lemma D_minus f g x a b :
  derivable_pt_lim f x a -> derivable_pt_lim g x b ->
  derivable_pt_lim (fun t => f t - g t) x (a - b).
Proof. exact (derivable_pt_lim_minus f g x a b). Qed.

Lemma D_mult f g x a b :
  derivable_pt_lim f x a -> derivable_pt_lim g x b ->
  derivable_pt_lim (fun t => f t * g t) x (a * g x + f x * b).
Proof. exact (derivable_pt_lim_mult f g x a b). Qed.

Lemma D_comp f g x a b :
  derivable_pt_lim g x a -> derivable_pt_lim f (g x) b ->
  derivable_pt_lim (fun t => f (g t)) x (b * a).
Proof. exact (derivable_pt_lim_comp g f x a b). Qed.

Lemma D_eq f x a b : a = b -> derivable_pt_lim f x a -> derivable_pt_lim f x b.
Proof. intros ->. intros H. exact H. Qed.

(** ** Derivatives of numpy's polynomials *)

Lemma polyval_map_scale y k v : polyval y (map (fun a => k * a) v) = k * polyval y v.
Proof.
  induction v as [|a v IH]; [unfold polyval; simpl; lra|].
  cbn [map]. rewrite !polyval_cons, IH. ring.
Qed.

Lemma polyval_map_zero y v : polyval y (map (fun a => a * 0) v) = 0.
Proof.
  induction v as [|a v IH]; [reflexivity|].
  cbn [map]. rewrite !polyval_cons, IH. ring.
Qed.

Lemma polyval_imap_shift y c : forall n,
  polyval y (imap (fun k v => INR (k + S n) * v) c) =
  polyval y (imap (fun k v => INR (k + n) * v) c) + polyval y c.
Proof.
  induction c as [|a c IH]; intros n.
  - unfold polyval. simpl. lra.
  - cbn [imap]. rewrite !polyval_cons.
    rewrite (imap_ext _ (fun k v => INR (k + S (S n)) * v) c)
      by (intros; unfold compose; do 2 f_equal; lia).
    rewrite (imap_ext (_ ∘ S) (fun k v => INR (k + S n) * v) c)
      by (intros; unfold compose; do 2 f_equal; lia).
    rewrite IH. cbn [Nat.add]. rewrite S_INR. ring.
Qed.

Lemma polyval_imap_zero y c :
  polyval y (imap (fun k v => INR (k + 0) * v) c) =
  polyval y (imap (fun k v => INR (k + 1) * v) (drop 1 c)) * y.
Proof.
  destruct c as [|a c]; [unfold polyval; simpl; lra|].
  cbn [imap drop]. rewrite polyval_cons.
  rewrite (imap_ext (_ ∘ S) (fun k v => INR (k + 1) * v) c)
    by (intros; unfold compose; do 2 f_equal; lia).
  rewrite drop_0. cbn [Nat.add INR]. ring.
Qed.

Lemma polyval_polyder1 y c :
  polyval y (polyder1 c) = polyval y (imap (fun k v => INR (k + 1) * v) (drop 1 c)).
Proof.
  unfold polyder1. destruct (length c <=? 1)%nat eqn:E; [|reflexivity].
  apply Nat.leb_le in E. destruct c as [|a [|b c]]; cbn [length] in E; try lia.
  - reflexivity.
  - unfold polyval. simpl. ring.
Qed.

(** [polyder] gives the derivative of [polyval]. *)
Lemma polyval_derivative c : forall y,
  derivable_pt_lim (fun t => polyval t c) y (polyval y (polyder1 c)).
Proof.
  induction c as [|a c IH]; intros y.
  - apply (D_ext (fun _ => 0)); [reflexivity|].
    apply (D_eq _ _ 0); [reflexivity|apply D_const].
  - rewrite polyval_polyder1. cbn [drop]. rewrite drop_0.
    apply (D_ext (fun t => a + polyval t c * t)); [intros; reflexivity|].
    apply (D_eq _ _ (0 + (polyval y (polyder1 c) * y + polyval y c * 1))).
    + rewrite polyval_polyder1, (polyval_imap_shift y c 0), polyval_imap_zero. ring.
    + apply D_plus; [apply D_const|].
      apply (D_mult (fun t => polyval t c) (fun t => t)); [apply IH|apply D_id].
Qed.

(** Horner's rule over the rows of a 2-D array. *)
Lemma horner_fold x y m (c : arr2d) (base : vec) :
  Forall (fun row => length row = m) c -> length base = m ->
  let h := fold_right (fun row acc => zip_with (fun a b => a + b * x) row acc) base c in
  length h = m /\
  polyval y h = polyval x (map (polyval y) c) + x ^ length c * polyval y base.
Proof.
  intros Hc Hb. cbv zeta. induction c as [|row c IH].
  - unfold polyval at 2. simpl. split; [exact Hb|]. lra.
  - apply Forall_cons in Hc as [Hrow Hc]. destruct (IH Hc) as [Hl Hp].
    cbn [fold_right]. split.
    + rewrite length_zip_with, Hl, Hrow. lia.
    + rewrite polyval_zip by (rewrite Hl; exact Hrow). rewrite Hp.
      cbn [map length pow]. rewrite polyval_cons. ring.
Qed.

Lemma polyval2d1_rows x y m (c : arr2d) :
  Forall (fun row => length row = m) c ->
  polyval2d1 x y c = polyval x (map (polyval y) c).
Proof.
  intros Hc. unfold polyval2d1, horner_rows.
  destruct c as [|row c].
  - reflexivity.
  - assert (Hn : length (replicate (ncols (row :: c)) 0) = m).
    { rewrite length_replicate. cbn [ncols].
      apply Forall_cons in Hc as [Hrow _]. exact Hrow. }
    destruct (horner_fold x y m (row :: c) _ Hc Hn) as [_ ->].
    rewrite polyval_zeros. ring.
Qed.

Lemma polyval_rows_derivative_y x (c : arr2d) : forall y,
  derivable_pt_lim (fun t => polyval x (map (polyval t) c)) y
    (polyval x (map (fun row => polyval y (polyder1 row)) c)).
Proof.
  induction c as [|row c IH]; intros y.
  - exact (D_const 0 y).
  - cbn [map].
    apply (D_ext (fun t => polyval t row + polyval x (map (polyval t) c) * x));
      [intros; reflexivity|].
    rewrite polyval_cons.
    apply (D_eq _ _ (polyval y (polyder1 row)
                     + (polyval x (map (fun row => polyval y (polyder1 row)) c) * x
                        + polyval x (map (polyval y) c) * 0))); [ring|].
    apply D_plus; [apply polyval_derivative|].
    apply (D_mult (fun t => polyval x (map (polyval t) c)) (fun _ => x));
      [apply IH|apply D_const].
Qed.

Lemma Forall_length_pad_col m (c : arr2d) :
  Forall (fun row => length row = m) c ->
  Forall (fun row => length row = length (polyder1 (replicate m 0) ++ [0]))
         (pad_col (polyder_axis1 c)).
Proof.
  intros Hc. unfold pad_col, polyder_axis1. rewrite map_map.
  apply List.Forall_forall. intros r Hr. apply in_map_iff in Hr as (row & <- & Hin).
  rewrite List.Forall_forall in Hc. specialize (Hc row Hin).
  rewrite !length_app. f_equal. unfold polyder1.
  rewrite length_replicate, Hc.
  destruct (m <=? 1)%nat.
  - rewrite !length_map, !length_take, length_replicate, Hc. reflexivity.
  - rewrite !length_imap, !length_drop, length_replicate, Hc. reflexivity.
Qed.

(** The padded [polyder(c, axis=1)] evaluates to the derivative in y. *)
Lemma polyval2d1_derivative_y x y m (c : arr2d) :
  Forall (fun row => length row = m) c ->
  derivable_pt_lim (fun t => polyval2d1 x t c) y
    (polyval2d1 x y (pad_col (polyder_axis1 c))).
Proof.
  intros Hc.
  apply (D_ext (fun t => polyval x (map (polyval t) c)));
    [intros; symmetry; apply (polyval2d1_rows _ _ m); exact Hc|].
  rewrite (polyval2d1_rows _ _ _ _ (Forall_length_pad_col m c Hc)).
  unfold pad_col, polyder_axis1. rewrite !map_map.
  rewrite (map_ext (fun row => polyval y (polyder1 row ++ [0]))
                   (fun row => polyval y (polyder1 row)))
    by (intros; apply (polyval_app_zeros y _ 1)).
  apply polyval_rows_derivative_y.
Qed.

Lemma imap_map_polyval y (c : arr2d) : forall n,
  map (polyval y) (imap (fun k row => map (fun v => INR (k + n) * v) row) c) =
  imap (fun k v => INR (k + n) * v) (map (polyval y) c).
Proof.
  induction c as [|row c IH]; intros n; [reflexivity|].
  cbn [imap map]. rewrite polyval_map_scale. f_equal.
  rewrite (imap_ext (_ ∘ S) (fun k row => map (fun v => INR (k + S n) * v) row) c).
  2:{ intros. unfold compose. apply map_ext. intros. do 2 f_equal. lia. }
  rewrite (imap_ext (_ ∘ S) (fun k v => INR (k + S n) * v) (map (polyval y) c)).
  2:{ intros. unfold compose. do 2 f_equal. lia. }
  apply IH.
Qed.

Lemma polyval_polyder_axis0 x y (c : arr2d) :
  polyval x (map (polyval y) (polyder_axis0 c)) =
  polyval x (polyder1 (map (polyval y) c)).
Proof.
  unfold polyder_axis0, polyder1. rewrite length_map.
  destruct (length c <=? 1)%nat eqn:E.
  - apply Nat.leb_le in E. destruct c as [|r [|r' c]]; cbn [length] in E; try lia.
    + reflexivity.
    + cbn [take map]. rewrite polyval_map_zero. unfold polyval. simpl. ring.
  - rewrite (imap_map_polyval y (drop 1 c) 1). destruct c; reflexivity.
Qed.

Lemma Forall_imap {A B : Type} (P : A -> Prop) (Q : B -> Prop) (l : list A) :
  forall (f : nat -> A -> B),
  Forall P l -> (forall k a, P a -> Q (f k a)) -> Forall Q (imap f l).
Proof.
  induction l as [|a l IH]; intros f Hl Hf; [constructor|].
  apply Forall_cons in Hl as [Ha Hl]. cbn [imap].
  apply Forall_cons. split; [apply Hf; exact Ha|].
  apply IH; [exact Hl|]. intros k b Hb. apply Hf. exact Hb.
Qed.

Lemma Forall_length_pad_row m (c : arr2d) :
  Forall (fun row => length row = m) c -> c <> [] ->
  Forall (fun row => length row = m) (pad_row (polyder_axis0 c)).
Proof.
  intros Hc Hne. unfold pad_row.
  assert (Hd : Forall (fun row => length row = m) (polyder_axis0 c)).
  { unfold polyder_axis0. destruct (length c <=? 1)%nat.
    - apply List.Forall_map.
      apply (Forall_impl (fun row => length row = m)); [apply Forall_take; exact Hc|].
      intros row Hrow. rewrite length_map. exact Hrow.
    - apply (Forall_imap (fun row => length row = m)).
      + apply Forall_drop. exact Hc.
      + intros k row Hrow. rewrite length_map. exact Hrow. }
  apply Forall_app. split; [exact Hd|].
  apply Forall_cons. split; [|constructor].
  rewrite length_replicate.
  assert (Hne' : polyder_axis0 c <> []).
  { unfold polyder_axis0. destruct (length c <=? 1)%nat eqn:E.
    - destruct c; [congruence|]. discriminate.
    - apply Nat.leb_gt in E. destruct c as [|r [|r' c]]; cbn [length] in E; try lia.
      discriminate. }
  destruct (polyder_axis0 c) as [|r0 rest]; [congruence|].
  apply Forall_cons in Hd as [H0 _]. exact H0.
Qed.

(** The padded [polyder(c, axis=0)] evaluates to the derivative in x. *)
Lemma polyval2d1_derivative_x x y m (c : arr2d) :
  Forall (fun row => length row = m) c -> c <> [] ->
  derivable_pt_lim (fun t => polyval2d1 t y c) x
    (polyval2d1 x y (pad_row (polyder_axis0 c))).
Proof.
  intros Hc Hne.
  apply (D_ext (fun t => polyval t (map (polyval y) c)));
    [intros; symmetry; apply (polyval2d1_rows _ _ m); exact Hc|].
  rewrite (polyval2d1_rows _ _ _ _ (Forall_length_pad_row m c Hc Hne)).
  unfold pad_row. rewrite map_app. cbn [map]. rewrite polyval_zeros.
  rewrite (polyval_app_zeros x _ 1), polyval_polyder_axis0.
  apply polyval_derivative.
Qed.

(** ** Poly: the polynomial Jacobian *)

Lemma stack4_lookup (a b c e : vec) n J :
  stack4 a b c e !! n = Some J ->
  exists va vb vc ve,
    a !! n = Some va /\ b !! n = Some vb /\ c !! n = Some vc /\ e !! n = Some ve /\
    J = M2 va vb vc ve.
Proof.
  unfold stack4. intros H.
  apply lookup_zip_with_Some in H as (ab & cd & -> & Hab & Hcd).
  apply lookup_zip_with_Some in Hab as (va & vb & -> & Ha & Hb).
  apply lookup_zip_with_Some in Hcd as (vc & ve & -> & Hc & He).
  exists va, vb, vc, ve. repeat split; assumption.
Qed.

Lemma polyval2d_lookup xs ys c zs n z :
  polyval2d xs ys c = Ok zs -> zs !! n = Some z ->
  exists x y, xs !! n = Some x /\ ys !! n = Some y /\ z = polyval2d1 x y c.
Proof.
  unfold polyval2d. destruct (negb _); [discriminate|].
  destruct (_ || _); [discriminate|].
  intros H; injection H as <-. intros Hz.
  apply lookup_zip_with_Some in Hz as (x & y & -> & Hx & Hy).
  exists x, y. repeat split; assumption.
Qed.

(** The planes of [evaluatejacpoly], after [setderivcoeffs], hold the
    partial derivatives of the two polynomials at each position. *)
Lemma evaluatejacpoly_partials other d st vxr vyr J n u v Jn :
  Poly_wf d st ->
  Poly.evaluatejacpoly other (Poly.setderivcoeffs other st) vxr vyr = Ok J ->
  vxr !! n = Some u -> vyr !! n = Some v -> J !! n = Some Jn ->
  derivable_pt_lim (fun t => polyval2d1 t v (Polycoeffs.p2d (Poly.pars2x st))) u (m00 Jn) /\
  derivable_pt_lim (fun t => polyval2d1 u t (Polycoeffs.p2d (Poly.pars2x st))) v (m01 Jn) /\
  derivable_pt_lim (fun t => polyval2d1 t v (Polycoeffs.p2d (Poly.pars2y st))) u (m10 Jn) /\
  derivable_pt_lim (fun t => polyval2d1 u t (Polycoeffs.p2d (Poly.pars2y st))) v (m11 Jn).
Proof.
  intros (Hk & Hwx & Hwy & _ & _) HJ Hu Hv HJn.
  destruct Hwx as (_ & _ & _ & Hlx & Hrx). destruct Hwy as (_ & _ & _ & Hly & Hry).
  rewrite setderivcoeffs_Polynomial in HJ by exact Hk.
  unfold Poly.evaluatejacpoly, Poly.methval2d, Poly.methlist in HJ.
  cbn [Poly.kind Poly.cxx Poly.cxy Poly.cyx Poly.cyy Poly.set_derivs] in HJ.
  rewrite Hk in HJ. cbn [val2d numpy_polynomial] in HJ.
  destruct (_ || _) in HJ.
  { injection HJ as <-. rewrite lookup_nil in HJn. discriminate. }
  destruct (polyval2d vxr vyr (pad_row _)) as [j00|] eqn:E00; [|discriminate].
  cbn [rbind] in HJ.
  destruct (polyval2d vxr vyr (pad_col _)) as [j01|] eqn:E01; [|discriminate].
  cbn [rbind] in HJ.
  destruct (polyval2d vxr vyr (pad_row _)) as [j10|] eqn:E10 in HJ; [|discriminate].
  cbn [rbind] in HJ.
  destruct (polyval2d vxr vyr (pad_col _)) as [j11|] eqn:E11 in HJ; [|discriminate].
  cbn [rbind] in HJ. injection HJ as <-.
  apply stack4_lookup in HJn as (va & vb & vc & ve & Ha & Hb & Hc & He & ->).
  cbn [m00 m01 m10 m11].
  destruct (polyval2d_lookup _ _ _ _ _ _ E00 Ha) as (x0 & y0 & Hx0 & Hy0 & ->).
  destruct (polyval2d_lookup _ _ _ _ _ _ E01 Hb) as (x1 & y1 & Hx1 & Hy1 & ->).
  destruct (polyval2d_lookup _ _ _ _ _ _ E10 Hc) as (x2 & y2 & Hx2 & Hy2 & ->).
  destruct (polyval2d_lookup _ _ _ _ _ _ E11 He) as (x3 & y3 & Hx3 & Hy3 & ->).
  assert (x0 = u) by congruence. assert (y0 = v) by congruence.
  assert (x1 = u) by congruence. assert (y1 = v) by congruence.
  assert (x2 = u) by congruence. assert (y2 = v) by congruence.
  assert (x3 = u) by congruence. assert (y3 = v) by congruence.
  subst.
  assert (Hnx : Polycoeffs.p2d (Poly.pars2x st) <> []).
  { intros E. rewrite E in Hlx. cbn [length] in Hlx. lia. }
  assert (Hny : Polycoeffs.p2d (Poly.pars2y st) <> []).
  { intros E. rewrite E in Hly. cbn [length] in Hly. lia. }
  split; [apply (polyval2d1_derivative_x _ _ (d + 1)); assumption|].
  split; [apply (polyval2d1_derivative_y _ _ (d + 1)); assumption|].
  split; [apply (polyval2d1_derivative_x _ _ (d + 1)); assumption|].
  apply (polyval2d1_derivative_y _ _ (d + 1)); assumption.
Qed.

(** X17: on a Polynomial-basis instance, [evaluatejacpoly] after
    [setderivcoeffs] returns one plane per position, and its four entries
    are the partial derivatives of the two polynomials of [pars2x] and
    [pars2y] with respect to the rescaled coordinates at that position. *)
Theorem jacpoly_partial_derivatives other d st vxr vyr :
  Poly_wf d st -> length vxr = length vyr ->
  exists J,
    Poly.evaluatejacpoly other (Poly.setderivcoeffs other st) vxr vyr = Ok J /\
    length J = length vxr /\
    forall n u v Jn,
      vxr !! n = Some u -> vyr !! n = Some v -> J !! n = Some Jn ->
      derivable_pt_lim (fun t => polyval2d1 t v (Polycoeffs.p2d (Poly.pars2x st)))
                       u (m00 Jn) /\
      derivable_pt_lim (fun t => polyval2d1 u t (Polycoeffs.p2d (Poly.pars2x st)))
                       v (m01 Jn) /\
      derivable_pt_lim (fun t => polyval2d1 t v (Polycoeffs.p2d (Poly.pars2y st)))
                       u (m10 Jn) /\
      derivable_pt_lim (fun t => polyval2d1 u t (Polycoeffs.p2d (Poly.pars2y st)))
                       v (m11 Jn).
Proof.
  intros Hwf Hlen.
  destruct (evaluatejacpoly_wf_at other d (Poly.setderivcoeffs other st) vxr vyr)
    as (J & HJ & HlJ).
  - apply Poly_wf_setderivcoeffs. exact Hwf.
  - apply setderivcoeffs_idem.
  - exact Hlen.
  - exists J. split; [exact HJ|]. split; [exact HlJ|].
    intros n u v Jn Hu Hv HJn.
    exact (evaluatejacpoly_partials other d st vxr vyr J n u v Jn Hwf HJ Hu Hv HJn).
Qed.

Lemma jacpoly_partial_derivatives_witness :
  exists J,
    Poly.evaluatejacpoly polynomial_only
      (Poly.setderivcoeffs polynomial_only (example_poly polynomial_only)) [0] [0] = Ok J /\
    length J = 1%nat.
Proof.
  destruct (jacpoly_partial_derivatives polynomial_only 1 (example_poly polynomial_only)
              [0] [0] (example_poly_wf polynomial_only) eq_refl) as (J & HJ & Hl & _).
  exists J. split; [exact HJ|exact Hl].
Defined.

(** ** Poly: the combined Jacobian and the derivatives of [propxy] *)

Lemma D_rescale s w x : derivable_pt_lim (fun t => (2 * t - s) / w) x (2 / w).
Proof.
  apply (D_ext (fun t => (2 * t - s) * / w)); [intros; reflexivity|].
  apply (D_eq _ _ ((2 * 1 + 0 * x - 0) * / w + (2 * x - s) * 0));
    [unfold Rdiv; ring|].
  apply (D_mult (fun t => 2 * t - s) (fun _ => / w)); [|apply D_const].
  apply (D_minus (fun t => 2 * t) (fun _ => s)); [|apply D_const].
  apply (D_eq _ _ (0 * x + 2 * 1)); [ring|].
  apply (D_mult (fun _ => 2) (fun t => t)); [apply D_const|apply D_id].
Qed.

Lemma propxy_at other d st x y :
  Poly_wf d st ->
  Poly.propxy other st [x] [y] =
  Ok ([polyval2d1 ((2 * x - (Poly.xmax st + Poly.xmin st)) / (Poly.xmax st - Poly.xmin st))
                  ((2 * y - (Poly.ymax st + Poly.ymin st)) / (Poly.ymax st - Poly.ymin st))
                  (Polycoeffs.p2d (Poly.pars2x st))],
      [polyval2d1 ((2 * x - (Poly.xmax st + Poly.xmin st)) / (Poly.xmax st - Poly.xmin st))
                  ((2 * y - (Poly.ymax st + Poly.ymin st)) / (Poly.ymax st - Poly.ymin st))
                  (Polycoeffs.p2d (Poly.pars2y st))]).
Proof.
  intros (Hk & Hwx & Hwy & _ & _).
  destruct Hwx as (_ & _ & _ & Hlx & Hrx). destruct Hwy as (_ & _ & _ & Hly & Hry).
  unfold Poly.propxy, Poly.rescalexy, Poly.methval2d, Poly.methlist.
  rewrite Hk. cbn [length Nat.ltb Nat.leb orb map val2d numpy_polynomial].
  assert (Hc : forall c : arr2d, length c = (d + 1)%nat ->
               Forall (fun row => length row = (d + 1)%nat) c ->
               nrows c <> 0%nat /\ ncols c <> 0%nat).
  { intros c Hl Hr. unfold nrows, ncols. split; [lia|].
    destruct c as [|r c]; [cbn [length] in Hl; lia|].
    apply Forall_cons in Hr as [H0 _]. lia. }
  destruct (Hc _ Hlx Hrx) as [Hx1 Hx2]. destruct (Hc _ Hly Hry) as [Hy1 Hy2].
  rewrite !polyval2d_Ok by (try reflexivity; assumption).
  reflexivity.
Qed.

Lemma propxy_x_at other d st x y :
  Poly_wf d st ->
  propxy_x other st x y =
  polyval2d1 ((2 * x - (Poly.xmax st + Poly.xmin st)) / (Poly.xmax st - Poly.xmin st))
             ((2 * y - (Poly.ymax st + Poly.ymin st)) / (Poly.ymax st - Poly.ymin st))
             (Polycoeffs.p2d (Poly.pars2x st)).
Proof. intros H. unfold propxy_x. rewrite (propxy_at other d) by exact H. reflexivity. Qed.

Lemma propxy_y_at other d st x y :
  Poly_wf d st ->
  propxy_y other st x y =
  polyval2d1 ((2 * x - (Poly.xmax st + Poly.xmin st)) / (Poly.xmax st - Poly.xmin st))
             ((2 * y - (Poly.ymax st + Poly.ymin st)) / (Poly.ymax st - Poly.ymin st))
             (Polycoeffs.p2d (Poly.pars2y st)).
Proof. intros H. unfold propxy_y. rewrite (propxy_at other d) by exact H. reflexivity. Qed.

(** The planes of a freshly combined Jacobian against the derivatives of
    [propxy]. *)
Lemma Poly_jac_partials other d st n x y Jn :
  Poly_wf d st ->
  Poly.setderivcoeffs other st = st ->
  Poly.evaluatejacpoly other st (Poly.xr st) (Poly.yr st) = Ok (Poly.jacpoly st) ->
  Poly.jac st = map (mat2_mul (Poly.jacrescale st)) (Poly.jacpoly st) ->
  Poly.jacrescale st =
    M2 (2 / (Poly.xmax st - Poly.xmin st)) 0 0 (2 / (Poly.ymax st - Poly.ymin st)) ->
  (Poly.xr st, Poly.yr st) = Poly.rescalexy st (Poly.x st) (Poly.y st) ->
  Poly.x st !! n = Some x -> Poly.y st !! n = Some y -> Poly.jac st !! n = Some Jn ->
  derivable_pt_lim (fun t => propxy_x other st t y) x (m00 Jn) /\
  derivable_pt_lim (fun t => propxy_y other st x t) y (m11 Jn) /\
  (Poly.xmax st - Poly.xmin st = Poly.ymax st - Poly.ymin st ->
   derivable_pt_lim (fun t => propxy_x other st x t) y (m01 Jn) /\
   derivable_pt_lim (fun t => propxy_y other st t y) x (m10 Jn)).
Proof.
  intros Hwf Hidem Hev Hjac Hresc Hxr Hxn Hyn HJn.
  rewrite Hjac in HJn.
  apply list_lookup_fmap_Some in HJn as (Pn & -> & HPn).
  unfold Poly.rescalexy in Hxr. injection Hxr as Hxr Hyr.
  set (wx := Poly.xmax st - Poly.xmin st) in *.
  set (wy := Poly.ymax st - Poly.ymin st) in *.
  set (sx := Poly.xmax st + Poly.xmin st) in *.
  set (sy := Poly.ymax st + Poly.ymin st) in *.
  assert (Hu : Poly.xr st !! n = Some ((2 * x - sx) / wx)).
  { rewrite Hxr. apply list_lookup_fmap_Some. exists x. split; [reflexivity|exact Hxn]. }
  assert (Hv : Poly.yr st !! n = Some ((2 * y - sy) / wy)).
  { rewrite Hyr. apply list_lookup_fmap_Some. exists y. split; [reflexivity|exact Hyn]. }
  rewrite <- Hidem in Hev.
  destruct (evaluatejacpoly_partials other d st _ _ _ n _ _ Pn Hwf Hev Hu Hv HPn)
    as (D00 & D01 & D10 & D11).
  rewrite Hresc. cbn [mat2_mul m00 m01 m10 m11].
  fold wx wy.
  split; [|split].
  - apply (D_ext (fun t => polyval2d1 ((2 * t - sx) / wx) ((2 * y - sy) / wy)
                             (Polycoeffs.p2d (Poly.pars2x st))));
      [intros; symmetry; apply (propxy_x_at other d); exact Hwf|].
    apply (D_eq _ _ (m00 Pn * (2 / wx))); [ring|].
    apply (D_comp (fun u => polyval2d1 u ((2 * y - sy) / wy)
                              (Polycoeffs.p2d (Poly.pars2x st)))
                  (fun t => (2 * t - sx) / wx));
      [apply D_rescale|exact D00].
  - apply (D_ext (fun t => polyval2d1 ((2 * x - sx) / wx) ((2 * t - sy) / wy)
                             (Polycoeffs.p2d (Poly.pars2y st))));
      [intros; symmetry; apply (propxy_y_at other d); exact Hwf|].
    apply (D_eq _ _ (m11 Pn * (2 / wy))); [ring|].
    apply (D_comp (fun u => polyval2d1 ((2 * x - sx) / wx) u
                              (Polycoeffs.p2d (Poly.pars2y st)))
                  (fun t => (2 * t - sy) / wy));
      [apply D_rescale|exact D11].
  - intros Hw. split.
    + apply (D_ext (fun t => polyval2d1 ((2 * x - sx) / wx) ((2 * t - sy) / wy)
                               (Polycoeffs.p2d (Poly.pars2x st))));
        [intros; symmetry; apply (propxy_x_at other d); exact Hwf|].
      apply (D_eq _ _ (m01 Pn * (2 / wy))); [rewrite Hw; ring|].
      apply (D_comp (fun u => polyval2d1 ((2 * x - sx) / wx) u
                                (Polycoeffs.p2d (Poly.pars2x st)))
                    (fun t => (2 * t - sy) / wy));
        [apply D_rescale|exact D01].
    + apply (D_ext (fun t => polyval2d1 ((2 * t - sx) / wx) ((2 * y - sy) / wy)
                               (Polycoeffs.p2d (Poly.pars2y st))));
        [intros; symmetry; apply (propxy_y_at other d); exact Hwf|].
      apply (D_eq _ _ (m10 Pn * (2 / wx))); [rewrite Hw; ring|].
      apply (D_comp (fun u => polyval2d1 u ((2 * y - sy) / wy)
                                (Polycoeffs.p2d (Poly.pars2y st)))
                    (fun t => (2 * t - sx) / wx));
        [apply D_rescale|exact D10].
Qed.

(** X18: for a Polynomial-basis [Poly] built on N >= 1 paired positions
    the stored Jacobian has N planes. On a non-degenerate domain its
    diagonal entries are the partial derivatives of the first output of
    [propxy] in x and of the second in y; the off-diagonal entries are the
    cross derivatives when the domain is as wide in x as in y. *)
Theorem Poly_jac_partial_derivatives other d xs ys cov px py v oxmin oxmax oymin oymax :
  xs <> [] -> length xs = length ys ->
  length px = ncoeffs d -> length py = ncoeffs d ->
  exists st,
    Poly.init other xs ys cov px py (Some Polynomial) v oxmin oxmax oymin oymax false
      = Done st /\
    length (Poly.jac st) = length xs /\
    forall n x y Jn,
      xs !! n = Some x -> ys !! n = Some y -> Poly.jac st !! n = Some Jn ->
      Poly.xmin st <> Poly.xmax st -> Poly.ymin st <> Poly.ymax st ->
      derivable_pt_lim (fun t => propxy_x other st t y) x (m00 Jn) /\
      derivable_pt_lim (fun t => propxy_y other st x t) y (m11 Jn) /\
      (Poly.xmax st - Poly.xmin st = Poly.ymax st - Poly.ymin st ->
       derivable_pt_lim (fun t => propxy_x other st x t) y (m01 Jn) /\
       derivable_pt_lim (fun t => propxy_y other st t y) x (m10 Jn)).
Proof.
  intros Hne Hlen Hpx Hpy.
  destruct (Poly_init_Polynomial other d xs ys cov px py v oxmin oxmax oymin oymax
              Hlen Hpx Hpy)
    as (st & Hst & Hwf & Hx & Hy & _ & _ & _ & _ & _ & _ & _ & _ & Hresc & Hxr & Hfresh).
  destruct (Hfresh Hne) as (Hidem & Hev & Hlj & Hjac).
  exists st. split; [exact Hst|].
  split; [rewrite Hjac, length_map; exact Hlj|].
  intros n x y Jn Hxn Hyn HJn _ _.
  apply (Poly_jac_partials other d st n x y Jn); try assumption.
  - rewrite Hx, Hy. exact Hxr.
  - rewrite Hx. exact Hxn.
  - rewrite Hy. exact Hyn.
Qed.

Lemma Poly_jac_partial_derivatives_witness :
  exists st,
    Poly.init polynomial_only [0; 1] [0; 2] [] [0; 1; 0] [0; 0; 1] (Some Polynomial) false
      None None None None false = Done st /\
    length (Poly.jac st) = 2%nat.
Proof.
  assert (Hne : [0; 1] <> ([] : vec)) by discriminate.
  destruct (Poly_jac_partial_derivatives polynomial_only 1 [0; 1] [0; 2] [] [0; 1; 0]
              [0; 0; 1] false None None None None Hne eq_refl eq_refl eq_refl)
    as (st & Hst & Hl & _).
  exists st. split; [exact Hst|exact Hl].
Defined.

(** ** Derivatives: quotients and elementary functions *)

Lemma D_div f g x a b :
  derivable_pt_lim f x a -> derivable_pt_lim g x b -> g x <> 0 ->
  derivable_pt_lim (fun t => f t / g t) x ((a * g x - b * f x) / (g x * g x)).
Proof. exact (derivable_pt_lim_div f g x a b). Qed.

Lemma D_sin g x a :
  derivable_pt_lim g x a -> derivable_pt_lim (fun t => sin (g t)) x (cos (g x) * a).
Proof. intros H. exact (D_comp sin g x a _ H (derivable_pt_lim_sin (g x))). Qed.

Lemma D_cos g x a :
  derivable_pt_lim g x a -> derivable_pt_lim (fun t => cos (g t)) x (- sin (g x) * a).
Proof. intros H. exact (D_comp cos g x a _ H (derivable_pt_lim_cos (g x))). Qed.

Lemma D_atan g x a :
  derivable_pt_lim g x a ->
  derivable_pt_lim (fun t => atan (g t)) x (/ (1 + g x ^ 2) * a).
Proof. intros H. exact (D_comp atan g x a _ H (derivable_pt_lim_atan (g x))). Qed.

Lemma D_sqrt g x a :
  derivable_pt_lim g x a -> 0 < g x ->
  derivable_pt_lim (fun t => sqrt (g t)) x (/ (2 * sqrt (g x)) * a).
Proof. intros H Hp. exact (D_comp sqrt g x a _ H (derivable_pt_lim_sqrt (g x) Hp)). Qed.

Lemma D_pow g n x a :
  derivable_pt_lim g x a ->
  derivable_pt_lim (fun t => g t ^ n) x (INR n * g x ^ pred n * a).
Proof.
  intros H. exact (D_comp (fun y => y ^ n) g x a _ H (derivable_pt_lim_pow (g x) n)).
Qed.

Lemma D_opp f x a :
  derivable_pt_lim f x a -> derivable_pt_lim (fun t => - f t) x (- a).
Proof. exact (derivable_pt_lim_opp f x a). Qed.

Ltac D_rules :=
  repeat first
    [ exact (D_id _)
    | exact (D_const _ _)
    | eapply D_minus
    | eapply D_plus
    | eapply D_opp
    | eapply D_div
    | eapply D_pow
    | eapply D_mult
    | eapply D_sin
    | eapply D_cos
    | eapply D_atan
    | eapply D_sqrt
    | eapply D_pow ].

Lemma sq_sum_pos u g : g <> 0 -> 0 < u ^ 2 + g ^ 2.
Proof. intros H. assert (0 < g * g) by nra. nra. Qed.

(** ** Tan2equ: the Jacobian and the derivatives of the map *)

Section Tan2equ_derivatives.

Variables a0 d0 xi eta : R.
Hypothesis Hgamma : cos d0 - eta * sin d0 <> 0.

Lemma Tan2equ_d_alpha_xi :
  derivable_pt_lim (fun t => fst (Tan2equ.propxy1 a0 d0 t eta)) xi
                   (m00 (Tan2equ.jac1 d0 xi eta)).
Proof.
  unfold Tan2equ.propxy1, Tan2equ.jac1. cbn [fst m00].
  eapply D_eq; cycle 1.
  - D_rules. exact Hgamma.
  - cbv beta.
    set (g := cos d0 - eta * sin d0) in *.
    pose proof (sq_sum_pos xi g Hgamma).
    field. split; [assumption|nra].
Qed.

Lemma Tan2equ_d_alpha_eta :
  derivable_pt_lim (fun t => fst (Tan2equ.propxy1 a0 d0 xi t)) eta
                   (m01 (Tan2equ.jac1 d0 xi eta)).
Proof.
  unfold Tan2equ.propxy1, Tan2equ.jac1. cbn [fst m01].
  eapply D_eq; cycle 1.
  - D_rules. exact Hgamma.
  - cbv beta.
    pose proof (sq_sum_pos xi _ Hgamma) as Hp.
    set (s := sin d0) in *. set (c := cos d0) in *.
    field. split; [|exact Hgamma]. nra.
Qed.

Lemma Tan2equ_d_delta_xi :
  derivable_pt_lim (fun t => snd (Tan2equ.propxy1 a0 d0 t eta)) xi
                   (m10 (Tan2equ.jac1 d0 xi eta)).
Proof.
  unfold Tan2equ.propxy1, Tan2equ.jac1. cbn [snd m10].
  pose proof (sq_sum_pos xi _ Hgamma) as Hp.
  eapply D_eq; cycle 1.
  - D_rules.
    + cbv beta. exact Hp.
    + cbv beta. apply Rgt_not_eq. apply sqrt_lt_R0. exact Hp.
  - cbv beta. cbn [pred INR].
    assert (HS : sqrt (xi ^ 2 + (cos d0 - eta * sin d0) ^ 2) *
                 sqrt (xi ^ 2 + (cos d0 - eta * sin d0) ^ 2) =
                 xi ^ 2 + (cos d0 - eta * sin d0) ^ 2) by (apply sqrt_sqrt; lra).
    pose proof (sqrt_lt_R0 _ Hp) as HSp.
    pose proof (sin2_cos2 d0) as Hsc. unfold Rsqr in Hsc.
    set (S := sqrt _) in *. set (s := sin d0) in *. set (c := cos d0) in *.
    clearbody S s c.
    assert (HN : S * S + (eta * c + s) * (eta * c + s) = 1 + xi ^ 2 + eta ^ 2).
    { rewrite HS. transitivity (xi ^ 2 + (s * s + c * c) * (1 + eta ^ 2)); [ring|].
      rewrite Hsc. ring. }
    assert (H1 : 1 + xi ^ 2 + eta ^ 2 <> 0) by nra.
    field_simplify_eq.
    + transitivity (- (eta * c + s) * xi * (S * S + (eta * c + s) * (eta * c + s)));
        [rewrite HN; ring|ring].
    + split; [lra|]. split; [exact H1|].
      replace (S ^ 2 + (eta * c + s) ^ 2) with (S * S + (eta * c + s) * (eta * c + s))
        by ring.
      rewrite HN. exact H1.
Qed.

Lemma Tan2equ_d_delta_eta :
  derivable_pt_lim (fun t => snd (Tan2equ.propxy1 a0 d0 xi t)) eta
                   (m11 (Tan2equ.jac1 d0 xi eta)).
Proof.
  unfold Tan2equ.propxy1, Tan2equ.jac1. cbn [snd m11].
  pose proof (sq_sum_pos xi _ Hgamma) as Hp.
  eapply D_eq; cycle 1.
  - D_rules.
    + cbv beta. exact Hp.
    + cbv beta. apply Rgt_not_eq. apply sqrt_lt_R0. exact Hp.
  - cbv beta. cbn [pred INR].
    assert (HS : sqrt (xi ^ 2 + (cos d0 - eta * sin d0) ^ 2) *
                 sqrt (xi ^ 2 + (cos d0 - eta * sin d0) ^ 2) =
                 xi ^ 2 + (cos d0 - eta * sin d0) ^ 2) by (apply sqrt_sqrt; lra).
    pose proof (sqrt_lt_R0 _ Hp) as HSp.
    pose proof (sin2_cos2 d0) as Hsc. unfold Rsqr in Hsc.
    set (S := sqrt _) in *. set (s := sin d0) in *. set (c := cos d0) in *.
    clearbody S s c.
    assert (HN : S * S + (eta * c + s) * (eta * c + s) = 1 + xi ^ 2 + eta ^ 2).
    { rewrite HS. transitivity (xi ^ 2 + (s * s + c * c) * (1 + eta ^ 2)); [ring|].
      rewrite Hsc. ring. }
    assert (H1 : 1 + xi ^ 2 + eta ^ 2 <> 0) by nra.
    field_simplify_eq.
    + assert (K1 : c * (S * S) + (eta * c + s) * (c - eta * s) * s =
                   (1 + xi ^ 2) * c - eta * s).
      { rewrite HS.
        transitivity ((1 + xi ^ 2) * c - eta * s + (c - eta * s) * (s * s + c * c - 1));
          [ring|rewrite Hsc; ring]. }
      transitivity (((1 + xi ^ 2) * c - eta * s) * (1 + xi ^ 2 + eta ^ 2));
        [rewrite <- K1; ring|rewrite <- HN; ring].
    + split; [lra|]. split; [exact H1|].
      replace (S ^ 2 + (eta * c + s) ^ 2) with (S * S + (eta * c + s) * (eta * c + s))
        by ring.
      rewrite HN. exact H1.
Qed.

End Tan2equ_derivatives.

(** ** Equ2tan: the Jacobian and the derivatives of the map *)

Section Equ2tan_derivatives.

Variables a0 d0 alpha delta : R.
Hypothesis Hdenom :
  cos (alpha - a0) * cos delta * cos d0 + sin delta * sin d0 <> 0.

Ltac trig_vars :=
  pose proof (sin2_cos2 (alpha - a0)) as Ha; unfold Rsqr in Ha;
  pose proof (sin2_cos2 delta) as Hd; unfold Rsqr in Hd;
  pose proof (sin2_cos2 d0) as H0; unfold Rsqr in H0;
  set (sa := sin (alpha - a0)) in *; set (ca := cos (alpha - a0)) in *;
  set (sd := sin delta) in *; set (cd := cos delta) in *;
  set (s0 := sin d0) in *; set (c0 := cos d0) in *;
  clearbody sa ca sd cd s0 c0.

Lemma Equ2tan_d_xi_alpha :
  derivable_pt_lim (fun t => fst (Equ2tan.propxy1 a0 d0 t delta)) alpha
                   (m00 (Equ2tan.jac1 a0 d0 alpha delta)).
Proof.
  unfold Equ2tan.propxy1, Equ2tan.jac1. cbn [fst m00].
  eapply D_eq; cycle 1.
  - D_rules. exact Hdenom.
  - cbv beta. trig_vars.
    replace ((ca * cd * c0 + sd * s0) ^ 2)
      with ((ca * cd * c0 + sd * s0) * (ca * cd * c0 + sd * s0)) by ring.
    f_equal.
    transitivity (cd * (cd * c0 + ca * sd * s0) + cd * cd * c0 * (sa * sa + ca * ca - 1));
      [ring|rewrite Ha; ring].
Qed.

Lemma Equ2tan_d_xi_delta :
  derivable_pt_lim (fun t => fst (Equ2tan.propxy1 a0 d0 alpha t)) delta
                   (m01 (Equ2tan.jac1 a0 d0 alpha delta)).
Proof.
  unfold Equ2tan.propxy1, Equ2tan.jac1. cbn [fst m01].
  eapply D_eq; cycle 1.
  - D_rules. exact Hdenom.
  - cbv beta. trig_vars.
    replace (0 - sa * s0 / (ca * cd * c0 + sd * s0) ^ 2)
      with ((- sa * s0) / ((ca * cd * c0 + sd * s0) * (ca * cd * c0 + sd * s0)))
      by (field; exact Hdenom).
    f_equal.
    transitivity (- sa * s0 + (- sa * s0) * (sd * sd + cd * cd - 1));
      [ring|rewrite Hd; ring].
Qed.

Lemma Equ2tan_d_eta_alpha :
  derivable_pt_lim (fun t => snd (Equ2tan.propxy1 a0 d0 t delta)) alpha
                   (m10 (Equ2tan.jac1 a0 d0 alpha delta)).
Proof.
  unfold Equ2tan.propxy1, Equ2tan.jac1. cbn [snd m10].
  eapply D_eq; cycle 1.
  - D_rules. exact Hdenom.
  - cbv beta. rewrite sin_2a. trig_vars.
    replace 0.5 with (1 / 2) by lra.
    replace (1 / 2 * sa * (2 * sd * cd) / (ca * cd * c0 + sd * s0) ^ 2)
      with ((sa * sd * cd) / ((ca * cd * c0 + sd * s0) * (ca * cd * c0 + sd * s0)))
      by (field; exact Hdenom).
    f_equal.
    transitivity (sa * sd * cd + sa * cd * sd * (s0 * s0 + c0 * c0 - 1));
      [ring|rewrite H0; ring].
Qed.

Lemma Equ2tan_d_eta_delta :
  derivable_pt_lim (fun t => snd (Equ2tan.propxy1 a0 d0 alpha t)) delta
                   (m11 (Equ2tan.jac1 a0 d0 alpha delta)).
Proof.
  unfold Equ2tan.propxy1, Equ2tan.jac1. cbn [snd m11].
  eapply D_eq; cycle 1.
  - D_rules. exact Hdenom.
  - cbv beta. trig_vars.
    replace ((ca * cd * c0 + sd * s0) ^ 2)
      with ((ca * cd * c0 + sd * s0) * (ca * cd * c0 + sd * s0)) by ring.
    f_equal.
    transitivity (ca * (sd * sd + cd * cd) * (s0 * s0 + c0 * c0));
      [ring|rewrite Hd, H0; ring].
Qed.

End Equ2tan_derivatives.

(** ** The Jacobians of the gnomonic transforms on arrays *)

Lemma D_units f c x l :
  c <> 0 -> derivable_pt_lim f (x * c) l ->
  derivable_pt_lim (fun t => f (t * c) / c) x l.
Proof.
  intros Hc Hf.
  apply (D_ext (fun t => f (t * c) * / c)); [intros; reflexivity|].
  apply (D_eq _ _ (l * (1 * c + x * 0) * / c + f (x * c) * 0)); [field; exact Hc|].
  apply (D_mult (fun t => f (t * c)) (fun _ => / c)); [|apply D_const].
  apply (D_comp f (fun t => t * c)); [|exact Hf].
  apply (D_mult (fun t => t) (fun _ => c)); [apply D_id|apply D_const].
Qed.

Lemma index_lookup (pars : vec) k v : pars !! k = Some v -> index pars k = Ok v.
Proof. unfold index. intros ->. reflexivity. Qed.

Lemma Tan2equ_propxy_at st a0 d0 x y :
  Tan2equ.pars st !! 0%nat = Some a0 -> Tan2equ.pars st !! 1%nat = Some d0 ->
  Tan2equ.propxy st [x] [y] =
  Ok ([fst (Tan2equ.propxy1 (a0 * Tan2equ.conv2rad st) (d0 * Tan2equ.conv2rad st)
                            (x * Tan2equ.conv2rad st) (y * Tan2equ.conv2rad st))
       / Tan2equ.conv2rad st],
      [snd (Tan2equ.propxy1 (a0 * Tan2equ.conv2rad st) (d0 * Tan2equ.conv2rad st)
                            (x * Tan2equ.conv2rad st) (y * Tan2equ.conv2rad st))
       / Tan2equ.conv2rad st]).
Proof.
  intros H0 H1. unfold Tan2equ.propxy.
  rewrite (index_lookup _ _ _ H0), (index_lookup _ _ _ H1). reflexivity.
Qed.

Lemma Tan2equ_evaluatejac_zip st a0 d0 vx vy :
  Tan2equ.pars st !! 0%nat = Some a0 -> Tan2equ.pars st !! 1%nat = Some d0 ->
  length vx = length vy ->
  Tan2equ.evaluatejac st vx vy =
  Ok (map (fun pt => Tan2equ.jac1 (d0 * Tan2equ.conv2rad st)
                                  (fst pt * Tan2equ.conv2rad st)
                                  (snd pt * Tan2equ.conv2rad st)) (zip vx vy)).
Proof.
  intros H0 H1 Hlen. unfold Tan2equ.evaluatejac.
  destruct vx as [|x0 vx]; [reflexivity|].
  destruct vy as [|y0 vy]; [discriminate|].
  cbn [length Nat.ltb Nat.leb orb].
  rewrite broadcast2_same by exact Hlen.
  rewrite (index_lookup _ _ _ H0), (index_lookup _ _ _ H1). cbn [rbind].
  rewrite length_zip_with_l_eq by exact Hlen.
  rewrite Nat.eqb_refl. reflexivity.
Qed.

(** X19: with a tangent point in [pars] and a non-zero angular unit,
    [Tan2equ.evaluatejac] returns one plane per position for paired
    positions, and wherever cos(delta0) - eta sin(delta0) is not zero the
    four entries of the plane are the partial derivatives of the two
    outputs of [propxy] with respect to the two inputs, in the units of
    the instance. *)
Theorem Tan2equ_jac_partial_derivatives st a0 d0 vx vy :
  Tan2equ.pars st !! 0%nat = Some a0 -> Tan2equ.pars st !! 1%nat = Some d0 ->
  Tan2equ.conv2rad st <> 0 -> length vx = length vy ->
  exists J,
    Tan2equ.evaluatejac st vx vy = Ok J /\ length J = length vx /\
    forall n x y Jn,
      vx !! n = Some x -> vy !! n = Some y -> J !! n = Some Jn ->
      cos (d0 * Tan2equ.conv2rad st)
        - y * Tan2equ.conv2rad st * sin (d0 * Tan2equ.conv2rad st) <> 0 ->
      derivable_pt_lim (fun t => Tan2equ_ra st t y) x (m00 Jn) /\
      derivable_pt_lim (fun t => Tan2equ_ra st x t) y (m01 Jn) /\
      derivable_pt_lim (fun t => Tan2equ_dec st t y) x (m10 Jn) /\
      derivable_pt_lim (fun t => Tan2equ_dec st x t) y (m11 Jn).
Proof.
  intros H0 H1 Hc Hlen.
  eexists. split; [apply (Tan2equ_evaluatejac_zip st a0 d0); assumption|].
  split; [rewrite length_map, length_zip_with_l_eq by exact Hlen; reflexivity|].
  intros n x y Jn Hx Hy HJ Hg.
  apply list_lookup_fmap_Some in HJ as (pt & -> & Hpt).
  apply lookup_zip_with_Some in Hpt as (x' & y' & -> & Hx' & Hy').
  assert (x' = x) by congruence. assert (y' = y) by congruence. subst x' y'.
  cbn [fst snd].
  set (c := Tan2equ.conv2rad st) in *.
  unfold Tan2equ_ra, Tan2equ_dec.
  split; [|split; [|split]].
  - apply (D_ext (fun t => fst (Tan2equ.propxy1 (a0 * c) (d0 * c) (t * c) (y * c)) / c)).
    { intros t. rewrite (Tan2equ_propxy_at st a0 d0) by assumption. reflexivity. }
    apply (D_units (fun u => fst (Tan2equ.propxy1 (a0 * c) (d0 * c) u (y * c))));
      [exact Hc|].
    apply Tan2equ_d_alpha_xi. exact Hg.
  - apply (D_ext (fun t => fst (Tan2equ.propxy1 (a0 * c) (d0 * c) (x * c) (t * c)) / c)).
    { intros t. rewrite (Tan2equ_propxy_at st a0 d0) by assumption. reflexivity. }
    apply (D_units (fun u => fst (Tan2equ.propxy1 (a0 * c) (d0 * c) (x * c) u)));
      [exact Hc|].
    apply Tan2equ_d_alpha_eta. exact Hg.
  - apply (D_ext (fun t => snd (Tan2equ.propxy1 (a0 * c) (d0 * c) (t * c) (y * c)) / c)).
    { intros t. rewrite (Tan2equ_propxy_at st a0 d0) by assumption. reflexivity. }
    apply (D_units (fun u => snd (Tan2equ.propxy1 (a0 * c) (d0 * c) u (y * c))));
      [exact Hc|].
    apply Tan2equ_d_delta_xi. exact Hg.
  - apply (D_ext (fun t => snd (Tan2equ.propxy1 (a0 * c) (d0 * c) (x * c) (t * c)) / c)).
    { intros t. rewrite (Tan2equ_propxy_at st a0 d0) by assumption. reflexivity. }
    apply (D_units (fun u => snd (Tan2equ.propxy1 (a0 * c) (d0 * c) (x * c) u)));
      [exact Hc|].
    apply Tan2equ_d_delta_eta. exact Hg.
Qed.

Lemma Tan2equ_jac_partial_derivatives_witness :
  exists J,
    Tan2equ.evaluatejac (Tan2equ.mk [] [] [] [0; 0] false false 1 [] [] []) [0] [0]
      = Ok [J] /\
    derivable_pt_lim
      (fun t => Tan2equ_ra (Tan2equ.mk [] [] [] [0; 0] false false 1 [] [] []) t 0)
      0 (m00 J).
Proof.
  set (st := Tan2equ.mk [] [] [] [0; 0] false false 1 [] [] []).
  assert (Hc : Tan2equ.conv2rad st <> 0) by (cbn; lra).
  destruct (Tan2equ_jac_partial_derivatives st 0 0 [0] [0] eq_refl eq_refl Hc eq_refl)
    as (J & HJ & Hl & HD).
  destruct J as [|J0 [|J1 J]]; try discriminate Hl.
  exists J0. split; [exact HJ|].
  assert (Hg : cos (0 * Tan2equ.conv2rad st)
               - 0 * Tan2equ.conv2rad st * sin (0 * Tan2equ.conv2rad st) <> 0).
  { rewrite !Rmult_0_l, cos_0. lra. }
  exact (proj1 (HD 0%nat 0 0 J0 eq_refl eq_refl eq_refl Hg)).
Defined.

Lemma Equ2tan_propxy_at st a0 d0 x y :
  Equ2tan.pars st !! 0%nat = Some a0 -> Equ2tan.pars st !! 1%nat = Some d0 ->
  Equ2tan.propxy st [x] [y] =
  Ok ([fst (Equ2tan.propxy1 (a0 * Equ2tan.conv2rad st) (d0 * Equ2tan.conv2rad st)
                            (x * Equ2tan.conv2rad st) (y * Equ2tan.conv2rad st))
       / Equ2tan.conv2rad st],
      [snd (Equ2tan.propxy1 (a0 * Equ2tan.conv2rad st) (d0 * Equ2tan.conv2rad st)
                            (x * Equ2tan.conv2rad st) (y * Equ2tan.conv2rad st))
       / Equ2tan.conv2rad st]).
Proof.
  intros H0 H1. unfold Equ2tan.propxy.
  rewrite (index_lookup _ _ _ H0), (index_lookup _ _ _ H1). reflexivity.
Qed.

Lemma Equ2tan_evaluatejac_zip st a0 d0 vx vy :
  Equ2tan.pars st !! 0%nat = Some a0 -> Equ2tan.pars st !! 1%nat = Some d0 ->
  length vx = length vy ->
  Equ2tan.evaluatejac st vx vy =
  Ok (map (fun pt => Equ2tan.jac1 (a0 * Equ2tan.conv2rad st) (d0 * Equ2tan.conv2rad st)
                                  (fst pt * Equ2tan.conv2rad st)
                                  (snd pt * Equ2tan.conv2rad st)) (zip vx vy)).
Proof.
  intros H0 H1 Hlen. unfold Equ2tan.evaluatejac.
  destruct vx as [|x0 vx]; [reflexivity|].
  destruct vy as [|y0 vy]; [discriminate|].
  cbn [length Nat.ltb Nat.leb orb].
  rewrite broadcast2_same by exact Hlen.
  rewrite (index_lookup _ _ _ H0), (index_lookup _ _ _ H1). cbn [rbind].
  rewrite length_zip_with_l_eq by exact Hlen.
  rewrite Nat.eqb_refl. reflexivity.
Qed.

(** X20: with a tangent point in [pars] and a non-zero angular unit,
    [Equ2tan.evaluatejac] returns one plane per position for paired
    positions, and wherever the denominator of the projection is not zero
    the four entries of the plane are the partial derivatives of the two
    outputs of [propxy] with respect to the two inputs, in the units of
    the instance. *)
Theorem Equ2tan_jac_partial_derivatives st a0 d0 vx vy :
  Equ2tan.pars st !! 0%nat = Some a0 -> Equ2tan.pars st !! 1%nat = Some d0 ->
  Equ2tan.conv2rad st <> 0 -> length vx = length vy ->
  exists J,
    Equ2tan.evaluatejac st vx vy = Ok J /\ length J = length vx /\
    forall n x y Jn,
      vx !! n = Some x -> vy !! n = Some y -> J !! n = Some Jn ->
      cos (x * Equ2tan.conv2rad st - a0 * Equ2tan.conv2rad st)
        * cos (y * Equ2tan.conv2rad st) * cos (d0 * Equ2tan.conv2rad st)
        + sin (y * Equ2tan.conv2rad st) * sin (d0 * Equ2tan.conv2rad st) <> 0 ->
      derivable_pt_lim (fun t => Equ2tan_xi st t y) x (m00 Jn) /\
      derivable_pt_lim (fun t => Equ2tan_xi st x t) y (m01 Jn) /\
      derivable_pt_lim (fun t => Equ2tan_eta st t y) x (m10 Jn) /\
      derivable_pt_lim (fun t => Equ2tan_eta st x t) y (m11 Jn).
Proof.
  intros H0 H1 Hc Hlen.
  eexists. split; [apply (Equ2tan_evaluatejac_zip st a0 d0); assumption|].
  split; [rewrite length_map, length_zip_with_l_eq by exact Hlen; reflexivity|].
  intros n x y Jn Hx Hy HJ Hg.
  apply list_lookup_fmap_Some in HJ as (pt & -> & Hpt).
  apply lookup_zip_with_Some in Hpt as (x' & y' & -> & Hx' & Hy').
  assert (x' = x) by congruence. assert (y' = y) by congruence. subst x' y'.
  cbn [fst snd].
  set (c := Equ2tan.conv2rad st) in *.
  unfold Equ2tan_xi, Equ2tan_eta.
  split; [|split; [|split]].
  - apply (D_ext (fun t => fst (Equ2tan.propxy1 (a0 * c) (d0 * c) (t * c) (y * c)) / c)).
    { intros t. rewrite (Equ2tan_propxy_at st a0 d0) by assumption. reflexivity. }
    apply (D_units (fun u => fst (Equ2tan.propxy1 (a0 * c) (d0 * c) u (y * c))));
      [exact Hc|].
    apply Equ2tan_d_xi_alpha. exact Hg.
  - apply (D_ext (fun t => fst (Equ2tan.propxy1 (a0 * c) (d0 * c) (x * c) (t * c)) / c)).
    { intros t. rewrite (Equ2tan_propxy_at st a0 d0) by assumption. reflexivity. }
    apply (D_units (fun u => fst (Equ2tan.propxy1 (a0 * c) (d0 * c) (x * c) u)));
      [exact Hc|].
    apply Equ2tan_d_xi_delta. exact Hg.
  - apply (D_ext (fun t => snd (Equ2tan.propxy1 (a0 * c) (d0 * c) (t * c) (y * c)) / c)).
    { intros t. rewrite (Equ2tan_propxy_at st a0 d0) by assumption. reflexivity. }
    apply (D_units (fun u => snd (Equ2tan.propxy1 (a0 * c) (d0 * c) u (y * c))));
      [exact Hc|].
    apply Equ2tan_d_eta_alpha. exact Hg.
  - apply (D_ext (fun t => snd (Equ2tan.propxy1 (a0 * c) (d0 * c) (x * c) (t * c)) / c)).
    { intros t. rewrite (Equ2tan_propxy_at st a0 d0) by assumption. reflexivity. }
    apply (D_units (fun u => snd (Equ2tan.propxy1 (a0 * c) (d0 * c) (x * c) u)));
      [exact Hc|].
    apply Equ2tan_d_eta_delta. exact Hg.
Qed.

Lemma Equ2tan_jac_partial_derivatives_witness :
  exists J,
    Equ2tan.evaluatejac (Equ2tan.mk [] [] [] [0; 0] false false 1 [] [] []) [0] [0]
      = Ok [J] /\
    derivable_pt_lim
      (fun t => Equ2tan_xi (Equ2tan.mk [] [] [] [0; 0] false false 1 [] [] []) t 0)
      0 (m00 J).
Proof.
  set (st := Equ2tan.mk [] [] [] [0; 0] false false 1 [] [] []).
  assert (Hc : Equ2tan.conv2rad st <> 0) by (cbn; lra).
  destruct (Equ2tan_jac_partial_derivatives st 0 0 [0] [0] eq_refl eq_refl Hc eq_refl)
    as (J & HJ & Hl & HD).
  destruct J as [|J0 [|J1 J]]; try discriminate Hl.
  exists J0. split; [exact HJ|].
  assert (Hg : cos (0 * Equ2tan.conv2rad st - 0 * Equ2tan.conv2rad st)
                 * cos (0 * Equ2tan.conv2rad st) * cos (0 * Equ2tan.conv2rad st)
               + sin (0 * Equ2tan.conv2rad st) * sin (0 * Equ2tan.conv2rad st) <> 0).
  { rewrite !Rmult_0_l, Rminus_0_r, cos_0, sin_0. lra. }
  exact (proj1 (HD 0%nat 0 0 J0 eq_refl eq_refl eq_refl Hg)).
Defined.

(** ** Polynom: the polynomial written out by hand *)

Ltac explode_upto l :=
  do 22 (try (destruct l as [|? l])).

Lemma polyval2d_truncates st pars :
  Polynom.polyval2d st pars = Polynom.polyval2d st (take (ncoeffs (Polynom_order (length pars))) pars).
Proof.
  explode_upto pars; reflexivity.
Qed.

Lemma jac2d_truncates st pars :
  Polynom.jac2d st pars = Polynom.jac2d st (take (ncoeffs (Polynom_order (length pars))) pars).
Proof.
  explode_upto pars; reflexivity.
Qed.

Lemma zip_with_zip {A B C D : Type} (F : A -> B -> C) (g : C -> A * B -> D)
    (l : list A) : forall (k : list B),
  zip_with g (zip_with F l k) (zip l k) = zip_with (fun a b => g (F a b) (a, b)) l k.
Proof.
  induction l as [|a l IH]; intros [|b k]; cbn [zip_with]; try reflexivity.
  rewrite IH. reflexivity.
Qed.

Lemma map_as_zip_with {A B C : Type} (g : A -> C) (l : list A) : forall (k : list B),
  length l = length k -> map g l = zip_with (fun a _ => g a) l k.
Proof.
  induction l as [|a l IH]; intros [|b k] H; cbn [length] in H; try discriminate;
    cbn [map zip_with]; [reflexivity|].
  rewrite (IH k) by lia. reflexivity.
Qed.

Lemma iadd_zip st (F e : R -> R -> R) :
  length (Polynom.x st) = length (Polynom.y st) ->
  Polynom.iadd (zip_with F (Polynom.x st) (Polynom.y st)) st e =
  Ok (zip_with (fun x y => F x y + e x y) (Polynom.x st) (Polynom.y st)).
Proof.
  intros H. unfold Polynom.iadd. rewrite broadcast2_same by exact H. cbn [rbind].
  rewrite !length_zip_with_l_eq by exact H. rewrite Nat.eqb_refl.
  rewrite zip_with_zip. reflexivity.
Qed.

Ltac pairs_compute d :=
  let p := eval vm_compute in (pairs d) in change (pairs d) with p.

Lemma polyval2d_flatpoly st pars d :
  length (Polynom.x st) = length (Polynom.y st) ->
  (d <= 5)%nat -> length pars = ncoeffs d ->
  Polynom.polyval2d st pars =
  Ok (zip_with (flatpoly d pars) (Polynom.x st) (Polynom.y st)).
Proof.
  intros Hxy Hd Hlen.
  assert (Hcases : (d = 0 \/ d = 1 \/ d = 2 \/ d = 3 \/ d = 4 \/ d = 5)%nat) by lia.
  destruct Hcases as [->|[->|[->|[->|[->| ->]]]]];
    vm_compute in Hlen;
    do 22 (try (destruct pars as [|? pars]; try discriminate Hlen));
    unfold Polynom.polyval2d;
    cbn [index lookup list_lookup rbind length Nat.ltb Nat.leb];
    rewrite (map_as_zip_with _ _ (Polynom.y st)) by exact Hxy;
    rewrite ?iadd_zip by exact Hxy; cbn [rbind];
    rewrite ?iadd_zip by exact Hxy; cbn [rbind];
    rewrite ?iadd_zip by exact Hxy; cbn [rbind];
    rewrite ?iadd_zip by exact Hxy; cbn [rbind];
    rewrite ?iadd_zip by exact Hxy; cbn [rbind];
    f_equal; apply zip_with_ext; try reflexivity; intros u v;
    unfold flatpoly, dot.
  - pairs_compute 0%nat. cbn [map zip_with sumR fold_right fst snd pow]. ring.
  - pairs_compute 1%nat. cbn [map zip_with sumR fold_right fst snd pow]. ring.
  - pairs_compute 2%nat. cbn [map zip_with sumR fold_right fst snd pow]. ring.
  - pairs_compute 3%nat. cbn [map zip_with sumR fold_right fst snd pow]. ring.
  - pairs_compute 4%nat. cbn [map zip_with sumR fold_right fst snd pow]. ring.
  - pairs_compute 5%nat. cbn [map zip_with sumR fold_right fst snd pow]. ring.
Qed.

Lemma zip_with_map_self {A B C : Type} (f : B -> A -> C) (g : A -> B) (l : list A) :
  zip_with f (map g l) l = map (fun a => f (g a) a) l.
Proof. induction l as [|a l IH]; cbn [map zip_with]; [reflexivity|]. rewrite IH. reflexivity. Qed.

Lemma map_as_zip_with_r {A B C : Type} (g : B -> C) (k : list B) : forall (l : list A),
  length l = length k -> map g k = zip_with (fun _ b => g b) l k.
Proof.
  induction k as [|b k IH]; intros [|a l] H; cbn [length] in H; try discriminate;
    cbn [map zip_with]; [reflexivity|].
  rewrite (IH l) by lia. reflexivity.
Qed.

Lemma Polynom_value_at pars x y z :
  Polynom.polyval2d (Polynom_at x y) pars = Ok [z] -> Polynom_value pars x y = z.
Proof. unfold Polynom_value. intros ->. reflexivity. Qed.

Lemma Polynom_value_flatpoly d pars x y :
  (d <= 5)%nat -> length pars = ncoeffs d ->
  Polynom_value pars x y = flatpoly d pars x y.
Proof.
  intros Hd Hlen. apply Polynom_value_at.
  rewrite (polyval2d_flatpoly _ _ d) by (try assumption; reflexivity).
  reflexivity.
Qed.

Ltac D_flatpoly :=
  unfold flatpoly, dot;
  match goal with |- context [pairs ?d] => pairs_compute d end;
  cbn [map zip_with sumR fold_right fst snd];
  eapply D_eq; [|D_rules]; cbv beta; cbn [pred INR pow]; ring.

Lemma jac2d_gradient_exact st pars d :
  length (Polynom.x st) = length (Polynom.y st) ->
  (d <= 5)%nat -> length pars = ncoeffs d ->
  exists zx zy,
    Polynom.jac2d st pars = Ok (zx, zy) /\
    length zx = length (Polynom.x st) /\ length zy = length (Polynom.x st) /\
    forall n u v a b,
      Polynom.x st !! n = Some u -> Polynom.y st !! n = Some v ->
      zx !! n = Some a -> zy !! n = Some b ->
      derivable_pt_lim (fun t => flatpoly d pars t v) u a /\
      derivable_pt_lim (fun t => flatpoly d pars u t) v b.
Proof.
  intros Hxy Hd Hlen.
  assert (Hcases : (d = 0 \/ d = 1 \/ d = 2 \/ d = 3 \/ d = 4 \/ d = 5)%nat) by lia.
  destruct Hcases as [->|[->|[->|[->|[->| ->]]]]];
    vm_compute in Hlen;
    do 22 (try (destruct pars as [|? pars]; try discriminate Hlen));
    unfold Polynom.jac2d;
    cbn [index lookup list_lookup rbind length Nat.ltb Nat.leb];
    rewrite ?zip_with_map_self;
    rewrite (map_as_zip_with _ (Polynom.x st) (Polynom.y st)) by exact Hxy;
    rewrite (map_as_zip_with_r _ (Polynom.y st) (Polynom.x st)) by exact Hxy;
    repeat (rewrite iadd_zip by exact Hxy; cbn [rbind]);
    (eexists; eexists; split; [reflexivity|]);
    (split; [apply length_zip_with_l_eq; exact Hxy|]);
    (split; [apply length_zip_with_l_eq; exact Hxy|]);
    intros n u v a b Hu Hv Ha Hb;
    apply lookup_zip_with_Some in Ha as (u1 & v1 & -> & Hu1 & Hv1);
    apply lookup_zip_with_Some in Hb as (u2 & v2 & -> & Hu2 & Hv2);
    assert (u1 = u) by congruence; assert (v1 = v) by congruence;
    assert (u2 = u) by congruence; assert (v2 = v) by congruence;
    subst u1 v1 u2 v2; clear;
    (split; D_flatpoly).
Qed.

Lemma Polynom_order_bounds n :
  (Polynom_order n <= 5)%nat /\
  (n <> 0%nat -> n <> 2%nat -> ncoeffs (Polynom_order n) <= n)%nat.
Proof.
  unfold Polynom_order.
  destruct (n <? 2)%nat eqn:E2; [apply Nat.ltb_lt in E2; vm_compute ncoeffs; lia|].
  destruct (n <? 6)%nat eqn:E6;
    [apply Nat.ltb_ge in E2; vm_compute ncoeffs; lia|].
  destruct (n <? 10)%nat eqn:E10;
    [apply Nat.ltb_ge in E6; vm_compute ncoeffs; lia|].
  destruct (n <? 15)%nat eqn:E15;
    [apply Nat.ltb_ge in E10; vm_compute ncoeffs; lia|].
  destruct (n <? 21)%nat eqn:E21;
    [apply Nat.ltb_ge in E15; vm_compute ncoeffs; lia|].
  apply Nat.ltb_ge in E21. vm_compute ncoeffs. lia.
Qed.

(** X21: [Polynom.polyval2d] follows the coefficient order of
    [Polycoeffs.ijfromdeg]. For [pars] of any size other than 0 and 2 it
    returns, at every position, the sum of pars[k] x^i[k] y^j[k] over the
    powers of the highest order (at most 5) that the size covers in full:
    entries past that order are ignored. An empty [pars] and a [pars] of
    two entries raise IndexError. *)
Theorem Polynom_polyval2d_convention st pars :
  length (Polynom.x st) = length (Polynom.y st) ->
  (length pars = 0%nat \/ length pars = 2%nat ->
     Polynom.polyval2d st pars = Err IndexError) /\
  (length pars <> 0%nat -> length pars <> 2%nat ->
     Polynom.polyval2d st pars =
     Ok (zip_with (flatpoly (Polynom_order (length pars))
                            (take (ncoeffs (Polynom_order (length pars))) pars))
                  (Polynom.x st) (Polynom.y st))).
Proof.
  intros Hxy. split.
  - intros [H|H].
    + destruct pars; [reflexivity|discriminate].
    + destruct pars as [|p0 [|p1 [|p2 pars]]]; try discriminate. reflexivity.
  - intros H0 H2. rewrite (polyval2d_truncates st pars).
    destruct (Polynom_order_bounds (length pars)) as [Hd Hk].
    apply polyval2d_flatpoly; [exact Hxy|exact Hd|].
    rewrite length_take. specialize (Hk H0 H2). lia.
Qed.

Lemma Polynom_polyval2d_convention_witness :
  Polynom.polyval2d (Polynom.init [(2, 3)] [] [] [] true) [1; 10; 100; 7] =
  Ok [flatpoly 1 [1; 10; 100] 2 3].
Proof.
  assert (H0 : length [1; 10; 100; 7] <> 0%nat) by discriminate.
  assert (H2 : length [1; 10; 100; 7] <> 2%nat) by discriminate.
  exact (proj2 (Polynom_polyval2d_convention (Polynom.init [(2, 3)] [] [] [] true)
                  [1; 10; 100; 7] eq_refl) H0 H2).
Defined.

(** X22: for [pars] of any size other than 0 and 2, [Polynom.jac2d]
    returns two arrays with one entry per position, which are the partial
    derivatives in x and in y of the polynomial of [polyval2d] at that
    position. *)
Theorem Polynom_jac2d_gradient st pars :
  length (Polynom.x st) = length (Polynom.y st) ->
  length pars <> 0%nat -> length pars <> 2%nat ->
  exists zx zy,
    Polynom.jac2d st pars = Ok (zx, zy) /\
    length zx = length (Polynom.x st) /\ length zy = length (Polynom.x st) /\
    forall n u v a b,
      Polynom.x st !! n = Some u -> Polynom.y st !! n = Some v ->
      zx !! n = Some a -> zy !! n = Some b ->
      derivable_pt_lim (fun t => Polynom_value pars t v) u a /\
      derivable_pt_lim (fun t => Polynom_value pars u t) v b.
Proof.
  intros Hxy H0 H2.
  destruct (Polynom_order_bounds (length pars)) as [Hd Hk]. specialize (Hk H0 H2).
  set (d := Polynom_order (length pars)) in *.
  set (pars' := take (ncoeffs d) pars).
  assert (Hlen : length pars' = ncoeffs d) by (unfold pars'; rewrite length_take; lia).
  destruct (jac2d_gradient_exact st pars' d Hxy Hd Hlen)
    as (zx & zy & HJ & Hlx & Hly & HD).
  exists zx, zy. split; [rewrite (jac2d_truncates st pars); exact HJ|].
  split; [exact Hlx|]. split; [exact Hly|].
  intros n u v a b Hu Hv Ha Hb.
  destruct (HD n u v a b Hu Hv Ha Hb) as [Dx Dy].
  assert (Hval : forall s t, Polynom_value pars s t = flatpoly d pars' s t).
  { intros s t. apply Polynom_value_at.
    rewrite (polyval2d_truncates _ pars). fold d. fold pars'.
    rewrite (polyval2d_flatpoly _ pars' d) by (try assumption; reflexivity).
    reflexivity. }
  split.
  - apply (D_ext (fun t => flatpoly d pars' t v)); [intros; symmetry; apply Hval|exact Dx].
  - apply (D_ext (fun t => flatpoly d pars' u t)); [intros; symmetry; apply Hval|exact Dy].
Qed.

Lemma Polynom_jac2d_gradient_witness :
  exists zx zy,
    Polynom.jac2d (Polynom.init [(2, 3)] [] [] [] true) [1; 10; 100] = Ok (zx, zy) /\
    length zx = 1%nat.
Proof.
  assert (H0 : length [1; 10; 100] <> 0%nat) by discriminate.
  assert (H2 : length [1; 10; 100] <> 2%nat) by discriminate.
  destruct (Polynom_jac2d_gradient (Polynom.init [(2, 3)] [] [] [] true) [1; 10; 100]
              eq_refl H0 H2) as (zx & zy & HJ & Hl & _).
  exists zx, zy. split; [exact HJ|exact Hl].
Defined.

(** ** Poly: the polynomial that [propxy] evaluates *)

Lemma elem_of_rowpairs a b d : (a, b) ∈ rowpairs d <-> (a + b <= d)%nat.
Proof.
  unfold rowpairs. rewrite list_elem_of_In, in_flat_map. split.
  - intros (i & Hi & Hin). apply in_map_iff in Hin as (j & Heq & Hj).
    injection Heq as <- <-. apply in_seq in Hi. apply in_seq in Hj. lia.
  - intros H. exists a. split; [apply in_seq; lia|].
    apply in_map_iff. exists b. split; [reflexivity|apply in_seq; lia].
Qed.

Lemma NoDup_rows (n : nat -> nat) (rows : list nat) :
  NoDup rows -> NoDup (flat_map (fun i => map (pair i) (seq 0 (n i))) rows).
Proof.
  induction rows as [|i rows IH]; intros Hnd; [constructor|].
  apply NoDup_cons in Hnd as [Hi Hnd]. cbn [flat_map].
  apply NoDup_app. split; [|split].
  - apply NoDup_fmap_2; [intros ? ? H; congruence|].
    apply NoDup_ListNoDup, seq_NoDup.
  - intros [a b] Hin Hin'.
    apply list_elem_of_In, in_map_iff in Hin as (j & Heq & _). injection Heq as <- <-.
    apply list_elem_of_In, in_flat_map in Hin' as (i' & Hi' & Hin').
    apply in_map_iff in Hin' as (j' & Heq & _). injection Heq as -> _.
    apply Hi. apply list_elem_of_In. exact Hi'.
  - apply IH. exact Hnd.
Qed.

Lemma NoDup_rowpairs d : NoDup (rowpairs d).
Proof. apply (NoDup_rows (fun i => (d + 1 - i)%nat)). apply NoDup_ListNoDup, seq_NoDup. Qed.

Lemma rowpairs_pairs d : rowpairs d ≡ₚ pairs d.
Proof.
  apply NoDup_Permutation; [apply NoDup_rowpairs|apply NoDup_pairs|].
  intros [a b]. rewrite elem_of_rowpairs. split.
  - apply elem_of_pairs_2.
  - apply elem_of_pairs.
Qed.

Lemma sumR_Permutation (u v : vec) : u ≡ₚ v -> sumR u = sumR v.
Proof.
  induction 1 as [|a u v _ IH|a b u|u v w _ IH1 _ IH2]; cbn [sumR fold_right] in *.
  - reflexivity.
  - unfold sumR in IH. rewrite IH. reflexivity.
  - ring.
  - congruence.
Qed.

Lemma dot_map_map {A : Type} (f g : A -> R) (l : list A) :
  dot (map f l) (map g l) = sumR (map (fun a => f a * g a) l).
Proof.
  unfold dot. induction l as [|a l IH]; [reflexivity|].
  cbn [map zip_with sumR fold_right]. unfold sumR in IH. rewrite IH. reflexivity.
Qed.

Lemma triangle_map d (c : arr2d) :
  triangle d c = map (fun ij => get2d c (fst ij) (snd ij)) (rowpairs d).
Proof.
  unfold triangle, rowpairs. induction (seq 0 (d + 1)) as [|i l IH]; [reflexivity|].
  cbn [flat_map]. rewrite map_app, <- IH, map_map. reflexivity.
Qed.

(** The 2-D array that [Polycoeffs] fills from a flat vector [v]
    evaluates to the sum of [v[k] * x^i[k] * y^j[k]]. *)
Lemma polyval2d1_flatpoly d v b pc x y :
  (1 <= d)%nat -> length v = ncoeffs d -> Polycoeffs.init v b = Done pc ->
  polyval2d1 x y (Polycoeffs.p2d pc) = flatpoly d v x y.
Proof.
  intros Hd Hlen Hinit.
  pose proof (Polycoeffs_init_triangular d v b pc Hlen Hinit) as Htri.
  pose proof (Polycoeffs_readback_pos d v b Hd Hlen) as Hread.
  rewrite Hinit in Hread. cbn [state_of] in Hread.
  rewrite (Polycoeffs_init_pos d v b Hd Hlen) in Hinit. injection Hinit as <-.
  cbn [Polycoeffs.p2d] in *.
  unfold Polycoeffs.readback in Hread. cbn [Polycoeffs.deg Polycoeffs.p2d] in Hread.
  rewrite (surjective_pairing (Polycoeffs.ijfromdeg (Z.of_nat d))) in Hread.
  rewrite zip_ijfromdeg in Hread.
  set (c := scatter2d _ _ _ _) in *.
  rewrite (polyval2d1_triangle d) by
    (try exact Htri; apply rect_scatter2d, rect_zeros2d).
  rewrite monomials_map, triangle_map. fold (rowpairs d).
  rewrite dot_map_map.
  unfold flatpoly. rewrite <- Hread at 1. rewrite dot_map_map.
  rewrite (sumR_Permutation _ (map (fun a => (x ^ a.1 * y ^ a.2) * get2d c a.1 a.2) (pairs d))).
  - f_equal. apply map_ext. intros. ring.
  - apply Permutation_map. apply rowpairs_pairs.
Qed.

Lemma zip_with_map_map {A B C D E : Type} (f : C -> D -> E) (g : A -> C) (h : B -> D)
    (l : list A) : forall (k : list B),
  zip_with f (map g l) (map h k) = zip_with (fun a b => f (g a) (h b)) l k.
Proof.
  induction l as [|a l IH]; intros [|b k]; cbn [map zip_with]; try reflexivity.
  rewrite IH. reflexivity.
Qed.

Lemma propxy_zip other d st vx vy :
  Poly_wf d st -> length vx = length vy ->
  Poly.propxy other st vx vy =
  Ok (zip_with (fun x y =>
        polyval2d1 ((2 * x - (Poly.xmax st + Poly.xmin st)) / (Poly.xmax st - Poly.xmin st))
                   ((2 * y - (Poly.ymax st + Poly.ymin st)) / (Poly.ymax st - Poly.ymin st))
                   (Polycoeffs.p2d (Poly.pars2x st))) vx vy,
      zip_with (fun x y =>
        polyval2d1 ((2 * x - (Poly.xmax st + Poly.xmin st)) / (Poly.xmax st - Poly.xmin st))
                   ((2 * y - (Poly.ymax st + Poly.ymin st)) / (Poly.ymax st - Poly.ymin st))
                   (Polycoeffs.p2d (Poly.pars2y st))) vx vy).
Proof.
  intros (Hk & Hwx & Hwy & _ & _) Hlen.
  destruct Hwx as (_ & _ & _ & Hlx & Hrx). destruct Hwy as (_ & _ & _ & Hly & Hry).
  unfold Poly.propxy.
  destruct vx as [|x0 vx].
  { destruct vy; [reflexivity|discriminate]. }
  destruct vy as [|y0 vy]; [discriminate|].
  cbn [length Nat.ltb Nat.leb orb].
  unfold Poly.rescalexy, Poly.methval2d, Poly.methlist.
  rewrite Hk. cbn [val2d numpy_polynomial].
  assert (Hc : forall c : arr2d, length c = (d + 1)%nat ->
               Forall (fun row => length row = (d + 1)%nat) c ->
               nrows c <> 0%nat /\ ncols c <> 0%nat).
  { intros c Hl Hr. unfold nrows, ncols. split; [lia|].
    destruct c as [|r c]; [cbn [length] in Hl; lia|].
    apply Forall_cons in Hr as [H0 _]. lia. }
  destruct (Hc _ Hlx Hrx) as [Hx1 Hx2]. destruct (Hc _ Hly Hry) as [Hy1 Hy2].
  rewrite !polyval2d_Ok by (try assumption; rewrite !length_map; exact Hlen).
  cbn [rbind]. rewrite !zip_with_map_map. reflexivity.
Qed.

(** X23: a Polynomial-basis [Poly] of degree d >= 1 built from the
    flat vectors [parsx] and [parsy] maps positions, by [propxy], to the
    sums of parsx[k] xr^i[k] yr^j[k] and of parsy[k] xr^i[k] yr^j[k] over
    the powers of [ijfromdeg(d)], (xr, yr) being the position rescaled
    with the limits of the instance. *)
Theorem Poly_propxy_polynomial other d xs ys cov px py v oxmin oxmax oymin oymax vx vy :
  (1 <= d)%nat -> length xs = length ys ->
  length px = ncoeffs d -> length py = ncoeffs d -> length vx = length vy ->
  exists st,
    Poly.init other xs ys cov px py (Some Polynomial) v oxmin oxmax oymin oymax false
      = Done st /\
    Poly.propxy other st vx vy =
    Ok (zip_with (fun x y =>
          flatpoly d px
            ((2 * x - (Poly.xmax st + Poly.xmin st)) / (Poly.xmax st - Poly.xmin st))
            ((2 * y - (Poly.ymax st + Poly.ymin st)) / (Poly.ymax st - Poly.ymin st)))
          vx vy,
        zip_with (fun x y =>
          flatpoly d py
            ((2 * x - (Poly.xmax st + Poly.xmin st)) / (Poly.xmax st - Poly.xmin st))
            ((2 * y - (Poly.ymax st + Poly.ymin st)) / (Poly.ymax st - Poly.ymin st)))
          vx vy).
Proof.
  intros Hd Hlen Hpx Hpy Hv.
  destruct (Poly_init_Polynomial other d xs ys cov px py v oxmin oxmax oymin oymax
              Hlen Hpx Hpy)
    as (st & Hst & Hwf & _ & _ & _ & _ & Hix & Hiy & _).
  exists st. split; [exact Hst|].
  rewrite (propxy_zip other d) by assumption.
  f_equal. f_equal.
  - apply zip_with_ext; try reflexivity. intros x y.
    apply (polyval2d1_flatpoly d px v); assumption.
  - apply zip_with_ext; try reflexivity. intros x y.
    apply (polyval2d1_flatpoly d py v); assumption.
Qed.

Lemma Poly_propxy_polynomial_witness :
  exists st,
    Poly.init polynomial_only [0; 1] [0; 2] [] [0; 1; 0] [0; 0; 1] (Some Polynomial) false
      None None None None false = Done st /\
    exists xt yt, Poly.propxy polynomial_only st [0] [0] = Ok ([xt], [yt]).
Proof.
  assert (H1 : (1 <= 1)%nat) by lia.
  destruct (Poly_propxy_polynomial polynomial_only 1 [0; 1] [0; 2] [] [0; 1; 0] [0; 0; 1]
              false None None None None [0] [0] H1 eq_refl eq_refl eq_refl eq_refl)
    as (st & Hst & Hp).
  exists st. split; [exact Hst|].
  eexists. eexists. exact Hp.
Defined.

(** ** Polynom and Poly on the unit domain *)

Lemma assign_Done f v st :
  length v = length (Polynom.jac st) ->
  Polynom.assign f v st = Done (Polynom.set_jac (zip_with f (Polynom.jac st) v) st).
Proof.
  intros H. unfold Polynom.assign, Polynom.fill. rewrite H, Nat.eqb_refl. reflexivity.
Qed.

Lemma getjacobian_Done st zx zy wx wy :
  Polynom.jac2d st (Polynom.parsx st) = Ok (zx, zy) ->
  Polynom.jac2d st (Polynom.parsy st) = Ok (wx, wy) ->
  length zx = length (Polynom.x st) -> length zy = length (Polynom.x st) ->
  length wx = length (Polynom.x st) -> length wy = length (Polynom.x st) ->
  exists st',
    Polynom.getjacobian st = Done st' /\
    length (Polynom.jac st') = length (Polynom.x st) /\
    forall n a b c e,
      zx !! n = Some a -> zy !! n = Some b -> wx !! n = Some c -> wy !! n = Some e ->
      Polynom.jac st' !! n = Some (M2 a b c e).
Proof.
  intros Hx Hy Hl1 Hl2 Hl3 Hl4. unfold Polynom.getjacobian.
  set (s0 := Polynom.set_jac _ st).
  change (Polynom.jac2d s0 (Polynom.parsx s0)) with (Polynom.jac2d st (Polynom.parsx st)).
  change (Polynom.jac2d s0 (Polynom.parsy s0)) with (Polynom.jac2d st (Polynom.parsy st)).
  rewrite Hx, Hy.
  rewrite assign_Done
    by (unfold s0; cbn [Polynom.jac Polynom.set_jac]; rewrite length_replicate; exact Hl1).
  cbn [obind].
  rewrite assign_Done
    by (unfold s0; cbn [Polynom.jac Polynom.set_jac];
        rewrite length_zip_with, length_replicate; lia).
  cbn [obind].
  rewrite assign_Done
    by (unfold s0; cbn [Polynom.jac Polynom.set_jac];
        rewrite !length_zip_with, length_replicate; lia).
  cbn [obind].
  rewrite assign_Done
    by (unfold s0; cbn [Polynom.jac Polynom.set_jac];
        rewrite !length_zip_with, length_replicate; lia).
  eexists. split; [reflexivity|].
  unfold s0. cbn [Polynom.jac Polynom.set_jac Polynom.x].
  split; [rewrite !length_zip_with, length_replicate; lia|].
  intros n a b c e Ha Hb Hc He.
  assert (Hn : (n < length (Polynom.x st))%nat).
  { rewrite <- Hl1. apply lookup_lt_is_Some. eauto. }
  rewrite !lookup_zip_with, Ha, Hb, Hc, He, lookup_replicate_2 by exact Hn.
  reflexivity.
Qed.

Lemma unit_rescale t : (2 * t - (1 + -1)) / (1 - -1) = t.
Proof. field. Qed.

(** X24: for degrees 1 to 5 a [Polynom] and a Polynomial-basis [Poly]
    with the limits -1, 1 on both axes, built on the same N >= 1 positions
    and coefficient vectors, agree: [tranpos] of both gives the same
    transformed positions, and [Polynom.getjacobian] gives the Jacobian
    that [Poly] holds. *)
Theorem Polynom_agrees_with_Poly other d posxy cov px py v deg :
  posxy <> [] -> (1 <= d <= 5)%nat ->
  length px = ncoeffs d -> length py = ncoeffs d ->
  exists P P' Q Q',
    Poly.init other (map fst posxy) (map snd posxy) cov px py (Some Polynomial) v
      (Some (-1)) (Some 1) (Some (-1)) (Some 1) false = Done P /\
    Poly.tranpos other P = Done P' /\
    Polynom.tranpos (Polynom.init posxy cov px py deg) = Done Q /\
    Polynom.getjacobian Q = Done Q' /\
    Poly.xtran P' = Polynom.xtran Q /\ Poly.ytran P' = Polynom.ytran Q /\
    Poly.jac P = Polynom.jac Q'.
Proof.
  intros Hne [Hd1 Hd5] Hpx Hpy.
  set (X := map fst posxy). set (Y := map snd posxy).
  assert (HXY : length X = length Y) by (unfold X, Y; rewrite !length_map; reflexivity).
  assert (HX : X <> []) by (unfold X; destruct posxy; [congruence|discriminate]).
  destruct (Poly_init_Polynomial other d X Y cov px py v
              (Some (-1)) (Some 1) (Some (-1)) (Some 1) HXY Hpx Hpy)
    as (P & HP & Hwf & Hx & Hy & _ & _ & Hix & Hiy & Hxmin & Hxmax & Hymin & Hymax
        & Hresc & Hxr & Hfresh).
  cbn [Poly.setdomain1] in Hxmin, Hxmax, Hymin, Hymax.
  destruct (Hfresh HX) as (Hidem & Hev & Hlj & Hjac).
  (* positions *)
  assert (Hprop : Poly.propxy other P X Y =
                  Ok (zip_with (flatpoly d px) X Y, zip_with (flatpoly d py) X Y)).
  { rewrite (propxy_zip other d) by assumption.
    rewrite Hxmin, Hxmax, Hymin, Hymax.
    f_equal. f_equal.
    - apply zip_with_ext; try reflexivity. intros x y. rewrite !unit_rescale.
      apply (polyval2d1_flatpoly d px v); assumption.
    - apply zip_with_ext; try reflexivity. intros x y. rewrite !unit_rescale.
      apply (polyval2d1_flatpoly d py v); assumption. }
  set (S0 := Polynom.init posxy cov px py deg).
  assert (HS0 : length (Polynom.x S0) = length (Polynom.y S0)) by exact HXY.
  pose proof (polyval2d_flatpoly S0 px d HS0 Hd5 Hpx) as Hvx.
  pose proof (polyval2d_flatpoly S0 py d HS0 Hd5 Hpy) as Hvy.
  destruct (jac2d_gradient_exact S0 px d HS0 Hd5 Hpx) as (zx & zy & Hjx & Hl1 & Hl2 & HDx).
  destruct (jac2d_gradient_exact S0 py d HS0 Hd5 Hpy) as (wx & wy & Hjy & Hl3 & Hl4 & HDy).
  set (Q := Polynom.set_ytran (zip_with (flatpoly d py) X Y)
              (Polynom.set_xtran (zip_with (flatpoly d px) X Y) S0)).
  destruct (getjacobian_Done Q zx zy wx wy Hjx Hjy Hl1 Hl2 Hl3 Hl4)
    as (Q' & HQ' & HlQ & HQn).
  exists P, (Poly.set_tran (zip_with (flatpoly d px) X Y) (zip_with (flatpoly d py) X Y) P),
         Q, Q'.
  split; [exact HP|].
  split; [unfold Poly.tranpos; rewrite Hx, Hy, Hprop; reflexivity|].
  split.
  { unfold Polynom.tranpos.
    change (Polynom.parsx S0) with px. rewrite Hvx.
    change (Polynom.polyval2d (Polynom.set_xtran _ S0) (Polynom.parsy _))
      with (Polynom.polyval2d S0 py).
    rewrite Hvy. reflexivity. }
  split; [exact HQ'|].
  split; [reflexivity|]. split; [reflexivity|].
  (* Jacobians, by uniqueness of the derivative *)
  assert (HlP : length (Poly.jac P) = length X).
  { rewrite Hjac, length_map. exact Hlj. }
  apply list_eq. intros n.
  destruct (X !! n) as [u|] eqn:Hu.
  2:{ apply lookup_ge_None_1 in Hu.
      rewrite (lookup_ge_None_2 (Poly.jac P)) by lia.
      symmetry. apply lookup_ge_None_2. rewrite HlQ. exact Hu. }
  assert (Hn : (n < length X)%nat) by (apply lookup_lt_is_Some; eauto).
  destruct (lookup_lt_is_Some_2 Y n) as [w Hw]; [lia|].
  destruct (lookup_lt_is_Some_2 (Poly.jac P) n) as [Jn HJn]; [lia|].
  destruct (lookup_lt_is_Some_2 zx n) as [a Ha]; [rewrite Hl1; exact Hn|].
  destruct (lookup_lt_is_Some_2 zy n) as [b Hb]; [rewrite Hl2; exact Hn|].
  destruct (lookup_lt_is_Some_2 wx n) as [c He]; [rewrite Hl3; exact Hn|].
  destruct (lookup_lt_is_Some_2 wy n) as [e Hf]; [rewrite Hl4; exact Hn|].
  rewrite (HQn n a b c e Ha Hb He Hf), HJn. f_equal.
  assert (Hxr' : (Poly.xr P, Poly.yr P) = Poly.rescalexy P (Poly.x P) (Poly.y P))
    by (rewrite Hx, Hy; exact Hxr).
  assert (Hu' : Poly.x P !! n = Some u) by (rewrite Hx; exact Hu).
  assert (Hw' : Poly.y P !! n = Some w) by (rewrite Hy; exact Hw).
  destruct (Poly_jac_partials other d P n u w Jn Hwf Hidem Hev Hjac Hresc Hxr' Hu' Hw' HJn)
    as (P00 & P11 & Poff).
  destruct Poff as [P01 P10]; [rewrite Hxmin, Hxmax, Hymin, Hymax; reflexivity|].
  destruct (HDx n u w a b Hu Hw Ha Hb) as [Dxa Dxb].
  destruct (HDy n u w c e Hu Hw He Hf) as [Dyc Dye].
  assert (Fx : forall s t, propxy_x other P s t = flatpoly d px s t).
  { intros s t. rewrite (propxy_x_at other d) by exact Hwf.
    rewrite Hxmin, Hxmax, Hymin, Hymax, !unit_rescale.
    apply (polyval2d1_flatpoly d px v); assumption. }
  assert (Fy : forall s t, propxy_y other P s t = flatpoly d py s t).
  { intros s t. rewrite (propxy_y_at other d) by exact Hwf.
    rewrite Hxmin, Hxmax, Hymin, Hymax, !unit_rescale.
    apply (polyval2d1_flatpoly d py v); assumption. }
  assert (E00 : m00 Jn = a).
  { apply (uniqueness_limite (fun t => flatpoly d px t w) u); [|exact Dxa].
    apply (D_ext (fun t => propxy_x other P t w)); [intros; apply Fx|exact P00]. }
  assert (E01 : m01 Jn = b).
  { apply (uniqueness_limite (fun t => flatpoly d px u t) w); [|exact Dxb].
    apply (D_ext (fun t => propxy_x other P u t)); [intros; apply Fx|exact P01]. }
  assert (E10 : m10 Jn = c).
  { apply (uniqueness_limite (fun t => flatpoly d py t w) u); [|exact Dyc].
    apply (D_ext (fun t => propxy_y other P t w)); [intros; apply Fy|exact P10]. }
  assert (E11 : m11 Jn = e).
  { apply (uniqueness_limite (fun t => flatpoly d py u t) w); [|exact Dye].
    apply (D_ext (fun t => propxy_y other P u t)); [intros; apply Fy|exact P11]. }
  destruct Jn as [j00 j01 j10 j11]. cbn [m00 m01 m10 m11] in *. congruence.
Qed.

Lemma Polynom_agrees_with_Poly_witness :
  exists P P' Q,
    Poly.init polynomial_only [2] [3] [] [1; 10; 100] [4; 5; 6] (Some Polynomial) false
      (Some (-1)) (Some 1) (Some (-1)) (Some 1) false = Done P /\
    Poly.tranpos polynomial_only P = Done P' /\
    Polynom.tranpos (Polynom.init [(2, 3)] [] [1; 10; 100] [4; 5; 6] true) = Done Q /\
    Poly.xtran P' = Polynom.xtran Q.
Proof.
  assert (Hne : [(2, 3)] <> ([] : list (R * R))) by discriminate.
  assert (Hd : (1 <= 1 <= 5)%nat) by lia.
  destruct (Polynom_agrees_with_Poly polynomial_only 1 [(2, 3)] [] [1; 10; 100] [4; 5; 6]
              false true Hne Hd eq_refl eq_refl)
    as (P & P' & Q & Q' & HP & HP' & HQ & _ & Hx & _).
  exists P, P', Q. repeat split; assumption.
Defined.

(** ** Sky and the gnomonic transforms that replaced it *)

Lemma per_degree (a : R) : a / (PI / 180) = np_degrees a.
Proof. unfold np_degrees. field. apply PI_neq0. Qed.

Lemma radians_degrees (a : R) : np_radians (np_degrees a) = a.
Proof. unfold np_radians, np_degrees. field. apply PI_neq0. Qed.

Lemma degrees_radians (a : R) : np_degrees (np_radians a) = a.
Proof. unfold np_radians, np_degrees. field. apply PI_neq0. Qed.

Lemma zip_columns {A B : Type} (l : list (A * B)) : zip (map fst l) (map snd l) = l.
Proof.
  induction l as [|[a b] l IH]; [reflexivity|]. cbn [map zip_with fst snd].
  f_equal. exact IH.
Qed.

Lemma Tan2equ_propxy_rows T a0 d0 (rows : list (R * R)) :
  Tan2equ.pars T !! 0%nat = Some a0 -> Tan2equ.pars T !! 1%nat = Some d0 ->
  Tan2equ.propxy T (map fst rows) (map snd rows) =
  Ok (map (fun row => fst (Tan2equ.propxy1 (a0 * Tan2equ.conv2rad T)
                             (d0 * Tan2equ.conv2rad T)
                             (fst row * Tan2equ.conv2rad T)
                             (snd row * Tan2equ.conv2rad T)) / Tan2equ.conv2rad T) rows,
      map (fun row => snd (Tan2equ.propxy1 (a0 * Tan2equ.conv2rad T)
                             (d0 * Tan2equ.conv2rad T)
                             (fst row * Tan2equ.conv2rad T)
                             (snd row * Tan2equ.conv2rad T)) / Tan2equ.conv2rad T) rows).
Proof.
  intros H0 H1. unfold Tan2equ.propxy.
  destruct rows as [|r rows]; [reflexivity|].
  cbn [map length Nat.ltb Nat.leb orb].
  rewrite broadcast2_same by (cbn [length]; rewrite !length_map; reflexivity).
  rewrite (index_lookup _ _ _ H0), (index_lookup _ _ _ H1). cbn [rbind].
  change (zip (fst r :: map fst rows) (snd r :: map snd rows))
    with (zip (map fst (r :: rows)) (map snd (r :: rows))).
  rewrite zip_columns, !map_map. reflexivity.
Qed.

Lemma Equ2tan_propxy_rows E a0 d0 (rows : list (R * R)) :
  Equ2tan.pars E !! 0%nat = Some a0 -> Equ2tan.pars E !! 1%nat = Some d0 ->
  Equ2tan.propxy E (map fst rows) (map snd rows) =
  Ok (map (fun row => fst (Equ2tan.propxy1 (a0 * Equ2tan.conv2rad E)
                             (d0 * Equ2tan.conv2rad E)
                             (fst row * Equ2tan.conv2rad E)
                             (snd row * Equ2tan.conv2rad E)) / Equ2tan.conv2rad E) rows,
      map (fun row => snd (Equ2tan.propxy1 (a0 * Equ2tan.conv2rad E)
                             (d0 * Equ2tan.conv2rad E)
                             (fst row * Equ2tan.conv2rad E)
                             (snd row * Equ2tan.conv2rad E)) / Equ2tan.conv2rad E) rows).
Proof.
  intros H0 H1. unfold Equ2tan.propxy.
  destruct rows as [|r rows]; [reflexivity|].
  cbn [map length Nat.ltb Nat.leb orb].
  rewrite broadcast2_same by (cbn [length]; rewrite !length_map; reflexivity).
  rewrite (index_lookup _ _ _ H0), (index_lookup _ _ _ H1). cbn [rbind].
  change (zip (fst r :: map fst rows) (snd r :: map snd rows))
    with (zip (map fst (r :: rows)) (map snd (r :: rows))).
  rewrite zip_columns, !map_map. reflexivity.
Qed.

Lemma columns_Ok (pos : list (R * R)) : pos <> [] -> Sky.columns pos = Ok pos.
Proof. destruct pos; [congruence|reflexivity]. Qed.

(** X25: Sky is the gnomonic pair in degrees.  With the same tangent
    point and at least one position, [Sky.tan2sky] and [Sky.jac2sky] return
    what [Tan2equ.propxy] and [Tan2equ.evaluatejac] return on the columns
    of [postan] with the conversion factor pi/180, and [Sky.sky2tan] and
    [Sky.jac2tan] return what [Equ2tan.propxy] and [Equ2tan.evaluatejac]
    return on the columns of [possky]. *)
Theorem Sky_agrees_with_gnomonic st T E a0 d0 :
  Sky.tpoint st = [a0; d0] ->
  Tan2equ.pars T = [a0; d0] -> Tan2equ.conv2rad T = PI / 180 ->
  Equ2tan.pars E = [a0; d0] -> Equ2tan.conv2rad E = PI / 180 ->
  (Sky.postan st <> [] ->
   exists s1 s2,
     Sky.tan2sky st = Done s1 /\
     Tan2equ.propxy T (map fst (Sky.postan st)) (map snd (Sky.postan st)) =
       Ok (map fst (Sky.possky s1), map snd (Sky.possky s1)) /\
     Sky.jac2sky st = Done s2 /\
     Tan2equ.evaluatejac T (map fst (Sky.postan st)) (map snd (Sky.postan st)) =
       Ok (Sky.j2sky s2)) /\
  (Sky.possky st <> [] ->
   exists s3 s4,
     Sky.sky2tan st = Done s3 /\
     Equ2tan.propxy E (map fst (Sky.possky st)) (map snd (Sky.possky st)) =
       Ok (map fst (Sky.postan s3), map snd (Sky.postan s3)) /\
     Sky.jac2tan st = Done s4 /\
     Equ2tan.evaluatejac E (map fst (Sky.possky st)) (map snd (Sky.possky st)) =
       Ok (Sky.j2tan s4)).
Proof.
  intros Htp HT HcT HE HcE.
  unfold Sky.tan2sky, Sky.jac2sky, Sky.sky2tan, Sky.jac2tan.
  rewrite Htp. cbn [index lookup list_lookup].
  split.
  - intros Hne. destruct (Sky.postan st) as [|r rows] eqn:Hrows; [congruence|].
    cbn [Sky.columns]. do 2 eexists.
    split; [reflexivity|]. split.
    { rewrite (Tan2equ_propxy_rows T a0 d0) by (rewrite HT; reflexivity).
      cbn [Sky.possky Sky.set_possky]. rewrite !map_map, HcT. cbn [fst snd].
      f_equal; f_equal; apply map_ext; intros [x y]; cbn [fst snd];
        rewrite per_degree; reflexivity. }
    split; [reflexivity|].
    rewrite (Tan2equ_evaluatejac_zip T a0 d0)
      by (rewrite ?HT; try reflexivity; rewrite !length_map; reflexivity).
    rewrite zip_columns, HcT. reflexivity.
  - intros Hne. destruct (Sky.possky st) as [|r rows] eqn:Hrows; [congruence|].
    cbn [Sky.columns]. do 2 eexists.
    split; [reflexivity|]. split.
    { rewrite (Equ2tan_propxy_rows E a0 d0) by (rewrite HE; reflexivity).
      cbn [Sky.postan Sky.set_postan]. rewrite !map_map, HcE. cbn [fst snd].
      f_equal; f_equal; apply map_ext; intros [x y]; cbn [fst snd];
        rewrite per_degree; reflexivity. }
    split; [reflexivity|].
    rewrite (Equ2tan_evaluatejac_zip E a0 d0)
      by (rewrite ?HE; try reflexivity; rewrite !length_map; reflexivity).
    rewrite zip_columns, HcE. reflexivity.
Qed.

Lemma Sky_agrees_with_gnomonic_witness :
  exists s1,
    Sky.tan2sky (Sky.init [] [] [10; 20] [(0, 0)] []) = Done s1 /\
    Tan2equ.propxy (Tan2equ.mk [] [] [] [10; 20] false true (PI / 180) [] [] []) [0] [0] =
      Ok (map fst (Sky.possky s1), map snd (Sky.possky s1)).
Proof.
  destruct (Sky_agrees_with_gnomonic (Sky.init [] [] [10; 20] [(0, 0)] [])
              (Tan2equ.mk [] [] [] [10; 20] false true (PI / 180) [] [] [])
              (Equ2tan.mk [] [] [] [10; 20] false true (PI / 180) [] [] [])
              10 20 eq_refl eq_refl eq_refl eq_refl eq_refl)
    as (Htan & _).
  destruct Htan as (s1 & _ & H1 & H2 & _); [discriminate|].
  exists s1. split; [exact H1|exact H2].
Defined.

(** X26: [Sky.sky2tan] followed by [Sky.tan2sky] gives back the sky
    positions, for one or more positions within 90 degrees of the tangent
    point in right ascension, strictly between the poles and on the
    hemisphere of the tangent point; [postan] has one row per sky
    position. *)
Theorem Sky_roundtrip st a0 d0 :
  Sky.tpoint st = [a0; d0] ->
  Sky.possky st <> [] ->
  Forall (fun row => gnomonic_range (np_radians a0) (np_radians d0)
                                    (np_radians (fst row)) (np_radians (snd row)))
         (Sky.possky st) ->
  exists s1 s2,
    Sky.sky2tan st = Done s1 /\ Sky.tan2sky s1 = Done s2 /\
    Sky.possky s2 = Sky.possky st /\ Sky.postan s2 = Sky.postan s1 /\
    length (Sky.postan s1) = length (Sky.possky st).
Proof.
  intros Htp Hne Hrange.
  unfold Sky.sky2tan. rewrite Htp. cbn [index lookup list_lookup].
  rewrite (columns_Ok _ Hne).
  eexists. eexists. split; [reflexivity|].
  unfold Sky.tan2sky. cbn [Sky.tpoint Sky.set_postan Sky.postan].
  rewrite columns_Ok by (destruct (Sky.possky st); [congruence|discriminate]).
  rewrite Htp. cbn [index lookup list_lookup].
  split; [reflexivity|].
  cbn [Sky.possky Sky.set_possky Sky.postan Sky.set_postan].
  split; [|split; [reflexivity|apply length_map]].
  rewrite map_map. rewrite <- (map_id (Sky.possky st)) at 2.
  apply map_ext_Forall. apply (Forall_impl _ _ _ Hrange).
  intros [x y] Hr. cbn [fst snd] in *.
  rewrite !radians_degrees.
  pose proof (gnomonic_roundtrip1 _ _ _ _ Hr) as Hrt.
  set (e := Equ2tan.propxy1 (np_radians a0) (np_radians d0) (np_radians x) (np_radians y))
    in Hrt.
  change ((np_degrees (fst (Tan2equ.propxy1 (np_radians a0) (np_radians d0) (fst e) (snd e))),
           np_degrees (snd (Tan2equ.propxy1 (np_radians a0) (np_radians d0) (fst e) (snd e))))
          = (x, y)).
  rewrite Hrt. cbn [fst snd]. rewrite !degrees_radians. reflexivity.
Qed.

Lemma Sky_roundtrip_witness :
  exists s1 s2,
    Sky.sky2tan (Sky.init [(0, 0)] [] [0; 0] [] []) = Done s1 /\
    Sky.tan2sky s1 = Done s2 /\ Sky.possky s2 = [(0, 0)].
Proof.
  assert (Hr : Forall (fun row => gnomonic_range (np_radians 0) (np_radians 0)
                                    (np_radians (fst row)) (np_radians (snd row)))
                      (Sky.possky (Sky.init [(0, 0)] [] [0; 0] [] []))).
  { constructor; [|constructor]. unfold gnomonic_range, np_radians. cbn [fst snd].
    rewrite !Rmult_0_l, Rminus_0_r, cos_0, sin_0.
    pose proof PI_RGT_0. repeat split; lra. }
  assert (Hne : Sky.possky (Sky.init [(0, 0)] [] [0; 0] [] []) <> [])
    by discriminate.
  destruct (Sky_roundtrip (Sky.init [(0, 0)] [] [0; 0] [] []) 0 0 eq_refl Hne Hr)
    as (s1 & s2 & H1 & H2 & H3 & _).
  exists s1, s2. repeat split; assumption.
Defined.

(** X28: what the four methods of Sky need.  With a tangent point of fewer
    than two entries, or with the empty default for the positions they
    read, [sky2tan] and [jac2tan] (reading [possky]) and [tan2sky] and
    [jac2sky] (reading [postan]) raise IndexError and leave the instance as
    it was.  With two or more entries in [tpoint] and at least one position
    they return, with one output row or plane per position; the positions
    read and the Jacobian of the other direction stay as they were. *)
Theorem Sky_missing_data st :
  ((length (Sky.tpoint st) < 2)%nat \/ Sky.possky st = [] ->
   Sky.sky2tan st = Raised IndexError st /\
   Sky.jac2tan st = Raised IndexError st) /\
  ((length (Sky.tpoint st) < 2)%nat \/ Sky.postan st = [] ->
   Sky.tan2sky st = Raised IndexError st /\
   Sky.jac2sky st = Raised IndexError st) /\
  ((2 <= length (Sky.tpoint st))%nat ->
   (Sky.possky st <> [] ->
    exists s1 s2,
      Sky.sky2tan st = Done s1 /\ Sky.jac2tan st = Done s2 /\
      length (Sky.postan s1) = length (Sky.possky st) /\
      length (Sky.j2tan s2) = length (Sky.possky st) /\
      Sky.possky s1 = Sky.possky st /\ Sky.j2sky s2 = Sky.j2sky st) /\
   (Sky.postan st <> [] ->
    exists s1 s2,
      Sky.tan2sky st = Done s1 /\ Sky.jac2sky st = Done s2 /\
      length (Sky.possky s1) = length (Sky.postan st) /\
      length (Sky.j2sky s2) = length (Sky.postan st) /\
      Sky.postan s1 = Sky.postan st /\ Sky.j2tan s2 = Sky.j2tan st)).
Proof.
  unfold Sky.sky2tan, Sky.jac2tan, Sky.tan2sky, Sky.jac2sky, index.
  destruct (Sky.tpoint st) as [|a0 [|d0 tp]] eqn:Htp; cbn [lookup list_lookup length].
  - split; [|split].
    + intros _. destruct (Sky.possky st); split; reflexivity.
    + intros _. destruct (Sky.postan st); split; reflexivity.
    + intros H. lia.
  - split; [|split].
    + intros _. destruct (Sky.possky st); split; reflexivity.
    + intros _. destruct (Sky.postan st); split; reflexivity.
    + intros H. lia.
  - split; [|split].
    + intros [H| ->]; [lia|]. split; reflexivity.
    + intros [H| ->]; [lia|]. split; reflexivity.
    + intros _. split.
      * intros Hne. destruct (Sky.possky st) as [|r rows] eqn:Hrows; [congruence|].
        cbn [Sky.columns]. do 2 eexists.
        split; [reflexivity|]. split; [reflexivity|].
        cbn [Sky.postan Sky.set_postan Sky.j2tan Sky.set_j2tan Sky.possky
             Sky.j2sky]. rewrite !length_map. rewrite Hrows. repeat split.
      * intros Hne. destruct (Sky.postan st) as [|r rows] eqn:Hrows; [congruence|].
        cbn [Sky.columns]. do 2 eexists.
        split; [reflexivity|]. split; [reflexivity|].
        cbn [Sky.possky Sky.set_possky Sky.j2sky Sky.set_j2sky Sky.postan
             Sky.j2tan]. rewrite !length_map. rewrite Hrows. repeat split.
Qed.

(** ** Positive semidefinite covariances *)

Lemma mat2_psd_sandwich J C :
  mat2_psd C -> mat2_psd (mat2_mul J (mat2_mul C (mat2_transpose J))).
Proof.
  intros [Hs Hq]. split; [apply mat2_sym_sandwich, Hs|].
  intros u v.
  specialize (Hq (m00 J * u + m10 J * v) (m01 J * u + m11 J * v)).
  destruct J, C; simpl in *.
  eapply Rle_trans; [exact Hq|]. apply Req_le. ring.
Qed.

Lemma sandwich_stack_psd J C CJt out :
  Forall mat2_psd C ->
  matmul_stack C (map mat2_transpose J) = Ok CJt ->
  matmul_stack J CJt = Ok out ->
  Forall mat2_psd out.
Proof.
  intros HC H1 H2. apply Forall_lookup. intros k o Hk.
  pose proof (length_matmul_stack _ _ _ H1) as Hl1.
  rewrite length_map in Hl1.
  destruct (matmul_stack_lookup _ _ _ _ _ H2 Hk) as (j & cj & Hj & Hcj & ->).
  destruct (matmul_stack_lookup _ _ _ _ _ H1 Hcj) as (c & jt & Hc & Hjt & ->).
  rewrite lookup_map, length_map in Hjt.
  assert (Hsame : jt = mat2_transpose j).
  { destruct (length J =? 1)%nat eqn:HJ.
    - rewrite Hj in Hjt. simpl in Hjt. congruence.
    - apply Nat.eqb_neq in HJ.
      assert (HJ0 : J <> []) by (intros ->; discriminate).
      assert (Hne : (length CJt =? 1)%nat = false).
      { apply Nat.eqb_neq. destruct J; [congruence|]. simpl in *. lia. }
      rewrite Hne, Hj in Hjt. simpl in Hjt. congruence. }
  subst jt. apply mat2_psd_sandwich.
  rewrite Forall_lookup in HC. eapply HC, Hc.
Qed.

Lemma sandwich_psd J C out :
  Forall mat2_psd C ->
  (let* Jt := transpose_stack J in
   let* CJt := matmul_stack C Jt in
   matmul_stack J CJt) = Ok out ->
  Forall mat2_psd out.
Proof.
  intros HC H.
  destruct (transpose_stack J) as [Jt|] eqn:HJt; [|discriminate].
  apply transpose_stack_Ok in HJt. subst Jt. simpl in H.
  destruct (matmul_stack C (map mat2_transpose J)) as [CJt|] eqn:H1;
    [|discriminate].
  simpl in H. eapply sandwich_stack_psd; eauto.
Qed.

(** X27: covariance propagation keeps covariances valid.  Every plane
    returned by [Poly.propcov], [Tan2equ.propcov] and [Equ2tan.propcov] is
    positive semidefinite when every plane of the input stack is, and the
    three calls return one plane per position for N >= 1 paired positions
    with N covariance planes. *)
Theorem propcov_keeps_psd (other : polykind -> backend)
    (P : Poly.t) (T : Tan2equ.t) (E : Equ2tan.t) (C : list mat2) (vx vy : vec) :
  Forall mat2_psd C ->
  (forall out, Poly.propcov other P C vx vy = Ok out -> Forall mat2_psd out) /\
  (forall out, Tan2equ.propcov T C vx vy = Ok out -> Forall mat2_psd out) /\
  (forall out, Equ2tan.propcov E C vx vy = Ok out -> Forall mat2_psd out) /\
  ((0 < length vx)%nat -> length vx = length vy -> length C = length vx ->
   (forall d, Poly_wf d P -> Poly.setderivcoeffs other P = P ->
      exists out, Poly.propcov other P C vx vy = Ok out /\ length out = length vx) /\
   ((0 < length (Tan2equ.x T))%nat -> length (Tan2equ.pars T) = 2%nat ->
      exists out, Tan2equ.propcov T C vx vy = Ok out /\ length out = length vx) /\
   (length (Equ2tan.pars E) = 2%nat ->
      exists out, Equ2tan.propcov E C vx vy = Ok out /\ length out = length vx)).
Proof.
  intros HC. split; [|split; [|split]].
  - intros out H. unfold Poly.propcov in H.
    destruct (Poly.rescalexy P vx vy) as [vxr vyr].
    destruct (Poly.evaluatejacpoly other P vxr vyr) as [Jpoly|]; [|discriminate].
    simpl in H.
    destruct (matmul_left (Poly.jacrescale P) Jpoly) as [J|]; [|discriminate].
    simpl in H. eapply sandwich_psd; eauto.
  - intros out H. unfold Tan2equ.propcov in H.
    destruct (_ || _).
    + apply Ok_inj in H. subst out. constructor.
    + destruct (Tan2equ.evaluatejac T vx vy) as [J|]; [|discriminate].
      simpl in H. eapply sandwich_psd; eauto.
  - intros out H. unfold Equ2tan.propcov in H.
    destruct (_ || _).
    + apply Ok_inj in H. subst out. constructor.
    + destruct (Equ2tan.evaluatejac E vx vy) as [J|]; [|discriminate].
      simpl in H. eapply sandwich_psd; eauto.
  - intros Hn Hl HlC. split; [|split].
    + intros d Hwf Hfix. eapply Poly_propcov_defined; eauto.
    + intros Hx Hp. apply Tan2equ_propcov_defined; assumption.
    + intros Hp. apply Equ2tan_propcov_defined; assumption.
Qed.

Lemma propcov_keeps_psd_witness :
  Forall mat2_psd [M2 1 (1 / 5) (1 / 5) 2] /\
  exists out,
    Equ2tan.propcov example_equ2tan [M2 1 (1 / 5) (1 / 5) 2] [0] [0] = Ok out /\
    Forall mat2_psd out.
Proof.
  assert (HC : Forall mat2_psd [M2 1 (1 / 5) (1 / 5) 2]).
  { constructor; [|constructor]. split; [reflexivity|].
    intros u v. simpl. nra. }
  split; [exact HC|].
  destruct (propcov_keeps_psd polynomial_only (example_poly polynomial_only)
              example_tan2equ example_equ2tan [M2 1 (1 / 5) (1 / 5) 2] [0] [0] HC)
    as (_ & _ & Hpsd & Hdef).
  destruct Hdef as (_ & _ & HE); [simpl; lia|reflexivity|reflexivity|].
  destruct HE as (out & Hout & _); [reflexivity|].
  exists out. split; [exact Hout|]. apply Hpsd, Hout.
Defined.

(** ** Splitting one coefficient vector *)

Lemma checkparsxy_app (px py vparsy : vec) :
  length px = length py -> Poly.checkparsxy (px ++ py) vparsy = (px, py).
Proof.
  intros Hlen. unfold Poly.checkparsxy. rewrite length_app, <- Hlen.
  replace (length px + length px)%nat with (length px * 2)%nat by lia.
  rewrite Nat.Div0.mod_mul, Nat.div_mul by lia.
  cbn [Nat.ltb Nat.leb].
  rewrite take_app_length, drop_app_length. reflexivity.
Qed.

(** X29: [Poly(..., parsx=hstack((px, py)), checkparsy=True)] with [px]
    and [py] of equal length is [Poly(..., parsx=px, parsy=py)], whatever
    was passed as [parsy]: [checkparsxy] splits an even-sized [parsx] and
    overwrites [parsy] without looking at it.  An odd-sized [parsx] is left
    alone, and [checkparsy] makes no difference. *)
Theorem checkparsy_splits_parsx (other : polykind -> backend)
    (vx vy : vec) (vcov : list mat2) (px py vparsy : vec)
    (kindpoly : option polykind) (verbose : bool)
    (oxmin oxmax oymin oymax : option R) :
  length px = length py ->
  Poly.init other vx vy vcov (px ++ py) vparsy kindpoly verbose
            oxmin oxmax oymin oymax true =
  Poly.init other vx vy vcov px py kindpoly verbose
            oxmin oxmax oymin oymax false /\
  (forall odd : vec, (length odd mod 2 = 1)%nat ->
     Poly.init other vx vy vcov odd vparsy kindpoly verbose
               oxmin oxmax oymin oymax true =
     Poly.init other vx vy vcov odd vparsy kindpoly verbose
               oxmin oxmax oymin oymax false).
Proof.
  intros Hlen. split.
  - unfold Poly.init. rewrite (checkparsxy_app px py vparsy Hlen). reflexivity.
  - intros odd Hodd. unfold Poly.init, Poly.checkparsxy. rewrite Hodd.
    reflexivity.
Qed.

Lemma checkparsy_splits_parsx_witness :
  Poly.init polynomial_only [0; 1] [0; 2] [] ([1; 2; 3] ++ [4; 5; 6]) [7; 8; 9]
            (Some Polynomial) false None None None None true =
  Poly.init polynomial_only [0; 1] [0; 2] [] [1; 2; 3] [4; 5; 6]
            (Some Polynomial) false None None None None false.
Proof.
  exact (proj1 (checkparsy_splits_parsx polynomial_only [0; 1] [0; 2] []
                  [1; 2; 3] [4; 5; 6] [7; 8; 9] (Some Polynomial) false
                  None None None None eq_refl)).
Defined.

(** ** The gnomonic transforms: a new tangent point *)

(** [evaluatejac] reads the tangent point and the unit of the instance,
    nothing else. *)
Lemma Tan2equ_evaluatejac_reads s1 s2 vx vy :
  Tan2equ.pars s1 = Tan2equ.pars s2 ->
  Tan2equ.conv2rad s1 = Tan2equ.conv2rad s2 ->
  Tan2equ.evaluatejac s1 vx vy = Tan2equ.evaluatejac s2 vx vy.
Proof. intros Hp Hc. unfold Tan2equ.evaluatejac. rewrite Hp, Hc. reflexivity. Qed.

Lemma Equ2tan_evaluatejac_reads s1 s2 vx vy :
  Equ2tan.pars s1 = Equ2tan.pars s2 ->
  Equ2tan.conv2rad s1 = Equ2tan.conv2rad s2 ->
  Equ2tan.evaluatejac s1 vx vy = Equ2tan.evaluatejac s2 vx vy.
Proof. intros Hp Hc. unfold Equ2tan.evaluatejac. rewrite Hp, Hc. reflexivity. Qed.

(** Positions that numpy cannot combine, or whose combination does not fit
    the [x.size] planes of the Jacobian. *)
Lemma broadcast2_unpaired (vx vy : vec) :
  (0 < length vx)%nat -> (0 < length vy)%nat ->
  length vx <> length vy -> length vy <> 1%nat ->
  (let* pts := broadcast2 vx vy in
   if (length pts =? length vx)%nat then Ok pts else Err ValueError)
  = Err ValueError.
Proof.
  intros Hx Hy Hne H1. unfold broadcast2.
  apply Nat.eqb_neq in Hne. rewrite Hne. apply Nat.eqb_neq in Hne.
  destruct vx as [|x0 [|x1 vx]]; [simpl in Hx; lia| |].
  - cbn [rbind]. rewrite length_map.
    destruct (length vy =? length [x0])%nat eqn:E; [|reflexivity].
    apply Nat.eqb_eq in E. simpl in *. lia.
  - destruct vy as [|y0 [|y1 vy]]; [simpl in Hy; lia|simpl in H1; lia|reflexivity].
Qed.

Lemma Tan2equ_updatetransf_fields pars T :
  length pars = 2%nat ->
  let T' := state_of (Tan2equ.updatetransf pars T) in
  (Tan2equ.pars T' = pars /\ Tan2equ.x T' = Tan2equ.x T /\
   Tan2equ.y T' = Tan2equ.y T /\ Tan2equ.covxy T' = Tan2equ.covxy T /\
   Tan2equ.conv2rad T' = Tan2equ.conv2rad T /\
   Tan2equ.xtran T' = Tan2equ.xtran T /\ Tan2equ.ytran T' = Tan2equ.ytran T) /\
  (forall J, Tan2equ.evaluatejac T' (Tan2equ.x T) (Tan2equ.y T) = Ok J ->
     Tan2equ.updatetransf pars T = Done T' /\ Tan2equ.jac T' = J) /\
  (forall e, Tan2equ.evaluatejac T' (Tan2equ.x T) (Tan2equ.y T) = Err e ->
     Tan2equ.updatetransf pars T = Raised e T' /\ Tan2equ.jac T' = Tan2equ.jac T).
Proof.
  intros Hp. cbv zeta.
  unfold Tan2equ.updatetransf, Tan2equ.setjacobian.
  rewrite Hp. cbn [Nat.eqb negb].
  change (Tan2equ.x (Tan2equ.set_pars pars T)) with (Tan2equ.x T).
  change (Tan2equ.y (Tan2equ.set_pars pars T)) with (Tan2equ.y T).
  destruct (Tan2equ.evaluatejac (Tan2equ.set_pars pars T) (Tan2equ.x T) (Tan2equ.y T))
    as [J|e] eqn:HJ; cbn [state_of].
  - split; [repeat split|].
    rewrite (Tan2equ_evaluatejac_reads _ (Tan2equ.set_pars pars T)), HJ
      by reflexivity.
    split; [|intros e He; discriminate].
    intros J' HJ'. apply Ok_inj in HJ'. subst J'. split; reflexivity.
  - split; [repeat split|]. rewrite HJ.
    split; [intros J' HJ'; discriminate|].
    intros e' He. injection He as <-. split; reflexivity.
Qed.

Lemma Equ2tan_updatetransf_fields pars E :
  length pars = 2%nat ->
  let E' := state_of (Equ2tan.updatetransf pars E) in
  (Equ2tan.pars E' = pars /\ Equ2tan.x E' = Equ2tan.x E /\
   Equ2tan.y E' = Equ2tan.y E /\ Equ2tan.covxy E' = Equ2tan.covxy E /\
   Equ2tan.conv2rad E' = Equ2tan.conv2rad E /\
   Equ2tan.xtran E' = Equ2tan.xtran E /\ Equ2tan.ytran E' = Equ2tan.ytran E) /\
  (forall J, Equ2tan.evaluatejac E' (Equ2tan.x E) (Equ2tan.y E) = Ok J ->
     Equ2tan.updatetransf pars E = Done E' /\ Equ2tan.jac E' = J) /\
  (forall e, Equ2tan.evaluatejac E' (Equ2tan.x E) (Equ2tan.y E) = Err e ->
     Equ2tan.updatetransf pars E = Raised e E' /\ Equ2tan.jac E' = Equ2tan.jac E).
Proof.
  intros Hp. cbv zeta.
  unfold Equ2tan.updatetransf, Equ2tan.setjacobian.
  rewrite Hp. cbn [Nat.eqb negb].
  change (Equ2tan.x (Equ2tan.set_pars pars E)) with (Equ2tan.x E).
  change (Equ2tan.y (Equ2tan.set_pars pars E)) with (Equ2tan.y E).
  destruct (Equ2tan.evaluatejac (Equ2tan.set_pars pars E) (Equ2tan.x E) (Equ2tan.y E))
    as [J|e] eqn:HJ; cbn [state_of].
  - split; [repeat split|].
    rewrite (Equ2tan_evaluatejac_reads _ (Equ2tan.set_pars pars E)), HJ
      by reflexivity.
    split; [|intros e He; discriminate].
    intros J' HJ'. apply Ok_inj in HJ'. subst J'. split; reflexivity.
  - split; [repeat split|]. rewrite HJ.
    split; [intros J' HJ'; discriminate|].
    intros e' He. injection He as <-. split; reflexivity.
Qed.

(** The Jacobian of an instance with tangent point (a0, d0), at paired
    positions and at positions that cannot be combined. *)
Lemma Tan2equ_evaluatejac_unpaired T a0 d0 vx vy :
  Tan2equ.pars T = [a0; d0] ->
  (0 < length vx)%nat -> (0 < length vy)%nat ->
  length vx <> length vy -> length vy <> 1%nat ->
  Tan2equ.evaluatejac T vx vy = Err ValueError.
Proof.
  intros Hp Hx Hy Hne H1. unfold Tan2equ.evaluatejac.
  replace (length vx <? 1)%nat with false by (symmetry; apply Nat.ltb_ge; lia).
  replace (length vy <? 1)%nat with false by (symmetry; apply Nat.ltb_ge; lia).
  rewrite Hp. cbn [orb index lookup list_lookup rbind].
  pose proof (broadcast2_unpaired vx vy Hx Hy Hne H1) as Hb.
  destruct (broadcast2 vx vy) as [pts|e]; cbn [rbind] in *.
  - destruct (length pts =? length vx)%nat; [discriminate|reflexivity].
  - injection Hb as ->. reflexivity.
Qed.

Lemma Equ2tan_evaluatejac_unpaired E a0 d0 vx vy :
  Equ2tan.pars E = [a0; d0] ->
  (0 < length vx)%nat -> (0 < length vy)%nat ->
  length vx <> length vy -> length vy <> 1%nat ->
  Equ2tan.evaluatejac E vx vy = Err ValueError.
Proof.
  intros Hp Hx Hy Hne H1. unfold Equ2tan.evaluatejac.
  replace (length vx <? 1)%nat with false by (symmetry; apply Nat.ltb_ge; lia).
  replace (length vy <? 1)%nat with false by (symmetry; apply Nat.ltb_ge; lia).
  rewrite Hp. cbn [orb index lookup list_lookup rbind].
  pose proof (broadcast2_unpaired vx vy Hx Hy Hne H1) as Hb.
  destruct (broadcast2 vx vy) as [pts|e]; cbn [rbind] in *.
  - destruct (length pts =? length vx)%nat; [discriminate|reflexivity].
  - injection Hb as ->. reflexivity.
Qed.

(** C10: [updatetransf] of [Tan2equ] and of [Equ2tan] returns the instance
    as it was for a parameter array whose size is not 2. For an array of
    size 2 the tangent point [pars] holds the entries of the array
    afterwards and the positions, covariances, unit and transformed
    positions are the old ones, whether the call returns or raises.  With
    positions that come in pairs the call returns and [jac] holds one plane
    per position, evaluated with the new tangent point; more generally it
    returns with [jac] replaced whenever [evaluatejac] returns for the
    instance's positions.  With non-empty [x] and [y] of different sizes
    ([y] not of size one) it raises ValueError and [jac] is the old one.
    Arrays are values here, so the stored tangent point is a copy by
    construction. *)
Theorem gnomonic_updatetransf (T : Tan2equ.t) (E : Equ2tan.t) (pars : vec) :
  (length pars <> 2%nat ->
     Tan2equ.updatetransf pars T = Done T /\
     Equ2tan.updatetransf pars E = Done E) /\
  (forall a0 d0, pars = [a0; d0] ->
     let T' := state_of (Tan2equ.updatetransf pars T) in
     let E' := state_of (Equ2tan.updatetransf pars E) in
     (Tan2equ.pars T' = pars /\ Tan2equ.x T' = Tan2equ.x T /\
      Tan2equ.y T' = Tan2equ.y T /\ Tan2equ.covxy T' = Tan2equ.covxy T /\
      Tan2equ.conv2rad T' = Tan2equ.conv2rad T /\
      Tan2equ.xtran T' = Tan2equ.xtran T /\ Tan2equ.ytran T' = Tan2equ.ytran T) /\
     (Equ2tan.pars E' = pars /\ Equ2tan.x E' = Equ2tan.x E /\
      Equ2tan.y E' = Equ2tan.y E /\ Equ2tan.covxy E' = Equ2tan.covxy E /\
      Equ2tan.conv2rad E' = Equ2tan.conv2rad E /\
      Equ2tan.xtran E' = Equ2tan.xtran E /\ Equ2tan.ytran E' = Equ2tan.ytran E) /\
     (length (Tan2equ.x T) = length (Tan2equ.y T) ->
        Tan2equ.updatetransf pars T = Done T' /\
        Tan2equ.jac T' =
          map (fun pt => Tan2equ.jac1 (d0 * Tan2equ.conv2rad T)
                           (fst pt * Tan2equ.conv2rad T) (snd pt * Tan2equ.conv2rad T))
              (zip (Tan2equ.x T) (Tan2equ.y T))) /\
     (length (Equ2tan.x E) = length (Equ2tan.y E) ->
        Equ2tan.updatetransf pars E = Done E' /\
        Equ2tan.jac E' =
          map (fun pt => Equ2tan.jac1 (a0 * Equ2tan.conv2rad E) (d0 * Equ2tan.conv2rad E)
                           (fst pt * Equ2tan.conv2rad E) (snd pt * Equ2tan.conv2rad E))
              (zip (Equ2tan.x E) (Equ2tan.y E))) /\
     ((0 < length (Tan2equ.x T))%nat -> (0 < length (Tan2equ.y T))%nat ->
      length (Tan2equ.x T) <> length (Tan2equ.y T) -> length (Tan2equ.y T) <> 1%nat ->
        Tan2equ.updatetransf pars T = Raised ValueError T' /\
        Tan2equ.jac T' = Tan2equ.jac T) /\
     ((0 < length (Equ2tan.x E))%nat -> (0 < length (Equ2tan.y E))%nat ->
      length (Equ2tan.x E) <> length (Equ2tan.y E) -> length (Equ2tan.y E) <> 1%nat ->
        Equ2tan.updatetransf pars E = Raised ValueError E' /\
        Equ2tan.jac E' = Equ2tan.jac E) /\
     (forall J, Tan2equ.evaluatejac T' (Tan2equ.x T) (Tan2equ.y T) = Ok J ->
        Tan2equ.updatetransf pars T = Done T' /\ Tan2equ.jac T' = J) /\
     (forall J, Equ2tan.evaluatejac E' (Equ2tan.x E) (Equ2tan.y E) = Ok J ->
        Equ2tan.updatetransf pars E = Done E' /\ Equ2tan.jac E' = J)).
Proof.
  split.
  - intros H. split.
    + apply Tan2equ_updatetransf_other, H.
    + apply Equ2tan_updatetransf_other, H.
  - intros a0 d0 Hpars.
    assert (Hl : length pars = 2%nat) by (rewrite Hpars; reflexivity).
    destruct (Tan2equ_updatetransf_fields pars T Hl) as (HfT & HJT & HeT).
    destruct (Equ2tan_updatetransf_fields pars E Hl) as (HfE & HJE & HeE).
    cbv zeta in *.
    set (T' := state_of (Tan2equ.updatetransf pars T)) in *.
    set (E' := state_of (Equ2tan.updatetransf pars E)) in *.
    assert (HpT : Tan2equ.pars T' = [a0; d0]) by (rewrite <- Hpars; apply HfT).
    assert (HpE : Equ2tan.pars E' = [a0; d0]) by (rewrite <- Hpars; apply HfE).
    assert (HcT : Tan2equ.conv2rad T' = Tan2equ.conv2rad T) by apply HfT.
    assert (HcE : Equ2tan.conv2rad E' = Equ2tan.conv2rad E) by apply HfE.
    split; [exact HfT|]. split; [exact HfE|].
    split; [|split; [|split; [|split; [|split; [exact HJT|exact HJE]]]]].
    + intros Hxy. rewrite <- HcT. apply HJT.
      apply (Tan2equ_evaluatejac_zip T' a0 d0); [rewrite HpT..|]; auto.
    + intros Hxy. rewrite <- HcE. apply HJE.
      apply (Equ2tan_evaluatejac_zip E' a0 d0); [rewrite HpE..|]; auto.
    + intros Hx Hy Hne H1. apply HeT.
      apply (Tan2equ_evaluatejac_unpaired T' a0 d0); assumption.
    + intros Hx Hy Hne H1. apply HeE.
      apply (Equ2tan_evaluatejac_unpaired E' a0 d0); assumption.
Qed.

Lemma gnomonic_updatetransf_witness :
  (Tan2equ.updatetransf [1; 2; 3] example_tan2equ = Done example_tan2equ /\
   Equ2tan.updatetransf [1; 2; 3] example_equ2tan = Done example_equ2tan) /\
  Tan2equ.pars (state_of (Tan2equ.updatetransf [35; 35] example_tan2equ)) = [35; 35] /\
  Tan2equ.updatetransf [35; 35] example_tan2equ =
    Done (state_of (Tan2equ.updatetransf [35; 35] example_tan2equ)) /\
  length (Tan2equ.jac (state_of (Tan2equ.updatetransf [35; 35] example_tan2equ))) = 1%nat.
Proof.
  split.
  - apply (proj1 (gnomonic_updatetransf example_tan2equ example_equ2tan [1; 2; 3])).
    simpl. lia.
  - destruct (proj2 (gnomonic_updatetransf example_tan2equ example_equ2tan [35; 35])
                35 35 eq_refl) as (HfT & _ & HT & _).
    destruct (HT eq_refl) as [Hdone Hjac].
    split; [apply HfT|]. split; [exact Hdone|].
    rewrite Hjac. reflexivity.
Defined.

(** A size-2 vector does not always bring a recomputed Jacobian: after
    [updatedata] with three entries for x and two for y, [updatetransf]
    raises ValueError with the tangent point replaced and the Jacobian of
    the old tangent point and the old positions still in place. *)
Lemma gnomonic_updatetransf_unpaired :
  exists T0 T',
    Tan2equ.init [0; 0; 0] [0; 0; 0] [] [0; 0] false true = Done T0 /\
    Tan2equ.updatetransf [7; 8] (Tan2equ.updatedata [1; 2; 3] [4; 5] [] T0)
      = Raised ValueError T' /\
    Tan2equ.pars T0 = [0; 0] /\ Tan2equ.pars T' = [7; 8] /\
    Tan2equ.x T' = [1; 2; 3] /\ Tan2equ.y T' = [4; 5] /\
    Tan2equ.jac T' = Tan2equ.jac T0 /\ length (Tan2equ.jac T') = 3%nat.
Proof.
  eexists. eexists. split; [reflexivity|]. split; [reflexivity|].
  repeat split.
Qed.
